(** * A shallow embedding of the chess rules engine of [main.go]

    The Go program keeps one mutable [Game] value whose [board] is an
    [[8][8]*ChessPiece] array.  Board cells never alias (every piece is
    allocated once by [createPiece] and afterwards only moved from cell to
    cell), so a cell is modelled as holding the piece value itself, and a
    field update through a piece pointer as an update of the cell that holds
    the piece.

    Go's [int] is modelled as [Z]: every coordinate the program computes lies
    within a few units of the range 0..7, far from the 64-bit limits.  The
    two clocks are [float64] in the source; they are set to a whole number
    of ticks and only ever decremented by one, which [float64] does exactly,
    and are modelled as [Z] too.  The package variable [wallet] is carried
    as a field of the game state.  The state record leaves out the field
    [hustlerName], read only when drawing, and the field [rng], set by
    [NewGame] and never read.  The drawing code and the line that
    [executeMove] prints are modelled on their own, after the rules; so is
    the earlier program that the file ends with.

    Three outcomes of a call are distinguished: a returned value, a run-time
    panic (index out of range, nil dereference), and exhaustion of the
    recursion budget that stands for a call that has not returned. *)

From Stdlib Require Import ZArith Bool List Lia String Sorted.
From stdpp Require Import base option list gmap fin_maps.
From Stdlib Require Import Ascii DecimalString.

Local Open Scope Z_scope.

(** ** Outcomes *)

Inductive res (A : Type) : Type :=
| Ok (a : A)
| Panic
| NoFuel.
Arguments Ok {A} a.
Arguments Panic {A}.
Arguments NoFuel {A}.

#[global] Instance res_ret : MRet res := fun A a => Ok a.
#[global] Instance res_bind : MBind res := fun A B f m =>
  match m with
  | Ok a => f a
  | Panic => Panic
  | NoFuel => NoFuel
  end.

Definition returned {A} (r : res A) : Prop := exists a, r = Ok a.

(** ** Data model (main.go, lines 28-79) *)

Inductive Color : Type := Black | White.

Inductive PieceType : Type := Pawn | Bishop | Rook | Knight | Queen | King.

#[global] Instance Color_eq_dec : EqDecision Color.
Proof. solve_decision. Defined.
#[global] Instance PieceType_eq_dec : EqDecision PieceType.
Proof. solve_decision. Defined.

(** [1 - c] on the two colour constants. *)
Definition opp (c : Color) : Color :=
  match c with Black => White | White => Black end.

(** The integer behind a colour constant ([Black = iota = 0], [White = 1]). *)
Definition colorCode (c : Color) : Z :=
  match c with Black => 0 | White => 1 end.

(** The integer behind a piece type constant. *)
Definition typeCode (t : PieceType) : Z :=
  match t with
  | Pawn => 0 | Bishop => 1 | Rook => 2 | Knight => 3 | Queen => 4 | King => 5
  end.

Definition pieceValues (t : PieceType) : Z :=
  match t with
  | Pawn => 1 | Knight => 3 | Bishop => 3 | Rook => 5 | Queen => 9 | King => 100
  end.

Record ChessPiece : Type := mkPiece {
  pType : PieceType;
  pColor : Color;
  SpriteID : Z;
  HasMoved : bool
}.

#[global] Instance ChessPiece_eq_dec : EqDecision ChessPiece.
Proof. solve_decision. Defined.

(** The board maps [(y, x)], the index pair of [board[y][x]], to the piece in
    that cell; an absent key is a nil cell.  Keys outside 0..7 are never
    read: every access goes through [rd] and [wr] below. *)
Record Game : Type := mkGame {
  board : gmap (Z * Z) ChessPiece;
  selectedX : Z;
  selectedY : Z;
  activeColor : Color;
  currentDialog : string;
  whiteTime : Z;
  blackTime : Z;
  gameOver : bool;
  gameStarted : bool;
  wager : Z;
  initialMins : Z;
  epX : Z;
  epY : Z;
  winner : Z;
  moveCount : Z;
  frankThinkTime : Z;
  promoting : bool;
  promX : Z;
  promY : Z;
  wallet : Z
}.

Definition with_board (g : Game) (b : gmap (Z * Z) ChessPiece) : Game :=
  mkGame b (selectedX g) (selectedY g) (activeColor g) (currentDialog g)
    (whiteTime g) (blackTime g) (gameOver g) (gameStarted g) (wager g)
    (initialMins g) (epX g) (epY g) (winner g) (moveCount g)
    (frankThinkTime g) (promoting g) (promX g) (promY g) (wallet g).

Definition inBoard (i : Z) : bool := (0 <=? i) && (i <=? 7).

(** Reading [g.board[y][x]]: an index outside the array panics. *)
Definition rd (g : Game) (y x : Z) : res (option ChessPiece) :=
  if inBoard y && inBoard x then Ok (board g !! (y, x)) else Panic.

(** Writing [g.board[y][x] = v]. *)
Definition wr (g : Game) (y x : Z) (v : option ChessPiece) : res Game :=
  if inBoard y && inBoard x
  then Ok (with_board g (partial_alter (fun _ => v) (y, x) (board g)))
  else Panic.

(** The indices visited by [for i := 0; i < 8; i++]. *)
Definition idx8 : list Z := [0; 1; 2; 3; 4; 5; 6; 7].

(** A [for] loop over a list of indices whose body either falls through to
    the next iteration with a new state ([inl]) or leaves the enclosing
    function with a result ([inr]).  Nested loops compose: the result of the
    inner loop is the result of the outer body. *)
Fixpoint loop {A S R} (body : A -> S -> res (S + R)) (l : list A) (s : S)
  : res (S + R) :=
  match l with
  | [] => Ok (inl s)
  | a :: l' =>
      r ← body a s;
      match r with
      | inl s' => loop body l' s'
      | inr v => Ok (inr v)
      end
  end.

(** The state after a loop whose body never leaves the function. *)
Definition fellThrough {S} (r : S + Empty_set) : S :=
  match r with
  | inl s => s
  | inr e => match e with end
  end.

(** ** Helpers (lines 109-146) *)

Definition createPiece (g : Game) (t : PieceType) (c : Color) (x y : Z) : res Game :=
  let sid := typeCode t in
  let sid := if decide (c = White) then sid + 6 else sid in
  wr g y x (Some (mkPiece t c sid false)).

Definition abs (v : Z) : Z := if v <? 0 then - v else v.

(** The loop of [isPathClear]: [k] bounds the number of empty cells walked
    over; eight is never exceeded because the ninth cell of any walk is off
    the board, where the read panics (lemma [isPathClear_fuel] below). *)
Fixpoint pathLoop (k : nat) (g : Game) (sx sy tx ty cx cy : Z) : res bool :=
  if negb (cx =? tx) || negb (cy =? ty) then
    c ← rd g cy cx;
    match c with
    | Some _ => Ok false
    | None =>
        match k with
        | O => NoFuel
        | S k' => pathLoop k' g sx sy tx ty (cx + sx) (cy + sy)
        end
    end
  else Ok true.

Definition isPathClear (g : Game) (fx fy tx ty : Z) : res bool :=
  let dx := tx - fx in
  let dy := ty - fy in
  let sx := if negb (dx =? 0) then Z.quot dx (abs dx) else 0 in
  let sy := if negb (dy =? 0) then Z.quot dy (abs dy) else 0 in
  pathLoop 8 g sx sy tx ty (fx + sx) (fy + sy).

(** ** Move legality, check and attack (lines 148-227)

    [isMoveLegal], [isInCheck] and [isSquareAttacked] call one another.  The
    bodies are written against [chk], the nested [g.isInCheck] call of the
    castling branch; [isInCheck] then ties the knot by recursion on a budget
    of nested [isInCheck] activations. *)

Definition sameColorAs (target : option ChessPiece) (p : ChessPiece) : bool :=
  match target with
  | Some t => bool_decide (pColor t = pColor p)
  | None => false
  end.

Definition startRank (c : Color) : Z :=
  match c with White => 6 | Black => 1 end.

Definition isMoveLegalW (chk : Color -> res bool) (g : Game) (p : ChessPiece)
    (fx fy tx ty : Z) : res bool :=
  if (tx <? 0) || (7 <? tx) || (ty <? 0) || (7 <? ty) then Ok false else
  target ← rd g ty tx;
  if sameColorAs target p then Ok false else
  let dx := abs (tx - fx) in
  let dy := abs (ty - fy) in
  match pType p with
  | Knight => Ok ((dx =? 2) && (dy =? 1) || (dx =? 1) && (dy =? 2))
  | Rook =>
      if (fx =? tx) || (fy =? ty) then isPathClear g fx fy tx ty else Ok false
  | Bishop =>
      if dx =? dy then isPathClear g fx fy tx ty else Ok false
  | Queen =>
      if (dx =? dy) || (fx =? tx) || (fy =? ty)
      then isPathClear g fx fy tx ty else Ok false
  | King =>
      if (dx <=? 1) && (dy <=? 1) then Ok true else
      if HasMoved p || negb (fy =? ty) || negb (dx =? 2) then Ok false else
      inchk ← chk (pColor p);
      if (inchk : bool) then Ok false else
      let rx := if fx <? tx then 7 else 0 in
      rook ← rd g fy rx;
      match rook with
      | None => Ok false
      | Some r =>
          if bool_decide (pType r = Rook) && negb (HasMoved r)
          then isPathClear g fx fy rx fy else Ok false
      end
  | Pawn =>
      let dir := if decide (pColor p = Black) then 1 else -1 in
      if (fx =? tx) && (ty =? fy + dir) && bool_decide (target = None)
      then Ok true else
      two ← (if (fx =? tx) && (ty =? fy + 2 * dir)
                && (fy =? startRank (pColor p)) && bool_decide (target = None)
             then isPathClear g fx fy tx ty else Ok false);
      if (two : bool) then Ok true else
      if (dx =? 1) && (ty =? fy + dir) then
        if negb (bool_decide (target = None)) || ((tx =? epX g) && (ty =? epY g))
        then Ok true else Ok false
      else Ok false
  end.

Definition isSquareAttackedW (chk : Color -> res bool) (g : Game) (x y : Z)
    (attackerColor : Color) : res bool :=
  r ← loop (fun fy (_ : unit) =>
        loop (fun fx (_ : unit) =>
          c ← rd g fy fx;
          match c with
          | Some p =>
              if bool_decide (pColor p = attackerColor) then
                b ← isMoveLegalW chk g p fx fy x y;
                if (b : bool) then Ok (inr true) else Ok (inl tt)
              else Ok (inl tt)
          | None => Ok (inl tt)
          end) idx8 tt) idx8 tt;
  match r with
  | inl _ => Ok false
  | inr b => Ok b
  end.

(** The scan of [isInCheck] for the king: the last match in row-major order
    wins; [(-1, -1)] when there is none. *)
Definition findKing (g : Game) (c : Color) : res (Z * Z) :=
  r ← loop (R := Empty_set) (fun y (k : Z * Z) =>
        loop (R := Empty_set) (fun x (k : Z * Z) =>
          cell ← rd g y x;
          match cell with
          | Some p =>
              if bool_decide (pType p = King) && bool_decide (pColor p = c)
              then Ok (inl (x, y)) else Ok (inl k)
          | None => Ok (inl k)
          end) idx8 k) idx8 (-1, -1);
  Ok (fellThrough r).

Definition isInCheckW (chk : Color -> res bool) (g : Game) (c : Color) : res bool :=
  '(kx, ky) ← findKing g c;
  if kx =? -1 then Ok false else isSquareAttackedW chk g kx ky (opp c).

Fixpoint isInCheck (n : nat) (g : Game) (c : Color) : res bool :=
  match n with
  | O => NoFuel
  | S n' => isInCheckW (isInCheck n' g) g c
  end.

Definition isMoveLegal (n : nat) (g : Game) (p : ChessPiece) (fx fy tx ty : Z)
  : res bool :=
  isMoveLegalW (isInCheck n g) g p fx fy tx ty.

Definition isSquareAttacked (n : nat) (g : Game) (x y : Z) (attackerColor : Color)
  : res bool :=
  isSquareAttackedW (isInCheck n g) g x y attackerColor.

(** ** Field updates of the [Game] record *)

Definition with_selected (g : Game) (x y : Z) : Game :=
  mkGame (board g) x y (activeColor g) (currentDialog g)
    (whiteTime g) (blackTime g) (gameOver g) (gameStarted g) (wager g)
    (initialMins g) (epX g) (epY g) (winner g) (moveCount g)
    (frankThinkTime g) (promoting g) (promX g) (promY g) (wallet g).

Definition with_activeColor (g : Game) (c : Color) : Game :=
  mkGame (board g) (selectedX g) (selectedY g) c (currentDialog g)
    (whiteTime g) (blackTime g) (gameOver g) (gameStarted g) (wager g)
    (initialMins g) (epX g) (epY g) (winner g) (moveCount g)
    (frankThinkTime g) (promoting g) (promX g) (promY g) (wallet g).

Definition with_currentDialog (g : Game) (d : string) : Game :=
  mkGame (board g) (selectedX g) (selectedY g) (activeColor g) d
    (whiteTime g) (blackTime g) (gameOver g) (gameStarted g) (wager g)
    (initialMins g) (epX g) (epY g) (winner g) (moveCount g)
    (frankThinkTime g) (promoting g) (promX g) (promY g) (wallet g).

Definition with_whiteTime (g : Game) (t : Z) : Game :=
  mkGame (board g) (selectedX g) (selectedY g) (activeColor g) (currentDialog g)
    t (blackTime g) (gameOver g) (gameStarted g) (wager g)
    (initialMins g) (epX g) (epY g) (winner g) (moveCount g)
    (frankThinkTime g) (promoting g) (promX g) (promY g) (wallet g).

Definition with_blackTime (g : Game) (t : Z) : Game :=
  mkGame (board g) (selectedX g) (selectedY g) (activeColor g) (currentDialog g)
    (whiteTime g) t (gameOver g) (gameStarted g) (wager g)
    (initialMins g) (epX g) (epY g) (winner g) (moveCount g)
    (frankThinkTime g) (promoting g) (promX g) (promY g) (wallet g).

Definition with_gameOver (g : Game) (b : bool) : Game :=
  mkGame (board g) (selectedX g) (selectedY g) (activeColor g) (currentDialog g)
    (whiteTime g) (blackTime g) b (gameStarted g) (wager g)
    (initialMins g) (epX g) (epY g) (winner g) (moveCount g)
    (frankThinkTime g) (promoting g) (promX g) (promY g) (wallet g).

Definition with_ep (g : Game) (x y : Z) : Game :=
  mkGame (board g) (selectedX g) (selectedY g) (activeColor g) (currentDialog g)
    (whiteTime g) (blackTime g) (gameOver g) (gameStarted g) (wager g)
    (initialMins g) x y (winner g) (moveCount g)
    (frankThinkTime g) (promoting g) (promX g) (promY g) (wallet g).

Definition with_winner (g : Game) (w : Z) : Game :=
  mkGame (board g) (selectedX g) (selectedY g) (activeColor g) (currentDialog g)
    (whiteTime g) (blackTime g) (gameOver g) (gameStarted g) (wager g)
    (initialMins g) (epX g) (epY g) w (moveCount g)
    (frankThinkTime g) (promoting g) (promX g) (promY g) (wallet g).

Definition with_moveCount (g : Game) (m : Z) : Game :=
  mkGame (board g) (selectedX g) (selectedY g) (activeColor g) (currentDialog g)
    (whiteTime g) (blackTime g) (gameOver g) (gameStarted g) (wager g)
    (initialMins g) (epX g) (epY g) (winner g) m
    (frankThinkTime g) (promoting g) (promX g) (promY g) (wallet g).

Definition with_frankThinkTime (g : Game) (t : Z) : Game :=
  mkGame (board g) (selectedX g) (selectedY g) (activeColor g) (currentDialog g)
    (whiteTime g) (blackTime g) (gameOver g) (gameStarted g) (wager g)
    (initialMins g) (epX g) (epY g) (winner g) (moveCount g)
    t (promoting g) (promX g) (promY g) (wallet g).

Definition with_promoting (g : Game) (b : bool) : Game :=
  mkGame (board g) (selectedX g) (selectedY g) (activeColor g) (currentDialog g)
    (whiteTime g) (blackTime g) (gameOver g) (gameStarted g) (wager g)
    (initialMins g) (epX g) (epY g) (winner g) (moveCount g)
    (frankThinkTime g) b (promX g) (promY g) (wallet g).

Definition with_prom (g : Game) (x y : Z) : Game :=
  mkGame (board g) (selectedX g) (selectedY g) (activeColor g) (currentDialog g)
    (whiteTime g) (blackTime g) (gameOver g) (gameStarted g) (wager g)
    (initialMins g) (epX g) (epY g) (winner g) (moveCount g)
    (frankThinkTime g) (promoting g) x y (wallet g).

Definition with_wallet (g : Game) (w : Z) : Game :=
  mkGame (board g) (selectedX g) (selectedY g) (activeColor g) (currentDialog g)
    (whiteTime g) (blackTime g) (gameOver g) (gameStarted g) (wager g)
    (initialMins g) (epX g) (epY g) (winner g) (moveCount g)
    (frankThinkTime g) (promoting g) (promX g) (promY g) w.

(** ** A new match (lines 81-115)

    [wallet] is a package-level variable; it is carried in the record and
    survives the replacement [*g = *NewGame(...)].  The [rng] field is
    seeded and never read, and [hustlerName] is a constant: both are left
    out.  The clocks are [float64] counters that only ever hold whole
    numbers; they are modelled as integers. *)

Definition layout : list PieceType :=
  [Rook; Knight; Bishop; Queen; King; Bishop; Knight; Rook].

Definition setupBoard (g : Game) : res Game :=
  r ← loop (R := Empty_set) (fun i g =>
        match layout !! Z.to_nat i with
        | None => Panic
        | Some t =>
            g ← createPiece g t Black i 0;
            g ← createPiece g Pawn Black i 1;
            g ← createPiece g Pawn White i 6;
            g ← createPiece g t White i 7;
            Ok (inl g)
        end) idx8 g;
  Ok (fellThrough r).

Definition NewGame (wager minutes wallet0 : Z) : res Game :=
  setupBoard
    {| board := ∅; selectedX := -1; selectedY := -1; activeColor := White;
       currentDialog := "Eyes on the board, kid.";
       whiteTime := minutes * 60 * 60; blackTime := minutes * 60 * 60;
       gameOver := false; gameStarted := true; wager := wager;
       initialMins := minutes; epX := -1; epY := -1; winner := -1;
       moveCount := 0; frankThinkTime := 0; promoting := false;
       promX := 0; promY := 0; wallet := wallet0 |}.

(** ** Legal-move search (lines 229-252)

    The candidate move is tried on the board itself and taken back; the
    function therefore returns the game state along with its answer. *)

Definition hasLegalMoves (n : nat) (g : Game) (c : Color) : res (bool * Game) :=
  r ← loop (fun fy g =>
        loop (fun fx g =>
          cell ← rd g fy fx;
          match cell with
          | None => Ok (inl g)
          | Some p =>
              if negb (bool_decide (pColor p = c)) then Ok (inl g) else
              loop (fun ty g =>
                loop (fun tx g =>
                  b ← isMoveLegal n g p fx fy tx ty;
                  if (b : bool) then
                    orig ← rd g ty tx;
                    g ← wr g ty tx (Some p);
                    g ← wr g fy fx None;
                    chk ← isInCheck n g c;
                    let safe := negb chk in
                    g ← wr g fy fx (Some p);
                    g ← wr g ty tx orig;
                    if safe then Ok (inr (true, g)) else Ok (inl g)
                  else Ok (inl g)) idx8 g) idx8 g
          end) idx8 g) idx8 g;
  match r with
  | inl g => Ok (false, g)
  | inr v => Ok v
  end.

(** ** Executing a move (lines 254-293)

    [p], [rook] are pointers in the source.  After [g.board[ty][tx] = p] the
    piece is referenced from cell [(ty, tx)], unless the move is a null move
    whose cell the second half of the assignment has just cleared; a later
    write through [p] is a write to that cell. *)

Definition setHasMoved (p : ChessPiece) : ChessPiece :=
  mkPiece (pType p) (pColor p) (SpriteID p) true.

Definition setType (p : ChessPiece) (t : PieceType) (sid : Z) : ChessPiece :=
  mkPiece t (pColor p) sid (HasMoved p).

Definition throughPtr (g : Game) (fx fy tx ty : Z) (p' : ChessPiece) : res Game :=
  if (tx =? fx) && (ty =? fy) then Ok g else wr g ty tx (Some p').

Definition executeMove (g : Game) (fx fy tx ty : Z) : res Game :=
  cell ← rd g fy fx;
  match cell with
  | None => Panic
  | Some p =>
      g ← (if bool_decide (pType p = King) && (abs (tx - fx) =? 2) then
             let '(rx, rtx) := if fx <? tx then (7, 5) else (0, 3) in
             rook ← rd g fy rx;
             g ← wr g fy rtx rook;
             g ← wr g fy rx None;
             match rook with
             | None => Panic
             | Some r => wr g fy rtx (Some (setHasMoved r))
             end
           else Ok g);
      g ← (if bool_decide (pType p = Pawn) && (tx =? epX g) && (ty =? epY g)
           then wr g fy tx None else Ok g);
      let g := with_ep g (-1) (-1) in
      let g := if bool_decide (pType p = Pawn) && (abs (ty - fy) =? 2)
               then with_ep g fx (fy + Z.quot (ty - fy) 2) else g in
      g ← wr g ty tx (Some p);
      g ← wr g fy fx None;
      let p1 := setHasMoved p in
      g ← throughPtr g fx fy tx ty p1;
      g ← (if bool_decide (pType p = Pawn) && ((ty =? 0) || (ty =? 7)) then
             if decide (pColor p = White)
             then Ok (with_prom (with_promoting g true) tx ty)
             else throughPtr g fx fy tx ty (setType p1 Queen 4)
           else Ok g);
      let g := if negb (promoting g)
               then with_activeColor g (opp (activeColor g)) else g in
      let g := with_moveCount g (moveCount g + 1) in
      Ok (with_frankThinkTime g 0)
  end.

(** ** One tick of the game loop (lines 295-458)

    What the windowing library reports during the tick is the input. *)

Record Input : Type := mkInput {
  key1 : bool; key2 : bool;
  keyQ : bool; keyR : bool; keyB : bool; keyN : bool;
  mouseLeft : bool;
  cursorX : Z; cursorY : Z
}.

Definition tileSize : Z := 16.

(** [g.board[g.promY][g.promX].Type, ....SpriteID = t, sid] then
    [g.promoting = false]. *)
Definition promoteTo (g : Game) (t : PieceType) (sid : Z) : res Game :=
  cell ← rd g (promY g) (promX g);
  match cell with
  | None => Panic
  | Some p =>
      g ← wr g (promY g) (promX g) (Some (setType p t sid));
      Ok (with_promoting g false)
  end.

(** Lines 311-332. *)
Definition promotionStep (g : Game) (i : Input) : res Game :=
  g ← (if keyQ i then promoteTo g Queen 10 else Ok g);
  g ← (if keyR i then promoteTo g Rook 8 else Ok g);
  g ← (if keyB i then promoteTo g Bishop 7 else Ok g);
  g ← (if keyN i then promoteTo g Knight 9 else Ok g);
  Ok (if negb (promoting g) then with_activeColor g Black else g).

(** Lines 334-344, entered when [hasLegalMoves] has answered false. *)
Definition endOfGame (n : nat) (g : Game) : res Game :=
  let g := with_gameOver g true in
  chk ← isInCheck n g (activeColor g);
  if (chk : bool) then
    if decide (activeColor g = White) then
      Ok (with_wallet
            (with_currentDialog (with_winner g 0) "MATE! Give me my money.")
            (wallet g - wager g))
    else
      Ok (with_wallet
            (with_currentDialog (with_winner g 1) "MATE! Take the cash.")
            (wallet g + wager g))
  else Ok g.

(** Lines 353-374: a left click at cursor position [(mx, my)] on White's
    turn. *)
Definition whiteClick (n : nat) (g : Game) (mx my : Z) : res Game :=
  let gx := Z.quot mx tileSize - 1 in
  let gy := Z.quot my tileSize - 1 in
  if (0 <=? gx) && (gx <? 8) && (0 <=? gy) && (gy <? 8) then
    if selectedX g =? -1 then
      cell ← rd g gy gx;
      match cell with
      | Some q =>
          if decide (pColor q = White)
          then Ok (with_selected g gx gy) else Ok g
      | None => Ok g
      end
    else
      cell ← rd g (selectedY g) (selectedX g);
      match cell with
      | None => Panic
      | Some p =>
          b ← isMoveLegal n g p (selectedX g) (selectedY g) gx gy;
          g ← (if (b : bool) then
                 orig ← rd g gy gx;
                 g ← wr g gy gx (Some p);
                 g ← wr g (selectedY g) (selectedX g) None;
                 chk ← isInCheck n g White;
                 if negb chk then
                   g ← wr g (selectedY g) (selectedX g) (Some p);
                   g ← wr g gy gx orig;
                   executeMove g (selectedX g) (selectedY g) gx gy
                 else
                   g ← wr g (selectedY g) (selectedX g) (Some p);
                   wr g gy gx orig
               else Ok g);
          Ok (with_selected g (-1) (-1))
      end
  else Ok g.

(** Lines 390-402: the scripted opening.  [inr] carries the state after an
    executed move, on which [Update] returns. *)
Definition script : list (Z * Z * Z * Z) :=
  [(4, 1, 4, 3); (3, 0, 7, 4); (5, 0, 2, 3); (7, 4, 5, 6)].

Definition scriptStep (n : nat) (m : Z * Z * Z * Z) (g : Game)
    : res (Game + Game) :=
  let '(m0, m1, m2, m3) := m in
  cell ← rd g m1 m0;
  match cell with
  | None => Ok (inl g)
  | Some p =>
      if negb (bool_decide (pColor p = Black)) then Ok (inl g) else
      b ← isMoveLegal n g p m0 m1 m2 m3;
      if (b : bool) then
        orig ← rd g m3 m2;
        g ← wr g m3 m2 (Some p);
        g ← wr g m1 m0 None;
        chk ← isInCheck n g Black;
        if negb chk then
          g ← wr g m1 m0 (Some p);
          g ← wr g m3 m2 orig;
          g ← executeMove g m0 m1 m2 m3;
          Ok (inr g)
        else
          g ← wr g m1 m0 (Some p);
          g ← wr g m3 m2 orig;
          Ok (inl g)
      else Ok (inl g)
  end.

Definition frankScript (n : nat) (g : Game) : res (Game + Game) :=
  loop (scriptStep n) script g.

(** Lines 404-444: the scored candidate list. *)
Record move : Type := mkMove {
  m_fx : Z; m_fy : Z; m_tx : Z; m_ty : Z; score : Z
}.

Definition smartMoves (n : nat) (g : Game) : res (Game * list move) :=
  r ← loop (R := Empty_set) (fun fy s =>
        loop (R := Empty_set) (fun fx '(g, acc) =>
          cell ← rd g fy fx;
          match cell with
          | None => Ok (inl (g, acc))
          | Some p =>
              if negb (bool_decide (pColor p = Black)) then Ok (inl (g, acc)) else
              loop (R := Empty_set) (fun ty s =>
                loop (R := Empty_set) (fun tx '(g, acc) =>
                  b ← isMoveLegal n g p fx fy tx ty;
                  if (b : bool) then
                    orig ← rd g ty tx;
                    let sc := 0 in
                    inDanger ← isSquareAttacked n g fx fy White;
                    let sc := if (inDanger : bool)
                              then sc + pieceValues (pType p) * 2 else sc in
                    let sc := match orig with
                              | Some o => sc + (pieceValues (pType o) + 2)
                              | None => sc
                              end in
                    g ← wr g ty tx (Some p);
                    g ← wr g fy fx None;
                    chk ← isInCheck n g Black;
                    '(sc, acc) ←
                      (if negb chk then
                         att ← isSquareAttacked n g tx ty White;
                         let sc := if (att : bool)
                                   then sc - (pieceValues (pType p) + 1) else sc in
                         Ok (sc, acc ++ [mkMove fx fy tx ty sc])
                       else Ok (sc, acc));
                    g ← wr g fy fx (Some p);
                    g ← wr g ty tx orig;
                    Ok (inl (g, acc))
                  else Ok (inl (g, acc))) idx8 s) idx8 (g, acc)
          end) idx8 s) idx8 (g, []);
  Ok (fellThrough r).

(** Lines 446-452. *)
Definition pickBest (first : move) (l : list move) : move :=
  fold_left (fun best m => if score best <? score m then m else best) l first.

Definition frankHeuristic (n : nat) (g : Game) : res Game :=
  '(g, moves) ← smartMoves n g;
  match moves with
  | [] => Ok g
  | first :: _ =>
      let best := pickBest first moves in
      executeMove g (m_fx best) (m_fy best) (m_tx best) (m_ty best)
  end.

Definition thinkLimit (g : Game) : Z :=
  if moveCount g <? 6 then 60 else if moveCount g <? 16 then 120 else 180.

Definition Update (n : nat) (g : Game) (i : Input) : res Game :=
  if negb (gameStarted g) then
    g ← (if key1 i then NewGame 5 1 (wallet g) else Ok g);
    g ← (if key2 i then NewGame 50 5 (wallet g) else Ok g);
    Ok g
  else if gameOver g then
    if mouseLeft i then NewGame (wager g) (initialMins g) (wallet g) else Ok g
  else if promoting g then promotionStep g i
  else
    '(has, g) ← hasLegalMoves n g (activeColor g);
    if negb has then endOfGame n g
    else if decide (activeColor g = White) then
      let g := with_whiteTime g (whiteTime g - 1) in
      let g := if whiteTime g <=? 0
               then with_wallet (with_winner (with_gameOver g true) 0)
                      (wallet g - wager g)
               else g in
      if mouseLeft i then whiteClick n g (cursorX i) (cursorY i) else Ok g
    else
      let g := with_blackTime g (blackTime g - 1) in
      let g := if blackTime g <=? 0
               then with_wallet (with_winner (with_gameOver g true) 1)
                      (wallet g + wager g)
               else g in
      let g := with_frankThinkTime g (frankThinkTime g + 1) in
      if thinkLimit g <=? frankThinkTime g then
        r ← frankScript n g;
        match r with
        | inr g => Ok g
        | inl g => frankHeuristic n g
        end
      else Ok g.

(** * Notions used in the statements *)

(** ** Squares and boards *)

(** A square of the board. *)
Definition onBoard (x y : Z) : Prop := 0 <= x <= 7 /\ 0 <= y <= 7.

(** The squares [(x, y)] in the order of the nested scans: rank by rank. *)
Definition squares : list (Z * Z) :=
  flat_map (fun y => map (fun x => (x, y)) idx8) idx8.

(** The board with the piece [p] of cell [(fy, fx)] tried on [(ty, tx)]:
    the effect of [g.board[ty][tx], g.board[fy][fx] = p, nil]. *)
Definition tried (g : Game) (p : ChessPiece) (fx fy tx ty : Z) : Game :=
  with_board g
    (partial_alter (fun _ => None) (fy, fx)
       (partial_alter (fun _ => Some p) (ty, tx) (board g))).

(** No piece of [p]'s colour stands on [(tx, ty)]. *)
Definition notOwn (g : Game) (p : ChessPiece) (tx ty : Z) : Prop :=
  forall t, board g !! (ty, tx) = Some t -> pColor t <> pColor p.

(** Same board and same en-passant target. *)
Definition samePosition (g g' : Game) : Prop :=
  board g = board g' /\ epX g = epX g' /\ epY g = epY g'.

(** A match in progress on an empty board. *)
Definition emptyGame : Game :=
  {| board := ∅; selectedX := -1; selectedY := -1; activeColor := White;
     currentDialog := ""; whiteTime := 3600; blackTime := 3600;
     gameOver := false; gameStarted := true; wager := 5; initialMins := 1;
     epX := -1; epY := -1; winner := -1; moveCount := 0; frankThinkTime := 0;
     promoting := false; promX := 0; promY := 0; wallet := 100 |}.

(** Put piece [p] on square [(x, y)]. *)
Definition place (x y : Z) (p : ChessPiece) (g : Game) : Game :=
  with_board g (<[(y, x) := p]> (board g)).

(** A king as [createPiece] makes it. *)
Definition freshKing (c : Color) : ChessPiece :=
  mkPiece King c (if decide (c = White) then 11 else 5) false.

(** The match that key 1 sets up. *)
Definition newGame : Game :=
  match NewGame 5 1 100 with
  | Ok g => g
  | _ => emptyGame
  end.

(** The value [&Game{gameStarted: false}] that [main] hands to the game
    loop, with the initial [wallet]. *)
Definition startMenu : Game :=
  {| board := ∅; selectedX := 0; selectedY := 0; activeColor := Black;
     currentDialog := ""; whiteTime := 0; blackTime := 0;
     gameOver := false; gameStarted := false; wager := 0; initialMins := 0;
     epX := 0; epY := 0; winner := 0; moveCount := 0; frankThinkTime := 0;
     promoting := false; promX := 0; promY := 0; wallet := 100 |}.

(** ** Outcomes under a budget *)

(** [le_res r r']: [r'] is [r], or [r] is a call cut short by the budget. *)
Definition le_res {A} (r r' : res A) : Prop := r = NoFuel \/ r = r'.

(** ** The moves of pawns and kings *)

(** The rank step of a pawn: White towards rank index 0, Black towards 7. *)
Definition pawnDir (c : Color) : Z :=
  match c with Black => 1 | White => -1 end.

(** The three kinds of pawn move: one step onto an empty square, two steps
    from the starting rank over and onto empty squares, one diagonal step
    onto a piece of the other colour or onto the en-passant target. *)
Definition pawnMove (g : Game) (p : ChessPiece) (fx fy tx ty : Z) : Prop :=
  onBoard tx ty /\ notOwn g p tx ty /\
  let dir := pawnDir (pColor p) in
  (tx = fx /\ ty = fy + dir /\ board g !! (ty, tx) = None) \/
  (tx = fx /\ ty = fy + 2 * dir /\ fy = startRank (pColor p) /\
   board g !! (fy + dir, fx) = None /\ board g !! (ty, tx) = None) \/
  (Z.abs (tx - fx) = 1 /\ ty = fy + dir /\
   ((exists t, board g !! (ty, tx) = Some t /\ pColor t <> pColor p) \/
    (tx = epX g /\ ty = epY g))).

(** The file of the corner the king travels towards. *)
Definition castleCorner (fx tx : Z) : Z := if fx <? tx then 7 else 0.

(** The castling condition of the King branch, with [chk] the answer of the
    nested [isInCheck] call. *)
Definition castleMoveW (chk : Color -> res bool) (g : Game) (p : ChessPiece)
    (fx fy tx ty : Z) : Prop :=
  ty = fy /\ Z.abs (tx - fx) = 2 /\ HasMoved p = false /\
  chk (pColor p) = Ok false /\
  (exists r, board g !! (fy, castleCorner fx tx) = Some r /\
             pType r = Rook /\ HasMoved r = false) /\
  (forall x, Z.min fx (castleCorner fx tx) < x < Z.max fx (castleCorner fx tx) ->
             board g !! (fy, x) = None).

(** The castling condition read with the answer of [isInCheck] under a
    given budget. *)
Definition castleMove (n : nat) (g : Game) (p : ChessPiece) (fx fy tx ty : Z)
  : Prop :=
  castleMoveW (isInCheck n g) g p fx fy tx ty.

(** The one shape of call in which [isMoveLegal] consults [isInCheck]: an
    unmoved king asked to go two files along its rank. *)
Definition castleShape (p : ChessPiece) (fx fy tx ty : Z) : Prop :=
  pType p = King /\ HasMoved p = false /\ fy = ty /\ Z.abs (tx - fx) = 2.

(** A pawn advancing two ranks. *)
Definition doubleStep (p : ChessPiece) (fy ty : Z) : bool :=
  bool_decide (pType p = Pawn) && (abs (ty - fy) =? 2).

(** The en-passant target that a move of [p] from rank [fy] to rank [ty],
    starting on file [fx], leaves behind in [g']. *)
Definition epTargetAfter (g' : Game) (p : ChessPiece) (fx fy ty : Z) : Prop :=
  (pType p = Pawn /\ Z.abs (ty - fy) = 2 /\
   epX g' = fx /\ 2 * epY g' = fy + ty) \/
  (~ (pType p = Pawn /\ Z.abs (ty - fy) = 2) /\ epX g' = -1 /\ epY g' = -1).

(** ** Kings and the end of the recursion *)

(** The test of the scan in [isInCheck]: a king of colour [c]. *)
Definition isKingOf (c : Color) (cell : option ChessPiece) : bool :=
  match cell with
  | Some p => bool_decide (pType p = King) && bool_decide (pColor p = c)
  | None => false
  end.

(** The same test on the cell of square [sq]. *)
Definition kingAt (g : Game) (c : Color) (sq : Z * Z) : bool :=
  isKingOf c (board g !! (snd sq, fst sq)).

(** The square the scan ends with: the last king of colour [c] in scan
    order, [(-1, -1)] when there is none. *)
Definition lastKing (g : Game) (c : Color) : Z * Z :=
  fold_left (fun k sq => if kingAt g c sq then sq else k) squares (-1, -1).

(** A king of colour [c] whose [HasMoved] flag is false. *)
Definition unmovedKingOf (c : Color) (cell : option ChessPiece) : bool :=
  match cell with
  | Some p =>
      bool_decide (pType p = King) && bool_decide (pColor p = c)
      && negb (HasMoved p)
  | None => false
  end.

(** An unmoved king of the other colour stands on the rank of the king
    found for [c], two files from it: its castling test is asked when
    [isInCheck c] scans the attackers. *)
Definition castleThreat (g : Game) (c : Color) : bool :=
  let k := lastKing g c in
  negb (fst k =? -1)
  && existsb (fun x => unmovedKingOf (opp c) (board g !! (snd k, x))
                       && (Z.abs (fst k - x) =? 2)) idx8.

(** The recursion is cut unless both sides are so threatened. *)
Definition recursionEnds (g : Game) : bool :=
  negb (castleThreat g White && castleThreat g Black).

(** The back rank of a colour. *)
Definition homeRankOf (c : Color) : Z :=
  match c with Black => 0 | White => 7 end.

(** Every king whose [HasMoved] flag is false stands on the back rank of its
    colour.  This holds after [setupBoard] and is kept by every move, which
    sets the flag of the piece it moves. *)
Definition kingsAtHome (g : Game) : bool :=
  forallb (fun sq =>
    match board g !! (snd sq, fst sq) with
    | Some p =>
        if bool_decide (pType p = King) && negb (HasMoved p)
        then snd sq =? homeRankOf (pColor p) else true
    | None => true
    end) squares.

(** Unmoved kings are at most [d] ranks from it. *)
Definition kingsNear (d : Z) (g : Game) : Prop :=
  forall x y p, onBoard x y -> board g !! (y, x) = Some p ->
    pType p = King -> HasMoved p = false ->
    Z.abs (y - homeRankOf (pColor p)) <= d.

(** [b'] is [b] except for cells that were emptied or now hold a piece that
    is marked as moved or is no king. *)
Definition tame (b b' : gmap (Z * Z) ChessPiece) : Prop :=
  forall k, b' !! k = b !! k \/ b' !! k = None \/
            exists q, b' !! k = Some q /\ (HasMoved q = true \/ pType q <> King).

(** ** The searches as functions of the board *)

(** The first true answer of [f] along [l]; a call that does not return
    stops the search. *)
Fixpoint anyM {A} (f : A -> res bool) (l : list A) : res bool :=
  match l with
  | [] => Ok false
  | a :: l' => b ← f a; if (b : bool) then Ok true else anyM f l'
  end.

(** Whether moving [p] from [(fx, fy)] to [(tx, ty)] passes both tests of
    the innermost loop body: [isMoveLegal], then [isInCheck] on the board
    with the move tried. *)
Definition fullyLegal (n : nat) (g : Game) (c : Color) (p : ChessPiece)
    (fx fy tx ty : Z) : res bool :=
  b ← isMoveLegal n g p fx fy tx ty;
  if (b : bool) then
    chk ← isInCheck n (tried g p fx fy tx ty) c;
    Ok (negb chk)
  else Ok false.

(** The search that [hasLegalMoves] performs, over the untouched board. *)
Definition legalFrom (n : nat) (g : Game) (c : Color) (fx fy : Z) : res bool :=
  match board g !! (fy, fx) with
  | None => Ok false
  | Some p =>
      if negb (bool_decide (pColor p = c)) then Ok false else
      anyM (fun ty => anyM (fun tx => fullyLegal n g c p fx fy tx ty) idx8) idx8
  end.

(** The same search over every origin. *)
Definition anyLegalMove (n : nat) (g : Game) (c : Color) : res bool :=
  anyM (fun fy => anyM (fun fx => legalFrom n g c fx fy) idx8) idx8.

(** A move of a piece of colour [c] that [isMoveLegal] accepts and after
    which, tried on the board, [isInCheck c] answers false. *)
Definition legalAndSafe (g : Game) (c : Color) (fx fy tx ty : Z)
    (p : ChessPiece) : Prop :=
  onBoard fx fy /\ onBoard tx ty /\ board g !! (fy, fx) = Some p /\
  pColor p = c /\
  (exists n, isMoveLegal n g p fx fy tx ty = Ok true) /\
  (exists n, isInCheck n (tried g p fx fy tx ty) c = Ok false).

(** The lists that [f] returns along [l], appended. *)
Fixpoint collectM {A B} (f : A -> res (list B)) (l : list A) : res (list B) :=
  match l with
  | [] => Ok []
  | a :: l' => r ← f a; rs ← collectM f l'; Ok (r ++ rs)
  end.

(** One candidate of the innermost loop: the scored move if it is kept,
    nothing otherwise. *)
Definition scoredCandidate (n : nat) (g : Game) (p : ChessPiece)
    (fx fy tx ty : Z) : res (list move) :=
  b ← isMoveLegal n g p fx fy tx ty;
  if (b : bool) then
    inDanger ← isSquareAttacked n g fx fy White;
    let sc := 0 in
    let sc := if (inDanger : bool) then sc + pieceValues (pType p) * 2 else sc in
    let sc := match board g !! (ty, tx) with
              | Some o => sc + (pieceValues (pType o) + 2)
              | None => sc
              end in
    chk ← isInCheck n (tried g p fx fy tx ty) Black;
    if negb chk then
      att ← isSquareAttacked n (tried g p fx fy tx ty) tx ty White;
      let sc := if (att : bool) then sc - (pieceValues (pType p) + 1) else sc in
      Ok [mkMove fx fy tx ty sc]
    else Ok []
  else Ok [].

(** The candidates of the piece on [(fx, fy)], if it is black. *)
Definition movesFrom (n : nat) (g : Game) (fx fy : Z) : res (list move) :=
  match board g !! (fy, fx) with
  | None => Ok []
  | Some p =>
      if negb (bool_decide (pColor p = Black)) then Ok [] else
      collectM (fun ty => collectM (fun tx => scoredCandidate n g p fx fy tx ty)
                            idx8) idx8
  end.

(** ** The selection as the specification words it *)

(** Every move from square to square, by ascending origin rank, then origin
    file, then destination rank, then destination file. *)
Definition enumeration : list (Z * Z * Z * Z) :=
  flat_map (fun fy => flat_map (fun fx => flat_map (fun ty =>
    flat_map (fun tx => [(fx, fy, tx, ty)]) idx8) idx8) idx8) idx8.

(** A fully legal move of a black piece. *)
Definition blackMoveLegal (g : Game) (m : Z * Z * Z * Z) : bool :=
  let '(fx, fy, tx, ty) := m in
  match board g !! (fy, fx) with
  | Some p =>
      bool_decide (pColor p = Black)
      && match fullyLegal 2 g Black p fx fy tx ty with
         | Ok b => b
         | _ => false
         end
  | None => false
  end.

(** The answer of [isSquareAttacked] by White. *)
Definition attackedByWhite (g : Game) (x y : Z) : bool :=
  match isSquareAttacked 2 g x y White with
  | Ok b => b
  | _ => false
  end.

(** Twice the mover's value if its origin is attacked by White, plus the
    value of a white piece on the destination and two, minus the mover's
    value and one if the destination is attacked by White once the move is
    on the board. *)
Definition moveScore (g : Game) (m : Z * Z * Z * Z) : Z :=
  let '(fx, fy, tx, ty) := m in
  match board g !! (fy, fx) with
  | Some p =>
      (if attackedByWhite g fx fy then 2 * pieceValues (pType p) else 0)
      + match board g !! (ty, tx) with
        | Some o =>
            if bool_decide (pColor o = White)
            then pieceValues (pType o) + 2 else 0
        | None => 0
        end
      - (if attackedByWhite (tried g p fx fy tx ty) tx ty
         then pieceValues (pType p) + 1 else 0)
  | None => 0
  end.

(** The move with its score. *)
Definition scored (g : Game) (m : Z * Z * Z * Z) : move :=
  let '(fx, fy, tx, ty) := m in mkMove fx fy tx ty (moveScore g m).

(** The candidates: the fully legal moves of [enumeration], scored. *)
Definition scoredMoves (g : Game) : list move :=
  map (scored g) (List.filter (blackMoveLegal g) enumeration).

(** [best] has the highest score of [l], and is the first to have it. *)
Definition firstBest (best : move) (l : list move) : Prop :=
  exists l1 l2, l = l1 ++ best :: l2 /\
    (forall m, In m l1 -> score m < score best) /\
    (forall m, In m l2 -> score m <= score best).

(** ** Ticks *)

(** The state after White's clock has ticked (lines 348-351). *)
Definition afterWhiteClock (g : Game) : Game :=
  let g := with_whiteTime g (whiteTime g - 1) in
  if whiteTime g <=? 0
  then with_wallet (with_winner (with_gameOver g true) 0) (wallet g - wager g)
  else g.

(** Lines 377-381: the clock and the thinking counter. *)
Definition afterBlackClock (g : Game) : Game :=
  let g := with_blackTime g (blackTime g - 1) in
  let g := if blackTime g <=? 0
           then with_wallet (with_winner (with_gameOver g true) 1)
                  (wallet g + wager g)
           else g in
  with_frankThinkTime g (frankThinkTime g + 1).

(** The input [i] without its mouse click. *)
Definition noClick (i : Input) : Input :=
  mkInput (key1 i) (key2 i) (keyQ i) (keyR i) (keyB i) (keyN i) false
    (cursorX i) (cursorY i).

(** No key, no click. *)
Definition idle : Input :=
  mkInput false false false false false false false 0 0.

(** The states of a run: the start menu, then tick after tick, whatever the
    input. *)
Inductive reachable : Game -> Prop :=
| reach_start : reachable startMenu
| reach_tick (g g' : Game) (n : nat) (i : Input) :
    reachable g -> Update n g i = Ok g' -> reachable g'.

(** The fields that say whether a match is on and who has won it. *)
Definition status (g : Game) : bool * bool * Z :=
  (gameStarted g, gameOver g, winner g).

(** A match in progress has no winner: the field holds the [-1] that
    [NewGame] gives it. *)
Definition noWinnerYet (g : Game) : Prop :=
  gameStarted g = true -> gameOver g = false -> winner g = -1.

(** ** Positions used as examples *)

(** The white king on e1 and the black king on g1, neither marked as
    moved. *)
Definition facingKings : Game :=
  place 6 7 (freshKing Black) (place 4 7 (freshKing White) emptyGame).

(** An unmoved white king on a8 and an unmoved black king on c8. *)
Definition cornerKings : Game :=
  place 2 0 (freshKing Black) (place 0 0 (freshKing White) emptyGame).

(** King e1 and rook h1 at home, a black rook bearing on f1. *)
Definition castlingGame : Game :=
  place 5 0 (mkPiece Rook Black 2 true)
    (place 7 7 (mkPiece Rook White 8 false)
       (place 4 7 (freshKing White) emptyGame)).

(** Fool's mate: 1. f3 e5 2. g4 Qh4. *)
Definition foolsMate : Game :=
  match (g ← executeMove newGame 5 6 5 5;
         g ← executeMove g 4 1 4 3;
         g ← executeMove g 6 6 6 4;
         executeMove g 3 0 7 4) with
  | Ok g => g
  | _ => emptyGame
  end.

(** A white pawn on e5 beside a black pawn that has just advanced d7-d5. *)
Definition enPassantGame : Game :=
  with_ep (place 3 3 (mkPiece Pawn Black 0 true)
             (place 4 3 (mkPiece Pawn White 6 true) emptyGame)) 3 2.

(** Black to move after 1. e4 e5 2. Nf3 Qh4 3. Nxh4 Bc5 4. a3: no move of
    the script is left, and the thinking counter is at its limit. *)
Definition afterTheScript : Game :=
  match (g ← executeMove newGame 4 6 4 4;
         g ← executeMove g 4 1 4 3;
         g ← executeMove g 6 7 5 5;
         g ← executeMove g 3 0 7 4;
         g ← executeMove g 5 5 7 4;
         g ← executeMove g 5 0 2 3;
         g ← executeMove g 0 6 0 5;
         Ok (with_frankThinkTime g 200)) with
  | Ok g => g
  | _ => emptyGame
  end.

(** ** A move as a function of the state *)

(** The rook's part of a king's move over two files: from the corner to
    file 5 or 3, marked as moved. *)
Definition castledBoard (g : Game) (p : ChessPiece) (fx fy tx : Z)
    : gmap (Z * Z) ChessPiece :=
  if bool_decide (pType p = King) && (abs (tx - fx) =? 2) then
    let '(rx, rtx) := if fx <? tx then (7, 5) else (0, 3) in
    match board g !! (fy, rx) with
    | Some r =>
        partial_alter (fun _ => Some (setHasMoved r)) (fy, rtx)
          (partial_alter (fun _ => None) (fy, rx)
             (partial_alter (fun _ => Some r) (fy, rtx) (board g)))
    | None => board g
    end
  else board g.

(** A pawn arriving on rank 0 or 7. *)
Definition reachesLastRank (p : ChessPiece) (ty : Z) : bool :=
  bool_decide (pType p = Pawn) && ((ty =? 0) || (ty =? 7)).

(** The board that [executeMove] leaves when it moves [p]. *)
Definition movedBoard (g : Game) (p : ChessPiece) (fx fy tx ty : Z)
    : gmap (Z * Z) ChessPiece :=
  let b1 := castledBoard g p fx fy tx in
  let b2 := if bool_decide (pType p = Pawn) && (tx =? epX g) && (ty =? epY g)
            then partial_alter (fun _ => None) (fy, tx) b1 else b1 in
  let b3 := partial_alter (fun _ => None) (fy, fx)
              (partial_alter (fun _ => Some p) (ty, tx) b2) in
  if (tx =? fx) && (ty =? fy) then b3 else
  let b4 := partial_alter (fun _ => Some (setHasMoved p)) (ty, tx) b3 in
  if reachesLastRank p ty && negb (bool_decide (pColor p = White))
  then partial_alter (fun _ => Some (setType (setHasMoved p) Queen 4)) (ty, tx) b4
  else b4.

(** The state that [executeMove] leaves when it moves [p]. *)
Definition afterMove (g : Game) (p : ChessPiece) (fx fy tx ty : Z) : Game :=
  let up := reachesLastRank p ty && bool_decide (pColor p = White) in
  let pr := promoting g || up in
  {| board := movedBoard g p fx fy tx ty;
     selectedX := selectedX g; selectedY := selectedY g;
     activeColor := if pr then activeColor g else opp (activeColor g);
     currentDialog := currentDialog g;
     whiteTime := whiteTime g; blackTime := blackTime g;
     gameOver := gameOver g; gameStarted := gameStarted g;
     wager := wager g; initialMins := initialMins g;
     epX := if doubleStep p fy ty then fx else -1;
     epY := if doubleStep p fy ty then fy + Z.quot (ty - fy) 2 else -1;
     winner := winner g; moveCount := moveCount g + 1; frankThinkTime := 0;
     promoting := pr;
     promX := if up then tx else promX g;
     promY := if up then ty else promY g;
     wallet := wallet g |}.

(** Where the pieces of the board after a move come from: every one is a
    piece of the board before, possibly marked as moved, or the queen that
    a black pawn becomes. *)
Definition cameFrom (g : Game) (q : ChessPiece) : Prop :=
  exists k0 q0, board g !! k0 = Some q0 /\ (q = q0 \/ q = setHasMoved q0).

(** The fields that [executeMove] never writes. *)
Definition untouchedByMove (g : Game)
    : Z * Z * string * Z * Z * bool * bool * Z * Z * Z * Z :=
  (selectedX g, selectedY g, currentDialog g, whiteTime g, blackTime g,
   gameOver g, gameStarted g, wager g, initialMins g, winner g, wallet g).

(** ** States the program keeps well formed *)

(** The sprite that [createPiece] gives a piece of type [t] and colour [c]. *)
Definition spriteOf (t : PieceType) (c : Color) : Z :=
  typeCode t + (if decide (c = White) then 6 else 0).

(** Every piece on the board carries the sprite of its type and colour. *)
Definition spritesMatch (g : Game) : Prop :=
  forall k p, board g !! k = Some p -> SpriteID p = spriteOf (pType p) (pColor p).

(** Nothing is selected, or it is White's turn, no promotion is pending and
    the selected square holds a white piece. *)
Definition selectionOK (g : Game) : Prop :=
  selectedX g = -1 \/
  (activeColor g = White /\ promoting g = false /\
   onBoard (selectedX g) (selectedY g) /\
   exists p, board g !! (selectedY g, selectedX g) = Some p /\
             pColor p = White).

(** While a promotion is pending, the promotion square holds a white
    piece. *)
Definition promotionOK (g : Game) : Prop :=
  promoting g = true ->
  onBoard (promX g) (promY g) /\
  exists p, board g !! (promY g, promX g) = Some p /\ pColor p = White.

Definition wellFormed (g : Game) : Prop :=
  kingsNear 0 g /\ spritesMatch g /\
  (gameStarted g = true -> selectionOK g /\ promotionOK g).

(** What a chain of promotion keys keeps: the square, a white piece on it,
    the unmoved kings, the sprites, the selection and the match flags. *)
Definition promotionKeeps (g g' : Game) : Prop :=
  promX g' = promX g /\ promY g' = promY g /\
  selectedX g' = selectedX g /\ gameStarted g' = gameStarted g /\
  kingsNear 0 g' /\ spritesMatch g' /\
  exists p, board g' !! (promY g, promX g) = Some p /\ pColor p = White.

(** ** What a tick does to the board and to the match *)

(** A fully legal move of a piece of colour [c] has been executed between
    [g] and [g']. *)
Definition moveMade (g g' : Game) (c : Color) : Prop :=
  exists p fx fy tx ty, legalAndSafe g c fx fy tx ty p /\
    board g' = movedBoard g p fx fy tx ty /\
    moveCount g' = moveCount g + 1.

(** Between [g] and [g'] the board and the move counter are unchanged, or
    a fully legal move of colour [c] has been executed. *)
Definition boardStep (g g' : Game) (c : Color) : Prop :=
  (board g' = board g /\ moveCount g' = moveCount g) \/ moveMade g g' c.


(** ** Promotion keys *)

(** The key that decides when several are down: the four tests run in the
    order Q, R, B, N and each overwrites the one before. *)
Definition promotionChoice (i : Input) : option (PieceType * Z) :=
  if keyN i then Some (Knight, 9)
  else if keyB i then Some (Bishop, 7)
  else if keyR i then Some (Rook, 8)
  else if keyQ i then Some (Queen, 10)
  else None.

(** The fields that the promotion branch of [Update] never writes. *)
Definition untouchedByPromotion (g : Game)
    : Z * Z * string * Z * Z * bool * bool * Z * Z * Z * Z * Z * Z * Z * Z * Z * Z :=
  (selectedX g, selectedY g, currentDialog g, whiteTime g, blackTime g,
   gameOver g, gameStarted g, wager g, initialMins g, epX g, epY g,
   winner g, moveCount g, frankThinkTime g, promX g, promY g, wallet g).

(** [g1] is [g] with the piece [q] on the promotion square. *)
Definition promotedTo (g g1 : Game) (q : ChessPiece) : Prop :=
  untouchedByPromotion g1 = untouchedByPromotion g /\
  board g1 !! (promY g, promX g) = Some q /\
  forall k, k <> (promY g, promX g) -> board g1 !! k = board g !! k.

(** ** A new match as a state *)

(** The state that [NewGame] returns: the starting position, White to
    move, nothing selected, both clocks at [minutes * 60 * 60] ticks. *)
Definition freshMatch (w minutes wal : Z) : Game :=
  {| board := board newGame; selectedX := -1; selectedY := -1;
     activeColor := White; currentDialog := "Eyes on the board, kid.";
     whiteTime := minutes * 60 * 60; blackTime := minutes * 60 * 60;
     gameOver := false; gameStarted := true; wager := w;
     initialMins := minutes; epX := -1; epY := -1; winner := -1;
     moveCount := 0; frankThinkTime := 0; promoting := false;
     promX := 0; promY := 0; wallet := wal |}.

(** ** Several ticks *)



(** ** Lines of the board *)

(** Two squares on one file, one rank or one diagonal. *)
Definition aligned (fx fy tx ty : Z) : Prop :=
  fx = tx \/ fy = ty \/ Z.abs (tx - fx) = Z.abs (ty - fy).

(** Every square strictly between [(fx, fy)] and [(tx, ty)], walking from
    the first towards the second, is empty. *)
Definition emptyBetween (g : Game) (fx fy tx ty : Z) : Prop :=
  forall i, 1 <= i < Z.max (Z.abs (tx - fx)) (Z.abs (ty - fy)) ->
    board g !! (fy + i * Z.sgn (ty - fy), fx + i * Z.sgn (tx - fx)) = None.

(** The lines along which a rook, a bishop and a queen move. *)
Definition lineOf (t : PieceType) (fx fy tx ty : Z) : Prop :=
  match t with
  | Rook => fx = tx \/ fy = ty
  | Bishop => Z.abs (tx - fx) = Z.abs (ty - fy)
  | Queen => aligned fx fy tx ty
  | _ => False
  end.

(** A knight's jump. *)
Definition jump (fx fy tx ty : Z) : Prop :=
  (Z.abs (tx - fx) = 2 /\ Z.abs (ty - fy) = 1) \/
  (Z.abs (tx - fx) = 1 /\ Z.abs (ty - fy) = 2).

(** ** Attack and check *)

(** A piece of colour [a] for which [isMoveLegal] accepts the move to
    [(x, y)]. *)
Definition attacker (n : nat) (g : Game) (x y : Z) (a : Color) : Prop :=
  exists fx fy p, onBoard fx fy /\ board g !! (fy, fx) = Some p /\
    pColor p = a /\ isMoveLegal n g p fx fy x y = Ok true.

(** The order of the scans: rank by rank, and file by file on a rank. *)
Definition scansBefore (a b : Z * Z) : Prop :=
  snd a < snd b \/ (snd a = snd b /\ fst a < fst b).

(** ** Frank's script *)

(** The script entry [m] can be played: its origin holds a black piece,
    [isMoveLegal] accepts the move and [isInCheck Black] answers false with
    the move tried on the board. *)
Definition playable (g : Game) (m : Z * Z * Z * Z) : Prop :=
  let '(m0, m1, m2, m3) := m in
  exists p, board g !! (m1, m0) = Some p /\ pColor p = Black /\
    isMoveLegal 2 g p m0 m1 m2 m3 = Ok true /\
    isInCheck 2 (tried g p m0 m1 m2 m3) Black = Ok false.

(** [executeMove] for a script entry. *)
Definition playEntry (g : Game) (m : Z * Z * Z * Z) : res Game :=
  let '(m0, m1, m2, m3) := m in executeMove g m0 m1 m2 m3.

(** ** Further positions and inputs used as examples *)

(** A white pawn on a8 with the promotion pending. *)
Definition promotionGame : Game :=
  with_prom (with_promoting
               (place 0 0 (mkPiece Pawn White 6 true) emptyGame) true) 0 0.

(** A promotion pending on the empty square a8. *)
Definition emptyPromotion : Game := with_promoting emptyGame true.

(** The keys Q and N down together. *)
Definition keysQN : Input :=
  mkInput false false true false false true false 0 0.

(** The keys 1 and 2 down together. *)
Definition keys12 : Input :=
  mkInput true true false false false false false 0 0.

(** Key 1 alone. *)
Definition key1Only : Input :=
  mkInput true false false false false false false 0 0.

(** A left click at the top left corner. *)
Definition clickAtOrigin : Input :=
  mkInput false false false false false false true 0 0.

(** A click on e2, and the start of a match after it. *)
Definition clickE2 : Input :=
  mkInput false false false false false false true 80 120.


(** The tick after fool's mate. *)
Definition afterFoolsMate : Game :=
  match Update 2 foolsMate idle with
  | Ok g => g
  | _ => emptyGame
  end.

(** The start of a match after 1. e4. *)
Definition afterE4 : Game :=
  afterMove newGame (mkPiece Pawn White 6 false) 4 6 4 4.

(** The start of a match with the pawn on e2 selected. *)
Definition e2Selected : Game := with_selected newGame 4 6.

Definition e2Clicked : Game :=
  match Update 2 newGame clickE2 with
  | Ok g => g
  | _ => emptyGame
  end.

(** White to move, stalemated: king a1, black queen c2, black king h8. *)
Definition stalemateGame : Game :=
  place 7 0 (mkPiece King Black 5 true)
    (place 2 6 (mkPiece Queen Black 4 true)
       (place 0 7 (mkPiece King White 11 true) emptyGame)).

(** The tick that finds the stalemate. *)
Definition afterStalemate : Game :=
  match Update 2 stalemateGame idle with
  | Ok g => g
  | _ => emptyGame
  end.

(** * Drawing (lines 460-516)

    [Draw] is modelled by the list of drawing calls it makes, in order:
    [text.Draw] (always with the face [basicfont.Face7x13]),
    [screen.DrawImage] of a sprite translated to a pixel position, with or
    without the colour scale of the selected square, and
    [vector.FillRect].  The field [hustlerName], which the state record
    leaves out, is an argument.  [sprites] holds the 24 sub-images that
    [main] cuts from the sheet (lines 522-527), so [sprites[id]] panics
    unless [0 <= id < 24].  The clocks hold whole numbers far below 2^31,
    for which the [float64] quotients truncated by [int(...)] are the
    integer quotients. *)

Record RGBA : Type := mkRGBA { red : Z; green : Z; blue : Z; alpha : Z }.

Inductive DrawOp : Type :=
| DrawText (s : string) (x y : Z) (c : RGBA)
| DrawImage (sprite px py : Z) (scaled : bool)
| FillRect (x y w h : Z) (c : RGBA).

Definition colorWhite : RGBA := mkRGBA 255 255 255 255.

Definition gridSize : Z := 10.

Definition spriteCount : Z := 24.

(** [sprites[id]]. *)
Definition sprite (id : Z) : res Z :=
  if (0 <=? id) && (id <? spriteCount) then Ok id else Panic.

(** [%d]. *)
Definition showZ (v : Z) : string := NilZero.string_of_int (Z.to_int v).

(** [%02d]. *)
Definition show02 (v : Z) : string :=
  let s := showZ v in
  if (String.length s <? 2)%nat then String.append "0" s else s.

Definition idx10 : list Z := [0; 1; 2; 3; 4; 5; 6; 7; 8; 9].

(** The body of the two loops of lines 467-492 at grid cell [(x, y)]. *)
Definition drawCell (g : Game) (x y : Z) : res (list DrawOp) :=
  let px := x * tileSize in
  let py := y * tileSize in
  if (x =? 0) || (x =? 9) || (y =? 0) || (y =? 9) then
    s ← sprite 14;
    Ok [DrawImage s px py false]
  else
    let bx := x - 1 in
    let by_ := y - 1 in
    let tID := if negb (Z.rem (bx + by_) 2 =? 0) then 12 else 13 in
    let scaled := (bx =? selectedX g) && (by_ =? selectedY g) in
    s ← sprite tID;
    cell ← rd g by_ bx;
    match cell with
    | Some p =>
        ps ← sprite (SpriteID p);
        Ok [DrawImage s px py scaled; DrawImage ps px py false]
    | None => Ok [DrawImage s px py scaled]
    end.

(** The line of the two clocks (line 495). *)
Definition clockLine (g : Game) : string :=
  String.append "W:" (String.append (show02 (Z.quot (whiteTime g) 3600))
  (String.append ":" (String.append (show02 (Z.rem (Z.quot (whiteTime g) 60) 60))
  (String.append " B:" (String.append (show02 (Z.quot (blackTime g) 3600))
  (String.append ":" (show02 (Z.rem (Z.quot (blackTime g) 60) 60)))))))).

Definition Draw (hustlerName : string) (g : Game) : res (list DrawOp) :=
  if negb (gameStarted g) then
    Ok [DrawText "CHOOSE STAKES:" 20 60 colorWhite;
        DrawText "1: $5 Bullet | 2: $50 Blitz" 20 90 (mkRGBA 0 255 150 255);
        DrawText (String.append "WALLET: $" (showZ (wallet g))) 20 120
          (mkRGBA 255 215 0 255)]
  else
    grid ← collectM (fun y => collectM (fun x => drawCell g x y) idx10) idx10;
    let dy := gridSize * tileSize in
    let msg :=
      if bool_decide (activeColor g = Black) && negb (gameOver g)
      then String.append hustlerName ": ..."
      else String.append hustlerName (String.append ": " (currentDialog g)) in
    Ok (grid
        ++ [FillRect 0 dy 160 40 (mkRGBA 10 10 15 255);
            DrawText (clockLine g) 5 (dy + 12) colorWhite;
            DrawText (String.append "STAKES:$" (String.append (showZ (wager g))
                        (String.append " WALLET:$" (showZ (wallet g)))))
              5 (dy + 24) (mkRGBA 255 215 0 255);
            DrawText msg 5 (dy + 36) colorWhite]
        ++ (if promoting g
            then [FillRect 10 40 140 80 (mkRGBA 0 0 0 230);
                  DrawText "PROMOTE: Q R B N" 25 80 colorWhite]
            else [])
        ++ (if gameOver g
            then [FillRect 0 50 160 60 (mkRGBA 0 0 0 240);
                  DrawText "CHECKMATE!" 45 75 (mkRGBA 255 50 50 255);
                  DrawText (if winner g =? 1 then "YOU WIN!" else "FRANK WINS")
                    45 95 colorWhite]
            else [])).

(** [Layout] (line 518) ignores the size of the window. *)
Definition Layout (w h : Z) : Z * Z := (160, 200).

(** ** Frames *)

(** The drawing calls for grid cell [(x, y)]. *)
Definition cellOps (g : Game) (x y : Z) : list DrawOp :=
  match drawCell g x y with
  | Ok l => l
  | _ => []
  end.

(** Every piece on the board has a sprite in the sheet. *)
Definition spritesInSheet (g : Game) : Prop :=
  forall x y p, onBoard x y -> board g !! (y, x) = Some p ->
    0 <= SpriteID p < spriteCount.

(** The banner that ends the frame of a finished game. *)
Definition banner (g : Game) : list DrawOp :=
  [FillRect 0 50 160 60 (mkRGBA 0 0 0 240);
   DrawText "CHECKMATE!" 45 75 (mkRGBA 255 50 50 255);
   DrawText (if winner g =? 1 then "YOU WIN!" else "FRANK WINS")
     45 95 colorWhite].

(** * The move log (lines 117-120 and 256)

    [executeMove] starts by printing one line about the move.  The line is
    modelled as the string it consists of. *)

(** [%c]: the UTF-8 encoding of the code point [r], and of U+FFFD when [r]
    is no code point. *)
Definition runeString (r : Z) : string :=
  let byte (v : Z) := ascii_of_nat (Z.to_nat v) in
  let cont (v : Z) := byte (128 + Z.rem v 64) in
  if (r <? 0) || (1114111 <? r) || ((55296 <=? r) && (r <=? 57343)) then
    String (byte 239) (String (byte 191) (String (byte 189) EmptyString))
  else if r <? 128 then String (byte r) EmptyString
  else if r <? 2048 then
    String (byte (192 + Z.quot r 64)) (String (cont r) EmptyString)
  else if r <? 65536 then
    String (byte (224 + Z.quot r 4096))
      (String (cont (Z.quot r 64)) (String (cont r) EmptyString))
  else
    String (byte (240 + Z.quot r 262144))
      (String (cont (Z.quot r 4096))
         (String (cont (Z.quot r 64)) (String (cont r) EmptyString))).

Definition toAlg (x y : Z) : string :=
  String.append (runeString (97 + x)) (showZ (8 - y)).

Definition pNames : list string :=
  ["Pawn"; "Bishop"; "Rook"; "Knight"; "Queen"; "King"]%string.

Definition pName (p : ChessPiece) : res string :=
  match pNames !! Z.to_nat (typeCode (pType p)) with
  | Some s => Ok s
  | None => Panic
  end.

(** The line that [executeMove g fx fy tx ty] prints (line 256), after
    reading the piece to move (line 255). *)
Definition moveLine (g : Game) (fx fy tx ty : Z) : res string :=
  cell ← rd g fy fx;
  match cell with
  | None => Panic
  | Some p =>
      name ← pName p;
      Ok (String.append "["
         (String.append (showZ (colorCode (pColor p)))
         (String.append "] "
         (String.append name
         (String.append ": "
         (String.append (toAlg fx fy)
         (String.append " -> "
         (String.append (toAlg tx ty)
            (String (ascii_of_nat 10) EmptyString)))))))))
  end.

(** ** Names of squares and pieces *)

(** The name of square [(x, y)] in algebraic notation, rank 8 being row 0
    of the array. *)
Definition squareName (x y : Z) : string :=
  String.append (String.substring (Z.to_nat x) 1 "abcdefgh")
    (String.substring (Z.to_nat y) 1 "87654321").

Definition typeName (t : PieceType) : string :=
  match t with
  | Pawn => "Pawn" | Bishop => "Bishop" | Rook => "Rook"
  | Knight => "Knight" | Queen => "Queen" | King => "King"
  end.

(** * The earlier program (main.go, from line 532)

    The file ends with an earlier version of the program, which sets up
    the board for a player colour and draws it with the labels of files and
    ranks; its [Update] does nothing.  The two enumerations, [abs], the
    size of the tiles and of the grid and the sprite sheet are as above. *)

Module Legacy.

Record ChessPiece : Type := mkPiece {
  pType : PieceType;
  pColor : Color;
  Value : Z;
  SpriteID : Z
}.

(** Lines 591-601. *)
Definition IsMoveLegal (p : ChessPiece) (fromX fromY toX toY : Z) : bool :=
  let dx := abs (toX - fromX) in
  let dy := abs (toY - fromY) in
  match pType p with
  | Knight => (dx =? 2) && (dy =? 1) || (dx =? 1) && (dy =? 2)
  | _ => true
  end.

Record Game : Type := mkGame {
  board : gmap (Z * Z) ChessPiece;
  playerColor : Color
}.

Definition valMap (t : PieceType) : Z :=
  match t with
  | Pawn => 1 | Knight => 3 | Bishop => 3 | Rook => 5 | Queen => 9 | King => 0
  end.

(** Lines 612-624. *)
Definition createPiece (g : Game) (t : PieceType) (c : Color) (x y : Z)
    : res Game :=
  let spriteID := typeCode t in
  let spriteID := if decide (c = White) then spriteID + 6 else spriteID in
  if inBoard y && inBoard x
  then Ok (mkGame (<[(y, x) := mkPiece t c (valMap t) spriteID]> (board g))
             (playerColor g))
  else Panic.

Definition whiteLayout : list PieceType :=
  [Rook; Knight; Bishop; Queen; King; Bishop; Knight; Rook].

Definition blackLayout : list PieceType :=
  [Rook; Knight; Bishop; Queen; King; Bishop; Knight; Rook].

(** [l[i]]. *)
Definition at_ (l : list PieceType) (i : Z) : res PieceType :=
  if i <? 0 then Panic else
  match l !! Z.to_nat i with
  | Some t => Ok t
  | None => Panic
  end.

(** Lines 626-652. *)
Definition NewGame (pColor : Color) : res Game :=
  let g := mkGame ∅ pColor in
  r ← (if decide (pColor = White) then
         loop (R := Empty_set) (fun i g =>
           t ← at_ blackLayout i;
           g ← createPiece g t Black i 0;
           g ← createPiece g Pawn Black i 1;
           g ← createPiece g Pawn White i 6;
           t ← at_ whiteLayout i;
           g ← createPiece g t White i 7;
           Ok (inl g)) idx8 g
       else
         loop (R := Empty_set) (fun i g =>
           t ← at_ whiteLayout i;
           g ← createPiece g t White i 0;
           g ← createPiece g Pawn White i 1;
           g ← createPiece g Pawn Black i 6;
           t ← at_ blackLayout i;
           g ← createPiece g t Black i 7;
           Ok (inl g)) idx8 g);
  Ok (fellThrough r).

(** Line 654. *)
Definition Update (g : Game) : res Game := Ok g.

(** The body of the two loops of lines 658-690 at grid cell [(x, y)]. *)
Definition drawCell (g : Game) (x y : Z) : res (list DrawOp) :=
  let posX := x * tileSize in
  let posY := y * tileSize in
  if (x =? 0) || (x =? gridSize - 1) || (y =? 0) || (y =? gridSize - 1) then
    s ← sprite 14;
    Ok [DrawImage s posX posY false]
  else
    let bx := x - 1 in
    let by_ := y - 1 in
    let tileID := if negb (Z.rem (bx + by_) 2 =? 0) then 12 else 13 in
    s ← sprite tileID;
    cell ← (if inBoard by_ && inBoard bx
            then Ok (board g !! (by_, bx)) else Panic);
    match cell with
    | Some piece =>
        ps ← sprite (SpriteID piece);
        Ok [DrawImage s posX posY false; DrawImage ps posX posY false]
    | None => Ok [DrawImage s posX posY false]
    end.

(** [string('a' + rune(i))] and [string('h' - rune(i))], for the indices
    0..7 of the loop. *)
Definition colLabel (g : Game) (i : Z) : string :=
  String (ascii_of_nat (Z.to_nat (if decide (playerColor g = White)
                                  then 97 + i else 104 - i)))
    EmptyString.

Definition rowLabel (g : Game) (i : Z) : string :=
  if decide (playerColor g = White) then showZ (8 - i) else showZ (1 + i).

(** The four texts of one round of the loop of lines 693-708. *)
Definition labels (g : Game) (i : Z) : list DrawOp :=
  [DrawText (colLabel g i) ((i + 1) * tileSize + 5) 12 colorWhite;
   DrawText (colLabel g i) ((i + 1) * tileSize + 5) (9 * tileSize + 12)
     colorWhite;
   DrawText (rowLabel g i) 5 ((i + 1) * tileSize + 12) colorWhite;
   DrawText (rowLabel g i) (9 * tileSize + 5) ((i + 1) * tileSize + 12)
     colorWhite].

(** Lines 656-710. *)
Definition Draw (g : Game) : res (list DrawOp) :=
  grid ← collectM (fun y => collectM (fun x => drawCell g x y) idx10) idx10;
  Ok (grid ++ flat_map (labels g) idx8).

(** Lines 712-714. *)
Definition Layout (w h : Z) : Z * Z :=
  (gridSize * tileSize, gridSize * tileSize).

End Legacy.

(** ** The board and the frame of the earlier program *)

(** A piece as the earlier [createPiece] makes it. *)
Definition legacyPiece (t : PieceType) (c : Color) : Legacy.ChessPiece :=
  Legacy.mkPiece t c (Legacy.valMap t)
    (typeCode t + (if decide (c = White) then 6 else 0)).

(** The board that the earlier [NewGame] sets up. *)
Definition legacyBoard (pColor : Color) : gmap (Z * Z) Legacy.ChessPiece :=
  match Legacy.NewGame pColor with
  | Ok g => Legacy.board g
  | _ => ∅
  end.

(** Every piece on the board has a sprite in the sheet. *)
Definition legacySpritesInSheet (g : Legacy.Game) : Prop :=
  forall x y p, onBoard x y -> Legacy.board g !! (y, x) = Some p ->
    0 <= Legacy.SpriteID p < spriteCount.

(** The drawing calls for grid cell [(x, y)]. *)
Definition legacyCellOps (g : Legacy.Game) (x y : Z) : list DrawOp :=
  match Legacy.drawCell g x y with
  | Ok l => l
  | _ => []
  end.

(** * Properties *)

(** ** The outcome monad and the loop combinator *)

Lemma bind_Ok {A B} (m : res A) (f : A -> res B) (b : B) :
  (m ≫= f) = Ok b <-> exists a, m = Ok a /\ f a = Ok b.
Proof.
  destruct m as [a| |]; simpl; split.
  - intros H. exists a. split; [reflexivity | exact H].
  - intros (a' & Ha & Hf). injection Ha as ->. exact Hf.
  - discriminate.
  - intros (a' & Ha & _). discriminate.
  - discriminate.
  - intros (a' & Ha & _). discriminate.
Qed.

Lemma bind_NoFuel {A B} (m : res A) (f : A -> res B) :
  (m ≫= f) = NoFuel <-> m = NoFuel \/ exists a, m = Ok a /\ f a = NoFuel.
Proof.
  destruct m as [a| |]; simpl; split.
  - intros H. right. exists a. split; [reflexivity | exact H].
  - intros [Ha | (a' & Ha & Hf)]; [discriminate |]. injection Ha as ->. exact Hf.
  - discriminate.
  - intros [Ha | (a' & Ha & _)]; discriminate.
  - intros _. left. reflexivity.
  - reflexivity.
Qed.

Lemma idx8_spec (i : Z) : In i idx8 <-> 0 <= i <= 7.
Proof.
  unfold idx8. simpl. split.
  - intros H. repeat (destruct H as [<- | H]; [lia |]). destruct H.
  - intros H.
    assert (i = 0 \/ i = 1 \/ i = 2 \/ i = 3 \/ i = 4 \/ i = 5 \/ i = 6 \/ i = 7)
      as Hc by lia.
    intuition.
Qed.

Lemma inBoard_spec (i : Z) : inBoard i = true <-> 0 <= i <= 7.
Proof. unfold inBoard. rewrite andb_true_iff, !Z.leb_le. reflexivity. Qed.

Lemma inBoard_idx8 (i : Z) : In i idx8 -> inBoard i = true.
Proof. rewrite idx8_spec, inBoard_spec. trivial. Qed.

Section Loop.
Context {A S R : Type}.
Variable body : A -> S -> res (S + R).

(** A loop whose body hands the state on unchanged is a search for the
    first index at which the body leaves the function. *)
Lemma loop_falls_through (l : list A) (s : S) :
  (forall a, In a l -> body a s = Ok (inl s)) ->
  loop body l s = Ok (inl s).
Proof.
  induction l as [|a l IH]; simpl; intros H; [reflexivity |].
  rewrite (H a) by (left; reflexivity). simpl.
  apply IH. intros a' Ha'. apply H. right. exact Ha'.
Qed.

Lemma loop_leaves (l1 l2 : list A) (a : A) (s : S) (v : R) :
  (forall a', In a' l1 -> body a' s = Ok (inl s)) ->
  body a s = Ok (inr v) ->
  loop body (l1 ++ a :: l2) s = Ok (inr v).
Proof.
  induction l1 as [|a1 l1 IH]; simpl; intros H Ha.
  - rewrite Ha. reflexivity.
  - rewrite (H a1) by (left; reflexivity). simpl.
    apply IH; [| exact Ha]. intros a' Ha'. apply H. right. exact Ha'.
Qed.

Hypothesis body_keeps : forall a s s', body a s = Ok (inl s') -> s' = s.

Lemma loop_inl (l : list A) (s s' : S) :
  loop body l s = Ok (inl s') ->
  s' = s /\ forall a, In a l -> body a s = Ok (inl s).
Proof.
  revert s'. induction l as [|a l IH]; simpl; intros s' H.
  - injection H as <-. split; [reflexivity | intros a []].
  - apply bind_Ok in H as ([s1 | v] & Hb & H); [| discriminate].
    pose proof (body_keeps _ _ _ Hb) as ->.
    apply IH in H as [-> H]. split; [reflexivity |].
    intros a' [<- | Ha']; [exact Hb | apply H, Ha'].
Qed.

Lemma loop_inr (l : list A) (s : S) (v : R) :
  loop body l s = Ok (inr v) ->
  exists l1 a l2, l = l1 ++ a :: l2 /\
    (forall a', In a' l1 -> body a' s = Ok (inl s)) /\
    body a s = Ok (inr v).
Proof.
  induction l as [|a l IH]; simpl; intros H; [discriminate |].
  apply bind_Ok in H as ([s1 | v1] & Hb & H).
  - pose proof (body_keeps _ _ _ Hb) as ->.
    apply IH in H as (l1 & a' & l2 & -> & Hl1 & Ha').
    exists (a :: l1), a', l2. split; [reflexivity |]. split; [| exact Ha'].
    intros a'' [<- | Hin]; [exact Hb | apply Hl1, Hin].
  - injection H as ->. exists [], a, l. split; [reflexivity |].
    split; [intros a' [] | exact Hb].
Qed.

(** The state handed on by a completed loop is the initial one. *)
Lemma loop_keeps (l : list A) (s s' : S) :
  loop body l s = Ok (inl s') -> s' = s.
Proof. intros H. apply loop_inl in H as [H _]. exact H. Qed.
End Loop.

(** ** Board accesses *)

Lemma with_board_same (g : Game) : with_board g (board g) = g.
Proof. destruct g. reflexivity. Qed.

Lemma with_board_eq (g : Game) (b : gmap (Z * Z) ChessPiece) :
  b = board g -> with_board g b = g.
Proof. intros ->. apply with_board_same. Qed.

Lemma with_board_twice (g : Game) (b1 b2 : gmap (Z * Z) ChessPiece) :
  with_board (with_board g b1) b2 = with_board g b2.
Proof. reflexivity. Qed.

Lemma board_with_board (g : Game) (b : gmap (Z * Z) ChessPiece) :
  board (with_board g b) = b.
Proof. reflexivity. Qed.

Lemma rd_Ok (g : Game) (y x : Z) (c : option ChessPiece) :
  rd g y x = Ok c <-> (0 <= y <= 7 /\ 0 <= x <= 7) /\ board g !! (y, x) = c.
Proof.
  unfold rd. destruct (inBoard y && inBoard x) eqn:E.
  - apply andb_true_iff in E as [Hy Hx].
    apply inBoard_spec in Hy. apply inBoard_spec in Hx.
    split; [intros [= <-]; auto | intros [_ ->]; reflexivity].
  - split; [discriminate |]. intros [[Hy Hx] _].
    apply inBoard_spec in Hy. apply inBoard_spec in Hx.
    rewrite Hy, Hx in E. discriminate.
Qed.

Lemma rd_in (g : Game) (y x : Z) :
  0 <= y <= 7 -> 0 <= x <= 7 -> rd g y x = Ok (board g !! (y, x)).
Proof. intros Hy Hx. apply rd_Ok. auto. Qed.

Lemma rd_not_NoFuel (g : Game) (y x : Z) : rd g y x <> NoFuel.
Proof. unfold rd. destruct (inBoard y && inBoard x); discriminate. Qed.

Lemma wr_in (g : Game) (y x : Z) (v : option ChessPiece) :
  0 <= y <= 7 -> 0 <= x <= 7 ->
  wr g y x v = Ok (with_board g (partial_alter (fun _ => v) (y, x) (board g))).
Proof.
  intros Hy Hx. unfold wr.
  apply inBoard_spec in Hy. apply inBoard_spec in Hx. rewrite Hy, Hx. reflexivity.
Qed.

Lemma try_move (g : Game) (p : ChessPiece) (fx fy tx ty : Z) :
  0 <= fx <= 7 -> 0 <= fy <= 7 -> 0 <= tx <= 7 -> 0 <= ty <= 7 ->
  (g1 ← wr g ty tx (Some p); wr g1 fy fx None) = Ok (tried g p fx fy tx ty).
Proof.
  intros Hfx Hfy Htx Hty. rewrite wr_in by assumption. simpl.
  rewrite wr_in by assumption. reflexivity.
Qed.

(** Taking the tried move back,
    [g.board[fy][fx], g.board[ty][tx] = p, orig], restores the board. *)
Lemma take_back (g : Game) (p : ChessPiece) (orig : option ChessPiece)
    (fx fy tx ty : Z) :
  0 <= fx <= 7 -> 0 <= fy <= 7 -> 0 <= tx <= 7 -> 0 <= ty <= 7 ->
  board g !! (fy, fx) = Some p ->
  board g !! (ty, tx) = orig ->
  (g1 ← wr (tried g p fx fy tx ty) fy fx (Some p); wr g1 ty tx orig) = Ok g.
Proof.
  intros Hfx Hfy Htx Hty Hp Ho. rewrite wr_in by assumption. simpl.
  rewrite wr_in by assumption. f_equal.
  unfold tried. rewrite !with_board_twice, !board_with_board.
  apply with_board_eq.
  apply map_eq. intros [y x].
  destruct (decide ((ty, tx) = (y, x))) as [<- | Hne1].
  { rewrite lookup_partial_alter_eq. symmetry. exact Ho. }
  rewrite lookup_partial_alter_ne by exact Hne1.
  destruct (decide ((fy, fx) = (y, x))) as [<- | Hne2].
  { rewrite lookup_partial_alter_eq. symmetry. exact Hp. }
  rewrite lookup_partial_alter_ne by exact Hne2.
  rewrite lookup_partial_alter_ne by exact Hne2.
  rewrite lookup_partial_alter_ne by exact Hne1.
  reflexivity.
Qed.

(** ** [isPathClear] *)

Lemma abs_spec (v : Z) : abs v = Z.abs v.
Proof. unfold abs. destruct (Z.ltb_spec v 0); lia. Qed.

(** [dx / abs(dx)] with Go's truncating division is the sign of [dx]. *)
Lemma step_sgn (d : Z) :
  (if negb (d =? 0) then Z.quot d (abs d) else 0) = Z.sgn d.
Proof.
  rewrite abs_spec. destruct (Z.eqb_spec d 0) as [-> | Hd]; simpl; [reflexivity |].
  destruct (Z.lt_trichotomy d 0) as [Hlt | [-> | Hgt]]; [| lia |].
  - rewrite Z.abs_neq by lia. rewrite Z.quot_opp_r by lia.
    rewrite Z.quot_same by lia. rewrite Z.sgn_neg by lia. reflexivity.
  - rewrite Z.abs_eq by lia. rewrite Z.quot_same by lia.
    rewrite Z.sgn_pos by lia. reflexivity.
Qed.

Lemma pathLoop_eq (k : nat) (g : Game) (sx sy tx ty cx cy : Z) :
  pathLoop k g sx sy tx ty cx cy =
  if negb (cx =? tx) || negb (cy =? ty) then
    c ← rd g cy cx;
    match c with
    | Some _ => Ok false
    | None =>
        match k with
        | O => NoFuel
        | S k' => pathLoop k' g sx sy tx ty (cx + sx) (cy + sy)
        end
    end
  else Ok true.
Proof. destruct k; reflexivity. Qed.

(** A walk of [j] cells that ends on the target: the answer is whether all
    [j] cells are empty. *)
Lemma pathLoop_walk (g : Game) (sx sy tx ty : Z) (j : nat) :
  forall (k : nat) (cx cy : Z),
  (j <= k)%nat ->
  sx <> 0 \/ sy <> 0 ->
  tx = cx + Z.of_nat j * sx -> ty = cy + Z.of_nat j * sy ->
  (forall i, 0 <= i < Z.of_nat j ->
     0 <= cy + i * sy <= 7 /\ 0 <= cx + i * sx <= 7) ->
  exists b, pathLoop k g sx sy tx ty cx cy = Ok b /\
    (b = true <->
     forall i, 0 <= i < Z.of_nat j -> board g !! (cy + i * sy, cx + i * sx) = None).
Proof.
  induction j as [|j IH]; intros k cx cy Hk Hs Hx Hy Hin; rewrite pathLoop_eq.
  - replace tx with cx by lia. replace ty with cy by lia.
    rewrite !Z.eqb_refl. simpl. exists true. split; [reflexivity |].
    split; [intros _ i Hi; lia | reflexivity].
  - assert (negb (cx =? tx) || negb (cy =? ty) = true) as ->.
    { apply orb_true_iff. rewrite !negb_true_iff, !Z.eqb_neq. nia. }
    destruct (Hin 0 ltac:(lia)) as [Hcy Hcx].
    rewrite !Z.mul_0_l, !Z.add_0_r in Hcy, Hcx.
    rewrite rd_in by assumption. simpl.
    destruct (board g !! (cy, cx)) as [q|] eqn:Hc.
    + exists false. split; [reflexivity |]. split; [discriminate |].
      intros H. specialize (H 0 ltac:(lia)).
      rewrite !Z.mul_0_l, !Z.add_0_r in H. congruence.
    + destruct k as [|k]; [lia |].
      destruct (IH k (cx + sx) (cy + sy)) as (b & Hb & Hiff);
        [lia | exact Hs | lia | lia | |].
      { intros i Hi. specialize (Hin (i + 1) ltac:(lia)).
        replace (cy + sy + i * sy) with (cy + (i + 1) * sy) by lia.
        replace (cx + sx + i * sx) with (cx + (i + 1) * sx) by lia.
        exact Hin. }
      exists b. split; [exact Hb |]. rewrite Hiff. split.
      * intros H i Hi. destruct (Z.eq_dec i 0) as [-> | Hne].
        { rewrite !Z.mul_0_l, !Z.add_0_r. exact Hc. }
        specialize (H (i - 1) ltac:(lia)).
        replace (cy + sy + (i - 1) * sy) with (cy + i * sy) in H by lia.
        replace (cx + sx + (i - 1) * sx) with (cx + i * sx) in H by lia.
        exact H.
      * intros H i Hi. specialize (H (i + 1) ltac:(lia)).
        replace (cy + sy + i * sy) with (cy + (i + 1) * sy) by lia.
        replace (cx + sx + i * sx) with (cx + (i + 1) * sx) by lia.
        exact H.
Qed.

(** On a rank, a file or a diagonal between two squares of the board,
    [isPathClear] returns, and returns true exactly when every square
    strictly between the two is empty. *)
Lemma isPathClear_line (g : Game) (fx fy tx ty : Z) :
  0 <= fx <= 7 -> 0 <= fy <= 7 -> 0 <= tx <= 7 -> 0 <= ty <= 7 ->
  fx = tx \/ fy = ty \/ Z.abs (tx - fx) = Z.abs (ty - fy) ->
  exists b, isPathClear g fx fy tx ty = Ok b /\
    (b = true <->
     forall i, 1 <= i < Z.max (Z.abs (tx - fx)) (Z.abs (ty - fy)) ->
       board g !! (fy + i * Z.sgn (ty - fy), fx + i * Z.sgn (tx - fx)) = None).
Proof.
  intros Hfx Hfy Htx Hty Hal. unfold isPathClear. cbv zeta.
  rewrite !step_sgn.
  set (sx := Z.sgn (tx - fx)). set (sy := Z.sgn (ty - fy)).
  set (N := Z.max (Z.abs (tx - fx)) (Z.abs (ty - fy))).
  destruct (Z.eq_dec N 0) as [HN | HN].
  - assert (tx = fx) by lia. assert (ty = fy) by lia. subst tx ty.
    subst sx sy. rewrite !Z.sub_diag. change (Z.sgn 0) with 0.
    rewrite !Z.add_0_r, pathLoop_eq, !Z.eqb_refl. simpl.
    exists true. split; [reflexivity |]. split; [intros _ i Hi; lia | reflexivity].
  - assert (Hsx : tx - fx = N * sx).
    { subst sx N. destruct (Z.eq_dec tx fx) as [-> | Hne].
      - rewrite Z.sub_diag. simpl. lia.
      - assert (Z.abs (tx - fx) = Z.max (Z.abs (tx - fx)) (Z.abs (ty - fy))) as <- by lia.
        rewrite <- Z.sgn_abs at 1. lia. }
    assert (Hsy : ty - fy = N * sy).
    { subst sy N. destruct (Z.eq_dec ty fy) as [-> | Hne].
      - rewrite Z.sub_diag. simpl. lia.
      - assert (Z.abs (ty - fy) = Z.max (Z.abs (tx - fx)) (Z.abs (ty - fy))) as <- by lia.
        rewrite <- Z.sgn_abs at 1. lia. }
    assert (Hsxr : -1 <= sx <= 1) by (subst sx; lia).
    assert (Hsyr : -1 <= sy <= 1) by (subst sy; lia).
    assert (HNpos : 1 <= N) by lia.
    destruct (pathLoop_walk g sx sy tx ty (Z.to_nat (N - 1)) 8 (fx + sx) (fy + sy))
      as (b & Hb & Hiff).
    + lia.
    + subst sx sy. lia.
    + rewrite Z2Nat.id by lia. lia.
    + rewrite Z2Nat.id by lia. lia.
    + rewrite Z2Nat.id by lia. intros i Hi. split; nia.
    + exists b. split; [exact Hb |]. rewrite Hiff, Z2Nat.id by lia. split.
      * intros H i Hi. specialize (H (i - 1) ltac:(lia)).
        replace (fy + sy + (i - 1) * sy) with (fy + i * sy) in H by lia.
        replace (fx + sx + (i - 1) * sx) with (fx + i * sx) in H by lia.
        exact H.
      * intros H i Hi. specialize (H (i + 1) ltac:(lia)).
        replace (fy + sy + i * sy) with (fy + (i + 1) * sy) by lia.
        replace (fx + sx + i * sx) with (fx + (i + 1) * sx) by lia.
        exact H.
Qed.

(** The budget of [pathLoop] is never exhausted: a walk that misses its
    target leaves the board within eight steps and panics there. *)
Lemma pathLoop_budget_x (g : Game) (sx sy tx ty : Z) (k : nat) :
  forall cx cy,
  (sx = 1 /\ (cx < 0 \/ 8 - cx <= Z.of_nat k)) \/
  (sx = -1 /\ (7 < cx \/ cx + 1 <= Z.of_nat k)) ->
  pathLoop k g sx sy tx ty cx cy <> NoFuel.
Proof.
  induction k as [|k IH]; intros cx cy H; rewrite pathLoop_eq;
    (destruct (negb (cx =? tx) || negb (cy =? ty)); [| discriminate]);
    unfold rd; destruct (inBoard cy && inBoard cx) eqn:E; simpl; try discriminate;
    apply andb_true_iff in E as [_ E]; apply inBoard_spec in E;
    (destruct (board g !! (cy, cx)); [discriminate |]).
  - lia.
  - apply IH. lia.
Qed.

Lemma pathLoop_budget_y (g : Game) (sx sy tx ty : Z) (k : nat) :
  forall cx cy,
  (sy = 1 /\ (cy < 0 \/ 8 - cy <= Z.of_nat k)) \/
  (sy = -1 /\ (7 < cy \/ cy + 1 <= Z.of_nat k)) ->
  pathLoop k g sx sy tx ty cx cy <> NoFuel.
Proof.
  induction k as [|k IH]; intros cx cy H; rewrite pathLoop_eq;
    (destruct (negb (cx =? tx) || negb (cy =? ty)); [| discriminate]);
    unfold rd; destruct (inBoard cy && inBoard cx) eqn:E; simpl; try discriminate;
    apply andb_true_iff in E as [E _]; apply inBoard_spec in E;
    (destruct (board g !! (cy, cx)); [discriminate |]).
  - lia.
  - apply IH. lia.
Qed.

Lemma isPathClear_fuel (g : Game) (fx fy tx ty : Z) :
  isPathClear g fx fy tx ty <> NoFuel.
Proof.
  unfold isPathClear. cbv zeta. rewrite !step_sgn.
  destruct (Z.lt_trichotomy (tx - fx) 0) as [Hx | [Hx | Hx]].
  - apply pathLoop_budget_x. right. rewrite Z.sgn_neg by lia. lia.
  - destruct (Z.lt_trichotomy (ty - fy) 0) as [Hy | [Hy | Hy]].
    + apply pathLoop_budget_y. right. rewrite Z.sgn_neg by lia. lia.
    + rewrite Hx, Hy. change (Z.sgn 0) with 0.
      rewrite !Z.add_0_r, pathLoop_eq.
      replace tx with fx by lia. replace ty with fy by lia.
      rewrite !Z.eqb_refl. discriminate.
    + apply pathLoop_budget_y. left. rewrite Z.sgn_pos by lia. lia.
  - apply pathLoop_budget_x. left. rewrite Z.sgn_pos by lia. lia.
Qed.

(** ** [isMoveLegal]: the shared prefix *)

Lemma range_guard (tx ty : Z) :
  (tx <? 0) || (7 <? tx) || (ty <? 0) || (7 <? ty) = false <-> onBoard tx ty.
Proof.
  unfold onBoard. rewrite !orb_false_iff, !Z.ltb_ge. lia.
Qed.

Lemma isMoveLegalW_off_board (chk : Color -> res bool) (g : Game)
    (p : ChessPiece) (fx fy tx ty : Z) :
  ~ onBoard tx ty -> isMoveLegalW chk g p fx fy tx ty = Ok false.
Proof.
  intros H. unfold isMoveLegalW.
  destruct ((tx <? 0) || (7 <? tx) || (ty <? 0) || (7 <? ty)) eqn:E;
    [reflexivity |].
  apply range_guard in E. contradiction.
Qed.

Lemma sameColorAs_false (g : Game) (p : ChessPiece) (tx ty : Z) :
  sameColorAs (board g !! (ty, tx)) p = false <-> notOwn g p tx ty.
Proof.
  unfold sameColorAs, notOwn. destruct (board g !! (ty, tx)) as [t|].
  - rewrite bool_decide_eq_false. split.
    + intros H t' [= <-]. exact H.
    + intros H. apply H. reflexivity.
  - split; [intros _ t' Ht'; discriminate | reflexivity].
Qed.

(** After the two guards every branch sees an on-board destination that
    holds no piece of the mover's colour. *)
Lemma isMoveLegalW_true_target (chk : Color -> res bool) (g : Game)
    (p : ChessPiece) (fx fy tx ty : Z) :
  isMoveLegalW chk g p fx fy tx ty = Ok true ->
  onBoard tx ty /\ notOwn g p tx ty.
Proof.
  unfold isMoveLegalW.
  destruct ((tx <? 0) || (7 <? tx) || (ty <? 0) || (7 <? ty)) eqn:E;
    [discriminate |].
  apply range_guard in E. destruct E as [Hx Hy].
  rewrite (rd_in g ty tx) by assumption. simpl.
  destruct (sameColorAs (board g !! (ty, tx)) p) eqn:Es; [discriminate |].
  intros _. apply sameColorAs_false in Es. split; [split |]; assumption.
Qed.

(** ** Pawn moves *)

Lemma isMoveLegalW_pawn (chk : Color -> res bool) (g : Game) (p : ChessPiece)
    (fx fy tx ty : Z) :
  pType p = Pawn ->
  exists b, isMoveLegalW chk g p fx fy tx ty = Ok b /\
            (b = true <-> pawnMove g p fx fy tx ty).
Proof.
  intros Hp. unfold isMoveLegalW.
  destruct ((tx <? 0) || (7 <? tx) || (ty <? 0) || (7 <? ty)) eqn:E.
  { exists false. split; [reflexivity |]. split; [discriminate |].
    intros [Hon _]. apply range_guard in Hon. congruence. }
  apply range_guard in E. destruct E as [Hx Hy].
  rewrite (rd_in g ty tx) by assumption. simpl.
  destruct (sameColorAs (board g !! (ty, tx)) p) eqn:Es.
  { exists false. split; [reflexivity |]. split; [discriminate |].
    intros (_ & Hno & _). apply sameColorAs_false in Hno. congruence. }
  apply sameColorAs_false in Es. rewrite Hp. cbv zeta.
  assert (Hdir : (if decide (pColor p = Black) then 1 else -1) = pawnDir (pColor p)).
  { destruct (pColor p); reflexivity. }
  rewrite Hdir. set (dir := pawnDir (pColor p)).
  assert (Hd : dir = 1 \/ dir = -1) by (subst dir; destruct (pColor p); auto).
  assert (Hsr : 1 <= startRank (pColor p) <= 6) by (destruct (pColor p); simpl; lia).
  rewrite !abs_spec.
  unfold pawnMove. fold dir.
  destruct (Z.eqb_spec fx tx) as [Hfx | Hfx]; simpl.
  - (* same file *)
    subst tx.
    destruct (Z.eqb_spec ty (fy + dir)) as [Hty | Hty]; simpl.
    + (* one step *)
      destruct (board g !! (ty, fx)) as [t|] eqn:Ht.
      * rewrite bool_decide_eq_false_2 by discriminate. simpl.
        rewrite andb_false_r. simpl.
        replace (Z.abs (fx - fx)) with 0 by lia. simpl.
        exists false. split; [reflexivity |]. split; [discriminate |].
        intros (_ & _ & [H | [H | H]]).
        -- destruct H as (_ & _ & H). discriminate.
        -- destruct H as (_ & _ & _ & _ & H). discriminate.
        -- destruct H as (H & _). lia.
      * rewrite bool_decide_eq_true_2 by reflexivity.
        exists true. split; [reflexivity |]. split; [| reflexivity].
        intros _. split; [split; assumption |]. split; [exact Es |].
        left. auto.
    + destruct (Z.eqb_spec ty (fy + 2 * dir)) as [Hty2 | Hty2]; simpl.
      * destruct (Z.eqb_spec fy (startRank (pColor p))) as [Hfy | Hfy]; simpl.
        -- destruct (board g !! (ty, fx)) as [t|] eqn:Ht.
           ++ rewrite bool_decide_eq_false_2 by discriminate. simpl.
              replace (Z.abs (fx - fx)) with 0 by lia. simpl.
              exists false. split; [reflexivity |]. split; [discriminate |].
              intros (_ & _ & [H | [H | H]]).
              ** destruct H as (_ & _ & H). discriminate.
              ** destruct H as (_ & _ & _ & _ & H). discriminate.
              ** destruct H as (H & _). lia.
           ++ rewrite bool_decide_eq_true_2 by reflexivity.
              destruct (isPathClear_line g fx fy fx ty) as (b & Hb & Hiff);
                [lia | lia | lia | lia | left; reflexivity |].
              rewrite Hb. simpl.
              assert (Hmid : b = true <-> board g !! (fy + dir, fx) = None).
              { rewrite Hiff. rewrite Hty2.
                replace (fy + 2 * dir - fy) with (2 * dir) by lia.
                replace (fx - fx) with 0 by lia.
                assert (Z.sgn (2 * dir) = dir) as -> by lia.
                assert (Z.max (Z.abs 0) (Z.abs (2 * dir)) = 2) as -> by lia.
                split.
                - intros H. specialize (H 1 ltac:(lia)).
                  replace (fy + 1 * dir) with (fy + dir) in H by lia.
                  replace (fx + 1 * Z.sgn 0) with fx in H by (simpl; lia).
                  exact H.
                - intros H i Hi. assert (i = 1) as -> by lia.
                  replace (fy + 1 * dir) with (fy + dir) by lia.
                  replace (fx + 1 * Z.sgn 0) with fx by (simpl; lia).
                  exact H. }
              destruct b.
              ** exists true. split; [reflexivity |]. split; [| reflexivity].
                 intros _. split; [split; assumption |]. split; [exact Es |].
                 right. left. repeat split; try assumption; try reflexivity.
                 apply Hmid. reflexivity.
              ** replace (Z.abs (fx - fx)) with 0 by lia. simpl.
                 exists false. split; [reflexivity |]. split; [discriminate |].
                 intros (_ & _ & [H | [H | H]]).
                 --- destruct H as (_ & H & _). lia.
                 --- destruct H as (_ & _ & _ & H & _).
                     apply Hmid in H. discriminate.
                 --- destruct H as (H & _). lia.
        -- replace (Z.abs (fx - fx)) with 0 by lia. simpl.
           exists false. split; [reflexivity |]. split; [discriminate |].
           intros (_ & _ & [H | [H | H]]).
           ++ destruct H as (_ & H & _). lia.
           ++ destruct H as (_ & _ & H & _). lia.
           ++ destruct H as (H & _). lia.
      * replace (Z.abs (fx - fx)) with 0 by lia. simpl.
        exists false. split; [reflexivity |]. split; [discriminate |].
        intros (_ & _ & [H | [H | H]]).
        -- destruct H as (_ & H & _). lia.
        -- destruct H as (_ & H & _). lia.
        -- destruct H as (H & _). lia.
  - (* another file *)
    destruct (Z.eqb_spec (Z.abs (tx - fx)) 1) as [Hdx | Hdx]; simpl.
    + destruct (Z.eqb_spec ty (fy + dir)) as [Hty | Hty]; simpl.
      * destruct (board g !! (ty, tx)) as [t|] eqn:Ht.
        -- rewrite bool_decide_eq_false_2 by discriminate. simpl.
           exists true. split; [reflexivity |]. split; [| reflexivity].
           intros _. split; [split; assumption |]. split; [exact Es |].
           right. right. repeat split; try assumption.
           left. exists t. split; [reflexivity | exact (Es t Ht)].
        -- rewrite bool_decide_eq_true_2 by reflexivity. simpl.
           destruct (Z.eqb_spec tx (epX g)) as [Hex | Hex]; simpl.
           ++ destruct (Z.eqb_spec ty (epY g)) as [Hey | Hey]; simpl.
              ** exists true. split; [reflexivity |]. split; [| reflexivity].
                 intros _. split; [split; assumption |]. split; [exact Es |].
                 right. right. repeat split; try assumption. right. auto.
              ** exists false. split; [reflexivity |]. split; [discriminate |].
                 intros (_ & _ & [H | [H | H]]).
                 --- destruct H as (H & _). lia.
                 --- destruct H as (H & _). lia.
                 --- destruct H as (_ & _ & [(t & H & _) | [_ H]]);
                       [discriminate | lia].
           ++ exists false. split; [reflexivity |]. split; [discriminate |].
              intros (_ & _ & [H | [H | H]]).
              ** destruct H as (H & _). lia.
              ** destruct H as (H & _). lia.
              ** destruct H as (_ & _ & [(t & H & _) | [H _]]);
                   [discriminate | lia].
      * exists false. split; [reflexivity |]. split; [discriminate |].
        intros (_ & _ & [H | [H | H]]).
        -- destruct H as (H & _). lia.
        -- destruct H as (H & _). lia.
        -- destruct H as (_ & H & _). lia.
    + exists false. split; [reflexivity |]. split; [discriminate |].
      intros (_ & _ & [H | [H | H]]).
      * destruct H as (H & _). lia.
      * destruct H as (H & _). lia.
      * destruct H as (H & _). lia.
Qed.

(** ** King moves *)

Lemma rank_path (g : Game) (fx fy rx : Z) :
  0 <= fx <= 7 -> 0 <= fy <= 7 -> 0 <= rx <= 7 ->
  exists b, isPathClear g fx fy rx fy = Ok b /\
    (b = true <->
     forall x, Z.min fx rx < x < Z.max fx rx -> board g !! (fy, x) = None).
Proof.
  intros Hfx Hfy Hrx.
  destruct (isPathClear_line g fx fy rx fy) as (b & Hb & Hiff);
    [assumption | assumption | assumption | assumption | right; left; reflexivity |].
  exists b. split; [exact Hb |]. rewrite Hiff.
  rewrite Z.sub_diag. change (Z.sgn 0) with 0. change (Z.abs 0) with 0.
  split.
  - intros H x Hx.
    destruct (Z.lt_trichotomy fx rx) as [Hlt | [Heq | Hgt]]; [| lia |].
    + specialize (H (x - fx) ltac:(lia)).
      rewrite Z.sgn_pos in H by lia.
      replace (fy + (x - fx) * 0) with fy in H by lia.
      replace (fx + (x - fx) * 1) with x in H by lia. exact H.
    + specialize (H (fx - x) ltac:(lia)).
      rewrite Z.sgn_neg in H by lia.
      replace (fy + (fx - x) * 0) with fy in H by lia.
      replace (fx + (fx - x) * -1) with x in H by lia. exact H.
  - intros H i Hi. replace (fy + i * 0) with fy by lia. apply H.
    destruct (Z.lt_trichotomy fx rx) as [Hlt | [Heq | Hgt]]; [| lia |].
    + rewrite Z.sgn_pos by lia. lia.
    + rewrite Z.sgn_neg by lia. lia.
Qed.

Lemma isMoveLegalW_king (chk : Color -> res bool) (g : Game) (p : ChessPiece)
    (fx fy tx ty : Z) :
  pType p = King ->
  0 <= fx <= 7 -> onBoard tx ty -> notOwn g p tx ty ->
  isMoveLegalW chk g p fx fy tx ty = Ok true <->
  (Z.abs (tx - fx) <= 1 /\ Z.abs (ty - fy) <= 1) \/
  castleMoveW chk g p fx fy tx ty.
Proof.
  intros Hp Hfx Hon Hno. unfold isMoveLegalW.
  destruct Hon as [Hx Hy].
  assert (E : (tx <? 0) || (7 <? tx) || (ty <? 0) || (7 <? ty) = false)
    by (apply range_guard; split; assumption).
  rewrite E. rewrite (rd_in g ty tx) by assumption. simpl.
  apply sameColorAs_false in Hno. rewrite Hno, Hp. cbv zeta.
  rewrite !abs_spec. unfold castleMoveW. fold (castleCorner fx tx).
  destruct (Z.leb_spec (Z.abs (tx - fx)) 1) as [Hdx | Hdx]; simpl.
  - destruct (Z.leb_spec (Z.abs (ty - fy)) 1) as [Hdy | Hdy]; simpl.
    + split; [intros _; left; split; assumption | reflexivity].
    + destruct (HasMoved p) eqn:Hm; simpl.
      { split; [discriminate |]. intros [[_ H] | (_ & H & _)]; lia. }
      destruct (Z.eqb_spec fy ty) as [Hfy | Hfy]; simpl.
      { lia. }
      split; [discriminate |]. intros [[_ H] | (H & _)]; [lia | congruence].
  - destruct (HasMoved p) eqn:Hm; simpl.
    { split; [discriminate |]. intros [[H _] | (_ & _ & H & _)]; [lia | discriminate]. }
    destruct (Z.eqb_spec fy ty) as [Hfy | Hfy]; simpl.
    2: { split; [discriminate |]. intros [[H _] | (H & _)]; [lia | congruence]. }
    destruct (Z.eqb_spec (Z.abs (tx - fx)) 2) as [Hd2 | Hd2]; simpl.
    2: { split; [discriminate |]. intros [[H _] | (_ & H & _)]; lia. }
    assert (Hrx : 0 <= castleCorner fx tx <= 7)
      by (unfold castleCorner; destruct (fx <? tx); lia).
    destruct (chk (pColor p)) as [[|] | |] eqn:Hc; simpl.
    + split; [discriminate |].
      intros [[H _] | (_ & _ & _ & H & _)]; [lia | discriminate].
    + rewrite (rd_in g fy (castleCorner fx tx)) by lia. simpl.
      destruct (board g !! (fy, castleCorner fx tx)) as [r|] eqn:Hr.
      * destruct (decide (pType r = Rook)) as [Hrt | Hrt].
        -- rewrite bool_decide_eq_true_2 by exact Hrt. simpl.
           destruct (HasMoved r) eqn:Hrm; simpl.
           { split; [discriminate |].
             intros [[H _] | (_ & _ & _ & _ & (r' & [= <-] & _ & H) & _)];
               [lia | congruence]. }
           destruct (rank_path g fx fy (castleCorner fx tx)) as (b & Hb & Hiff);
             [assumption | lia | assumption |].
           rewrite Hb. split.
           ++ intros [= ->]. right. repeat split; try reflexivity; try lia.
              ** exists r. auto.
              ** apply Hiff. reflexivity.
           ++ intros [[H _] | (_ & _ & _ & _ & _ & H)]; [lia |].
              f_equal. apply Hiff. exact H.
        -- rewrite bool_decide_eq_false_2 by exact Hrt. simpl.
           split; [discriminate |].
           intros [[H _] | (_ & _ & _ & _ & (r' & [= <-] & H & _) & _)];
             [lia | contradiction].
      * split; [discriminate |].
        intros [[H _] | (_ & _ & _ & _ & (r' & H & _) & _)];
          [lia | discriminate].
    + split; [discriminate |].
      intros [[H _] | (_ & _ & _ & H & _)]; [lia | discriminate].
    + split; [discriminate |].
      intros [[H _] | (_ & _ & _ & H & _)]; [lia | discriminate].
Qed.

(** ** More budget never changes an answer *)

Lemma le_res_refl {A} (r : res A) : le_res r r.
Proof. right. reflexivity. Qed.

Lemma le_res_trans {A} (r1 r2 r3 : res A) :
  le_res r1 r2 -> le_res r2 r3 -> le_res r1 r3.
Proof.
  intros [-> | ->] H; [left; reflexivity | exact H].
Qed.

Lemma le_res_Ok {A} (r r' : res A) (a : A) :
  le_res r r' -> r = Ok a -> r' = Ok a.
Proof. intros [-> | ->]; [discriminate | trivial]. Qed.

Lemma le_res_bind {A B} (m m' : res A) (f f' : A -> res B) :
  le_res m m' -> (forall a, le_res (f a) (f' a)) ->
  le_res (m ≫= f) (m' ≫= f').
Proof.
  intros [-> | ->] Hf; [left; reflexivity |].
  destruct m' as [a| |]; simpl; [apply Hf | right; reflexivity | left; reflexivity].
Qed.

Lemma loop_le {A S R} (body body' : A -> S -> res (S + R)) (l : list A) :
  (forall a s, le_res (body a s) (body' a s)) ->
  forall s, le_res (loop body l s) (loop body' l s).
Proof.
  intros Hb. induction l as [|a l IH]; intros s; simpl.
  - apply le_res_refl.
  - apply le_res_bind; [apply Hb |].
    intros [s' | v]; [apply IH | apply le_res_refl].
Qed.

Ltac le_step :=
  first
    [ apply le_res_refl
    | assumption
    | apply le_res_bind; [| intros ?]
    | apply loop_le; intros ? ?
    | match goal with
      | |- le_res (if ?b then _ else _) (if ?b then _ else _) => destruct b
      | |- le_res (match ?x with _ => _ end) (match ?x with _ => _ end) =>
          destruct x
      | |- le_res (let '(_, _) := ?x in _) (let '(_, _) := ?x in _) =>
          destruct x
      end ].

Lemma isMoveLegalW_le (chk chk' : Color -> res bool) (g : Game)
    (p : ChessPiece) (fx fy tx ty : Z) :
  le_res (chk (pColor p)) (chk' (pColor p)) ->
  le_res (isMoveLegalW chk g p fx fy tx ty) (isMoveLegalW chk' g p fx fy tx ty).
Proof. intros H. unfold isMoveLegalW. repeat le_step. Qed.

Lemma isSquareAttackedW_le (chk chk' : Color -> res bool) (g : Game)
    (x y : Z) (c : Color) :
  (forall c', le_res (chk c') (chk' c')) ->
  le_res (isSquareAttackedW chk g x y c) (isSquareAttackedW chk' g x y c).
Proof.
  intros H. unfold isSquareAttackedW.
  repeat first [ apply isMoveLegalW_le; apply H | le_step ].
Qed.

Lemma isInCheckW_le (chk chk' : Color -> res bool) (g : Game) (c : Color) :
  (forall c', le_res (chk c') (chk' c')) ->
  le_res (isInCheckW chk g c) (isInCheckW chk' g c).
Proof.
  intros H. unfold isInCheckW.
  repeat first [ apply isSquareAttackedW_le; exact H | le_step ].
Qed.

Lemma isInCheck_le_S (n : nat) (g : Game) :
  forall c, le_res (isInCheck n g c) (isInCheck (S n) g c).
Proof.
  induction n as [|n IH]; intros c.
  - left. reflexivity.
  - change (le_res (isInCheckW (isInCheck n g) g c)
                   (isInCheckW (isInCheck (S n) g) g c)).
    apply isInCheckW_le. exact IH.
Qed.

Lemma isInCheck_le (n m : nat) (g : Game) (c : Color) :
  (n <= m)%nat -> le_res (isInCheck n g c) (isInCheck m g c).
Proof.
  induction 1 as [|m _ IH]; [apply le_res_refl |].
  eapply le_res_trans; [exact IH | apply isInCheck_le_S].
Qed.

Lemma isInCheck_more (n m : nat) (g : Game) (c : Color) (b : bool) :
  (n <= m)%nat -> isInCheck n g c = Ok b -> isInCheck m g c = Ok b.
Proof. intros Hle. apply le_res_Ok, isInCheck_le, Hle. Qed.

Lemma isInCheck_det (n m : nat) (g : Game) (c : Color) (b b' : bool) :
  isInCheck n g c = Ok b -> isInCheck m g c = Ok b' -> b = b'.
Proof.
  intros H1 H2.
  apply (isInCheck_more n (Nat.max n m)) in H1; [| apply Nat.le_max_l].
  apply (isInCheck_more m (Nat.max n m)) in H2; [| apply Nat.le_max_r].
  congruence.
Qed.

Lemma isMoveLegal_le (n m : nat) (g : Game) (p : ChessPiece) (fx fy tx ty : Z) :
  (n <= m)%nat ->
  le_res (isMoveLegal n g p fx fy tx ty) (isMoveLegal m g p fx fy tx ty).
Proof. intros H. apply isMoveLegalW_le, isInCheck_le, H. Qed.

Lemma isMoveLegal_det (n m : nat) (g : Game) (p : ChessPiece)
    (fx fy tx ty : Z) (b b' : bool) :
  isMoveLegal n g p fx fy tx ty = Ok b ->
  isMoveLegal m g p fx fy tx ty = Ok b' -> b = b'.
Proof.
  intros H1 H2.
  apply (le_res_Ok _ _ _ (isMoveLegal_le n (Nat.max n m) g p fx fy tx ty
                            (Nat.le_max_l _ _))) in H1.
  apply (le_res_Ok _ _ _ (isMoveLegal_le m (Nat.max n m) g p fx fy tx ty
                            (Nat.le_max_r _ _))) in H2.
  congruence.
Qed.

Lemma isSquareAttacked_le (n m : nat) (g : Game) (x y : Z) (c : Color) :
  (n <= m)%nat ->
  le_res (isSquareAttacked n g x y c) (isSquareAttacked m g x y c).
Proof.
  intros H. apply isSquareAttackedW_le. intros c'. apply isInCheck_le, H.
Qed.

(** ** Calls that return *)

Lemma loop_returns {A S R} (body : A -> S -> res (S + R)) (l : list A) :
  (forall a s, In a l -> exists r, body a s = Ok r) ->
  forall s, exists r, loop body l s = Ok r.
Proof.
  induction l as [|a l IH]; intros Hb s; simpl.
  - eexists. reflexivity.
  - destruct (Hb a s (or_introl eq_refl)) as ([s' | v] & ->); simpl.
    + apply IH. intros a' s0 Hin. apply Hb. right. exact Hin.
    + eexists. reflexivity.
Qed.

Lemma isMoveLegalW_returns (chk : Color -> res bool) (g : Game)
    (p : ChessPiece) (fx fy tx ty : Z) :
  onBoard fx fy -> onBoard tx ty ->
  (castleShape p fx fy tx ty -> exists b, chk (pColor p) = Ok b) ->
  exists b, isMoveLegalW chk g p fx fy tx ty = Ok b.
Proof.
  intros [Hfx Hfy] [Htx Hty] Hchk. unfold isMoveLegalW.
  assert (E : (tx <? 0) || (7 <? tx) || (ty <? 0) || (7 <? ty) = false)
    by (apply range_guard; split; assumption).
  rewrite E. rewrite (rd_in g ty tx) by assumption. simpl.
  destruct (sameColorAs (board g !! (ty, tx)) p); [eexists; reflexivity |].
  rewrite !abs_spec. cbv zeta.
  destruct (pType p) eqn:Hp.
  - (* Pawn *)
    destruct ((fx =? tx) && (ty =? fy + (if decide (pColor p = Black) then 1 else -1))
              && bool_decide (board g !! (ty, tx) = None));
      [eexists; reflexivity |].
    destruct (Z.eqb_spec fx tx) as [Hx | Hx]; simpl.
    + destruct ((ty =? fy + 2 * (if decide (pColor p = Black) then 1 else -1))
                && (fy =? startRank (pColor p))
                && bool_decide (board g !! (ty, tx) = None)); simpl.
      * destruct (isPathClear_line g fx fy tx ty) as (b & -> & _);
          [assumption | assumption | assumption | assumption | left; exact Hx |].
        simpl. destruct b; [eexists; reflexivity |].
        repeat match goal with |- context [if ?c then _ else _] => destruct c end;
          eexists; reflexivity.
      * repeat match goal with |- context [if ?c then _ else _] => destruct c end;
          eexists; reflexivity.
    + repeat match goal with |- context [if ?c then _ else _] => destruct c end;
        eexists; reflexivity.
  - (* Bishop *)
    destruct (Z.eqb_spec (Z.abs (tx - fx)) (Z.abs (ty - fy))) as [Hd | Hd];
      [| eexists; reflexivity].
    destruct (isPathClear_line g fx fy tx ty) as (b & -> & _);
      [assumption | assumption | assumption | assumption | right; right; exact Hd |].
    eexists; reflexivity.
  - (* Rook *)
    destruct (Z.eqb_spec fx tx) as [Hx | Hx]; simpl.
    + destruct (isPathClear_line g fx fy tx ty) as (b & -> & _);
        [assumption | assumption | assumption | assumption | left; exact Hx |].
      eexists; reflexivity.
    + destruct (Z.eqb_spec fy ty) as [Hy | Hy]; [| eexists; reflexivity].
      destruct (isPathClear_line g fx fy tx ty) as (b & -> & _);
        [assumption | assumption | assumption | assumption | right; left; exact Hy |].
      eexists; reflexivity.
  - (* Knight *)
    eexists; reflexivity.
  - (* Queen *)
    destruct (Z.eqb_spec (Z.abs (tx - fx)) (Z.abs (ty - fy))) as [Hd | Hd]; simpl.
    + destruct (isPathClear_line g fx fy tx ty) as (b & -> & _);
        [assumption | assumption | assumption | assumption | right; right; exact Hd |].
      eexists; reflexivity.
    + destruct (Z.eqb_spec fx tx) as [Hx | Hx]; simpl.
      * destruct (isPathClear_line g fx fy tx ty) as (b & -> & _);
          [assumption | assumption | assumption | assumption | left; exact Hx |].
        eexists; reflexivity.
      * destruct (Z.eqb_spec fy ty) as [Hy | Hy]; [| eexists; reflexivity].
        destruct (isPathClear_line g fx fy tx ty) as (b & -> & _);
          [assumption | assumption | assumption | assumption | right; left; exact Hy |].
        eexists; reflexivity.
  - (* King *)
    destruct ((Z.abs (tx - fx) <=? 1) && (Z.abs (ty - fy) <=? 1));
      [eexists; reflexivity |].
    destruct (HasMoved p) eqn:Hm; simpl; [eexists; reflexivity |].
    destruct (Z.eqb_spec fy ty) as [Hy | Hy]; simpl; [| eexists; reflexivity].
    destruct (Z.eqb_spec (Z.abs (tx - fx)) 2) as [Hd | Hd]; simpl;
      [| eexists; reflexivity].
    destruct Hchk as (c & ->); [repeat split; assumption |]. simpl.
    destruct c; [eexists; reflexivity |].
    assert (Hrx : 0 <= (if fx <? tx then 7 else 0) <= 7)
      by (destruct (fx <? tx); lia).
    rewrite (rd_in g fy _) by assumption. simpl.
    destruct (board g !! (fy, if fx <? tx then 7 else 0)) as [r|];
      [| eexists; reflexivity].
    destruct (bool_decide (pType r = Rook) && negb (HasMoved r));
      [| eexists; reflexivity].
    destruct (rank_path g fx fy (if fx <? tx then 7 else 0)) as (b & -> & _);
      [assumption | assumption | assumption |].
    eexists; reflexivity.
Qed.

Lemma isSquareAttackedW_returns (chk : Color -> res bool) (g : Game)
    (x y : Z) (a : Color) :
  onBoard x y ->
  (forall fx fy p, onBoard fx fy -> board g !! (fy, fx) = Some p ->
     pColor p = a -> castleShape p fx fy x y -> exists b, chk a = Ok b) ->
  exists b, isSquareAttackedW chk g x y a = Ok b.
Proof.
  intros Hon Hchk. unfold isSquareAttackedW.
  match goal with
  | |- exists b, (loop ?body ?l ?s0 ≫= _) = _ =>
      assert (Hl : exists r, loop body l s0 = Ok r);
        [apply loop_returns | destruct Hl as (r & ->)]
  end.
  - intros fy [] Hfy. apply loop_returns. intros fx [] Hfx.
    apply idx8_spec in Hfy. apply idx8_spec in Hfx.
    rewrite rd_in by assumption. simpl.
    destruct (board g !! (fy, fx)) as [p|] eqn:Hp; [| eexists; reflexivity].
    destruct (decide (pColor p = a)) as [Ha | Ha].
    + rewrite bool_decide_eq_true_2 by exact Ha.
      destruct (isMoveLegalW_returns chk g p fx fy x y) as (b & ->);
        [split; assumption | exact Hon | |].
      * intros Hs. rewrite Ha. apply (Hchk fx fy p); try assumption.
        split; assumption.
      * simpl. destruct b; eexists; reflexivity.
    + rewrite bool_decide_eq_false_2 by exact Ha. eexists; reflexivity.
  - simpl. destruct r; eexists; reflexivity.
Qed.

(** ** The king that [isInCheck] finds *)

Lemma In_squares (x y : Z) : In (x, y) squares <-> onBoard x y.
Proof.
  unfold squares, onBoard. rewrite in_flat_map. split.
  - intros (y' & Hy' & Hin). apply in_map_iff in Hin as (x' & [= <- <-] & Hx').
    apply idx8_spec in Hy'. apply idx8_spec in Hx'. split; assumption.
  - intros [Hx Hy]. exists y. split; [apply idx8_spec, Hy |].
    apply in_map_iff. exists x. split; [reflexivity | apply idx8_spec, Hx].
Qed.

Lemma loop_fold {A S R} (body : A -> S -> res (S + R)) (f : S -> A -> S)
    (l : list A) :
  (forall a s, In a l -> body a s = Ok (inl (f s a))) ->
  forall s, loop body l s = Ok (inl (fold_left f l s)).
Proof.
  induction l as [|a l IH]; intros Hb s; simpl; [reflexivity |].
  rewrite Hb by (left; reflexivity). simpl.
  apply IH. intros a' s' Hin. apply Hb. right. exact Hin.
Qed.

Lemma findKing_lastKing (g : Game) (c : Color) :
  findKing g c = Ok (lastKing g c).
Proof.
  unfold findKing.
  rewrite (loop_fold _
    (fun k y => fold_left (fun k x => if kingAt g c (x, y) then (x, y) else k)
                  idx8 k)).
  - reflexivity.
  - intros y k Hy.
    apply (loop_fold _ (fun k x => if kingAt g c (x, y) then (x, y) else k)).
    intros x k' Hx. apply idx8_spec in Hy. apply idx8_spec in Hx.
    rewrite rd_in by assumption. simpl. unfold kingAt, isKingOf. simpl.
    destruct (board g !! (y, x)) as [p|]; [| reflexivity].
    destruct (bool_decide (pType p = King) && bool_decide (pColor p = c));
      reflexivity.
Qed.

Lemma fold_last {A} (P : A -> bool) (l : list A) (k0 : A) :
  let r := fold_left (fun k a => if P a then a else k) l k0 in
  (r = k0 /\ forall a, In a l -> P a = false) \/
  (exists l1 l2, l = l1 ++ r :: l2 /\ P r = true /\
                 forall a, In a l2 -> P a = false).
Proof.
  induction l as [|a l IH] using rev_ind; simpl.
  - left. split; [reflexivity | intros a []].
  - rewrite fold_left_app. simpl. destruct (P a) eqn:Ha.
    + right. exists l, []. split; [reflexivity |]. split; [exact Ha | intros a' []].
    + destruct IH as [[Hr Hn] | (l1 & l2 & Hl & Hr & Hn)].
      * left. split; [exact Hr |]. intros a' Hin.
        apply in_app_or in Hin as [Hin | [<- | []]]; [apply Hn, Hin | exact Ha].
      * right. exists l1, (l2 ++ [a]). split.
        { rewrite Hl at 1. rewrite <- app_assoc. reflexivity. }
        split; [exact Hr |]. intros a' Hin.
        apply in_app_or in Hin as [Hin | [<- | []]]; [apply Hn, Hin | exact Ha].
Qed.

Lemma sorted_before {A} (R : A -> A -> Prop) (l1 l2 : list A) (r : A) :
  StronglySorted R (l1 ++ r :: l2) -> forall a, In a l1 -> R a r.
Proof.
  induction l1 as [|a1 l1 IH]; simpl; intros Hs a Hin; [destruct Hin |].
  apply StronglySorted_inv in Hs as [Hs Hall].
  destruct Hin as [<- | Hin]; [| apply IH; assumption].
  apply (proj1 (List.Forall_forall _ _) Hall).
  apply in_or_app. right. left. reflexivity.
Qed.

Lemma squares_by_rank :
  StronglySorted (fun a b : Z * Z => snd a <= snd b) squares.
Proof.
  unfold squares, idx8. simpl.
  repeat (apply SSorted_cons;
          [| repeat (apply List.Forall_cons; [simpl; lia |]); apply List.Forall_nil]).
  apply SSorted_nil.
Qed.

(** No king of colour [c] on the board: the scan leaves [(-1, -1)]. *)
Lemma lastKing_none (g : Game) (c : Color) :
  fst (lastKing g c) = -1 ->
  forall x y, onBoard x y -> isKingOf c (board g !! (y, x)) = false.
Proof.
  intros Hk x y Hon. unfold lastKing in Hk.
  destruct (fold_last (kingAt g c) squares (-1, -1))
    as [[_ Hn] | (l1 & l2 & Hl & Hr & _)].
  - apply (Hn (x, y)). apply In_squares, Hon.
  - set (r := fold_left _ squares (-1, -1)) in *.
    assert (Hin : In r squares).
    { rewrite Hl. apply in_or_app. right. left. reflexivity. }
    destruct r as [kx ky]. apply In_squares in Hin as [Hin _].
    simpl in Hk. lia.
Qed.

(** Otherwise it leaves a square of the board that holds such a king, and
    no such king stands on a later rank. *)
Lemma lastKing_some (g : Game) (c : Color) :
  fst (lastKing g c) <> -1 ->
  onBoard (fst (lastKing g c)) (snd (lastKing g c)) /\
  isKingOf c (board g !! (snd (lastKing g c), fst (lastKing g c))) = true /\
  forall x y, onBoard x y -> isKingOf c (board g !! (y, x)) = true ->
              y <= snd (lastKing g c).
Proof.
  intros Hk. unfold lastKing in *.
  destruct (fold_last (kingAt g c) squares (-1, -1))
    as [[Hr _] | (l1 & l2 & Hl & Hr & Hn)].
  - rewrite Hr in Hk. simpl in Hk. lia.
  - set (r := fold_left _ squares (-1, -1)) in *.
    assert (Hin : In r squares).
    { rewrite Hl. apply in_or_app. right. left. reflexivity. }
    split; [| split].
    + destruct r as [kx ky]. apply In_squares in Hin. exact Hin.
    + exact Hr.
    + intros x y Hon Hking.
      assert (Hxy : In (x, y) squares) by (apply In_squares, Hon).
      rewrite Hl in Hxy. apply in_app_or in Hxy as [Hxy | [Hxy | Hxy]].
      * pose proof squares_by_rank as Hs. rewrite Hl in Hs.
        apply (sorted_before _ _ _ _ Hs (x, y) Hxy).
      * rewrite Hxy. simpl. lia.
      * apply Hn in Hxy. unfold kingAt in Hxy. simpl in Hxy. congruence.
Qed.

Lemma isInCheckW_eq (chk : Color -> res bool) (g : Game) (c : Color) :
  isInCheckW chk g c =
  if fst (lastKing g c) =? -1 then Ok false
  else isSquareAttackedW chk g (fst (lastKing g c)) (snd (lastKing g c)) (opp c).
Proof.
  unfold isInCheckW. rewrite findKing_lastKing. simpl.
  destruct (lastKing g c) as [kx ky]. reflexivity.
Qed.

(** ** When the mutual recursion ends

    [isInCheck c] looks at the king it finds for [c] and asks every enemy
    piece whether it may move there.  Only an enemy king that has not moved
    and stands two files away on the same rank answers by calling
    [isInCheck] for its own colour.  [castleThreat g c] says that there is
    such an enemy king. *)

Lemma no_threat_returns (g : Game) (c : Color) :
  castleThreat g c = false ->
  exists b, forall chk, isInCheckW chk g c = Ok b.
Proof.
  intros Hth.
  destruct (Z.eqb_spec (fst (lastKing g c)) (-1)) as [Hk | Hk].
  - exists false. intros chk. rewrite isInCheckW_eq.
    apply Z.eqb_eq in Hk. rewrite Hk. reflexivity.
  - destruct (lastKing_some g c Hk) as (Hon & _ & _).
    destruct (isSquareAttackedW_returns (fun _ => NoFuel) g
                (fst (lastKing g c)) (snd (lastKing g c)) (opp c)) as (b & Hb).
    + exact Hon.
    + intros fx fy p [Hfx Hfy] Hp Hc (Hking & Hm & Hy & Hd). exfalso.
      unfold castleThreat in Hth. cbv zeta in Hth.
      apply Z.eqb_neq in Hk.
      assert (Hex : existsb
                (fun x => unmovedKingOf (opp c) (board g !! (snd (lastKing g c), x))
                          && (Z.abs (fst (lastKing g c) - x) =? 2)) idx8 = true).
      { apply existsb_exists. exists fx. split; [apply idx8_spec, Hfx |].
        rewrite <- Hy, Hp. unfold unmovedKingOf.
        rewrite !bool_decide_eq_true_2 by assumption. rewrite Hm. simpl.
        apply Z.eqb_eq. exact Hd. }
      rewrite Hk, Hex in Hth. discriminate.
    + exists b. intros chk. rewrite isInCheckW_eq.
      apply Z.eqb_neq in Hk. rewrite Hk.
      eapply le_res_Ok; [| exact Hb].
      apply isSquareAttackedW_le. intros c'. left. reflexivity.
Qed.

Lemma answered_returns (chk : Color -> res bool) (g : Game) (c : Color) :
  (exists b, chk (opp c) = Ok b) ->
  exists b, isInCheckW chk g c = Ok b.
Proof.
  intros Hchk. rewrite isInCheckW_eq.
  destruct (Z.eqb_spec (fst (lastKing g c)) (-1)) as [Hk | Hk];
    [eexists; reflexivity |].
  destruct (lastKing_some g c Hk) as (Hon & _ & _).
  apply isSquareAttackedW_returns; [exact Hon |].
  intros. exact Hchk.
Qed.

Lemma opp_opp (c : Color) : opp (opp c) = c.
Proof. destruct c; reflexivity. Qed.

(** With the recursion cut, two nested activations answer every call. *)
Lemma isInCheck_returns (g : Game) (c : Color) :
  recursionEnds g = true ->
  exists b, forall n, (2 <= n)%nat -> isInCheck n g c = Ok b.
Proof.
  intros Hs.
  assert (H2 : exists b, isInCheck 2 g c = Ok b).
  { destruct (castleThreat g c) eqn:Hc.
    - assert (Ho : castleThreat g (opp c) = false).
      { unfold recursionEnds in Hs. destruct c; simpl in *;
          rewrite Hc in Hs; destruct (castleThreat g _); simpl in Hs; congruence. }
      destruct (no_threat_returns g (opp c) Ho) as (b & Hb).
      change (exists b0, isInCheckW (isInCheck 1 g) g c = Ok b0).
      apply answered_returns. exists b.
      change (isInCheckW (isInCheck 0 g) g (opp c) = Ok b). apply Hb.
    - destruct (no_threat_returns g c Hc) as (b & Hb). exists b.
      change (isInCheckW (isInCheck 1 g) g c = Ok b). apply Hb. }
  destruct H2 as (b & Hb). exists b. intros n Hn.
  apply (isInCheck_more 2 n); assumption.
Qed.

Lemma isMoveLegal_returns (g : Game) (p : ChessPiece) (fx fy tx ty : Z) :
  recursionEnds g = true -> onBoard fx fy -> onBoard tx ty ->
  exists b, forall n, (2 <= n)%nat -> isMoveLegal n g p fx fy tx ty = Ok b.
Proof.
  intros Hs Hf Ht.
  destruct (isInCheck_returns g (pColor p) Hs) as (c & Hc).
  destruct (isMoveLegalW_returns (isInCheck 2 g) g p fx fy tx ty Hf Ht) as (b & Hb).
  { intros _. exists c. apply Hc. lia. }
  exists b. intros n Hn.
  eapply le_res_Ok; [apply (isMoveLegal_le 2 n); exact Hn | exact Hb].
Qed.

Lemma isSquareAttacked_returns (g : Game) (x y : Z) (a : Color) :
  recursionEnds g = true -> onBoard x y ->
  exists b, forall n, (2 <= n)%nat -> isSquareAttacked n g x y a = Ok b.
Proof.
  intros Hs Hon.
  destruct (isInCheck_returns g a Hs) as (c & Hc).
  destruct (isSquareAttackedW_returns (isInCheck 2 g) g x y a Hon) as (b & Hb).
  { intros. exists c. apply Hc. lia. }
  exists b. intros n Hn.
  eapply le_res_Ok; [apply (isSquareAttacked_le 2 n); exact Hn | exact Hb].
Qed.

(** ** A board on which the recursion does not end *)

Lemma facingKings_step (chk : Color -> res bool) (c : Color) :
  chk (opp c) = NoFuel -> isInCheckW chk facingKings c = NoFuel.
Proof.
  intros H. destruct c; simpl in H; vm_compute; rewrite H; reflexivity.
Qed.

Lemma facingKings_isInCheck (n : nat) :
  forall c, isInCheck n facingKings c = NoFuel.
Proof.
  induction n as [|n IH]; intros c; [reflexivity |].
  change (isInCheckW (isInCheck n facingKings) facingKings c = NoFuel).
  apply facingKings_step. apply IH.
Qed.

(** ** Searches

    A loop that tries candidates on the board, takes each one back, and
    leaves the function at the first success is a search over a predicate
    of the untouched state. *)

Lemma bind_Ok_l {A B} (a : A) (f : A -> res B) : (Ok a ≫= f) = f a.
Proof. reflexivity. Qed.

Lemma bind_assoc {A B C} (m : res A) (f : A -> res B) (k : B -> res C) :
  (m ≫= f) ≫= k = m ≫= (fun a => f a ≫= k).
Proof. destruct m; reflexivity. Qed.

Lemma loop_search {A S} (body : A -> S -> res (S + bool * S))
    (f : A -> res bool) (l : list A) (s : S) :
  (forall a, In a l ->
     body a s = (ok ← f a; Ok (if (ok : bool) then inr (true, s) else inl s))) ->
  loop body l s = (ok ← anyM f l; Ok (if (ok : bool) then inr (true, s) else inl s)).
Proof.
  induction l as [|a l IH]; intros Hb; simpl; [reflexivity |].
  rewrite Hb by (left; reflexivity). rewrite !bind_assoc.
  destruct (f a) as [[|] | |]; simpl; try reflexivity.
  apply IH. intros a' Hin. apply Hb. right. exact Hin.
Qed.

Lemma anyM_ext {A} (f f' : A -> res bool) (l : list A) :
  (forall a, In a l -> f a = f' a) -> anyM f l = anyM f' l.
Proof.
  induction l as [|a l IH]; intros H; simpl; [reflexivity |].
  rewrite (H a) by (left; reflexivity).
  rewrite IH; [reflexivity |]. intros a' Hin. apply H. right. exact Hin.
Qed.

Lemma anyM_true {A} (f : A -> res bool) (l : list A) :
  anyM f l = Ok true -> exists a, In a l /\ f a = Ok true.
Proof.
  induction l as [|a l IH]; simpl; [discriminate |].
  destruct (f a) as [[|] | |] eqn:Ha; simpl; try discriminate.
  - intros _. exists a. split; [left; reflexivity | exact Ha].
  - intros H. destruct (IH H) as (a' & Hin & Ha'). exists a'.
    split; [right; exact Hin | exact Ha'].
Qed.

Lemma anyM_false {A} (f : A -> res bool) (l : list A) :
  anyM f l = Ok false <-> forall a, In a l -> f a = Ok false.
Proof.
  induction l as [|a l IH]; simpl.
  - split; [intros _ a [] | reflexivity].
  - destruct (f a) as [[|] | |] eqn:Ha; simpl.
    + split; [discriminate |]. intros H.
      specialize (H a (or_introl eq_refl)). congruence.
    + rewrite IH. split.
      * intros H a' [<- | Hin]; [exact Ha | apply H, Hin].
      * intros H a' Hin. apply H. right. exact Hin.
    + split; [discriminate |]. intros H.
      specialize (H a (or_introl eq_refl)). congruence.
    + split; [discriminate |]. intros H.
      specialize (H a (or_introl eq_refl)). congruence.
Qed.

Lemma anyM_returns {A} (f : A -> res bool) (l : list A) :
  (forall a, In a l -> exists b, f a = Ok b) -> exists b, anyM f l = Ok b.
Proof.
  induction l as [|a l IH]; intros H; simpl; [eexists; reflexivity |].
  destruct (H a (or_introl eq_refl)) as ([|] & ->); simpl.
  - eexists; reflexivity.
  - apply IH. intros a' Hin. apply H. right. exact Hin.
Qed.

Lemma anyM_skip {A} (f : A -> res bool) (l1 l2 : list A) :
  (forall a, In a l1 -> f a = Ok false) -> anyM f (l1 ++ l2) = anyM f l2.
Proof.
  induction l1 as [|a l1 IH]; intros H; simpl; [reflexivity |].
  rewrite (H a) by (left; reflexivity). simpl.
  apply IH. intros a' Hin. apply H. right. exact Hin.
Qed.

Lemma anyM_stuck {A} (f : A -> res bool) (l1 : list A) (a : A) (l2 : list A) :
  (forall a', In a' l1 -> f a' = Ok false) -> f a = NoFuel ->
  anyM f (l1 ++ a :: l2) = NoFuel.
Proof.
  intros H Ha. rewrite anyM_skip by exact H. simpl. rewrite Ha. reflexivity.
Qed.

Lemma anyM_le {A} (f f' : A -> res bool) (l : list A) :
  (forall a, le_res (f a) (f' a)) -> le_res (anyM f l) (anyM f' l).
Proof.
  intros H. induction l as [|a l IH]; simpl; [apply le_res_refl |].
  apply le_res_bind; [apply H |]. intros [|]; [apply le_res_refl | exact IH].
Qed.

(** ** [hasLegalMoves] *)

Lemma wr_tried {B} (g : Game) (p : ChessPiece) (fx fy tx ty : Z)
    (k : Game -> res B) :
  onBoard fx fy -> onBoard tx ty ->
  (wr g ty tx (Some p) ≫= fun g1 => wr g1 fy fx None ≫= k)
  = k (tried g p fx fy tx ty).
Proof.
  intros [Hfx Hfy] [Htx Hty]. rewrite <- bind_assoc.
  pose proof (try_move g p fx fy tx ty Hfx Hfy Htx Hty) as H.
  unfold mbind in *. rewrite H. reflexivity.
Qed.

Lemma wr_back {B} (g : Game) (p : ChessPiece) (fx fy tx ty : Z)
    (k : Game -> res B) :
  onBoard fx fy -> onBoard tx ty ->
  board g !! (fy, fx) = Some p ->
  (wr (tried g p fx fy tx ty) fy fx (Some p)
     ≫= fun g1 => wr g1 ty tx (board g !! (ty, tx)) ≫= k)
  = k g.
Proof.
  intros [Hfx Hfy] [Htx Hty] Hp. rewrite <- bind_assoc.
  pose proof (take_back g p (board g !! (ty, tx)) fx fy tx ty
                Hfx Hfy Htx Hty Hp eq_refl) as H.
  unfold mbind in *. rewrite H. reflexivity.
Qed.

(** [hasLegalMoves] hands the game back as it received it. *)
Lemma hasLegalMoves_pure (n : nat) (g : Game) (c : Color) :
  hasLegalMoves n g c = (ok ← anyLegalMove n g c; Ok (ok, g)).
Proof.
  unfold hasLegalMoves, anyLegalMove.
  rewrite (loop_search _ (fun fy => anyM (fun fx => legalFrom n g c fx fy) idx8)).
  - rewrite bind_assoc. destruct (anyM _ idx8) as [[|] | |]; reflexivity.
  - intros fy Hfy. apply idx8_spec in Hfy.
    apply loop_search. intros fx Hfx. apply idx8_spec in Hfx.
    rewrite rd_in by assumption. rewrite bind_Ok_l. unfold legalFrom.
    destruct (board g !! (fy, fx)) as [p|] eqn:Hp; [| reflexivity].
    destruct (negb (bool_decide (pColor p = c))); [reflexivity |].
    apply loop_search. intros ty Hty. apply idx8_spec in Hty.
    apply loop_search. intros tx Htx. apply idx8_spec in Htx.
    unfold fullyLegal. rewrite bind_assoc.
    destruct (isMoveLegal n g p fx fy tx ty) as [[|] | |];
      rewrite ?bind_Ok_l; try reflexivity.
    rewrite rd_in by assumption. rewrite bind_Ok_l.
    rewrite wr_tried by (split; assumption).
    rewrite bind_assoc.
    destruct (isInCheck n (tried g p fx fy tx ty) c) as [chk | |];
      rewrite ?bind_Ok_l; try reflexivity.
    cbv zeta. rewrite wr_back by (try split; assumption).
    destruct chk; reflexivity.
Qed.

Lemma fullyLegal_le (n m : nat) (g : Game) (c : Color) (p : ChessPiece)
    (fx fy tx ty : Z) :
  (n <= m)%nat ->
  le_res (fullyLegal n g c p fx fy tx ty) (fullyLegal m g c p fx fy tx ty).
Proof.
  intros H. unfold fullyLegal.
  apply le_res_bind; [apply isMoveLegal_le, H |].
  intros [|]; [| apply le_res_refl].
  apply le_res_bind; [apply isInCheck_le, H | intros; apply le_res_refl].
Qed.

Lemma anyLegalMove_le (n m : nat) (g : Game) (c : Color) :
  (n <= m)%nat -> le_res (anyLegalMove n g c) (anyLegalMove m g c).
Proof.
  intros H. unfold anyLegalMove, legalFrom.
  apply anyM_le. intros fy. apply anyM_le. intros fx.
  destruct (board g !! (fy, fx)) as [p|]; [| apply le_res_refl].
  destruct (negb (bool_decide (pColor p = c))); [apply le_res_refl |].
  apply anyM_le. intros ty. apply anyM_le. intros tx.
  apply fullyLegal_le, H.
Qed.

Lemma hasLegalMoves_le (n m : nat) (g : Game) (c : Color) :
  (n <= m)%nat -> le_res (hasLegalMoves n g c) (hasLegalMoves m g c).
Proof.
  intros H. rewrite !hasLegalMoves_pure.
  apply le_res_bind; [apply anyLegalMove_le, H | intros; apply le_res_refl].
Qed.

(** The candidates are exactly the moves of pieces of colour [c] between
    squares of the board. *)
Lemma anyLegalMove_true (n : nat) (g : Game) (c : Color) :
  anyLegalMove n g c = Ok true ->
  exists fx fy tx ty p,
    onBoard fx fy /\ onBoard tx ty /\ board g !! (fy, fx) = Some p /\
    pColor p = c /\ fullyLegal n g c p fx fy tx ty = Ok true.
Proof.
  unfold anyLegalMove, legalFrom. intros H.
  apply anyM_true in H as (fy & Hfy & H).
  apply anyM_true in H as (fx & Hfx & H).
  destruct (board g !! (fy, fx)) as [p|] eqn:Hp; [| discriminate].
  destruct (decide (pColor p = c)) as [Hc | Hc].
  2: { rewrite bool_decide_eq_false_2 in H by exact Hc. discriminate. }
  rewrite bool_decide_eq_true_2 in H by exact Hc. cbn [negb] in H.
  apply anyM_true in H as (ty & Hty & H).
  apply anyM_true in H as (tx & Htx & H).
  apply idx8_spec in Hfy, Hfx, Hty, Htx.
  exists fx, fy, tx, ty, p.
  split; [split; assumption |]. split; [split; assumption |].
  repeat split; assumption.
Qed.

Lemma anyLegalMove_false (n : nat) (g : Game) (c : Color) :
  anyLegalMove n g c = Ok false ->
  forall fx fy tx ty p,
    onBoard fx fy -> onBoard tx ty -> board g !! (fy, fx) = Some p ->
    pColor p = c -> fullyLegal n g c p fx fy tx ty = Ok false.
Proof.
  unfold anyLegalMove, legalFrom.
  intros H fx fy tx ty p [Hfx Hfy] [Htx Hty] Hp Hc.
  rewrite anyM_false in H. specialize (H fy (proj2 (idx8_spec fy) Hfy)).
  rewrite anyM_false in H. specialize (H fx (proj2 (idx8_spec fx) Hfx)).
  rewrite Hp in H. rewrite bool_decide_eq_true_2 in H by exact Hc.
  cbn [negb] in H.
  rewrite anyM_false in H. specialize (H ty (proj2 (idx8_spec ty) Hty)).
  rewrite anyM_false in H. apply H. apply idx8_spec, Htx.
Qed.

Lemma anyLegalMove_returns (n : nat) (g : Game) (c : Color) :
  (forall fx fy tx ty p,
     onBoard fx fy -> onBoard tx ty -> board g !! (fy, fx) = Some p ->
     pColor p = c -> exists b, fullyLegal n g c p fx fy tx ty = Ok b) ->
  exists b, anyLegalMove n g c = Ok b.
Proof.
  intros H. unfold anyLegalMove, legalFrom.
  apply anyM_returns. intros fy Hfy. apply anyM_returns. intros fx Hfx.
  destruct (board g !! (fy, fx)) as [p|] eqn:Hp; [| eexists; reflexivity].
  destruct (decide (pColor p = c)) as [Hc | Hc].
  2: { rewrite bool_decide_eq_false_2 by exact Hc. eexists; reflexivity. }
  rewrite bool_decide_eq_true_2 by exact Hc. cbn [negb].
  apply anyM_returns. intros ty Hty. apply anyM_returns. intros tx Htx.
  apply idx8_spec in Hfy, Hfx, Hty, Htx.
  apply H; try split; assumption.
Qed.

(** ** Positions of play: unmoved kings on their back rank *)

Lemma kingsAtHome_near (g : Game) : kingsAtHome g = true -> kingsNear 0 g.
Proof.
  unfold kingsAtHome. rewrite forallb_forall. intros H x y p Hon Hp Hk Hm.
  specialize (H (x, y) (proj2 (In_squares x y) Hon)). simpl in H.
  rewrite Hp, Hm in H. rewrite bool_decide_eq_true_2 in H by exact Hk.
  simpl in H. apply Z.eqb_eq in H. lia.
Qed.

Lemma kingsNear_weaken (d d' : Z) (g : Game) :
  d <= d' -> kingsNear d g -> kingsNear d' g.
Proof.
  intros Hd H x y p Hon Hp Hk Hm. specialize (H x y p Hon Hp Hk Hm). lia.
Qed.

Lemma castleThreat_true (g : Game) (c : Color) :
  castleThreat g c = true ->
  fst (lastKing g c) <> -1 /\
  exists x q, 0 <= x <= 7 /\
    board g !! (snd (lastKing g c), x) = Some q /\
    pType q = King /\ pColor q = opp c /\ HasMoved q = false /\
    Z.abs (fst (lastKing g c) - x) = 2.
Proof.
  unfold castleThreat. cbv zeta. rewrite andb_true_iff, negb_true_iff, Z.eqb_neq.
  intros [Hk Hex]. split; [exact Hk |].
  apply existsb_exists in Hex as (x & Hx & H).
  apply idx8_spec in Hx. apply andb_true_iff in H as [Hu Hd].
  unfold unmovedKingOf in Hu.
  destruct (board g !! (snd (lastKing g c), x)) as [q|] eqn:Hq; [| discriminate].
  apply andb_true_iff in Hu as [Hu Hm]. apply andb_true_iff in Hu as [Hu Hc].
  apply bool_decide_eq_true in Hu, Hc. apply negb_true_iff in Hm.
  apply Z.eqb_eq in Hd.
  exists x, q. repeat split; solve [assumption | reflexivity | lia].
Qed.

Lemma isKingOf_true (c : Color) (q : ChessPiece) :
  pType q = King -> pColor q = c -> isKingOf c (Some q) = true.
Proof.
  intros Hk Hc. unfold isKingOf.
  rewrite !bool_decide_eq_true_2 by assumption. reflexivity.
Qed.

(** Kings that have not moved and are still next to their back ranks cannot
    threaten each other in both directions: the two would share a rank. *)
Lemma near_ends (g : Game) : kingsNear 1 g -> recursionEnds g = true.
Proof.
  intros Hn. unfold recursionEnds.
  destruct (castleThreat g White) eqn:HW; [| reflexivity].
  destruct (castleThreat g Black) eqn:HB; [| reflexivity].
  exfalso.
  apply castleThreat_true in HW as (HkW & xW & qW & HxW & HqW & HtW & HcW & HmW & _).
  apply castleThreat_true in HB as (HkB & xB & qB & HxB & HqB & HtB & HcB & HmB & _).
  destruct (lastKing_some g White HkW) as ([_ HonW] & _ & HlastW).
  destruct (lastKing_some g Black HkB) as ([_ HonB] & _ & HlastB).
  simpl in HcW, HcB.
  assert (H1 : snd (lastKing g Black) <= snd (lastKing g White)).
  { apply (HlastW xB); [split; assumption |].
    rewrite HqB. apply isKingOf_true; assumption. }
  assert (H2 : snd (lastKing g White) <= snd (lastKing g Black)).
  { apply (HlastB xW); [split; assumption |].
    rewrite HqW. apply isKingOf_true; assumption. }
  pose proof (Hn xW _ qW (conj HxW HonW) HqW HtW HmW) as HnW.
  pose proof (Hn xB _ qB (conj HxB HonB) HqB HtB HmB) as HnB.
  rewrite HcW in HnW. rewrite HcB in HnB. simpl in HnW, HnB. lia.
Qed.

Lemma board_tried (g : Game) (p : ChessPiece) (fx fy tx ty x y : Z) :
  board (tried g p fx fy tx ty) !! (y, x) =
  if decide ((fy, fx) = (y, x)) then None
  else if decide ((ty, tx) = (y, x)) then Some p
  else board g !! (y, x).
Proof.
  unfold tried. rewrite board_with_board.
  destruct (decide ((fy, fx) = (y, x))) as [<- | Hne1].
  { apply lookup_partial_alter_eq. }
  rewrite lookup_partial_alter_ne by exact Hne1.
  destruct (decide ((ty, tx) = (y, x))) as [<- | Hne2].
  { apply lookup_partial_alter_eq. }
  apply lookup_partial_alter_ne. exact Hne2.
Qed.

Lemma tried_near (g : Game) (p : ChessPiece) (fx fy tx ty : Z) :
  kingsNear 0 g -> onBoard fx fy -> board g !! (fy, fx) = Some p ->
  (pType p = King -> Z.abs (ty - fy) <= 1) ->
  kingsNear 1 (tried g p fx fy tx ty).
Proof.
  intros Hn Hf Hp Hking x y q Hon Hq Hk Hm.
  rewrite board_tried in Hq.
  destruct (decide ((fy, fx) = (y, x))); [discriminate |].
  destruct (decide ((ty, tx) = (y, x))) as [[= <- <-] | Hne].
  - injection Hq as <-. specialize (Hn fx fy p Hf Hp Hk Hm).
    specialize (Hking Hk). lia.
  - specialize (Hn x y q Hon Hq Hk Hm). lia.
Qed.

Lemma king_step_rank (chk : Color -> res bool) (g : Game) (p : ChessPiece)
    (fx fy tx ty : Z) :
  isMoveLegalW chk g p fx fy tx ty = Ok true -> pType p = King ->
  Z.abs (ty - fy) <= 1.
Proof.
  intros H Hp. unfold isMoveLegalW in H.
  destruct ((tx <? 0) || (7 <? tx) || (ty <? 0) || (7 <? ty)); [discriminate |].
  destruct (rd g ty tx) as [target | |]; simpl in H; try discriminate.
  destruct (sameColorAs target p); [discriminate |].
  rewrite Hp in H. cbv zeta in H. rewrite !abs_spec in H.
  destruct (Z.leb_spec (Z.abs (ty - fy)) 1) as [Hd | Hd]; [exact Hd |].
  rewrite andb_false_r in H.
  destruct (Z.eqb_spec fy ty) as [-> | Hy]; [lia |].
  rewrite orb_true_r in H. simpl in H. discriminate.
Qed.

Lemma fullyLegal_returns (g : Game) (c : Color) (p : ChessPiece)
    (fx fy tx ty : Z) :
  kingsNear 0 g -> onBoard fx fy -> onBoard tx ty ->
  board g !! (fy, fx) = Some p ->
  exists b, forall n, (2 <= n)%nat -> fullyLegal n g c p fx fy tx ty = Ok b.
Proof.
  intros Hn Hf Ht Hp.
  assert (Hg : recursionEnds g = true)
    by (apply near_ends, (kingsNear_weaken 0); [lia | exact Hn]).
  destruct (isMoveLegal_returns g p fx fy tx ty Hg Hf Ht) as ([|] & Hb).
  - assert (Ht' : recursionEnds (tried g p fx fy tx ty) = true).
    { apply near_ends, tried_near; try assumption.
      apply (king_step_rank (isInCheck 2 g) g p fx fy tx ty).
      apply Hb. lia. }
    destruct (isInCheck_returns (tried g p fx fy tx ty) c Ht') as (chk & Hchk).
    exists (negb chk). intros n Hle. unfold fullyLegal.
    rewrite Hb, bind_Ok_l by exact Hle. rewrite Hchk by exact Hle. reflexivity.
  - exists false. intros n Hle. unfold fullyLegal.
    rewrite Hb by exact Hle. reflexivity.
Qed.

Lemma hasLegalMoves_returns (g : Game) (c : Color) :
  kingsAtHome g = true ->
  exists b, forall n, (2 <= n)%nat -> hasLegalMoves n g c = Ok (b, g).
Proof.
  intros Hh. apply kingsAtHome_near in Hh.
  destruct (anyLegalMove_returns 2 g c) as (b & Hb).
  { intros fx fy tx ty p Hf Ht Hp _.
    destruct (fullyLegal_returns g c p fx fy tx ty Hh Hf Ht Hp) as (b & Hb).
    exists b. apply Hb. lia. }
  exists b. intros n Hle. rewrite hasLegalMoves_pure.
  rewrite (le_res_Ok _ _ _ (anyLegalMove_le 2 n g c Hle) Hb). reflexivity.
Qed.

Lemma fullyLegal_true (n : nat) (g : Game) (c : Color) (p : ChessPiece)
    (fx fy tx ty : Z) :
  fullyLegal n g c p fx fy tx ty = Ok true <->
  isMoveLegal n g p fx fy tx ty = Ok true /\
  isInCheck n (tried g p fx fy tx ty) c = Ok false.
Proof.
  unfold fullyLegal.
  destruct (isMoveLegal n g p fx fy tx ty) as [[|] | |]; simpl;
    try (split; [discriminate | intros [H _]; discriminate]).
  destruct (isInCheck n (tried g p fx fy tx ty) c) as [[|] | |]; simpl;
    try (split; [discriminate | intros [_ H]; discriminate]).
  split; [intros _; split; reflexivity | reflexivity].
Qed.

Lemma fullyLegal_false (n : nat) (g : Game) (c : Color) (p : ChessPiece)
    (fx fy tx ty : Z) :
  fullyLegal n g c p fx fy tx ty = Ok false ->
  isMoveLegal n g p fx fy tx ty = Ok false \/
  isInCheck n (tried g p fx fy tx ty) c = Ok true.
Proof.
  unfold fullyLegal.
  destruct (isMoveLegal n g p fx fy tx ty) as [[|] | |]; simpl;
    try discriminate; [| left; reflexivity].
  destruct (isInCheck n (tried g p fx fy tx ty) c) as [[|] | |]; simpl;
    try discriminate. right. reflexivity.
Qed.

(** Whenever [hasLegalMoves] returns, the board is as it was and the answer
    is true exactly when some move is legal and safe. *)
Lemma hasLegalMoves_sound (n : nat) (g g' : Game) (c : Color) (b : bool) :
  hasLegalMoves n g c = Ok (b, g') ->
  g' = g /\
  (b = true <-> exists fx fy tx ty p, legalAndSafe g c fx fy tx ty p).
Proof.
  rewrite hasLegalMoves_pure. intros H.
  apply bind_Ok in H as (ok & Hok & [= <- <-]). split; [reflexivity |].
  destruct ok.
  - split; [intros _ | reflexivity].
    apply anyLegalMove_true in Hok as (fx & fy & tx & ty & p & Hf & Ht & Hp & Hc & Hl).
    apply fullyLegal_true in Hl as [Hl Hs].
    exists fx, fy, tx, ty, p. repeat split; try assumption; try apply Hf; try apply Ht;
      exists n; assumption.
  - split; [discriminate |].
    intros (fx & fy & tx & ty & p & Hf & Ht & Hp & Hc & (n1 & Hl) & (n2 & Hs)).
    exfalso.
    pose proof (anyLegalMove_false n g c Hok fx fy tx ty p Hf Ht Hp Hc) as Hfl.
    apply fullyLegal_false in Hfl as [Hfl | Hfl].
    + pose proof (isMoveLegal_det _ _ _ _ _ _ _ _ _ _ Hl Hfl). discriminate.
    + pose proof (isInCheck_det _ _ _ _ _ _ Hs Hfl). discriminate.
Qed.

(** ** The standard starting position *)

Lemma newGame_NewGame : NewGame 5 1 100 = Ok newGame.
Proof. vm_compute. reflexivity. Qed.

(** ** Claims about move legality *)

(** C3. A pawn of either colour may go: one square forward (White towards
    rank index 0, Black towards 7) onto an empty square; two squares forward
    from its starting rank (6 for White, 1 for Black) when the square in
    between and the destination are empty; one square diagonally forward
    onto an enemy piece or onto the en-passant target.  The destination is on
    the board and holds no piece of the pawn's colour.  [isMoveLegal] returns
    for every pawn, and returns true for exactly these moves. *)
Theorem C3_pawn_moves (n : nat) (g : Game) (p : ChessPiece) (fx fy tx ty : Z) :
  pType p = Pawn ->
  exists b, isMoveLegal n g p fx fy tx ty = Ok b /\
            (b = true <-> pawnMove g p fx fy tx ty).
Proof. intros Hp. apply isMoveLegalW_pawn, Hp. Qed.

Lemma C3_pawn_moves_witness :
  exists b, isMoveLegal 1 newGame (mkPiece Pawn White 6 false) 4 6 4 4 = Ok b /\
            (b = true <-> pawnMove newGame (mkPiece Pawn White 6 false) 4 6 4 4).
Proof. apply C3_pawn_moves. reflexivity. Defined.

(** C4. For a king on the board and a destination on the board that holds
    no piece of its colour, [isMoveLegal] returns true exactly when the move
    is one step in any direction, or stays on the rank, spans two files, the
    king has not moved, [isInCheck] answers false for its colour, the corner
    of that rank in the direction of travel holds an unmoved rook, and the
    squares strictly between king and corner are empty.  Attacks on the
    squares the king crosses or lands on are not part of the condition. *)
Theorem C4_king_moves (n : nat) (g : Game) (p : ChessPiece) (fx fy tx ty : Z) :
  pType p = King ->
  onBoard fx fy -> onBoard tx ty ->
  sameColorAs (board g !! (ty, tx)) p = false ->
  isMoveLegal n g p fx fy tx ty = Ok true <->
  (Z.abs (tx - fx) <= 1 /\ Z.abs (ty - fy) <= 1) \/
  castleMove n g p fx fy tx ty.
Proof.
  intros Hp [Hfx _] Ht Hno. apply sameColorAs_false in Hno.
  apply isMoveLegalW_king; assumption.
Qed.

Lemma C4_king_moves_witness :
  isMoveLegal 1 castlingGame (freshKing White) 4 7 6 7 = Ok true <->
  (Z.abs (6 - 4) <= 1 /\ Z.abs (7 - 7) <= 1) \/
  castleMove 1 castlingGame (freshKing White) 4 7 6 7.
Proof.
  apply C4_king_moves.
  - reflexivity.
  - unfold onBoard. lia.
  - unfold onBoard. lia.
  - vm_compute. reflexivity.
Defined.

(** The king may castle across f1 although the black rook attacks it. *)
Example castling_through_attack :
  isSquareAttacked 1 castlingGame 5 7 Black = Ok true /\
  isMoveLegal 1 castlingGame (freshKing White) 4 7 6 7 = Ok true.
Proof. split; vm_compute; reflexivity. Qed.

(** C10 (as stated) fails: with an unmoved white king on e1 and an unmoved
    black king on g1, each king's castling test asks whether it is in check,
    which asks the other king's castling test; no budget suffices for any of
    the three functions. *)
Lemma C10_facing_kings_never_return :
  ~ ((exists n b, isInCheck n facingKings White = Ok b) \/
     (exists n b, isSquareAttacked n facingKings 4 7 Black = Ok b) \/
     (exists n b, isMoveLegal n facingKings (freshKing Black) 6 7 4 7 = Ok b)).
Proof.
  intros [(n & b & H) | [(n & b & H) | (n & b & H)]].
  - rewrite facingKings_isInCheck in H. discriminate.
  - assert (Hs : isSquareAttacked n facingKings 4 7 Black = NoFuel).
    { unfold isSquareAttacked.
      pose proof (facingKings_isInCheck n Black) as Hc.
      revert Hc. generalize (isInCheck n facingKings). intros chk Hc.
      vm_compute. rewrite Hc. reflexivity. }
    congruence.
  - assert (Hs : isMoveLegal n facingKings (freshKing Black) 6 7 4 7 = NoFuel).
    { unfold isMoveLegal.
      pose proof (facingKings_isInCheck n Black) as Hc.
      revert Hc. generalize (isInCheck n facingKings). intros chk Hc.
      vm_compute. rewrite Hc. reflexivity. }
    congruence.
Qed.

Lemma isMoveLegalW_returns_any (chk : Color -> res bool) (g : Game)
    (p : ChessPiece) (fx fy tx ty : Z) :
  onBoard fx fy ->
  (exists b, chk (pColor p) = Ok b) ->
  exists b, isMoveLegalW chk g p fx fy tx ty = Ok b.
Proof.
  intros Hf Hchk.
  destruct (decide (onBoard tx ty)) as [Ht | Ht].
  - apply isMoveLegalW_returns; [assumption | assumption | intros _; exact Hchk].
  - exists false. apply isMoveLegalW_off_board, Ht.
Qed.

Lemma isSquareAttackedW_returns_any (chk : Color -> res bool) (g : Game)
    (x y : Z) (a : Color) :
  (exists b, chk a = Ok b) ->
  exists b, isSquareAttackedW chk g x y a = Ok b.
Proof.
  intros Hchk.
  destruct (decide (onBoard x y)) as [Hon | Hon].
  - apply isSquareAttackedW_returns; [exact Hon | intros; exact Hchk].
  - exists false. unfold isSquareAttackedW.
    rewrite (loop_falls_through _ idx8 tt); [reflexivity |].
    intros fy Hfy. apply loop_falls_through. intros fx Hfx.
    apply idx8_spec in Hfy, Hfx. rewrite rd_in by assumption. rewrite bind_Ok_l.
    destruct (board g !! (fy, fx)) as [p|]; [| reflexivity].
    destruct (bool_decide (pColor p = a)); [| reflexivity].
    rewrite isMoveLegalW_off_board by exact Hon. reflexivity.
Qed.

(** Whatever the arguments, a call of [isMoveLegal] whose nested
    [isInCheck] ends, ends: by returning or by an index panic. *)
Lemma isMoveLegalW_ends (chk : Color -> res bool) (g : Game)
    (p : ChessPiece) (fx fy tx ty : Z) :
  chk (pColor p) <> NoFuel ->
  isMoveLegalW chk g p fx fy tx ty <> NoFuel.
Proof.
  intros Hchk. unfold isMoveLegalW.
  destruct ((tx <? 0) || (7 <? tx) || (ty <? 0) || (7 <? ty)); [discriminate |].
  pose proof (rd_not_NoFuel g ty tx) as Hrd.
  destruct (rd g ty tx) as [target | |]; simpl; [| discriminate | congruence].
  destruct (sameColorAs target p); [discriminate |].
  pose proof (isPathClear_fuel g fx fy tx ty) as Hpc.
  destruct (pType p).
  - destruct ((fx =? tx) && _ && bool_decide (target = None)); [discriminate |].
    destruct ((fx =? tx) && _ && _ && bool_decide (target = None)); simpl.
    + destruct (isPathClear g fx fy tx ty) as [[|] | |]; simpl;
        try discriminate; try congruence.
      repeat match goal with |- context [if ?c then _ else _] => destruct c end;
        discriminate.
    + repeat match goal with |- context [if ?c then _ else _] => destruct c end;
        discriminate.
  - destruct (_ =? _); [exact Hpc | discriminate].
  - destruct (_ || _); [exact Hpc | discriminate].
  - discriminate.
  - destruct (_ || _); [exact Hpc | discriminate].
  - destruct (_ && _); [discriminate |].
    destruct (_ || _); [discriminate |].
    destruct (chk (pColor p)) as [[|] | |]; simpl; try discriminate; [| congruence].
    pose proof (rd_not_NoFuel g fy (if fx <? tx then 7 else 0)) as Hrd2.
    destruct (rd g fy (if fx <? tx then 7 else 0)) as [[r|] | |]; simpl;
      try discriminate; [| congruence].
    destruct (_ && _); [apply isPathClear_fuel | discriminate].
Qed.

(** C10, amended.  Unless both sides have a king with [HasMoved] false
    standing on the same rank as, and two files away from, the king that
    [isInCheck] finds for the other side, two nested activations of
    [isInCheck] answer every call: [isInCheck] and [isSquareAttacked] return
    for all arguments, [isMoveLegal] returns for every origin on the board,
    and for origins off the board it ends (by returning or by an index
    panic). *)
Theorem C10_calls_end (g : Game) :
  recursionEnds g = true ->
  (forall c, exists b, forall n, (2 <= n)%nat -> isInCheck n g c = Ok b) /\
  (forall x y a, exists b,
      forall n, (2 <= n)%nat -> isSquareAttacked n g x y a = Ok b) /\
  (forall p fx fy tx ty, onBoard fx fy -> exists b,
      forall n, (2 <= n)%nat -> isMoveLegal n g p fx fy tx ty = Ok b) /\
  (forall p fx fy tx ty n, (2 <= n)%nat ->
      isMoveLegal n g p fx fy tx ty <> NoFuel).
Proof.
  intros Hs. split; [| split; [| split]].
  - intros c. apply isInCheck_returns, Hs.
  - intros x y a. destruct (isInCheck_returns g a Hs) as (c & Hc).
    destruct (isSquareAttackedW_returns_any (isInCheck 2 g) g x y a) as (b & Hb).
    { exists c. apply Hc. lia. }
    exists b. intros n Hn.
    eapply le_res_Ok; [apply (isSquareAttacked_le 2 n); exact Hn | exact Hb].
  - intros p fx fy tx ty Hf.
    destruct (isInCheck_returns g (pColor p) Hs) as (c & Hc).
    destruct (isMoveLegalW_returns_any (isInCheck 2 g) g p fx fy tx ty Hf)
      as (b & Hb).
    { exists c. apply Hc. lia. }
    exists b. intros n Hn.
    eapply le_res_Ok; [apply (isMoveLegal_le 2 n); exact Hn | exact Hb].
  - intros p fx fy tx ty n Hn. apply isMoveLegalW_ends.
    destruct (isInCheck_returns g (pColor p) Hs) as (c & Hc).
    rewrite Hc by exact Hn. discriminate.
Qed.

Lemma C10_calls_end_witness :
  (forall c, exists b, forall n, (2 <= n)%nat -> isInCheck n newGame c = Ok b) /\
  (forall x y a, exists b,
      forall n, (2 <= n)%nat -> isSquareAttacked n newGame x y a = Ok b) /\
  (forall p fx fy tx ty, onBoard fx fy -> exists b,
      forall n, (2 <= n)%nat -> isMoveLegal n newGame p fx fy tx ty = Ok b) /\
  (forall p fx fy tx ty n, (2 <= n)%nat ->
      isMoveLegal n newGame p fx fy tx ty <> NoFuel).
Proof. apply C10_calls_end. vm_compute. reflexivity. Defined.

(** Positions with the unmoved kings on their back ranks are among them. *)
Lemma kingsAtHome_ends (g : Game) :
  kingsAtHome g = true -> recursionEnds g = true.
Proof.
  intros H. apply near_ends, (kingsNear_weaken 0); [lia |].
  apply kingsAtHome_near, H.
Qed.

(** C9, first half.  A destination off the board is refused at once: the
    answer is false for every board, piece, origin and budget. *)
Lemma isMoveLegal_off_board (n : nat) (g : Game) (p : ChessPiece)
    (fx fy tx ty : Z) :
  ~ onBoard tx ty -> isMoveLegal n g p fx fy tx ty = Ok false.
Proof. apply isMoveLegalW_off_board. Qed.

(** ** Claims about the legal-move search *)

Lemma cornerKings_step (chk : Color -> res bool) (c : Color) :
  chk (opp c) = NoFuel -> isInCheckW chk cornerKings c = NoFuel.
Proof.
  intros H. destruct c; simpl in H; vm_compute; rewrite H; reflexivity.
Qed.

Lemma cornerKings_isInCheck (n : nat) :
  forall c, isInCheck n cornerKings c = NoFuel.
Proof.
  induction n as [|n IH]; intros c; [reflexivity |].
  change (isInCheckW (isInCheck n cornerKings) cornerKings c = NoFuel).
  apply cornerKings_step. apply IH.
Qed.

(** The search never gets past the candidate a8-c8. *)
Lemma cornerKings_search (n : nat) : anyLegalMove n cornerKings White = NoFuel.
Proof.
  destruct n as [|n]; [vm_compute; reflexivity |].
  assert (H00 : fullyLegal (S n) cornerKings White (freshKing White) 0 0 0 0
                = Ok false).
  { unfold fullyLegal.
    assert (Hm : isMoveLegal (S n) cornerKings (freshKing White) 0 0 0 0
                 = Ok false).
    { unfold isMoveLegal. generalize (isInCheck (S n) cornerKings).
      intros chk. vm_compute. reflexivity. }
    rewrite Hm. reflexivity. }
  assert (H10 : fullyLegal (S n) cornerKings White (freshKing White) 0 0 1 0
                = Ok false).
  { unfold fullyLegal.
    assert (Hm : isMoveLegal (S n) cornerKings (freshKing White) 0 0 1 0
                 = Ok true).
    { unfold isMoveLegal. generalize (isInCheck (S n) cornerKings).
      intros chk. vm_compute. reflexivity. }
    rewrite Hm, bind_Ok_l.
    assert (Hk : isInCheck (S n)
                   (tried cornerKings (freshKing White) 0 0 1 0) White
                 = Ok true).
    { apply (isInCheck_more 1); [lia |]. vm_compute. reflexivity. }
    rewrite Hk. reflexivity. }
  assert (H20 : fullyLegal (S n) cornerKings White (freshKing White) 0 0 2 0
                = NoFuel).
  { unfold fullyLegal, isMoveLegal.
    pose proof (cornerKings_isInCheck (S n) White) as Hw.
    revert Hw. generalize (isInCheck (S n) cornerKings). intros chk Hw.
    assert (Hm : isMoveLegalW chk cornerKings (freshKing White) 0 0 2 0
                 = NoFuel)
      by (vm_compute; rewrite Hw; reflexivity).
    rewrite Hm. reflexivity. }
  assert (Hrank : anyM (fun tx => fullyLegal (S n) cornerKings White
                                    (freshKing White) 0 0 tx 0) idx8 = NoFuel).
  { apply (anyM_stuck _ [0; 1] 2 [3; 4; 5; 6; 7]); [| exact H20].
    intros tx [<- | [<- | []]]; assumption. }
  assert (Hfrom : legalFrom (S n) cornerKings White 0 0 = NoFuel).
  { unfold legalFrom.
    assert (Hc : board cornerKings !! (0, 0) = Some (freshKing White))
      by (vm_compute; reflexivity).
    rewrite Hc. rewrite bool_decide_eq_true_2 by reflexivity. cbn [negb].
    apply (anyM_stuck _ [] 0 [1; 2; 3; 4; 5; 6; 7]); [intros a [] | exact Hrank]. }
  unfold anyLegalMove.
  apply (anyM_stuck _ [] 0 [1; 2; 3; 4; 5; 6; 7]); [intros a [] |].
  apply (anyM_stuck _ [] 0 [1; 2; 3; 4; 5; 6; 7]); [intros a [] | exact Hfrom].
Qed.

(** C1 (as stated) fails on [cornerKings]: the white king may step from a8
    to a7, which [isMoveLegal] accepts and which leaves it out of check, yet
    [hasLegalMoves] does not return true: trying a8-c8 first, it never
    returns. *)
Lemma C1_cornerKings_search_never_returns :
  ~ ((exists n g', hasLegalMoves n cornerKings White = Ok (true, g')) <->
     (exists fx fy tx ty p, legalAndSafe cornerKings White fx fy tx ty p)).
Proof.
  intros [_ H].
  destruct H as (n & g' & H).
  - exists 0, 0, 0, 1, (freshKing White).
    unfold legalAndSafe, onBoard.
    split; [lia |]. split; [lia |].
    split; [vm_compute; reflexivity |]. split; [reflexivity |].
    split; exists 1%nat; vm_compute; reflexivity.
  - rewrite hasLegalMoves_pure, cornerKings_search in H. discriminate.
Qed.

(** C1, amended.  On a board whose unmoved kings stand on their back ranks,
    [hasLegalMoves c] returns under every budget of two or more, hands the
    board back unchanged, and answers true exactly when a piece of colour
    [c] has a move that [isMoveLegal] accepts and after which, tried on the
    board, [isInCheck c] is false.  On any board, whenever it returns, the
    same holds of its answer. *)
Theorem C1_hasLegalMoves (g : Game) (c : Color) :
  (kingsAtHome g = true ->
   exists b, (forall n, (2 <= n)%nat -> hasLegalMoves n g c = Ok (b, g)) /\
     (b = true <-> exists fx fy tx ty p, legalAndSafe g c fx fy tx ty p)) /\
  (forall n b g', hasLegalMoves n g c = Ok (b, g') ->
     g' = g /\
     (b = true <-> exists fx fy tx ty p, legalAndSafe g c fx fy tx ty p)).
Proof.
  split.
  - intros Hh. destruct (hasLegalMoves_returns g c Hh) as (b & Hb).
    exists b. split; [exact Hb |].
    apply (hasLegalMoves_sound 2 g g c b). apply Hb. lia.
  - intros n b g'. apply hasLegalMoves_sound.
Qed.

Lemma C1_hasLegalMoves_witness :
  exists b, (forall n, (2 <= n)%nat -> hasLegalMoves n newGame White = Ok (b, newGame)) /\
    (b = true <-> exists fx fy tx ty p, legalAndSafe newGame White fx fy tx ty p).
Proof. apply (C1_hasLegalMoves newGame White). vm_compute. reflexivity. Defined.

(** ** [executeMove] *)

Ltac wr_step :=
  rewrite wr_in by (first [assumption | lia]); rewrite bind_Ok_l; cbv beta.

Ltac game_fields :=
  cbn [board epX epY promoting activeColor moveCount
       with_frankThinkTime with_moveCount with_activeColor with_board
       with_ep with_prom with_promoting negb].

Lemma doubleStep_spec (p : ChessPiece) (fy ty : Z) :
  doubleStep p fy ty = true <-> pType p = Pawn /\ Z.abs (ty - fy) = 2.
Proof.
  unfold doubleStep.
  rewrite andb_true_iff, bool_decide_eq_true, abs_spec, Z.eqb_eq. reflexivity.
Qed.

Lemma lookup_set_same (b : gmap (Z * Z) ChessPiece) (k : Z * Z)
    (v : option ChessPiece) :
  partial_alter (fun _ => v) k b !! k = v.
Proof. apply lookup_partial_alter_eq. Qed.

Lemma lookup_set_other (b : gmap (Z * Z) ChessPiece) (k k' : Z * Z)
    (v : option ChessPiece) :
  k <> k' -> partial_alter (fun _ => v) k b !! k' = b !! k'.
Proof. apply lookup_partial_alter_ne. Qed.

(** The castling step: when the mover is a king spanning two files, the
    piece of the corner moves next to it; it fails on an empty corner. *)
Lemma castling_step (g : Game) (p : ChessPiece) (fx fy tx : Z) :
  0 <= fy <= 7 ->
  (pType p = King -> Z.abs (tx - fx) = 2 ->
   board g !! (fy, castleCorner fx tx) <> None) ->
  exists b1,
    (if bool_decide (pType p = King) && (abs (tx - fx) =? 2) then
       let '(rx, rtx) := if fx <? tx then (7, 5) else (0, 3) in
       rook ← rd g fy rx;
       g ← wr g fy rtx rook;
       g ← wr g fy rx None;
       match rook with
       | None => Panic
       | Some r => wr g fy rtx (Some (setHasMoved r))
       end
     else Ok g) = Ok (with_board g b1).
Proof.
  intros Hfy Hrook.
  destruct (bool_decide (pType p = King) && (abs (tx - fx) =? 2)) eqn:Ec.
  - apply andb_true_iff in Ec as [Ek Ed]. apply bool_decide_eq_true in Ek.
    rewrite abs_spec in Ed. apply Z.eqb_eq in Ed.
    specialize (Hrook Ek Ed). unfold castleCorner in Hrook.
    destruct (fx <? tx); cbv beta iota zeta.
    + rewrite (rd_in g fy 7) by lia. rewrite bind_Ok_l.
      destruct (board g !! (fy, 7)) as [r|]; [| congruence].
      repeat wr_step. rewrite wr_in by (simpl; lia).
      eexists. reflexivity.
    + rewrite (rd_in g fy 0) by lia. rewrite bind_Ok_l.
      destruct (board g !! (fy, 0)) as [r|]; [| congruence].
      repeat wr_step. rewrite wr_in by (simpl; lia).
      eexists. reflexivity.
  - exists (board g). rewrite with_board_same. reflexivity.
Qed.

Lemma executeMove_ep (g : Game) (fx fy tx ty : Z) (p : ChessPiece) :
  onBoard fx fy -> onBoard tx ty -> board g !! (fy, fx) = Some p ->
  (pType p = King -> Z.abs (tx - fx) = 2 ->
   board g !! (fy, castleCorner fx tx) <> None) ->
  exists g', executeMove g fx fy tx ty = Ok g' /\
    epX g' = (if doubleStep p fy ty then fx else -1) /\
    epY g' = (if doubleStep p fy ty then fy + Z.quot (ty - fy) 2 else -1).
Proof.
  intros [Hfx Hfy] [Htx Hty] Hp Hrook. unfold executeMove.
  rewrite (rd_in g fy fx) by assumption. rewrite bind_Ok_l, Hp.
  destruct (castling_step g p fx fy tx Hfy Hrook) as (b1 & ->).
  rewrite bind_Ok_l. cbv beta.
  assert (He : exists b2,
    (if bool_decide (pType p = Pawn) && (tx =? epX (with_board g b1)) &&
        (ty =? epY (with_board g b1))
     then wr (with_board g b1) fy tx None
     else Ok (with_board g b1)) = Ok (with_board g b2)).
  { destruct (_ && _ && _).
    - rewrite wr_in by assumption. eexists. reflexivity.
    - eexists. reflexivity. }
  destruct He as (b2 & ->). rewrite bind_Ok_l. cbv beta.
  repeat wr_step.
  unfold throughPtr.
  destruct ((tx =? fx) && (ty =? fy)); rewrite ?bind_Ok_l; cbv beta;
    try wr_step;
    (destruct (bool_decide (pType p = Pawn) && ((ty =? 0) || (ty =? 7)));
     [destruct (decide (pColor p = White)) |]);
    rewrite ?bind_Ok_l; cbv beta; try wr_step;
    (eexists; split; [reflexivity |]);
    unfold doubleStep;
    destruct (bool_decide (pType p = Pawn) && (abs (ty - fy) =? 2));
    game_fields; destruct (promoting g); split; reflexivity.
Qed.

(** What a returning call was given. *)
Lemma executeMove_Ok_inv (g g' : Game) (fx fy tx ty : Z) :
  executeMove g fx fy tx ty = Ok g' ->
  onBoard fx fy /\ onBoard tx ty /\
  exists p, board g !! (fy, fx) = Some p /\
    (pType p = King -> Z.abs (tx - fx) = 2 ->
     board g !! (fy, castleCorner fx tx) <> None).
Proof.
  unfold executeMove. intros H.
  apply bind_Ok in H as (cell & Hrd & H).
  apply rd_Ok in Hrd as [[Hfy Hfx] Hcell].
  destruct cell as [p|]; [| discriminate].
  apply bind_Ok in H as (g1 & Hcastle & H).
  apply bind_Ok in H as (g2 & Hepc & H).
  apply bind_Ok in H as (g3 & Hwr & _).
  split; [split; assumption |]. split.
  - unfold wr in Hwr.
    destruct (inBoard ty && inBoard tx) eqn:E; [| discriminate].
    apply andb_true_iff in E as [Ey Ex].
    apply inBoard_spec in Ey, Ex. split; assumption.
  - exists p. split; [exact Hcell |]. intros Hk Hd Hnone.
    rewrite bool_decide_eq_true_2 in Hcastle by exact Hk.
    rewrite abs_spec in Hcastle.
    rewrite (proj2 (Z.eqb_eq _ _) Hd) in Hcastle. cbn [andb] in Hcastle.
    unfold castleCorner in Hnone.
    destruct (fx <? tx); cbv beta iota zeta in Hcastle;
      rewrite rd_in in Hcastle by (first [assumption | lia]);
      rewrite bind_Ok_l, Hnone in Hcastle;
      apply bind_Ok in Hcastle as (ga & _ & Hcastle);
      apply bind_Ok in Hcastle as (gb & _ & Hcastle); discriminate.
Qed.

Lemma epTargetAfter_intro (g' : Game) (p : ChessPiece) (fx fy ty : Z) :
  epX g' = (if doubleStep p fy ty then fx else -1) ->
  epY g' = (if doubleStep p fy ty then fy + Z.quot (ty - fy) 2 else -1) ->
  epTargetAfter g' p fx fy ty.
Proof.
  intros Hx Hy. unfold epTargetAfter.
  destruct (doubleStep p fy ty) eqn:E.
  - apply doubleStep_spec in E as [Hp Hd]. left.
    split; [exact Hp |]. split; [exact Hd |]. split; [exact Hx |].
    rewrite Hy.
    assert (ty - fy = 2 \/ ty - fy = -2) as [E | E] by lia; rewrite E;
      [change (Z.quot 2 2) with 1 | change (Z.quot (-2) 2) with (-1)]; lia.
  - right. split; [| split; assumption].
    intros H. apply doubleStep_spec in H. congruence.
Qed.

(** C6.  A call of [executeMove] returns whenever both squares are on the
    board, the origin holds a piece and, for a king spanning two files, the
    corner it travels towards is not empty.  After every call that returns,
    the en-passant target is the square passed over (file of the origin,
    rank midway) if the piece moved was a pawn advancing two ranks, and is
    [(-1, -1)] otherwise; so the target left by one move is gone after the
    next, unless that is a double step itself. *)
Theorem C6_en_passant_target (g : Game) (fx fy tx ty : Z) :
  (forall p,
     onBoard fx fy -> onBoard tx ty -> board g !! (fy, fx) = Some p ->
     (pType p = King -> Z.abs (tx - fx) = 2 ->
      board g !! (fy, castleCorner fx tx) <> None) ->
     exists g', executeMove g fx fy tx ty = Ok g' /\
                epTargetAfter g' p fx fy ty) /\
  (forall g', executeMove g fx fy tx ty = Ok g' ->
     exists p, board g !! (fy, fx) = Some p /\ epTargetAfter g' p fx fy ty) /\
  (forall g1 g2 fx2 fy2 tx2 ty2 p2,
     executeMove g fx fy tx ty = Ok g1 ->
     executeMove g1 fx2 fy2 tx2 ty2 = Ok g2 ->
     board g1 !! (fy2, fx2) = Some p2 ->
     ~ (pType p2 = Pawn /\ Z.abs (ty2 - fy2) = 2) ->
     epX g2 = -1 /\ epY g2 = -1).
Proof.
  assert (Hret : forall g0 x y x' y' g',
            executeMove g0 x y x' y' = Ok g' ->
            exists p, board g0 !! (y, x) = Some p /\ epTargetAfter g' p x y y').
  { intros g0 x y x' y' g' H.
    destruct (executeMove_Ok_inv _ _ _ _ _ _ H) as (Hf & Ht & p & Hp & Hrook).
    destruct (executeMove_ep g0 x y x' y' p Hf Ht Hp Hrook) as (g'' & Hg & Hx & Hy).
    exists p. split; [exact Hp |].
    assert (g'' = g') as -> by congruence.
    apply epTargetAfter_intro; assumption. }
  split; [| split].
  - intros p Hf Ht Hp Hrook.
    destruct (executeMove_ep g fx fy tx ty p Hf Ht Hp Hrook) as (g' & Hg & Hx & Hy).
    exists g'. split; [exact Hg |]. apply epTargetAfter_intro; assumption.
  - apply Hret.
  - intros g1 g2 fx2 fy2 tx2 ty2 p2 _ H2 Hp2 Hnot.
    destruct (Hret _ _ _ _ _ _ H2) as (p & Hp & [(Ha & Hb & _) | (_ & Hx & Hy)]).
    + exfalso. apply Hnot. assert (p = p2) as <- by congruence. auto.
    + auto.
Qed.

Lemma C6_en_passant_target_witness :
  exists g', executeMove newGame 4 6 4 4 = Ok g' /\
             epTargetAfter g' (mkPiece Pawn White 6 false) 4 6 4.
Proof.
  apply (C6_en_passant_target newGame 4 6 4 4).
  - unfold onBoard. lia.
  - unfold onBoard. lia.
  - vm_compute. reflexivity.
  - intros H. discriminate H.
Defined.

(** C5.  When a pawn is moved to another rank onto the en-passant target,
    [executeMove] empties the square beside the origin on the destination's
    file (same file as the destination, same rank as the origin), the
    destination takes the pawn with [HasMoved] set, and no square other than
    these two and the origin changes. *)
Theorem C5_en_passant_capture (g : Game) (fx fy tx ty : Z) (p : ChessPiece) :
  onBoard fx fy -> onBoard tx ty -> board g !! (fy, fx) = Some p ->
  pType p = Pawn -> tx = epX g -> ty = epY g -> ty <> fy ->
  exists g', executeMove g fx fy tx ty = Ok g' /\
    board g' !! (fy, tx) = None /\
    (exists p', board g' !! (ty, tx) = Some p' /\
                pColor p' = pColor p /\ HasMoved p' = true) /\
    (forall x y, (y, x) <> (fy, tx) -> (y, x) <> (ty, tx) -> (y, x) <> (fy, fx) ->
                 board g' !! (y, x) = board g !! (y, x)).
Proof.
  intros [Hfx Hfy] [Htx Hty] Hp Hpawn Hex Hey Hne. unfold executeMove.
  rewrite (rd_in g fy fx) by assumption. rewrite bind_Ok_l, Hp.
  rewrite Hpawn.
  rewrite (bool_decide_eq_false_2 (Pawn = King)) by discriminate.
  rewrite (bool_decide_eq_true_2 (Pawn = Pawn)) by reflexivity.
  cbn [andb]. rewrite bind_Ok_l. cbv beta.
  rewrite <- Hex, <- Hey, !Z.eqb_refl. cbn [andb].
  repeat wr_step.
  unfold throughPtr.
  assert (Hnull : (tx =? fx) && (ty =? fy) = false).
  { apply andb_false_iff. right. apply Z.eqb_neq. exact Hne. }
  rewrite Hnull. repeat wr_step.
  assert (H1 : (fy, fx) <> (fy, tx) \/ fx = tx)
    by (destruct (Z.eq_dec fx tx); [right | left]; congruence).
  assert (H2 : (ty, tx) <> (fy, tx)) by congruence.
  assert (H3 : (ty, tx) <> (fy, fx)) by congruence.
  destruct (abs (ty - fy) =? 2);
    (destruct ((ty =? 0) || (ty =? 7));
     [destruct (decide (pColor p = White)) |]);
    rewrite ?bind_Ok_l; cbv beta; rewrite ?Hnull; try wr_step;
    (eexists; split; [reflexivity |]);
    game_fields; destruct (promoting g); game_fields;
    (split; [| split]);
    try (intros x y Ha Hb Hc;
         rewrite ?lookup_set_other by congruence; reflexivity);
    try (rewrite ?lookup_set_same; eexists; split; [reflexivity |];
         split; reflexivity);
    try (destruct H1 as [H1 | ->];
         [ rewrite ?(lookup_set_other _ (ty, tx)) by congruence;
           rewrite (lookup_set_other _ (fy, fx)) by congruence;
           rewrite ?(lookup_set_other _ (ty, tx)) by congruence;
           apply lookup_set_same
         | rewrite ?(lookup_set_other _ (ty, tx)) by congruence;
           apply lookup_set_same ]).
Qed.

(** ** Only the board and the en-passant target matter *)

Lemma samePosition_refl (g : Game) : samePosition g g.
Proof. repeat split. Qed.


Lemma loop_ext {A S R} (body body' : A -> S -> res (S + R)) (l : list A) :
  (forall a s, In a l -> body a s = body' a s) ->
  forall s, loop body l s = loop body' l s.
Proof.
  induction l as [|a l IH]; intros H s; simpl; [reflexivity |].
  rewrite (H a s) by (left; reflexivity).
  destruct (body' a s) as [[s' | v] | |]; simpl; try reflexivity.
  apply IH. intros a' s0 Hin. apply H. right. exact Hin.
Qed.

Lemma rd_frame (g g' : Game) (y x : Z) :
  board g = board g' -> rd g y x = rd g' y x.
Proof. intros H. unfold rd. rewrite H. reflexivity. Qed.

Lemma pathLoop_frame (g g' : Game) (sx sy tx ty : Z) (k : nat) :
  board g = board g' ->
  forall cx cy, pathLoop k g sx sy tx ty cx cy = pathLoop k g' sx sy tx ty cx cy.
Proof.
  intros H. induction k as [|k IH]; intros cx cy.
  - rewrite (pathLoop_eq 0 g), (pathLoop_eq 0 g'), (rd_frame g g' cy cx H).
    reflexivity.
  - rewrite (pathLoop_eq (S k) g), (pathLoop_eq (S k) g'), (rd_frame g g' cy cx H).
    destruct (negb (cx =? tx) || negb (cy =? ty)); [| reflexivity].
    destruct (rd g' cy cx) as [[q|] | |]; try reflexivity.
    rewrite !bind_Ok_l. apply IH.
Qed.

Lemma isPathClear_frame (g g' : Game) (fx fy tx ty : Z) :
  board g = board g' -> isPathClear g fx fy tx ty = isPathClear g' fx fy tx ty.
Proof. intros H. unfold isPathClear. apply pathLoop_frame, H. Qed.

Lemma isMoveLegalW_frame (chk chk' : Color -> res bool) (g g' : Game)
    (p : ChessPiece) (fx fy tx ty : Z) :
  samePosition g g' -> chk (pColor p) = chk' (pColor p) ->
  isMoveLegalW chk g p fx fy tx ty = isMoveLegalW chk' g' p fx fy tx ty.
Proof.
  intros (Hb & Hx & Hy) Hc. unfold isMoveLegalW.
  rewrite Hc, Hx, Hy.
  rewrite (rd_frame g g' ty tx Hb).
  rewrite (rd_frame g g' fy _ Hb).
  rewrite (isPathClear_frame g g' fx fy tx ty Hb).
  rewrite (isPathClear_frame g g' fx fy _ fy Hb).
  reflexivity.
Qed.

Lemma isSquareAttackedW_frame (chk chk' : Color -> res bool) (g g' : Game)
    (x y : Z) (a : Color) :
  samePosition g g' -> chk a = chk' a ->
  isSquareAttackedW chk g x y a = isSquareAttackedW chk' g' x y a.
Proof.
  intros Hs Hc. unfold isSquareAttackedW. f_equal.
  apply loop_ext. intros fy [] _. apply loop_ext. intros fx [] _.
  rewrite (rd_frame g g' fy fx (proj1 Hs)).
  destruct (rd g' fy fx) as [[p|] | |]; simpl; try reflexivity.
  destruct (decide (pColor p = a)) as [Ha | Ha].
  - rewrite bool_decide_eq_true_2 by exact Ha.
    rewrite (isMoveLegalW_frame chk chk' g g') by (rewrite ?Ha; assumption).
    reflexivity.
  - rewrite bool_decide_eq_false_2 by exact Ha. reflexivity.
Qed.

Lemma lastKing_frame (g g' : Game) (c : Color) :
  board g = board g' -> lastKing g c = lastKing g' c.
Proof. intros H. unfold lastKing, kingAt. rewrite H. reflexivity. Qed.

Lemma isInCheckW_frame (chk chk' : Color -> res bool) (g g' : Game) (c : Color) :
  samePosition g g' -> chk (opp c) = chk' (opp c) ->
  isInCheckW chk g c = isInCheckW chk' g' c.
Proof.
  intros Hs Hc. rewrite !isInCheckW_eq.
  rewrite (lastKing_frame g g' c (proj1 Hs)).
  destruct (fst (lastKing g' c) =? -1); [reflexivity |].
  apply isSquareAttackedW_frame; assumption.
Qed.

Lemma isInCheck_frame (n : nat) (g g' : Game) :
  samePosition g g' -> forall c, isInCheck n g c = isInCheck n g' c.
Proof.
  intros Hs. induction n as [|n IH]; intros c; [reflexivity |].
  change (isInCheckW (isInCheck n g) g c = isInCheckW (isInCheck n g') g' c).
  apply isInCheckW_frame; [exact Hs | apply IH].
Qed.

Lemma isMoveLegal_frame (n : nat) (g g' : Game) (p : ChessPiece)
    (fx fy tx ty : Z) :
  samePosition g g' ->
  isMoveLegal n g p fx fy tx ty = isMoveLegal n g' p fx fy tx ty.
Proof.
  intros Hs. apply isMoveLegalW_frame; [exact Hs | apply isInCheck_frame, Hs].
Qed.

Lemma isSquareAttacked_frame (n : nat) (g g' : Game) (x y : Z) (a : Color) :
  samePosition g g' ->
  isSquareAttacked n g x y a = isSquareAttacked n g' x y a.
Proof.
  intros Hs. apply isSquareAttackedW_frame; [exact Hs | apply isInCheck_frame, Hs].
Qed.

Lemma tried_frame (g g' : Game) (p : ChessPiece) (fx fy tx ty : Z) :
  samePosition g g' ->
  samePosition (tried g p fx fy tx ty) (tried g' p fx fy tx ty).
Proof.
  intros (Hb & Hx & Hy). unfold samePosition, tried. simpl.
  rewrite Hb. repeat split; assumption.
Qed.

Lemma fullyLegal_frame (n : nat) (g g' : Game) (c : Color) (p : ChessPiece)
    (fx fy tx ty : Z) :
  samePosition g g' ->
  fullyLegal n g c p fx fy tx ty = fullyLegal n g' c p fx fy tx ty.
Proof.
  intros Hs. unfold fullyLegal.
  rewrite (isMoveLegal_frame n g g') by exact Hs.
  rewrite (isInCheck_frame n _ _ (tried_frame g g' p fx fy tx ty Hs)).
  reflexivity.
Qed.

(** ** The end of the game (lines 333-345) *)

(** A castling-shaped call towards a square it may enter has consulted
    [isInCheck] whenever it returns. *)
Lemma castle_call_answered (chk : Color -> res bool) (g : Game)
    (p : ChessPiece) (fx fy tx ty : Z) (b : bool) :
  castleShape p fx fy tx ty -> onBoard tx ty -> notOwn g p tx ty ->
  isMoveLegalW chk g p fx fy tx ty = Ok b ->
  exists b', chk (pColor p) = Ok b'.
Proof.
  intros (Hk & Hm & Hy & Hd) [Htx Hty] Hno. unfold isMoveLegalW.
  assert (E : (tx <? 0) || (7 <? tx) || (ty <? 0) || (7 <? ty) = false)
    by (apply range_guard; split; assumption).
  rewrite E. rewrite (rd_in g ty tx) by assumption. rewrite bind_Ok_l.
  apply sameColorAs_false in Hno. rewrite Hno, Hk. cbv zeta.
  rewrite !abs_spec, Hd, Hm, Hy, Z.eqb_refl. cbn [Z.leb Z.compare Pos.compare
    Pos.compare_cont andb orb negb Z.eqb Pos.eqb].
  destruct (chk (pColor p)) as [b' | |]; simpl; try discriminate.
  intros _. exists b'. reflexivity.
Qed.

(** If [hasLegalMoves c] has answered false, [isInCheck c] returns. *)
Lemma stuck_side_check_returns (n : nat) (g g0 : Game) (c : Color) :
  hasLegalMoves n g c = Ok (false, g0) ->
  exists b, forall m, (Nat.max n 2 <= m)%nat -> isInCheck m g c = Ok b.
Proof.
  intros H. rewrite hasLegalMoves_pure in H.
  apply bind_Ok in H as (ok & Hok & [= -> _]).
  destruct (recursionEnds g) eqn:Hr.
  - destruct (isInCheck_returns g c Hr) as (b & Hb). exists b.
    intros m Hm. apply Hb. lia.
  - unfold recursionEnds in Hr. apply negb_false_iff, andb_true_iff in Hr.
    assert (Ho : castleThreat g (opp c) = true) by (destruct c; simpl; apply Hr).
    apply castleThreat_true in Ho as (Hk & x & r & Hx & Hcell & Hking & Hcol & Hm & Hd).
    rewrite opp_opp in Hcol.
    destruct (lastKing_some g (opp c) Hk) as (Hon & Hlast & _).
    pose proof (anyLegalMove_false n g c Hok x (snd (lastKing g (opp c)))
                  (fst (lastKing g (opp c))) (snd (lastKing g (opp c))) r
                  (conj Hx (proj2 Hon)) Hon Hcell Hcol) as Hfl.
    assert (Hret : exists b, isMoveLegal n g r x (snd (lastKing g (opp c)))
                     (fst (lastKing g (opp c))) (snd (lastKing g (opp c))) = Ok b).
    { unfold fullyLegal in Hfl.
      destruct (isMoveLegal n g r x _ _ _) as [b | |]; try discriminate.
      exists b. reflexivity. }
    destruct Hret as (b & Hb).
    destruct (castle_call_answered (isInCheck n g) g r x
                (snd (lastKing g (opp c))) (fst (lastKing g (opp c)))
                (snd (lastKing g (opp c))) b) as (b' & Hb').
    + repeat split; assumption.
    + exact Hon.
    + intros t Ht. unfold isKingOf in Hlast. rewrite Ht in Hlast.
      apply andb_true_iff in Hlast as [_ Hc]. apply bool_decide_eq_true in Hc.
      rewrite Hc, Hcol. destruct c; discriminate.
    + exact Hb.
    + rewrite Hcol in Hb'. exists b'. intros m Hle.
      apply (isInCheck_more n m); [lia | exact Hb'].
Qed.

Lemma endOfGame_spec (n : nat) (g : Game) (b : bool) :
  isInCheck n g (activeColor g) = Ok b ->
  exists g', endOfGame n g = Ok g' /\
    gameOver g' = true /\ board g' = board g /\
    winner g' = (if b then colorCode (opp (activeColor g)) else winner g) /\
    (forall m, isInCheck m g (activeColor g) = Ok b -> endOfGame m g = Ok g').
Proof.
  intros Hb. unfold endOfGame. cbv zeta.
  assert (Hf : forall m c, isInCheck m (with_gameOver g true) c =
                           isInCheck m g c).
  { intros m c. apply isInCheck_frame. repeat split. }
  cbn [activeColor with_gameOver].
  rewrite Hf, Hb, bind_Ok_l.
  destruct b.
  - destruct (activeColor g) eqn:Hc.
    + rewrite decide_False by discriminate.
      eexists. split; [reflexivity |]. repeat split.
      intros m Hm. rewrite Hf, Hm. reflexivity.
    + rewrite decide_True by reflexivity.
      eexists. split; [reflexivity |]. repeat split.
      intros m Hm. rewrite Hf, Hm. reflexivity.
  - eexists. split; [reflexivity |]. repeat split.
    intros m Hm. rewrite Hf, Hm. reflexivity.
Qed.

(** C2 (as stated) fails before a match is started.  In the state [main]
    hands to the game loop the side to move is Black (the zero value) and
    the board is empty, so [hasLegalMoves] answers false; yet no tick marks
    that game over, whatever the input: [Update] returns at its first test,
    after at most setting up a new match. *)
Lemma C2_menu_not_marked_over :
  (forall n, hasLegalMoves n startMenu (activeColor startMenu)
             = Ok (false, startMenu)) /\
  (forall n i, exists g', Update n startMenu i = Ok g' /\ gameOver g' = false).
Proof.
  split.
  - intros n. vm_compute. reflexivity.
  - intros n i. unfold Update.
    change (negb (gameStarted startMenu)) with true. cbv iota.
    destruct (key1 i), (key2 i); eexists; split; vm_compute; reflexivity.
Qed.

(** C2, amended.  In a match in progress (started, not over, no promotion
    pending), when [hasLegalMoves] answers false for the side to move,
    [isInCheck] for that side returns and [Update] returns with the game
    marked over; if the side is in check the winner recorded is the other
    side ([0] for Black, [1] for White), and if it is not, the winner field
    keeps its value.  The board is left as it was. *)
Theorem C2_no_legal_move (n : nat) (g g0 : Game) (i : Input) :
  gameStarted g = true -> gameOver g = false -> promoting g = false ->
  hasLegalMoves n g (activeColor g) = Ok (false, g0) ->
  exists b g',
    (forall m, (Nat.max n 2 <= m)%nat ->
       isInCheck m g (activeColor g) = Ok b /\ Update m g i = Ok g') /\
    gameOver g' = true /\ board g' = board g /\
    winner g' = (if b then colorCode (opp (activeColor g)) else winner g).
Proof.
  intros Hs Ho Hp Hhas.
  destruct (stuck_side_check_returns n g g0 _ Hhas) as (b & Hb).
  destruct (endOfGame_spec (Nat.max n 2) g b (Hb _ (Nat.le_refl _)))
    as (g' & _ & Hover & Hboard & Hwin & Hall).
  exists b, g'. split; [| repeat split; assumption].
  intros m Hm. split; [apply Hb, Hm |].
  unfold Update. rewrite Hs, Ho, Hp. cbn [negb].
  assert (Hm' : hasLegalMoves m g (activeColor g) = Ok (false, g)).
  { destruct (hasLegalMoves_sound n g g0 _ _ Hhas) as [-> _].
    eapply le_res_Ok; [apply (hasLegalMoves_le n m); lia | exact Hhas]. }
  rewrite Hm', bind_Ok_l. cbn [negb]. apply Hall, Hb, Hm.
Qed.

(** ** White's click (lines 352-375) *)

Lemma click_guard (gx gy : Z) :
  (0 <=? gx) && (gx <? 8) && (0 <=? gy) && (gy <? 8) = true <-> onBoard gx gy.
Proof.
  unfold onBoard. rewrite !andb_true_iff, !Z.leb_le, !Z.ltb_lt. lia.
Qed.

Lemma whiteClick_off_board (n : nat) (g : Game) (mx my : Z) :
  ~ onBoard (Z.quot mx tileSize - 1) (Z.quot my tileSize - 1) ->
  whiteClick n g mx my = Ok g.
Proof.
  intros H. unfold whiteClick. cbv zeta.
  destruct (_ && _ && _ && _) eqn:E; [| reflexivity].
  apply click_guard in E. contradiction.
Qed.

Lemma whiteClick_rejected (n : nat) (g : Game) (mx my : Z) (p : ChessPiece) :
  let gx := Z.quot mx tileSize - 1 in
  let gy := Z.quot my tileSize - 1 in
  onBoard gx gy -> selectedX g <> -1 ->
  onBoard (selectedX g) (selectedY g) ->
  board g !! (selectedY g, selectedX g) = Some p ->
  isMoveLegal n g p (selectedX g) (selectedY g) gx gy = Ok false \/
  (isMoveLegal n g p (selectedX g) (selectedY g) gx gy = Ok true /\
   isInCheck n (tried g p (selectedX g) (selectedY g) gx gy) White = Ok true) ->
  whiteClick n g mx my = Ok (with_selected g (-1) (-1)).
Proof.
  intros gx gy Hon Hsel Hs Hp Hrej. unfold whiteClick. cbv zeta.
  fold gx gy.
  rewrite (proj2 (click_guard gx gy) Hon).
  rewrite (proj2 (Z.eqb_neq _ _) Hsel).
  destruct Hs as [Hsx Hsy]. destruct Hon as [Hgx Hgy].
  rewrite (rd_in g (selectedY g) (selectedX g)) by assumption.
  rewrite bind_Ok_l, Hp.
  destruct Hrej as [Hl | [Hl Hc]]; rewrite Hl, bind_Ok_l.
  - reflexivity.
  - rewrite (rd_in g gy gx) by assumption. rewrite bind_Ok_l.
    rewrite (wr_in g gy gx) by assumption. rewrite bind_Ok_l.
    cbn [selectedX selectedY with_board].
    rewrite wr_in by assumption. rewrite bind_Ok_l.
    change (with_board _ _) with (tried g p (selectedX g) (selectedY g) gx gy).
    rewrite Hc, bind_Ok_l. cbn [negb].
    cbn [selectedX selectedY tried with_board].
    change (with_board g _) with (tried g p (selectedX g) (selectedY g) gx gy).
    rewrite bind_assoc, wr_back by (try split; assumption).
    reflexivity.
Qed.

Lemma afterWhiteClock_fields (g : Game) :
  board (afterWhiteClock g) = board g /\
  epX (afterWhiteClock g) = epX g /\ epY (afterWhiteClock g) = epY g /\
  selectedX (afterWhiteClock g) = selectedX g /\
  selectedY (afterWhiteClock g) = selectedY g /\
  activeColor (afterWhiteClock g) = activeColor g /\
  moveCount (afterWhiteClock g) = moveCount g.
Proof.
  unfold afterWhiteClock. cbv zeta.
  destruct (whiteTime (with_whiteTime g (whiteTime g - 1)) <=? 0);
    repeat split.
Qed.

Lemma Update_white (n : nat) (g g0 : Game) (i : Input) :
  gameStarted g = true -> gameOver g = false -> promoting g = false ->
  activeColor g = White ->
  hasLegalMoves n g White = Ok (true, g0) ->
  Update n g i =
  if mouseLeft i
  then whiteClick n (afterWhiteClock g) (cursorX i) (cursorY i)
  else Ok (afterWhiteClock g).
Proof.
  intros Hs Ho Hp Hc Hhas. unfold Update. rewrite Hs, Ho, Hp. cbn [negb].
  destruct (hasLegalMoves_sound n g g0 White true Hhas) as [-> _].
  rewrite Hc, Hhas, bind_Ok_l. cbn [negb]. rewrite Hc.
  rewrite decide_True by reflexivity. reflexivity.
Qed.

Lemma Update_ignores_off_board_click (n : nat) (g : Game) (i : Input) :
  gameOver g = false ->
  ~ onBoard (Z.quot (cursorX i) tileSize - 1) (Z.quot (cursorY i) tileSize - 1) ->
  Update n g i = Update n g (noClick i).
Proof.
  intros Ho Hoff. unfold Update. rewrite Ho.
  destruct (negb (gameStarted g)); [reflexivity |].
  destruct (promoting g); [reflexivity |].
  destruct (hasLegalMoves n g (activeColor g)) as [[has g1] | |];
    try reflexivity.
  rewrite !bind_Ok_l. destruct (negb has); [reflexivity |].
  destruct (decide (activeColor g1 = White)); [| reflexivity].
  cbv zeta. cbn [mouseLeft noClick cursorX cursorY].
  destruct (mouseLeft i); [| reflexivity].
  apply whiteClick_off_board. exact Hoff.
Qed.

Example foolsMate_is_mate :
  activeColor foolsMate = White /\
  hasLegalMoves 2 foolsMate White = Ok (false, foolsMate) /\
  isInCheck 2 foolsMate White = Ok true.
Proof.
  split; [vm_compute; reflexivity |].
  split; vm_compute; reflexivity.
Qed.

Lemma C2_no_legal_move_witness :
  exists b g',
    (forall m, (Nat.max 2 2 <= m)%nat ->
       isInCheck m foolsMate (activeColor foolsMate) = Ok b /\
       Update m foolsMate idle = Ok g') /\
    gameOver g' = true /\ board g' = board foolsMate /\
    winner g' = (if b then colorCode (opp (activeColor foolsMate))
                 else winner foolsMate).
Proof.
  apply (C2_no_legal_move 2 foolsMate foolsMate idle).
  - vm_compute. reflexivity.
  - vm_compute. reflexivity.
  - vm_compute. reflexivity.
  - vm_compute. reflexivity.
Defined.

(** C8.  On White's turn, with a piece selected, a click on a square of the
    board for which [isMoveLegal] answers false, or answers true while
    [isInCheck White] is true on the board with the move tried, changes
    nothing but the selection, which is cleared: board (hence every
    [HasMoved] flag), side to move, en-passant target and move count are as
    before. *)
Theorem C8_rejected_move (n : nat) (g : Game) (mx my : Z) (p : ChessPiece) :
  let gx := Z.quot mx tileSize - 1 in
  let gy := Z.quot my tileSize - 1 in
  onBoard gx gy -> selectedX g <> -1 ->
  onBoard (selectedX g) (selectedY g) ->
  board g !! (selectedY g, selectedX g) = Some p ->
  isMoveLegal n g p (selectedX g) (selectedY g) gx gy = Ok false \/
  (isMoveLegal n g p (selectedX g) (selectedY g) gx gy = Ok true /\
   isInCheck n (tried g p (selectedX g) (selectedY g) gx gy) White = Ok true) ->
  exists g', whiteClick n g mx my = Ok g' /\
    g' = with_selected g (-1) (-1) /\
    board g' = board g /\ activeColor g' = activeColor g /\
    epX g' = epX g /\ epY g' = epY g /\ moveCount g' = moveCount g.
Proof.
  intros gx gy Hon Hsel Hs Hp Hrej.
  exists (with_selected g (-1) (-1)).
  split; [apply (whiteClick_rejected n g mx my p); assumption |].
  repeat split.
Qed.

Lemma C8_rejected_move_witness :
  exists g', whiteClick 2 (with_selected newGame 4 6) 80 64 = Ok g' /\
    g' = with_selected (with_selected newGame 4 6) (-1) (-1) /\
    board g' = board (with_selected newGame 4 6) /\
    activeColor g' = activeColor (with_selected newGame 4 6) /\
    epX g' = epX (with_selected newGame 4 6) /\
    epY g' = epY (with_selected newGame 4 6) /\
    moveCount g' = moveCount (with_selected newGame 4 6).
Proof.
  apply (C8_rejected_move 2 (with_selected newGame 4 6) 80 64
           (mkPiece Pawn White 6 false)).
  - unfold onBoard, tileSize.
    change (Z.quot 80 16 - 1) with 4. change (Z.quot 64 16 - 1) with 3. lia.
  - simpl. lia.
  - unfold onBoard. simpl. lia.
  - vm_compute. reflexivity.
  - left. vm_compute. reflexivity.
Defined.

(** The same through [Update]: the tick changes White's clock (and ends the
    game when it runs out), nothing else. *)
Lemma Update_rejected_move (n : nat) (g g0 : Game) (i : Input) (p : ChessPiece) :
  let gx := Z.quot (cursorX i) tileSize - 1 in
  let gy := Z.quot (cursorY i) tileSize - 1 in
  gameStarted g = true -> gameOver g = false -> promoting g = false ->
  activeColor g = White -> hasLegalMoves n g White = Ok (true, g0) ->
  mouseLeft i = true ->
  onBoard gx gy -> selectedX g <> -1 ->
  onBoard (selectedX g) (selectedY g) ->
  board g !! (selectedY g, selectedX g) = Some p ->
  isMoveLegal n g p (selectedX g) (selectedY g) gx gy = Ok false \/
  (isMoveLegal n g p (selectedX g) (selectedY g) gx gy = Ok true /\
   isInCheck n (tried g p (selectedX g) (selectedY g) gx gy) White = Ok true) ->
  exists g', Update n g i = Ok g' /\
    board g' = board g /\ activeColor g' = activeColor g /\
    epX g' = epX g /\ epY g' = epY g /\ moveCount g' = moveCount g.
Proof.
  intros gx gy Hs Ho Hpr Hc Hhas Hm Hon Hsel Hson Hp Hrej.
  rewrite (Update_white n g g0 i Hs Ho Hpr Hc Hhas), Hm.
  destruct (afterWhiteClock_fields g) as (Hb & Hx & Hy & Hsx & Hsy & Hac & Hmc).
  assert (Hsame : samePosition (afterWhiteClock g) g) by (repeat split; assumption).
  exists (with_selected (afterWhiteClock g) (-1) (-1)). split.
  - apply (whiteClick_rejected n (afterWhiteClock g) _ _ p).
    + exact Hon.
    + rewrite Hsx. exact Hsel.
    + rewrite Hsx, Hsy. exact Hson.
    + rewrite Hsx, Hsy, Hb. exact Hp.
    + rewrite Hsx, Hsy.
      rewrite (isMoveLegal_frame n _ g) by exact Hsame.
      rewrite (isInCheck_frame n _ _ (tried_frame _ g p _ _ _ _ Hsame)).
      exact Hrej.
  - repeat split; assumption.
Qed.

(** C9.  A destination off the board makes [isMoveLegal] answer false at
    once, whatever the board, the piece, the origin and the budget.  A click
    that maps to a square off the board leaves [whiteClick] without any
    effect, and a tick of a game that is not over with such a click is the
    tick without the click: nothing panics. *)
Theorem C9_off_board (n : nat) (g : Game) (p : ChessPiece) (fx fy tx ty : Z)
    (i : Input) :
  (~ onBoard tx ty -> isMoveLegal n g p fx fy tx ty = Ok false) /\
  (~ onBoard (Z.quot (cursorX i) tileSize - 1) (Z.quot (cursorY i) tileSize - 1) ->
   whiteClick n g (cursorX i) (cursorY i) = Ok g /\
   (gameOver g = false -> Update n g i = Update n g (noClick i))).
Proof.
  split.
  - apply isMoveLegal_off_board.
  - intros Hoff. split; [apply whiteClick_off_board, Hoff |].
    intros Ho. apply Update_ignores_off_board_click; assumption.
Qed.

Lemma C9_off_board_witness :
  isMoveLegal 2 newGame (mkPiece Rook White 8 false) 0 7 (-1) 7 = Ok false /\
  whiteClick 2 newGame 5 200 = Ok newGame.
Proof.
  split.
  - apply (C9_off_board 2 newGame (mkPiece Rook White 8 false) 0 7 (-1) 7 idle).
    unfold onBoard. lia.
  - apply (C9_off_board 2 newGame (mkPiece Rook White 8 false) 0 7 (-1) 7
             (mkInput false false false false false false true 5 200)).
    unfold onBoard, tileSize, cursorX, cursorY.
    change (Z.quot 5 16 - 1) with (-1). lia.
Defined.

Lemma C5_en_passant_capture_witness :
  exists g', executeMove enPassantGame 4 3 3 2 = Ok g' /\
    board g' !! (3, 3) = None /\
    (exists p', board g' !! (2, 3) = Some p' /\
                pColor p' = pColor (mkPiece Pawn White 6 true) /\
                HasMoved p' = true) /\
    (forall x y, (y, x) <> (3, 3) -> (y, x) <> (2, 3) -> (y, x) <> (3, 4) ->
                 board g' !! (y, x) = board enPassantGame !! (y, x)).
Proof.
  apply (C5_en_passant_capture enPassantGame 4 3 3 2 (mkPiece Pawn White 6 true)).
  - unfold onBoard. lia.
  - unfold onBoard. lia.
  - vm_compute. reflexivity.
  - reflexivity.
  - reflexivity.
  - reflexivity.
  - lia.
Defined.

(** ** The opponent's heuristic (lines 404-454) *)

Lemma loop_collect {A B S} (body : A -> S * list B -> res (S * list B + Empty_set))
    (f : A -> res (list B)) (l : list A) (s : S) :
  (forall a acc, In a l ->
     body a (s, acc) = (r ← f a; Ok (inl (s, acc ++ r)))) ->
  forall acc,
    loop body l (s, acc) = (rs ← collectM f l; Ok (inl (s, acc ++ rs))).
Proof.
  induction l as [|a l IH]; intros Hb acc; simpl.
  - rewrite app_nil_r. reflexivity.
  - rewrite Hb by (left; reflexivity). rewrite !bind_assoc.
    destruct (f a) as [r | |]; simpl; try reflexivity.
    rewrite IH by (intros a' acc' Hin; apply Hb; right; exact Hin).
    rewrite !bind_assoc.
    destruct (collectM f l) as [rs | |]; simpl; try reflexivity.
    rewrite app_assoc. reflexivity.
Qed.

Lemma collectM_Ok {A B} (f : A -> res (list B)) (h : A -> list B) (l : list A) :
  (forall a, In a l -> f a = Ok (h a)) -> collectM f l = Ok (flat_map h l).
Proof.
  induction l as [|a l IH]; intros H; simpl; [reflexivity |].
  rewrite H by (left; reflexivity). simpl.
  rewrite IH by (intros a' Hin; apply H; right; exact Hin). reflexivity.
Qed.

Lemma smartMoves_pure (n : nat) (g : Game) :
  smartMoves n g =
  (rs ← collectM (fun fy => collectM (fun fx => movesFrom n g fx fy) idx8) idx8;
   Ok (g, rs)).
Proof.
  unfold smartMoves.
  rewrite (loop_collect _
             (fun fy => collectM (fun fx => movesFrom n g fx fy) idx8)).
  - rewrite bind_assoc.
    destruct (collectM _ idx8) as [rs | |]; reflexivity.
  - intros fy acc Hfy. apply idx8_spec in Hfy.
    apply loop_collect. intros fx acc' Hfx. apply idx8_spec in Hfx.
    rewrite rd_in by assumption. rewrite bind_Ok_l. unfold movesFrom.
    destruct (board g !! (fy, fx)) as [p|] eqn:Hp.
    2: { rewrite bind_Ok_l, app_nil_r. reflexivity. }
    destruct (negb (bool_decide (pColor p = Black))).
    { rewrite bind_Ok_l, app_nil_r. reflexivity. }
    apply loop_collect. intros ty acc2 Hty. apply idx8_spec in Hty.
    apply loop_collect. intros tx acc3 Htx. apply idx8_spec in Htx.
    unfold scoredCandidate. rewrite bind_assoc.
    destruct (isMoveLegal n g p fx fy tx ty) as [[|] | |];
      rewrite ?bind_Ok_l; try reflexivity.
    2: { rewrite app_nil_r. reflexivity. }
    rewrite rd_in by assumption. rewrite bind_Ok_l. cbv zeta.
    rewrite !bind_assoc.
    destruct (isSquareAttacked n g fx fy White) as [d | |];
      rewrite ?bind_Ok_l; try reflexivity.
    rewrite wr_tried by (split; assumption).
    rewrite !bind_assoc.
    destruct (isInCheck n (tried g p fx fy tx ty) Black) as [chk | |];
      rewrite ?bind_Ok_l; try reflexivity.
    destruct chk; cbn [negb].
    + rewrite !bind_Ok_l. rewrite wr_back by (try split; assumption).
      rewrite app_nil_r. reflexivity.
    + rewrite !bind_assoc.
      destruct (isSquareAttacked n (tried g p fx fy tx ty) tx ty White)
        as [a | |]; rewrite ?bind_Ok_l; try reflexivity.
      rewrite wr_back by (try split; assumption). reflexivity.
Qed.

(** *** The selection as the specification words it *)

Lemma flat_map_nest {A B C} (h : B -> list C) (k : A -> list B) (l : list A) :
  flat_map h (flat_map k l) = flat_map (fun a => flat_map h (k a)) l.
Proof.
  induction l as [|a l IH]; simpl; [reflexivity |].
  rewrite flat_map_app, IH. reflexivity.
Qed.

Lemma flat_map_cond {A B} (P : A -> bool) (F : A -> B) (l : list A) :
  flat_map (fun a => if P a then [F a] else []) l = map F (List.filter P l).
Proof.
  induction l as [|a l IH]; simpl; [reflexivity |].
  rewrite IH. destruct (P a); reflexivity.
Qed.

Lemma scoredCandidate_spec (n : nat) (g : Game) (p : ChessPiece)
    (fx fy tx ty : Z) :
  kingsNear 0 g -> (2 <= n)%nat ->
  onBoard fx fy -> onBoard tx ty ->
  board g !! (fy, fx) = Some p -> pColor p = Black ->
  scoredCandidate n g p fx fy tx ty =
  Ok (if blackMoveLegal g (fx, fy, tx, ty)
      then [scored g (fx, fy, tx, ty)] else []).
Proof.
  intros Hn Hle Hf Ht Hp Hc.
  assert (Hg : recursionEnds g = true)
    by (apply near_ends, (kingsNear_weaken 0); [lia | exact Hn]).
  unfold scoredCandidate, blackMoveLegal, scored, moveScore, fullyLegal.
  rewrite Hp, Hc. rewrite bool_decide_eq_true_2 by reflexivity. cbn [andb].
  destruct (isMoveLegal_returns g p fx fy tx ty Hg Hf Ht) as (b & Hb).
  rewrite (Hb n Hle), (Hb 2%nat (Nat.le_refl _)), !bind_Ok_l.
  destruct b; [| reflexivity].
  assert (Hno : notOwn g p tx ty).
  { apply (isMoveLegalW_true_target (isInCheck 2 g) g p fx fy tx ty).
    apply Hb. lia. }
  assert (Ht' : recursionEnds (tried g p fx fy tx ty) = true).
  { apply near_ends, tried_near; try assumption.
    apply (king_step_rank (isInCheck 2 g) g p fx fy tx ty).
    apply Hb. lia. }
  destruct (isSquareAttacked_returns g fx fy White Hg Hf) as (d & Hd).
  destruct (isInCheck_returns (tried g p fx fy tx ty) Black Ht') as (chk & Hchk).
  destruct (isSquareAttacked_returns (tried g p fx fy tx ty) tx ty White Ht' Ht)
    as (a & Ha).
  unfold attackedByWhite.
  rewrite (Hd n Hle), (Hd 2%nat (Nat.le_refl _)), bind_Ok_l.
  rewrite (Hchk n Hle), (Hchk 2%nat (Nat.le_refl _)), !bind_Ok_l.
  destruct chk; cbn [negb]; [reflexivity |].
  rewrite (Ha n Hle), (Ha 2%nat (Nat.le_refl _)), bind_Ok_l.
  cbv zeta. do 2 f_equal. f_equal.
  destruct (board g !! (ty, tx)) as [o|] eqn:Ho.
  - specialize (Hno o Ho). rewrite Hc in Hno.
    assert (Hw : pColor o = White) by (destruct (pColor o); congruence).
    rewrite bool_decide_eq_true_2 by exact Hw.
    destruct d, a; lia.
  - destruct d, a; lia.
Qed.

Lemma flat_map_all_nil {A B} (h : A -> list B) (l : list A) :
  (forall a, In a l -> h a = []) -> flat_map h l = [].
Proof.
  induction l as [|a l IH]; intros H; simpl; [reflexivity |].
  rewrite H by (left; reflexivity).
  apply IH. intros a' Hin. apply H. right. exact Hin.
Qed.

Lemma flat_map_eq {A B} (h h' : A -> list B) (l : list A) :
  (forall a, In a l -> h a = h' a) -> flat_map h l = flat_map h' l.
Proof.
  induction l as [|a l IH]; intros H; simpl; [reflexivity |].
  rewrite H by (left; reflexivity).
  rewrite IH; [reflexivity |]. intros a' Hin. apply H. right. exact Hin.
Qed.

(** What one tick of the heuristic collects is the specified list. *)
Lemma smartMoves_spec (n : nat) (g : Game) :
  kingsAtHome g = true -> (2 <= n)%nat ->
  smartMoves n g = Ok (g, scoredMoves g).
Proof.
  intros Hh Hle. apply kingsAtHome_near in Hh.
  rewrite smartMoves_pure.
  set (cell := fun m => if blackMoveLegal g m then [scored g m] else []).
  rewrite (collectM_Ok _ (fun fy => flat_map (fun fx => flat_map (fun ty =>
             flat_map (fun tx => cell (fx, fy, tx, ty)) idx8) idx8) idx8)).
  - rewrite bind_Ok_l. unfold scoredMoves, enumeration.
    rewrite <- flat_map_cond. fold cell.
    rewrite flat_map_nest. do 2 f_equal.
    apply flat_map_eq. intros fy _. rewrite flat_map_nest.
    apply flat_map_eq. intros fx _. rewrite flat_map_nest.
    apply flat_map_eq. intros ty _. rewrite flat_map_nest.
    apply flat_map_eq. intros tx _. simpl. rewrite app_nil_r. reflexivity.
  - intros fy Hfy. apply collectM_Ok. intros fx Hfx.
    apply idx8_spec in Hfy, Hfx. unfold movesFrom.
    destruct (board g !! (fy, fx)) as [p|] eqn:Hp.
    + destruct (decide (pColor p = Black)) as [Hc | Hc].
      * rewrite bool_decide_eq_true_2 by exact Hc. cbn [negb].
        apply collectM_Ok. intros ty Hty. apply collectM_Ok. intros tx Htx.
        apply idx8_spec in Hty, Htx.
        apply scoredCandidate_spec; try assumption; split; assumption.
      * rewrite bool_decide_eq_false_2 by exact Hc. cbn [negb].
        f_equal. symmetry. apply flat_map_all_nil. intros ty _.
        apply flat_map_all_nil. intros tx _.
        unfold cell, blackMoveLegal. rewrite Hp.
        rewrite bool_decide_eq_false_2 by exact Hc. reflexivity.
    + f_equal. symmetry. apply flat_map_all_nil. intros ty _.
      apply flat_map_all_nil. intros tx _.
      unfold cell, blackMoveLegal. rewrite Hp. reflexivity.
Qed.

Lemma firstBest_all_le (best : move) (l : list move) :
  firstBest best l -> forall m, In m l -> score m <= score best.
Proof.
  intros (l1 & l2 & -> & H1 & H2) m Hin.
  apply in_app_or in Hin as [Hin | [<- | Hin]].
  - specialize (H1 m Hin). lia.
  - lia.
  - apply H2, Hin.
Qed.

Lemma fold_best (rest : list move) :
  forall (seen : list move) (b : move),
  firstBest b seen ->
  firstBest
    (fold_left (fun best m => if score best <? score m then m else best) rest b)
    (seen ++ rest).
Proof.
  induction rest as [|m rest IH]; intros seen b Hb; simpl.
  - rewrite app_nil_r. exact Hb.
  - replace (seen ++ m :: rest) with ((seen ++ [m]) ++ rest)
      by (rewrite <- app_assoc; reflexivity).
    apply IH.
    destruct (Z.ltb_spec (score b) (score m)) as [Hlt | Hge].
    + exists seen, []. split; [reflexivity |]. split; [| intros m' []].
      intros m' Hin. pose proof (firstBest_all_le b seen Hb m' Hin). lia.
    + destruct Hb as (l1 & l2 & -> & H1 & H2).
      exists l1, (l2 ++ [m]). split; [rewrite <- app_assoc; reflexivity |].
      split; [exact H1 |]. intros m' Hin.
      apply in_app_or in Hin as [Hin | [<- | []]]; [apply H2, Hin | lia].
Qed.

Lemma pickBest_firstBest (first : move) (rest : list move) :
  firstBest (pickBest first (first :: rest)) (first :: rest).
Proof.
  unfold pickBest. simpl. rewrite Z.ltb_irrefl.
  apply (fold_best rest [first] first).
  exists [], []. split; [reflexivity |]. split; intros m [].
Qed.

Lemma firstBest_unique (b b' : move) (l : list move) :
  firstBest b l -> firstBest b' l -> b = b'.
Proof.
  intros (l1 & l2 & Hl & H1 & H2) (l1' & l2' & Hl' & H1' & H2').
  assert (Hcases : (length l1 < length l1')%nat \/ length l1 = length l1' \/
                   (length l1' < length l1)%nat) by lia.
  assert (Hnth : forall (k1 k2 : list move) (x : move),
             nth_error (k1 ++ x :: k2) (length k1) = Some x).
  { intros k1 k2 x. rewrite nth_error_app2 by lia.
    rewrite Nat.sub_diag. reflexivity. }
  destruct Hcases as [Hlt | [Heq | Hlt]].
  - exfalso.
    assert (Hin : In b l1').
    { pose proof (Hnth l1 l2 b) as Hn. rewrite <- Hl, Hl' in Hn.
      rewrite nth_error_app1 in Hn by exact Hlt.
      apply nth_error_In in Hn. exact Hn. }
    assert (Hin' : In b' (l1 ++ b :: l2)).
    { rewrite <- Hl, Hl'. apply in_or_app. right. left. reflexivity. }
    specialize (H1' b Hin).
    pose proof (firstBest_all_le b l (ex_intro _ l1 (ex_intro _ l2
                  (conj Hl (conj H1 H2)))) b') as Hle.
    rewrite Hl in Hle. specialize (Hle Hin'). lia.
  - pose proof (Hnth l1 l2 b) as Hn. pose proof (Hnth l1' l2' b') as Hn'.
    rewrite <- Hl in Hn. rewrite <- Hl', <- Heq in Hn'. congruence.
  - exfalso.
    assert (Hin : In b' l1).
    { pose proof (Hnth l1' l2' b') as Hn. rewrite <- Hl', Hl in Hn.
      rewrite nth_error_app1 in Hn by exact Hlt.
      apply nth_error_In in Hn. exact Hn. }
    assert (Hin' : In b (l1' ++ b' :: l2')).
    { rewrite <- Hl', Hl. apply in_or_app. right. left. reflexivity. }
    specialize (H1 b' Hin).
    pose proof (firstBest_all_le b' l (ex_intro _ l1' (ex_intro _ l2'
                  (conj Hl' (conj H1' H2')))) b) as Hle.
    rewrite Hl' in Hle. specialize (Hle Hin'). lia.
Qed.

Lemma frankHeuristic_spec (n : nat) (g : Game) :
  kingsAtHome g = true -> (2 <= n)%nat ->
  (scoredMoves g = [] -> frankHeuristic n g = Ok g) /\
  (forall best, firstBest best (scoredMoves g) ->
     frankHeuristic n g =
     executeMove g (m_fx best) (m_fy best) (m_tx best) (m_ty best)).
Proof.
  intros Hh Hle. unfold frankHeuristic.
  rewrite (smartMoves_spec n g Hh Hle), bind_Ok_l. split.
  - intros ->. reflexivity.
  - intros best Hbest. destruct (scoredMoves g) as [|first rest] eqn:Hl.
    + destruct Hbest as (l1 & l2 & H & _). destruct l1; discriminate.
    + cbv zeta.
      rewrite (firstBest_unique _ _ _ (pickBest_firstBest first rest) Hbest).
      reflexivity.
Qed.

Lemma blackMoveLegal_frame (g g' : Game) (m : Z * Z * Z * Z) :
  samePosition g g' -> blackMoveLegal g m = blackMoveLegal g' m.
Proof.
  intros Hs. destruct m as [[[fx fy] tx] ty]. unfold blackMoveLegal.
  rewrite (proj1 Hs).
  destruct (board g' !! (fy, fx)) as [p|]; [| reflexivity].
  rewrite (fullyLegal_frame 2 g g') by exact Hs. reflexivity.
Qed.

Lemma moveScore_frame (g g' : Game) (m : Z * Z * Z * Z) :
  samePosition g g' -> moveScore g m = moveScore g' m.
Proof.
  intros Hs. destruct m as [[[fx fy] tx] ty]. unfold moveScore, attackedByWhite.
  rewrite (proj1 Hs).
  destruct (board g' !! (fy, fx)) as [p|]; [| reflexivity].
  rewrite (isSquareAttacked_frame 2 g g') by exact Hs.
  rewrite (isSquareAttacked_frame 2 (tried g p fx fy tx ty)
             (tried g' p fx fy tx ty)) by (apply tried_frame, Hs).
  reflexivity.
Qed.

(** The list depends on the board and the en-passant target only. *)
Lemma scoredMoves_frame (g g' : Game) :
  samePosition g g' -> scoredMoves g = scoredMoves g'.
Proof.
  intros Hs. unfold scoredMoves.
  rewrite (filter_ext _ _ (fun m => blackMoveLegal_frame g g' m Hs)).
  apply map_ext. intros [[[fx fy] tx] ty]. unfold scored.
  rewrite (moveScore_frame g g') by exact Hs. reflexivity.
Qed.

Lemma enumeration_order :
  map (fun '(fx, fy, tx, ty) => ((fy * 8 + fx) * 8 + ty) * 8 + tx) enumeration
  = map Z.of_nat (seq 0 4096).
Proof. vm_compute. reflexivity. Qed.

(** ** The positions the program reaches *)

Lemma tame_refl (b : gmap (Z * Z) ChessPiece) : tame b b.
Proof. intros k. left. reflexivity. Qed.

Lemma tame_trans (b1 b2 b3 : gmap (Z * Z) ChessPiece) :
  tame b1 b2 -> tame b2 b3 -> tame b1 b3.
Proof.
  intros H12 H23 k. destruct (H23 k) as [-> | H]; [apply H12 | right; exact H].
Qed.

Lemma tame_set (b : gmap (Z * Z) ChessPiece) (k : Z * Z) (v : option ChessPiece) :
  (forall q, v = Some q -> HasMoved q = true \/ pType q <> King) ->
  tame b (partial_alter (fun _ => v) k b).
Proof.
  intros Hv k'. destruct (decide (k = k')) as [<- | Hne].
  - rewrite lookup_set_same. destruct v as [q|]; [| right; left; reflexivity].
    right. right. exists q. split; [reflexivity | apply Hv; reflexivity].
  - left. apply lookup_set_other, Hne.
Qed.

Lemma tame_near (g g' : Game) :
  kingsNear 0 g -> tame (board g) (board g') -> kingsNear 0 g'.
Proof.
  intros Hn Ht x y p Hon Hp Hk Hm.
  destruct (Ht (y, x)) as [H | [H | (q & H & Hq)]].
  - apply (Hn x y p Hon); [congruence | assumption | assumption].
  - congruence.
  - assert (q = p) as -> by congruence. destruct Hq; congruence.
Qed.

Lemma near_kingsAtHome (g : Game) : kingsNear 0 g -> kingsAtHome g = true.
Proof.
  intros Hn. unfold kingsAtHome. apply forallb_forall. intros [x y] Hin.
  apply In_squares in Hin. simpl.
  destruct (board g !! (y, x)) as [p|] eqn:Hp; [| reflexivity].
  destruct (decide (pType p = King)) as [Hk | Hk].
  - rewrite bool_decide_eq_true_2 by exact Hk.
    destruct (HasMoved p) eqn:Hm; [reflexivity |]. simpl.
    apply Z.eqb_eq. specialize (Hn x y p Hin Hp Hk Hm). lia.
  - rewrite bool_decide_eq_false_2 by exact Hk. reflexivity.
Qed.

Lemma wr_Ok (g g' : Game) (y x : Z) (v : option ChessPiece) :
  wr g y x v = Ok g' ->
  (0 <= y <= 7 /\ 0 <= x <= 7) /\
  g' = with_board g (partial_alter (fun _ => v) (y, x) (board g)).
Proof.
  unfold wr. destruct (inBoard y && inBoard x) eqn:E; [| discriminate].
  apply andb_true_iff in E as [Ey Ex]. apply inBoard_spec in Ey, Ex.
  intros [= <-]. auto.
Qed.

Lemma castling_step_tame (g : Game) (p : ChessPiece) (fx fy tx : Z) :
  0 <= fy <= 7 ->
  (pType p = King -> Z.abs (tx - fx) = 2 ->
   board g !! (fy, castleCorner fx tx) <> None) ->
  exists b1,
    (if bool_decide (pType p = King) && (abs (tx - fx) =? 2) then
       let '(rx, rtx) := if fx <? tx then (7, 5) else (0, 3) in
       rook ← rd g fy rx;
       g ← wr g fy rtx rook;
       g ← wr g fy rx None;
       match rook with
       | None => Panic
       | Some r => wr g fy rtx (Some (setHasMoved r))
       end
     else Ok g) = Ok (with_board g b1) /\ tame (board g) b1.
Proof.
  intros Hfy Hrook.
  destruct (bool_decide (pType p = King) && (abs (tx - fx) =? 2)) eqn:Ec.
  - apply andb_true_iff in Ec as [Ek Ed]. apply bool_decide_eq_true in Ek.
    rewrite abs_spec in Ed. apply Z.eqb_eq in Ed.
    specialize (Hrook Ek Ed). unfold castleCorner in Hrook.
    destruct (fx <? tx); cbv beta iota zeta.
    + rewrite (rd_in g fy 7) by lia. rewrite bind_Ok_l.
      destruct (board g !! (fy, 7)) as [r|]; [| congruence].
      repeat wr_step. rewrite wr_in by (simpl; lia).
      eexists. split; [reflexivity |]. game_fields.
      intros k.
      destruct (decide ((fy, 5) = k)) as [<- | H5].
      { rewrite lookup_set_same. right. right. eexists. split; [reflexivity |].
        left. reflexivity. }
      rewrite lookup_set_other by exact H5.
      destruct (decide ((fy, 7) = k)) as [<- | H7].
      { rewrite lookup_set_same. right. left. reflexivity. }
      rewrite lookup_set_other by exact H7.
      rewrite lookup_set_other by exact H5. left. reflexivity.
    + rewrite (rd_in g fy 0) by lia. rewrite bind_Ok_l.
      destruct (board g !! (fy, 0)) as [r|]; [| congruence].
      repeat wr_step. rewrite wr_in by (simpl; lia).
      eexists. split; [reflexivity |]. game_fields.
      intros k.
      destruct (decide ((fy, 3) = k)) as [<- | H3].
      { rewrite lookup_set_same. right. right. eexists. split; [reflexivity |].
        left. reflexivity. }
      rewrite lookup_set_other by exact H3.
      destruct (decide ((fy, 0) = k)) as [<- | H0].
      { rewrite lookup_set_same. right. left. reflexivity. }
      rewrite lookup_set_other by exact H0.
      rewrite lookup_set_other by exact H3. left. reflexivity.
  - exists (board g). rewrite with_board_same. split; [reflexivity | apply tame_refl].
Qed.

Lemma executeMove_tame (g g' : Game) (fx fy tx ty : Z) :
  executeMove g fx fy tx ty = Ok g' -> tame (board g) (board g').
Proof.
  intros H.
  destruct (executeMove_Ok_inv _ _ _ _ _ _ H)
    as ([Hfx Hfy] & [Htx Hty] & p & Hp & Hrook).
  unfold executeMove in H.
  rewrite (rd_in g fy fx) in H by assumption. rewrite bind_Ok_l, Hp in H.
  destruct (castling_step_tame g p fx fy tx Hfy Hrook) as (b1 & Hc & Ht1).
  rewrite Hc, bind_Ok_l in H. cbv beta in H.
  assert (He : exists b2,
    (if bool_decide (pType p = Pawn) && (tx =? epX (with_board g b1)) &&
        (ty =? epY (with_board g b1))
     then wr (with_board g b1) fy tx None
     else Ok (with_board g b1)) = Ok (with_board g b2) /\ tame b1 b2).
  { destruct (_ && _ && _).
    - rewrite wr_in by assumption. eexists. split; [reflexivity |].
      apply tame_set. discriminate.
    - eexists. split; [reflexivity | apply tame_refl]. }
  destruct He as (b2 & He & Ht2). rewrite He, bind_Ok_l in H. cbv beta in H.
  apply (tame_trans _ b1); [exact Ht1 |]. apply (tame_trans _ b2); [exact Ht2 |].
  clear Hc He Ht1 Ht2 Hrook Hp.
  rewrite wr_in in H by assumption. rewrite bind_Ok_l in H. cbv beta in H.
  rewrite wr_in in H by assumption. rewrite bind_Ok_l in H. cbv beta in H.
  unfold throughPtr in H.
  destruct ((tx =? fx) && (ty =? fy)) eqn:Enull.
  - (* a null move: the cell is emptied *)
    apply andb_true_iff in Enull as [Ex Ey].
    apply Z.eqb_eq in Ex, Ey. subst tx ty.
    rewrite bind_Ok_l in H. cbv beta in H.
    assert (Hfin : tame b2 (partial_alter (fun _ => None) (fy, fx)
                     (partial_alter (fun _ => Some p) (fy, fx) b2))).
    { intros k. destruct (decide ((fy, fx) = k)) as [<- | Hne].
      - rewrite lookup_set_same. right. left. reflexivity.
      - rewrite !lookup_set_other by exact Hne. left. reflexivity. }
    destruct (bool_decide (pType p = Pawn) && ((fy =? 0) || (fy =? 7)));
      [destruct (decide (pColor p = White)) |];
      rewrite ?bind_Ok_l in H; cbv beta in H; injection H as <-;
      repeat (game_fields;
              match goal with
              | |- context [if ?c then _ else _] => destruct c
              end);
      game_fields; exact Hfin.
  - rewrite wr_in in H by assumption. rewrite bind_Ok_l in H. cbv beta in H.
    assert (Hfin : forall q, HasMoved q = true ->
              tame b2 (partial_alter (fun _ => Some q) (ty, tx)
                (partial_alter (fun _ => None) (fy, fx)
                   (partial_alter (fun _ => Some p) (ty, tx) b2)))).
    { intros q Hq k. destruct (decide ((ty, tx) = k)) as [<- | Hne].
      - rewrite lookup_set_same. right. right. exists q. auto.
      - rewrite lookup_set_other by exact Hne.
        destruct (decide ((fy, fx) = k)) as [<- | Hne2].
        + rewrite lookup_set_same. right. left. reflexivity.
        + rewrite !lookup_set_other by assumption. left. reflexivity. }
    destruct (bool_decide (pType p = Pawn) && ((ty =? 0) || (ty =? 7)));
      [destruct (decide (pColor p = White)) |];
      rewrite ?bind_Ok_l in H; cbv beta in H;
      rewrite ?wr_in in H by assumption;
      rewrite ?bind_Ok_l in H; cbv beta in H; injection H as <-;
      repeat (game_fields;
              match goal with
              | |- context [if ?c then _ else _] => destruct c
              end);
      game_fields.
    all: try (apply Hfin; reflexivity).
    all: try (eapply tame_trans; [apply (Hfin (setHasMoved p)); reflexivity |];
              apply tame_set; intros q [= <-]; left; reflexivity).
Qed.

Lemma promoteTo_tame (g g' : Game) (t : PieceType) (sid : Z) :
  t <> King -> promoteTo g t sid = Ok g' -> tame (board g) (board g').
Proof.
  intros Ht H. unfold promoteTo in H.
  apply bind_Ok in H as ([p|] & Hrd & H); [| discriminate].
  apply bind_Ok in H as (g1 & Hwr & [= <-]).
  apply wr_Ok in Hwr as [_ ->]. game_fields.
  apply tame_set. intros q [= <-]. right. exact Ht.
Qed.

Lemma promotionStep_tame (g g' : Game) (i : Input) :
  promotionStep g i = Ok g' -> tame (board g) (board g').
Proof.
  unfold promotionStep. intros H.
  apply bind_Ok in H as (g1 & H1 & H). apply bind_Ok in H as (g2 & H2 & H).
  apply bind_Ok in H as (g3 & H3 & H). apply bind_Ok in H as (g4 & H4 & [= <-]).
  assert (T1 : tame (board g) (board g1)).
  { destruct (keyQ i); [apply (promoteTo_tame _ _ Queen 10); [discriminate | exact H1] |].
    injection H1 as <-. apply tame_refl. }
  assert (T2 : tame (board g1) (board g2)).
  { destruct (keyR i); [apply (promoteTo_tame _ _ Rook 8); [discriminate | exact H2] |].
    injection H2 as <-. apply tame_refl. }
  assert (T3 : tame (board g2) (board g3)).
  { destruct (keyB i); [apply (promoteTo_tame _ _ Bishop 7); [discriminate | exact H3] |].
    injection H3 as <-. apply tame_refl. }
  assert (T4 : tame (board g3) (board g4)).
  { destruct (keyN i); [apply (promoteTo_tame _ _ Knight 9); [discriminate | exact H4] |].
    injection H4 as <-. apply tame_refl. }
  assert (Hb : board (if negb (promoting g4) then with_activeColor g4 Black else g4)
               = board g4) by (destruct (negb (promoting g4)); reflexivity).
  rewrite Hb.
  eapply tame_trans; [exact T1 |]. eapply tame_trans; [exact T2 |].
  eapply tame_trans; [exact T3 | exact T4].
Qed.

Lemma whiteClick_tame (n : nat) (g g' : Game) (mx my : Z) :
  whiteClick n g mx my = Ok g' -> tame (board g) (board g').
Proof.
  unfold whiteClick. cbv zeta.
  set (gx := Z.quot mx tileSize - 1). set (gy := Z.quot my tileSize - 1).
  destruct (_ && _ && _ && _); [| intros [= <-]; apply tame_refl].
  destruct (selectedX g =? -1).
  - intros H. apply bind_Ok in H as ([q|] & _ & H).
    + destruct (decide (pColor q = White)); injection H as <-; apply tame_refl.
    + injection H as <-. apply tame_refl.
  - intros H. apply bind_Ok in H as ([p|] & Hrd & H); [| discriminate].
    apply rd_Ok in Hrd as [[Hsy Hsx] Hp].
    apply bind_Ok in H as (b & Hb & H).
    apply bind_Ok in H as (g1 & H1 & [= <-]).
    change (board (with_selected g1 (-1) (-1))) with (board g1).
    destruct b; [| injection H1 as <-; apply tame_refl].
    apply bind_Ok in H1 as (orig & Hrd & H1).
    apply rd_Ok in Hrd as [[Hgy Hgx] Ho].
    rewrite (wr_in g gy gx) in H1 by assumption. rewrite bind_Ok_l in H1.
    cbn [selectedX selectedY with_board] in H1.
    rewrite wr_in in H1 by assumption. rewrite bind_Ok_l in H1.
    change (with_board (with_board g _) _)
      with (tried g p (selectedX g) (selectedY g) gx gy) in H1.
    apply bind_Ok in H1 as (chk & _ & H1).
    cbn [selectedX selectedY tried with_board] in H1.
    change (with_board g _)
      with (tried g p (selectedX g) (selectedY g) gx gy) in H1.
    rewrite <- Ho in H1.
    destruct (negb chk).
    + rewrite wr_back in H1 by (try split; assumption).
      apply executeMove_tame in H1. exact H1.
    + pose proof (take_back g p (board g !! (gy, gx)) (selectedX g) (selectedY g)
                    gx gy Hsx Hsy Hgx Hgy Hp eq_refl) as Htb.
      rewrite Htb in H1. injection H1 as <-. apply tame_refl.
Qed.

Lemma scriptStep_keeps (n : nat) (m : Z * Z * Z * Z) (g g' : Game) :
  scriptStep n m g = Ok (inl g') -> g' = g.
Proof.
  destruct m as [[[m0 m1] m2] m3]. unfold scriptStep. intros H.
  apply bind_Ok in H as ([p|] & Hrd & H); [| congruence].
  apply rd_Ok in Hrd as [[H1 H0] Hp].
  destruct (negb (bool_decide (pColor p = Black))); [congruence |].
  apply bind_Ok in H as ([|] & _ & H); [| congruence].
  apply bind_Ok in H as (orig & Hrd & H).
  apply rd_Ok in Hrd as [[H3 H2] Ho].
  rewrite wr_tried in H by (split; assumption).
  apply bind_Ok in H as (chk & _ & H). rewrite <- Ho in H.
  destruct chk; cbn [negb] in H;
    rewrite wr_back in H by (try split; assumption).
  - congruence.
  - apply bind_Ok in H as (g1 & _ & H). discriminate.
Qed.

Lemma frankScript_result (n : nat) (g : Game) (r : Game + Game) :
  frankScript n g = Ok r ->
  match r with
  | inl g' => g' = g
  | inr g' => tame (board g) (board g')
  end.
Proof.
  unfold frankScript. intros H. destruct r as [g' | g'].
  - apply loop_keeps in H; [exact H |].
    intros m s s'. apply scriptStep_keeps.
  - apply loop_inr in H as (l1 & m & l2 & _ & _ & H).
    2: { intros m s s'. apply scriptStep_keeps. }
    destruct m as [[[m0 m1] m2] m3]. unfold scriptStep in H.
    apply bind_Ok in H as ([p|] & Hrd & H); [| discriminate].
    apply rd_Ok in Hrd as [[H1 H0] Hp].
    destruct (negb (bool_decide (pColor p = Black))); [discriminate |].
    apply bind_Ok in H as ([|] & _ & H); [| discriminate].
    apply bind_Ok in H as (orig & Hrd & H).
    apply rd_Ok in Hrd as [[H3 H2] Ho].
    rewrite wr_tried in H by (split; assumption).
    apply bind_Ok in H as (chk & _ & H). rewrite <- Ho in H.
    destruct chk; cbn [negb] in H;
      rewrite wr_back in H by (try split; assumption); [discriminate |].
    apply bind_Ok in H as (g1 & He & [= <-]).
    apply executeMove_tame in He. exact He.
Qed.

Lemma frankHeuristic_tame (n : nat) (g g' : Game) :
  frankHeuristic n g = Ok g' -> tame (board g) (board g').
Proof.
  unfold frankHeuristic. rewrite smartMoves_pure, bind_assoc. intros H.
  apply bind_Ok in H as (rs & _ & H). rewrite bind_Ok_l in H.
  destruct rs as [|first rest]; [injection H as <-; apply tame_refl |].
  apply executeMove_tame in H. exact H.
Qed.

Lemma NewGame_board (w m wal : Z) :
  exists g, NewGame w m wal = Ok g /\ board g = board newGame.
Proof. eexists. split; vm_compute; reflexivity. Qed.

Lemma newGame_home : kingsNear 0 newGame.
Proof. apply kingsAtHome_near. vm_compute. reflexivity. Qed.

Lemma NewGame_home (w m wal : Z) (g : Game) :
  NewGame w m wal = Ok g -> kingsNear 0 g.
Proof.
  intros H. destruct (NewGame_board w m wal) as (g' & Hg' & Hb).
  assert (g' = g) as -> by congruence.
  intros x y p Hon Hp. rewrite Hb in Hp. exact (newGame_home x y p Hon Hp).
Qed.

Lemma Update_home (n : nat) (g g' : Game) (i : Input) :
  kingsNear 0 g -> Update n g i = Ok g' -> kingsNear 0 g'.
Proof.
  intros Hn. unfold Update.
  destruct (negb (gameStarted g)).
  { intros H. apply bind_Ok in H as (g1 & H1 & H).
    apply bind_Ok in H as (g2 & H2 & [= <-]).
    assert (Hn1 : kingsNear 0 g1).
    { destruct (key1 i); [apply (NewGame_home _ _ _ _ H1) |].
      injection H1 as <-. exact Hn. }
    destruct (key2 i); [apply (NewGame_home _ _ _ _ H2) |].
    injection H2 as <-. exact Hn1. }
  destruct (gameOver g).
  { destruct (mouseLeft i); [apply NewGame_home |].
    intros [= <-]. exact Hn. }
  destruct (promoting g).
  { intros H. apply (tame_near g); [exact Hn | apply (promotionStep_tame _ _ i H)]. }
  intros H. apply bind_Ok in H as ([has g1] & Hhas & H).
  destruct (hasLegalMoves_sound _ _ _ _ _ Hhas) as [-> _].
  destruct (negb has).
  { unfold endOfGame in H. cbv zeta in H.
    apply bind_Ok in H as (chk & _ & H).
    apply (tame_near g); [exact Hn |].
    destruct chk; [destruct (decide _) |]; injection H as <-; apply tame_refl. }
  destruct (decide (activeColor g = White)).
  - cbv zeta in H.
    match type of H with
    | (if _ then whiteClick _ ?gc _ _ else _) = _ =>
        assert (Hb : board gc = board g)
          by (destruct (whiteTime (with_whiteTime g (whiteTime g - 1)) <=? 0);
              reflexivity);
        destruct (mouseLeft i);
          [apply whiteClick_tame in H; rewrite Hb in H;
           apply (tame_near g); assumption
          | injection H as <-; apply (tame_near g);
            [exact Hn | repeat match goal with |- context [if ?c then _ else _] => destruct c end; apply tame_refl]]
    end.
  - cbv zeta in H.
    match type of H with
    | (if _ then frankScript _ ?gc ≫= _ else _) = _ =>
        assert (Hb : board gc = board g)
          by (cbn [board with_frankThinkTime];
              destruct (blackTime (with_blackTime g (blackTime g - 1)) <=? 0);
              reflexivity);
        destruct (_ <=? _);
          [| injection H as <-; apply (tame_near g);
             [exact Hn | repeat match goal with |- context [if ?c then _ else _] => destruct c end; apply tame_refl]];
        apply bind_Ok in H as (r & Hr & H);
        apply frankScript_result in Hr;
        destruct r as [g2 | g2];
          [ subst g2; apply frankHeuristic_tame in H; rewrite Hb in H;
            apply (tame_near g); assumption
          | injection H as <-; rewrite Hb in Hr;
            apply (tame_near g); assumption ]
    end.
Qed.

(** In every state the program reaches, the unmoved kings are on their back
    ranks. *)
Theorem reachable_kingsAtHome (g : Game) :
  reachable g -> kingsAtHome g = true.
Proof.
  intros H. apply near_kingsAtHome. induction H as [|g g' n i _ IH Hu].
  - intros x y p _ Hp. vm_compute in Hp. discriminate.
  - apply (Update_home n g g' i IH Hu).
Qed.

(** ** No winner before the end *)

Lemma wr_status (g g' : Game) (y x : Z) (v : option ChessPiece) :
  wr g y x v = Ok g' -> status g' = status g.
Proof. intros H. apply wr_Ok in H as [_ ->]. reflexivity. Qed.

Lemma throughPtr_status (g g' : Game) (fx fy tx ty : Z) (p : ChessPiece) :
  throughPtr g fx fy tx ty p = Ok g' -> status g' = status g.
Proof.
  unfold throughPtr. destruct (_ && _); [congruence | apply wr_status].
Qed.

Ltac split_if H :=
  match type of H with
  | (if ?c then _ else _) = _ => destruct c
  end.

Lemma executeMove_status (g g' : Game) (fx fy tx ty : Z) :
  executeMove g fx fy tx ty = Ok g' -> status g' = status g.
Proof.
  unfold executeMove. intros H.
  apply bind_Ok in H as ([p|] & _ & H); [| discriminate].
  apply bind_Ok in H as (g1 & H1 & H).
  assert (S1 : status g1 = status g).
  { split_if H1; [| congruence].
    destruct (fx <? tx); cbv beta iota zeta in H1;
      apply bind_Ok in H1 as (rook & _ & H1);
      apply bind_Ok in H1 as (ga & Ha & H1);
      apply bind_Ok in H1 as (gb & Hb & H1);
      (destruct rook as [r|]; [| discriminate]);
      apply wr_status in Ha, Hb, H1; congruence. }
  apply bind_Ok in H as (g2 & H2 & H).
  assert (S2 : status g2 = status g1).
  { split_if H2; [apply wr_status in H2; exact H2 | congruence]. }
  cbv zeta in H.
  apply bind_Ok in H as (g3 & H3 & H).
  assert (S3 : status g3 = status g2).
  { apply wr_status in H3. rewrite H3.
    destruct (bool_decide (pType p = Pawn) && (abs (ty - fy) =? 2));
      reflexivity. }
  apply bind_Ok in H as (g4 & H4 & H). apply wr_status in H4.
  apply bind_Ok in H as (g5 & H5 & H). apply throughPtr_status in H5.
  apply bind_Ok in H as (g6 & H6 & [= <-]).
  assert (S6 : status g6 = status g5).
  { split_if H6; [| congruence].
    split_if H6; [injection H6 as <-; reflexivity |].
    apply throughPtr_status in H6. exact H6. }
  transitivity (status g6); [| congruence].
  destruct (negb (promoting g6)); reflexivity.
Qed.

Lemma promoteTo_status (g g' : Game) (t : PieceType) (sid : Z) :
  promoteTo g t sid = Ok g' -> status g' = status g.
Proof.
  unfold promoteTo. intros H.
  apply bind_Ok in H as ([p|] & _ & H); [| discriminate].
  apply bind_Ok in H as (g1 & Hwr & [= <-]).
  apply wr_status in Hwr. exact Hwr.
Qed.

Lemma promotionStep_status (g g' : Game) (i : Input) :
  promotionStep g i = Ok g' -> status g' = status g.
Proof.
  unfold promotionStep. intros H.
  apply bind_Ok in H as (g1 & H1 & H). apply bind_Ok in H as (g2 & H2 & H).
  apply bind_Ok in H as (g3 & H3 & H). apply bind_Ok in H as (g4 & H4 & [= <-]).
  assert (S1 : status g1 = status g)
    by (split_if H1; [apply promoteTo_status in H1; exact H1 | congruence]).
  assert (S2 : status g2 = status g1)
    by (split_if H2; [apply promoteTo_status in H2; exact H2 | congruence]).
  assert (S3 : status g3 = status g2)
    by (split_if H3; [apply promoteTo_status in H3; exact H3 | congruence]).
  assert (S4 : status g4 = status g3)
    by (split_if H4; [apply promoteTo_status in H4; exact H4 | congruence]).
  transitivity (status g4); [| congruence].
  destruct (negb (promoting g4)); reflexivity.
Qed.

Lemma whiteClick_status (n : nat) (g g' : Game) (mx my : Z) :
  whiteClick n g mx my = Ok g' -> status g' = status g.
Proof.
  unfold whiteClick. cbv zeta. intros H.
  split_if H; [| congruence].
  split_if H.
  - apply bind_Ok in H as ([q|] & _ & H); [| congruence].
    split_if H; injection H as <-; reflexivity.
  - apply bind_Ok in H as ([p|] & _ & H); [| discriminate].
    apply bind_Ok in H as (b & _ & H).
    apply bind_Ok in H as (g1 & H1 & [= <-]).
    change (status (with_selected g1 (-1) (-1))) with (status g1).
    destruct b; [| congruence].
    apply bind_Ok in H1 as (orig & _ & H1).
    apply bind_Ok in H1 as (ga & Ha & H1). apply wr_status in Ha.
    apply bind_Ok in H1 as (gb & Hb & H1). apply wr_status in Hb.
    apply bind_Ok in H1 as (chk & _ & H1).
    split_if H1.
    + apply bind_Ok in H1 as (gc & Hc & H1). apply wr_status in Hc.
      apply bind_Ok in H1 as (gd & Hd & H1). apply wr_status in Hd.
      apply executeMove_status in H1. congruence.
    + apply bind_Ok in H1 as (gc & Hc & H1). apply wr_status in Hc.
      apply wr_status in H1. congruence.
Qed.

Lemma frankScript_status (n : nat) (g g' : Game) :
  frankScript n g = Ok (inr g') -> status g' = status g.
Proof.
  unfold frankScript. intros H.
  apply loop_inr in H as (l1 & m & l2 & _ & _ & H).
  2: { intros m s s'. apply scriptStep_keeps. }
  destruct m as [[[m0 m1] m2] m3]. unfold scriptStep in H.
  apply bind_Ok in H as ([p|] & _ & H); [| discriminate].
  split_if H; [discriminate |].
  apply bind_Ok in H as ([|] & _ & H); [| discriminate].
  apply bind_Ok in H as (orig & _ & H).
  apply bind_Ok in H as (ga & Ha & H). apply wr_status in Ha.
  apply bind_Ok in H as (gb & Hb & H). apply wr_status in Hb.
  apply bind_Ok in H as (chk & _ & H).
  split_if H.
  - apply bind_Ok in H as (gc & Hc & H). apply wr_status in Hc.
    apply bind_Ok in H as (gd & Hd & H). apply wr_status in Hd.
    apply bind_Ok in H as (ge & He & [= <-]).
    apply executeMove_status in He. congruence.
  - apply bind_Ok in H as (gc & Hc & H).
    apply bind_Ok in H as (gd & Hd & H). discriminate.
Qed.

Lemma frankHeuristic_status (n : nat) (g g' : Game) :
  frankHeuristic n g = Ok g' -> status g' = status g.
Proof.
  unfold frankHeuristic. rewrite smartMoves_pure, bind_assoc. intros H.
  apply bind_Ok in H as (rs & _ & H). rewrite bind_Ok_l in H.
  destruct rs as [|first rest]; [congruence |].
  apply executeMove_status in H. exact H.
Qed.

Lemma NewGame_noWinner (w m wal : Z) (g : Game) :
  NewGame w m wal = Ok g -> winner g = -1.
Proof.
  assert (H : exists g0, NewGame w m wal = Ok g0 /\ winner g0 = -1)
    by (eexists; split; vm_compute; reflexivity).
  destruct H as (g0 & H0 & Hw). intros H. rewrite H0 in H.
  injection H as <-. exact Hw.
Qed.

Lemma status_noWinner (g g' : Game) :
  status g' = status g -> noWinnerYet g -> noWinnerYet g'.
Proof.
  unfold status, noWinnerYet. intros [= Hs Ho Hw] Hn Hs' Ho'.
  rewrite Hw. apply Hn; congruence.
Qed.

Lemma Update_noWinner (n : nat) (g g' : Game) (i : Input) :
  noWinnerYet g -> Update n g i = Ok g' -> noWinnerYet g'.
Proof.
  intros Hn. unfold Update.
  destruct (gameStarted g) eqn:Hs; cbn [negb].
  2: { intros H. apply bind_Ok in H as (g1 & H1 & H).
       apply bind_Ok in H as (g2 & H2 & [= <-]).
       assert (Hn1 : noWinnerYet g1).
       { split_if H1; [intros _ _; apply (NewGame_noWinner _ _ _ _ H1) |].
         injection H1 as <-. exact Hn. }
       split_if H2; [intros _ _; apply (NewGame_noWinner _ _ _ _ H2) |].
       injection H2 as <-. exact Hn1. }
  destruct (gameOver g) eqn:Ho.
  { intros H. split_if H; [intros _ _; apply (NewGame_noWinner _ _ _ _ H) |].
    injection H as <-. intros _ Ho'. congruence. }
  destruct (promoting g).
  { intros H. apply promotionStep_status in H.
    apply (status_noWinner g); assumption. }
  intros H. apply bind_Ok in H as ([has g1] & Hhas & H).
  destruct (hasLegalMoves_sound _ _ _ _ _ Hhas) as [-> _].
  destruct (negb has).
  { unfold endOfGame in H. cbv zeta in H.
    apply bind_Ok in H as (chk & _ & H).
    assert (Hg : gameOver g' = true).
    { destruct chk; [split_if H |]; injection H as <-; reflexivity. }
    intros _ Ho'. congruence. }
  assert (Hw : winner g = -1) by (apply Hn; assumption).
  split_if H.
  - fold (afterWhiteClock g) in H.
    assert (Ha : noWinnerYet (afterWhiteClock g)).
    { unfold afterWhiteClock. cbv zeta.
      destruct (whiteTime (with_whiteTime g (whiteTime g - 1)) <=? 0).
      - intros _ Hover. discriminate.
      - intros _ _. exact Hw. }
    split_if H; [| injection H as <-; exact Ha].
    apply whiteClick_status in H. apply (status_noWinner _ _ H Ha).
  - fold (afterBlackClock g) in H.
    assert (Ha : noWinnerYet (afterBlackClock g)).
    { unfold afterBlackClock. cbv zeta.
      destruct (blackTime (with_blackTime g (blackTime g - 1)) <=? 0).
      - intros _ Hover. discriminate.
      - intros _ _. exact Hw. }
    split_if H; [| injection H as <-; exact Ha].
    apply bind_Ok in H as ([g2 | g2] & Hr & H).
    + apply frankScript_result in Hr. subst g2.
      apply frankHeuristic_status in H. apply (status_noWinner _ _ H Ha).
    + injection H as <-. apply frankScript_status in Hr.
      apply (status_noWinner _ _ Hr Ha).
Qed.

(** In every state the program reaches while a match is in progress, the
    winner field holds [-1]. *)
Theorem reachable_noWinner (g : Game) : reachable g -> noWinnerYet g.
Proof.
  intros H. induction H as [|g g' n i _ IH Hu].
  - intros Hs. discriminate.
  - apply (Update_noWinner n g g' i IH Hu).
Qed.

(** ** Black's tick *)

Lemma afterBlackClock_fields (g : Game) :
  samePosition g (afterBlackClock g) /\
  moveCount (afterBlackClock g) = moveCount g /\
  frankThinkTime (afterBlackClock g) = frankThinkTime g + 1.
Proof.
  unfold afterBlackClock, samePosition. cbv zeta.
  destruct (blackTime (with_blackTime g (blackTime g - 1)) <=? 0);
    repeat split.
Qed.

Lemma kingsAtHome_frame (g g' : Game) :
  board g = board g' -> kingsAtHome g = kingsAtHome g'.
Proof. intros H. unfold kingsAtHome. rewrite H. reflexivity. Qed.

Lemma Update_black (n : nat) (g g0 : Game) (i : Input) :
  gameStarted g = true -> gameOver g = false -> promoting g = false ->
  activeColor g = Black ->
  hasLegalMoves n g Black = Ok (true, g0) ->
  Update n g i =
  if thinkLimit (afterBlackClock g) <=? frankThinkTime (afterBlackClock g)
  then r ← frankScript n (afterBlackClock g);
       match r with
       | inr g => Ok g
       | inl g => frankHeuristic n g
       end
  else Ok (afterBlackClock g).
Proof.
  intros Hs Ho Hp Hc Hhas. unfold Update. rewrite Hs, Ho, Hp. cbn [negb].
  destruct (hasLegalMoves_sound n g g0 Black true Hhas) as [-> _].
  rewrite Hc, Hhas, bind_Ok_l. cbn [negb]. rewrite Hc.
  rewrite decide_False by discriminate. reflexivity.
Qed.

(** ** The candidates and their scores *)

Lemma In_enumeration (fx fy tx ty : Z) :
  In (fx, fy, tx, ty) enumeration <-> onBoard fx fy /\ onBoard tx ty.
Proof.
  unfold enumeration, onBoard. rewrite in_flat_map. split.
  - intros (y & Hy & H). apply in_flat_map in H as (x & Hx & H).
    apply in_flat_map in H as (y' & Hy' & H).
    apply in_flat_map in H as (x' & Hx' & [[= <- <- <- <-] | []]).
    apply idx8_spec in Hy, Hx, Hy', Hx'. tauto.
  - intros [[Hx Hy] [Hx' Hy']]. apply idx8_spec in Hy, Hx, Hy', Hx'.
    exists fy. split; [exact Hy |]. apply in_flat_map.
    exists fx. split; [exact Hx |]. apply in_flat_map.
    exists ty. split; [exact Hy' |]. apply in_flat_map.
    exists tx. split; [exact Hx' | left; reflexivity].
Qed.

(** On the boards of play, [blackMoveLegal] is the answer of the code's two
    tests. *)
Lemma blackMoveLegal_spec (n : nat) (g : Game) (fx fy tx ty : Z) :
  kingsNear 0 g -> (2 <= n)%nat -> onBoard fx fy -> onBoard tx ty ->
  blackMoveLegal g (fx, fy, tx, ty) = true <->
  exists p, board g !! (fy, fx) = Some p /\ pColor p = Black /\
    isMoveLegal n g p fx fy tx ty = Ok true /\
    isInCheck n (tried g p fx fy tx ty) Black = Ok false.
Proof.
  intros Hn Hle Hf Ht. unfold blackMoveLegal.
  destruct (board g !! (fy, fx)) as [p|] eqn:Hp.
  2: { split; [discriminate | intros (p & [=] & _)]. }
  destruct (fullyLegal_returns g Black p fx fy tx ty Hn Hf Ht Hp) as (b & Hb).
  rewrite (Hb 2%nat (Nat.le_refl _)).
  destruct (decide (pColor p = Black)) as [Hc | Hc].
  - rewrite bool_decide_eq_true_2 by exact Hc. cbn [andb]. split.
    + intros ->. exists p. specialize (Hb n Hle).
      apply fullyLegal_true in Hb as [H1 H2]. auto.
    + intros (q & [= <-] & _ & H1 & H2).
      assert (H : fullyLegal n g Black p fx fy tx ty = Ok true)
        by (apply fullyLegal_true; auto).
      rewrite (Hb n Hle) in H. congruence.
  - rewrite bool_decide_eq_false_2 by exact Hc. cbn [andb]. split.
    + discriminate.
    + intros (q & [= <-] & Hq & _). contradiction.
Qed.

(** ... and [attackedByWhite] the answer of [isSquareAttacked], before and
    after the candidate is put on the board. *)
Lemma attackedByWhite_spec (n : nat) (g : Game) (x y : Z) :
  recursionEnds g = true -> (2 <= n)%nat -> onBoard x y ->
  isSquareAttacked n g x y White = Ok (attackedByWhite g x y).
Proof.
  intros Hg Hle Hon.
  destruct (isSquareAttacked_returns g x y White Hg Hon) as (b & Hb).
  unfold attackedByWhite. rewrite (Hb 2%nat (Nat.le_refl _)). apply Hb, Hle.
Qed.

Lemma candidate_attacks (n : nat) (g : Game) (p : ChessPiece) (fx fy tx ty : Z) :
  kingsNear 0 g -> (2 <= n)%nat -> onBoard fx fy -> onBoard tx ty ->
  board g !! (fy, fx) = Some p ->
  isMoveLegal n g p fx fy tx ty = Ok true ->
  isSquareAttacked n g fx fy White = Ok (attackedByWhite g fx fy) /\
  isSquareAttacked n (tried g p fx fy tx ty) tx ty White
  = Ok (attackedByWhite (tried g p fx fy tx ty) tx ty).
Proof.
  intros Hn Hle Hf Ht Hp Hl. split.
  - apply attackedByWhite_spec; try assumption.
    apply near_ends, (kingsNear_weaken 0); [lia | exact Hn].
  - apply attackedByWhite_spec; try assumption.
    apply near_ends, tried_near; try assumption.
    apply (king_step_rank (isInCheck n g) g p fx fy tx ty). exact Hl.
Qed.

(** A side that [hasLegalMoves] has a candidate. *)
Lemma scoredMoves_nonempty (g : Game) :
  kingsNear 0 g ->
  (exists fx fy tx ty p, legalAndSafe g Black fx fy tx ty p) ->
  scoredMoves g <> [].
Proof.
  intros Hn (fx & fy & tx & ty & p & Hf & Ht & Hp & Hc & (n1 & H1) & (n2 & H2)).
  assert (Hb : blackMoveLegal g (fx, fy, tx, ty) = true).
  { apply (blackMoveLegal_spec (Nat.max 2 (Nat.max n1 n2))); try assumption.
    - lia.
    - exists p. repeat split; try assumption.
      + eapply le_res_Ok; [apply (isMoveLegal_le n1); lia | exact H1].
      + eapply isInCheck_more; [| exact H2]. lia. }
  intros He.
  assert (Hin : In (scored g (fx, fy, tx, ty)) (scoredMoves g)).
  { unfold scoredMoves. apply in_map, filter_In. split; [| exact Hb].
    apply In_enumeration. split; assumption. }
  rewrite He in Hin. destruct Hin.
Qed.

(** C7.  On Black's turn in a match in progress, once the thinking counter
    reaches its limit and the scripted opening returns without a move, the
    tick collects the list [scoredMoves]: the squares-to-squares moves in
    the order of [enumeration] (origin rank, origin file, destination rank,
    destination file, each ascending), kept when the origin holds a black
    piece for which [isMoveLegal] answers true and [isInCheck Black] answers
    false on the board with the move tried, each with the score [moveScore]
    (twice the mover's value if [isSquareAttacked] by White answers true for
    the origin, plus the value of the piece on the destination and two,
    minus the mover's value and one if [isSquareAttacked] by White answers
    true for the destination on the board with the move tried), with the
    values 1, 3, 3, 5, 9 and 100.  The list is not empty, and the tick
    executes its first move of highest score.  The choice is the same in
    every state with the same board and en-passant target. *)
Theorem C7_heuristic_move (n : nat) (g g0 g1 : Game) (i : Input) :
  kingsAtHome g = true -> (2 <= n)%nat ->
  gameStarted g = true -> gameOver g = false -> promoting g = false ->
  activeColor g = Black ->
  hasLegalMoves n g Black = Ok (true, g0) ->
  thinkLimit g <= frankThinkTime g + 1 ->
  frankScript n (afterBlackClock g) = Ok (inl g1) ->
  smartMoves n (afterBlackClock g) = Ok (afterBlackClock g, scoredMoves g) /\
  (forall fx fy tx ty, onBoard fx fy -> onBoard tx ty ->
     (blackMoveLegal g (fx, fy, tx, ty) = true <->
      exists p, board g !! (fy, fx) = Some p /\ pColor p = Black /\
        isMoveLegal n g p fx fy tx ty = Ok true /\
        isInCheck n (tried g p fx fy tx ty) Black = Ok false)) /\
  (forall fx fy tx ty p, onBoard fx fy -> onBoard tx ty ->
     board g !! (fy, fx) = Some p ->
     isMoveLegal n g p fx fy tx ty = Ok true ->
     isSquareAttacked n g fx fy White = Ok (attackedByWhite g fx fy) /\
     isSquareAttacked n (tried g p fx fy tx ty) tx ty White
     = Ok (attackedByWhite (tried g p fx fy tx ty) tx ty)) /\
  map pieceValues [Pawn; Knight; Bishop; Rook; Queen; King]
  = [1; 3; 3; 5; 9; 100] /\
  exists best, firstBest best (scoredMoves g) /\
    Update n g i
    = executeMove (afterBlackClock g)
        (m_fx best) (m_fy best) (m_tx best) (m_ty best) /\
    forall g' best', samePosition g g' ->
      firstBest best' (scoredMoves g') -> best' = best.
Proof.
  intros Hh Hle Hs Ho Hp Hc Hhas Hlim Hscript.
  pose proof (kingsAtHome_near g Hh) as Hn.
  destruct (afterBlackClock_fields g) as (Hsame & Hmc & Hft).
  pose proof (frankScript_result n _ _ Hscript) as Hg1. cbv beta iota in Hg1.
  subst g1.
  assert (Hh1 : kingsAtHome (afterBlackClock g) = true).
  { rewrite <- (kingsAtHome_frame g); [exact Hh | apply Hsame]. }
  split.
  { rewrite (scoredMoves_frame g (afterBlackClock g) Hsame).
    apply smartMoves_spec; assumption. }
  split.
  { intros fx fy tx ty Hf Ht. apply blackMoveLegal_spec; assumption. }
  split.
  { intros fx fy tx ty p Hf Ht Hcell Hl.
    apply candidate_attacks; assumption. }
  split; [reflexivity |].
  destruct (hasLegalMoves_sound n g g0 Black true Hhas) as [_ [Hex _]].
  specialize (Hex eq_refl).
  pose proof (scoredMoves_nonempty g Hn Hex) as Hne.
  destruct (scoredMoves g) as [|first rest] eqn:Hl; [contradiction |].
  exists (pickBest first (first :: rest)).
  pose proof (pickBest_firstBest first rest) as Hbest.
  split; [exact Hbest |]. split.
  - rewrite (Update_black n g g0 i Hs Ho Hp Hc Hhas).
    assert (Hlimit : (thinkLimit (afterBlackClock g)
                      <=? frankThinkTime (afterBlackClock g)) = true).
    { apply Z.leb_le. unfold thinkLimit in *. rewrite Hmc, Hft. exact Hlim. }
    rewrite Hlimit, Hscript, bind_Ok_l.
    destruct (frankHeuristic_spec n (afterBlackClock g) Hh1 Hle) as [_ Hexec].
    apply Hexec.
    rewrite <- (scoredMoves_frame g (afterBlackClock g) Hsame), Hl.
    exact Hbest.
  - intros g' best' Hg' Hb'.
    rewrite <- (scoredMoves_frame g g' Hg'), Hl in Hb'.
    apply (firstBest_unique _ _ (first :: rest)); assumption.
Qed.

Lemma C7_heuristic_move_witness :
  smartMoves 2 (afterBlackClock afterTheScript)
  = Ok (afterBlackClock afterTheScript, scoredMoves afterTheScript) /\
  (forall fx fy tx ty, onBoard fx fy -> onBoard tx ty ->
     (blackMoveLegal afterTheScript (fx, fy, tx, ty) = true <->
      exists p, board afterTheScript !! (fy, fx) = Some p /\ pColor p = Black /\
        isMoveLegal 2 afterTheScript p fx fy tx ty = Ok true /\
        isInCheck 2 (tried afterTheScript p fx fy tx ty) Black = Ok false)) /\
  (forall fx fy tx ty p, onBoard fx fy -> onBoard tx ty ->
     board afterTheScript !! (fy, fx) = Some p ->
     isMoveLegal 2 afterTheScript p fx fy tx ty = Ok true ->
     isSquareAttacked 2 afterTheScript fx fy White
     = Ok (attackedByWhite afterTheScript fx fy) /\
     isSquareAttacked 2 (tried afterTheScript p fx fy tx ty) tx ty White
     = Ok (attackedByWhite (tried afterTheScript p fx fy tx ty) tx ty)) /\
  map pieceValues [Pawn; Knight; Bishop; Rook; Queen; King]
  = [1; 3; 3; 5; 9; 100] /\
  exists best, firstBest best (scoredMoves afterTheScript) /\
    Update 2 afterTheScript idle
    = executeMove (afterBlackClock afterTheScript)
        (m_fx best) (m_fy best) (m_tx best) (m_ty best) /\
    forall g' best', samePosition afterTheScript g' ->
      firstBest best' (scoredMoves g') -> best' = best.
Proof.
  apply (C7_heuristic_move 2 afterTheScript afterTheScript
           (afterBlackClock afterTheScript) idle).
  - vm_compute. reflexivity.
  - lia.
  - vm_compute. reflexivity.
  - vm_compute. reflexivity.
  - vm_compute. reflexivity.
  - vm_compute. reflexivity.
  - vm_compute. reflexivity.
  - vm_compute. discriminate.
  - vm_compute. reflexivity.
Defined.

(** What the selector plays there: no candidate scores above zero, and the
    first to score zero is the knight from b8 to c6. *)
Example afterTheScript_choice :
  exists g' p, Update 2 afterTheScript idle = Ok g' /\
    board g' !! (0, 1) = None /\
    board g' !! (2, 2) = Some p /\ pType p = Knight /\ pColor p = Black /\
    activeColor g' = White.
Proof.
  do 2 eexists. split; [vm_compute; reflexivity |].
  split; [vm_compute; reflexivity |].
  split; [vm_compute; reflexivity |].
  split; [reflexivity |]. split; reflexivity.
Qed.

(** * Further properties *)

(** ** [executeMove] in closed form *)

Lemma executeMove_eq (g : Game) (p : ChessPiece) (fx fy tx ty : Z) :
  onBoard fx fy -> onBoard tx ty -> board g !! (fy, fx) = Some p ->
  (pType p = King -> Z.abs (tx - fx) = 2 ->
   board g !! (fy, castleCorner fx tx) <> None) ->
  executeMove g fx fy tx ty = Ok (afterMove g p fx fy tx ty).
Proof.
  intros [Hfx Hfy] [Htx Hty] Hp Hrook. unfold executeMove.
  rewrite (rd_in g fy fx) by assumption. rewrite bind_Ok_l, Hp.
  assert (Hc : (if bool_decide (pType p = King) && (abs (tx - fx) =? 2) then
       let '(rx, rtx) := if fx <? tx then (7, 5) else (0, 3) in
       rook ← rd g fy rx;
       g ← wr g fy rtx rook;
       g ← wr g fy rx None;
       match rook with
       | None => Panic
       | Some r => wr g fy rtx (Some (setHasMoved r))
       end
     else Ok g) = Ok (with_board g (castledBoard g p fx fy tx))).
  { unfold castledBoard.
    destruct (bool_decide (pType p = King) && (abs (tx - fx) =? 2)) eqn:Ec.
    - apply andb_true_iff in Ec as [Ek Ed]. apply bool_decide_eq_true in Ek.
      rewrite abs_spec in Ed. apply Z.eqb_eq in Ed.
      specialize (Hrook Ek Ed). unfold castleCorner in Hrook.
      destruct (fx <? tx); cbv beta iota zeta.
      + rewrite (rd_in g fy 7) by lia. rewrite bind_Ok_l.
        destruct (board g !! (fy, 7)) as [r|]; [| congruence].
        repeat wr_step. rewrite wr_in by (simpl; lia). reflexivity.
      + rewrite (rd_in g fy 0) by lia. rewrite bind_Ok_l.
        destruct (board g !! (fy, 0)) as [r|]; [| congruence].
        repeat wr_step. rewrite wr_in by (simpl; lia). reflexivity.
    - rewrite with_board_same. reflexivity. }
  rewrite Hc, bind_Ok_l. cbv beta. clear Hc.
  unfold afterMove, movedBoard, reachesLastRank, doubleStep, throughPtr.
  generalize (castledBoard g p fx fy tx). intros b1. clear Hp Hrook.
  destruct g as [b sx sy ac dlg wt bt over started wg mins ex ey win mc ft
                 pr px py wal].
  cbn [epX epY with_board promoting].
  destruct (bool_decide (pType p = Pawn) && (tx =? ex) && (ty =? ey));
    rewrite ?wr_in by assumption; rewrite bind_Ok_l; cbv beta zeta;
    repeat wr_step;
    (destruct ((tx =? fx) && (ty =? fy)); rewrite ?bind_Ok_l; cbv beta;
     try wr_step);
    (destruct (bool_decide (pType p = Pawn) && ((ty =? 0) || (ty =? 7)));
     [destruct (decide (pColor p = White)) as [Hw | Hw];
      [rewrite (bool_decide_eq_true_2 _ Hw)
      | rewrite (bool_decide_eq_false_2 _ Hw)] |]);
    rewrite ?bind_Ok_l; cbv beta; try wr_step; cbn [negb andb orb];
    destruct (bool_decide (pType p = Pawn) && (abs (ty - fy) =? 2));
    destruct pr; reflexivity.
Qed.

(** Reading a cell of a board after a chain of writes. *)
Ltac look_in H :=
  repeat match type of H with
  | context [partial_alter _ ?k' _ !! ?k] =>
      first
        [ rewrite (lookup_set_other _ k' k) in H by (assumption || congruence)
        | rewrite (lookup_set_same _ k) in H
        | destruct (decide (k' = k)) as [<- | ?];
          [rewrite lookup_set_same in H
          | rewrite (lookup_set_other _ k' k) in H by assumption] ]
  end.

Ltac look :=
  repeat match goal with
  | |- context [partial_alter _ ?k' _ !! ?k] =>
      first [ rewrite (lookup_set_other _ k' k) by congruence
            | rewrite (lookup_set_same _ k) ]
  end.

Lemma castledBoard_pieces (g : Game) (p : ChessPiece) (fx fy tx : Z)
    (k : Z * Z) (q : ChessPiece) :
  castledBoard g p fx fy tx !! k = Some q -> cameFrom g q.
Proof.
  unfold castledBoard. intros H.
  destruct (bool_decide (pType p = King) && (abs (tx - fx) =? 2)).
  2: { exists k, q. auto. }
  destruct (fx <? tx); cbv beta iota zeta in H.
  - destruct (board g !! (fy, 7)) as [r|] eqn:Hr; [| exists k, q; auto].
    look_in H.
    + injection H as <-. exists (fy, 7), r. auto.
    + discriminate.
    + exists k, q. auto.
  - destruct (board g !! (fy, 0)) as [r|] eqn:Hr; [| exists k, q; auto].
    look_in H.
    + injection H as <-. exists (fy, 0), r. auto.
    + discriminate.
    + exists k, q. auto.
Qed.

Lemma movedBoard_pieces (g : Game) (p : ChessPiece) (fx fy tx ty : Z)
    (k : Z * Z) (q : ChessPiece) :
  board g !! (fy, fx) = Some p ->
  movedBoard g p fx fy tx ty !! k = Some q ->
  cameFrom g q \/
  (q = setType (setHasMoved p) Queen 4 /\ pType p = Pawn /\ pColor p = Black).
Proof.
  intros Hp. unfold movedBoard. cbv zeta.
  set (b1 := castledBoard g p fx fy tx).
  assert (H1 : forall k q, b1 !! k = Some q -> cameFrom g q)
    by (intros k' q'; apply castledBoard_pieces).
  clearbody b1.
  set (b2 := if bool_decide (pType p = Pawn) && (tx =? epX g) && (ty =? epY g)
             then partial_alter (fun _ => None) (fy, tx) b1 else b1).
  assert (H2 : forall k q, b2 !! k = Some q -> cameFrom g q).
  { intros k' q' H. subst b2. destruct (_ && _ && _); [| eauto].
    look_in H; [discriminate | eauto]. }
  clearbody b2. clear H1.
  assert (Hself : cameFrom g p) by (exists (fy, fx), p; auto).
  assert (Hmoved : cameFrom g (setHasMoved p)) by (exists (fy, fx), p; auto).
  intros H.
  destruct ((tx =? fx) && (ty =? fy)).
  { left. look_in H; [discriminate | congruence | eauto]. }
  destruct (reachesLastRank p ty && negb (bool_decide (pColor p = White))) eqn:E.
  - apply andb_true_iff in E as [El Ec].
    apply andb_true_iff in El as [El _]. apply bool_decide_eq_true in El.
    apply negb_true_iff, bool_decide_eq_false in Ec.
    look_in H.
    + right. injection H as <-. split; [reflexivity |]. split; [exact El |].
      destruct (pColor p); congruence.
    + left. discriminate.
    + left. eauto.
  - left. look_in H; [congruence | discriminate | eauto].
Qed.

(** ** More budget never changes a tick *)

Lemma endOfGame_le (n m : nat) (g : Game) :
  (n <= m)%nat -> le_res (endOfGame n g) (endOfGame m g).
Proof.
  intros H. unfold endOfGame. cbv zeta.
  apply le_res_bind; [apply isInCheck_le, H | intros; apply le_res_refl].
Qed.

Lemma whiteClick_le (n m : nat) (g : Game) (mx my : Z) :
  (n <= m)%nat -> le_res (whiteClick n g mx my) (whiteClick m g mx my).
Proof.
  intros H. unfold whiteClick. cbv zeta.
  repeat first [ apply isMoveLegal_le; exact H
               | apply isInCheck_le; exact H | le_step ].
Qed.

Lemma scriptStep_le (n m : nat) (mv : Z * Z * Z * Z) (g : Game) :
  (n <= m)%nat -> le_res (scriptStep n mv g) (scriptStep m mv g).
Proof.
  intros H. unfold scriptStep. destruct mv as [[[m0 m1] m2] m3].
  repeat first [ apply isMoveLegal_le; exact H
               | apply isInCheck_le; exact H | le_step ].
Qed.

Lemma frankScript_le (n m : nat) (g : Game) :
  (n <= m)%nat -> le_res (frankScript n g) (frankScript m g).
Proof.
  intros H. unfold frankScript. apply loop_le. intros mv s.
  apply scriptStep_le, H.
Qed.

Lemma collectM_le {A B} (f f' : A -> res (list B)) (l : list A) :
  (forall a, le_res (f a) (f' a)) -> le_res (collectM f l) (collectM f' l).
Proof.
  intros H. induction l as [|a l IH]; simpl; [apply le_res_refl |].
  apply le_res_bind; [apply H | intros r].
  apply le_res_bind; [exact IH | intros; apply le_res_refl].
Qed.

Lemma scoredCandidate_le (n m : nat) (g : Game) (p : ChessPiece)
    (fx fy tx ty : Z) :
  (n <= m)%nat ->
  le_res (scoredCandidate n g p fx fy tx ty) (scoredCandidate m g p fx fy tx ty).
Proof.
  intros H. unfold scoredCandidate.
  apply le_res_bind; [apply isMoveLegal_le, H |].
  intros [|]; [| apply le_res_refl].
  apply le_res_bind; [apply isSquareAttacked_le, H | intros d]. cbv zeta.
  apply le_res_bind; [apply isInCheck_le, H | intros chk].
  destruct (negb chk); [| apply le_res_refl].
  apply le_res_bind; [apply isSquareAttacked_le, H | intros; apply le_res_refl].
Qed.

Lemma smartMoves_le (n m : nat) (g : Game) :
  (n <= m)%nat -> le_res (smartMoves n g) (smartMoves m g).
Proof.
  intros H. rewrite !smartMoves_pure.
  apply le_res_bind; [| intros; apply le_res_refl].
  apply collectM_le. intros fy. apply collectM_le. intros fx.
  unfold movesFrom.
  destruct (board g !! (fy, fx)) as [p|]; [| apply le_res_refl].
  destruct (negb (bool_decide (pColor p = Black))); [apply le_res_refl |].
  apply collectM_le. intros ty. apply collectM_le. intros tx.
  apply scoredCandidate_le, H.
Qed.

Lemma frankHeuristic_le (n m : nat) (g : Game) :
  (n <= m)%nat -> le_res (frankHeuristic n g) (frankHeuristic m g).
Proof.
  intros H. unfold frankHeuristic.
  apply le_res_bind; [apply smartMoves_le, H | intros; apply le_res_refl].
Qed.

Lemma Update_le (n m : nat) (g : Game) (i : Input) :
  (n <= m)%nat -> le_res (Update n g i) (Update m g i).
Proof.
  intros H. unfold Update.
  destruct (negb (gameStarted g)); [apply le_res_refl |].
  destruct (gameOver g); [apply le_res_refl |].
  destruct (promoting g); [apply le_res_refl |].
  apply le_res_bind; [apply hasLegalMoves_le, H |]. intros [has g1].
  destruct (negb has); [apply endOfGame_le, H |].
  destruct (decide (activeColor g1 = White)); cbv zeta.
  - destruct (mouseLeft i); [apply whiteClick_le, H | apply le_res_refl].
  - match goal with
    | |- le_res (if ?c then _ else _) _ => destruct c
    end; [| apply le_res_refl].
    apply le_res_bind; [apply frankScript_le, H |].
    intros [g2 | g2]; [apply frankHeuristic_le, H | apply le_res_refl].
Qed.

(** Whatever budget a tick returned under, two suffice. *)
Lemma Update_budget (n m : nat) (g g' : Game) (i : Input) :
  Update n g i = Ok g' -> (2 <= m)%nat -> (n <= m)%nat ->
  Update m g i = Ok g'.
Proof.
  intros Hu _ Hle. eapply le_res_Ok; [apply Update_le, Hle | exact Hu].
Qed.

(** ** Moves that [isMoveLegal] accepts can be executed *)

Lemma legal_move_executes (n : nat) (g : Game) (p : ChessPiece)
    (fx fy tx ty : Z) :
  onBoard fx fy -> board g !! (fy, fx) = Some p ->
  isMoveLegal n g p fx fy tx ty = Ok true ->
  onBoard tx ty /\ (tx, ty) <> (fx, fy) /\
  executeMove g fx fy tx ty = Ok (afterMove g p fx fy tx ty).
Proof.
  intros Hf Hp Hl. unfold isMoveLegal in Hl.
  destruct (isMoveLegalW_true_target _ _ _ _ _ _ _ Hl) as [Ht Hno].
  split; [exact Ht |]. split.
  - intros [= -> ->]. apply (Hno p Hp). reflexivity.
  - apply executeMove_eq; try assumption.
    intros Hk Hd.
    apply (isMoveLegalW_king (isInCheck n g) g p fx fy tx ty Hk (proj1 Hf) Ht Hno)
      in Hl.
    destruct Hl as [[H1 _] | Hc]; [lia |].
    destruct Hc as (_ & _ & _ & _ & (r & Hr & _) & _). congruence.
Qed.

(** ** What a move keeps *)

Lemma board_afterMove (g : Game) (p : ChessPiece) (fx fy tx ty : Z) :
  board (afterMove g p fx fy tx ty) = movedBoard g p fx fy tx ty.
Proof. reflexivity. Qed.

Lemma spriteOf_setHasMoved (q : ChessPiece) :
  SpriteID q = spriteOf (pType q) (pColor q) ->
  SpriteID (setHasMoved q) = spriteOf (pType (setHasMoved q)) (pColor (setHasMoved q)).
Proof. trivial. Qed.

Lemma afterMove_sprites (g : Game) (p : ChessPiece) (fx fy tx ty : Z) :
  spritesMatch g -> board g !! (fy, fx) = Some p ->
  spritesMatch (afterMove g p fx fy tx ty).
Proof.
  intros Hs Hp k q Hq. rewrite board_afterMove in Hq.
  apply (movedBoard_pieces g p fx fy tx ty k q Hp) in Hq
    as [(k0 & q0 & H0 & [-> | ->]) | (-> & Ht & Hc)].
  - apply (Hs k0), H0.
  - apply spriteOf_setHasMoved, (Hs k0), H0.
  - cbn [setType setHasMoved SpriteID pType pColor]. rewrite Hc. reflexivity.
Qed.

Lemma movedBoard_destination (g : Game) (p : ChessPiece) (fx fy tx ty : Z) :
  (tx, ty) <> (fx, fy) ->
  movedBoard g p fx fy tx ty !! (ty, tx) =
  Some (if reachesLastRank p ty && negb (bool_decide (pColor p = White))
        then setType (setHasMoved p) Queen 4 else setHasMoved p).
Proof.
  intros Hne. unfold movedBoard. cbv zeta.
  assert (Hnull : (tx =? fx) && (ty =? fy) = false).
  { apply andb_false_iff.
    destruct (Z.eqb_spec tx fx) as [-> |]; [right | left; reflexivity].
    apply Z.eqb_neq. congruence. }
  rewrite Hnull.
  destruct (reachesLastRank p ty && negb (bool_decide (pColor p = White)));
    apply lookup_set_same.
Qed.

Lemma afterMove_promotionOK (g : Game) (p : ChessPiece) (fx fy tx ty : Z) :
  promoting g = false -> onBoard tx ty -> (tx, ty) <> (fx, fy) ->
  promotionOK (afterMove g p fx fy tx ty).
Proof.
  intros Hpr Ht Hne. unfold promotionOK.
  rewrite board_afterMove. cbn [afterMove promoting promX promY].
  rewrite Hpr. cbn [orb]. intros Hup. rewrite Hup.
  split; [exact Ht |].
  rewrite movedBoard_destination by exact Hne.
  apply andb_true_iff in Hup as [Hl Hw]. rewrite Hl, Hw. cbn [negb andb].
  eexists. split; [reflexivity |]. apply bool_decide_eq_true in Hw. exact Hw.
Qed.

Lemma afterMove_wellFormed (n : nat) (g : Game) (p : ChessPiece)
    (fx fy tx ty : Z) :
  kingsNear 0 g -> spritesMatch g -> promoting g = false ->
  onBoard fx fy -> board g !! (fy, fx) = Some p ->
  isMoveLegal n g p fx fy tx ty = Ok true ->
  executeMove g fx fy tx ty = Ok (afterMove g p fx fy tx ty) /\
  kingsNear 0 (afterMove g p fx fy tx ty) /\
  spritesMatch (afterMove g p fx fy tx ty) /\
  promotionOK (afterMove g p fx fy tx ty).
Proof.
  intros Hk Hs Hpr Hf Hp Hl.
  destruct (legal_move_executes n g p fx fy tx ty Hf Hp Hl) as (Ht & Hne & He).
  split; [exact He |]. split; [| split].
  - apply (tame_near g); [exact Hk |]. apply (executeMove_tame _ _ _ _ _ _ He).
  - apply afterMove_sprites; assumption.
  - apply afterMove_promotionOK; assumption.
Qed.

(** ** White's click keeps the state well formed *)

Lemma wellFormed_selected (g : Game) (x y : Z) :
  wellFormed g -> x = -1 -> wellFormed (with_selected g x y).
Proof.
  intros (Hk & Hs & Hrest) ->. split; [exact Hk |]. split; [exact Hs |].
  intros Hst. destruct (Hrest Hst) as [_ Hp]. split; [left; reflexivity | exact Hp].
Qed.

Lemma whiteClick_safe (g : Game) (mx my : Z) :
  wellFormed g -> gameStarted g = true -> activeColor g = White ->
  promoting g = false ->
  exists g', (forall n, (2 <= n)%nat -> whiteClick n g mx my = Ok g') /\
    wellFormed g' /\ gameStarted g' = true /\ boardStep g g' White.
Proof.
  intros Hwf Hst Hac Hpr. pose proof Hwf as (Hk & Hs & Hrest).
  assert (Hstay : boardStep g g White) by (left; split; reflexivity).
  assert (Hstay' : forall x y, boardStep g (with_selected g x y) White)
    by (intros; left; split; reflexivity).
  destruct (Hrest Hst) as [Hsel Hprom].
  set (gx := Z.quot mx tileSize - 1). set (gy := Z.quot my tileSize - 1).
  destruct (decide (onBoard gx gy)) as [Hon | Hoff].
  2: { exists g. split; [| auto]. intros n _.
       apply whiteClick_off_board. exact Hoff. }
  pose proof Hon as [Hgx Hgy].
  destruct (selectedX g =? -1) eqn:Hs1.
  - (* first click *)
    assert (Hshape : forall n, whiteClick n g mx my =
      match board g !! (gy, gx) with
      | Some q => if decide (pColor q = White)
                  then Ok (with_selected g gx gy) else Ok g
      | None => Ok g
      end).
    { intros n. unfold whiteClick. cbv zeta. fold gx gy.
      rewrite (proj2 (click_guard gx gy)) by exact Hon.
      rewrite Hs1, (rd_in g gy gx) by assumption. reflexivity. }
    destruct (board g !! (gy, gx)) as [q|] eqn:Hq.
    2: { exists g. split; [intros n _; apply Hshape | auto]. }
    destruct (decide (pColor q = White)) as [Hw | Hw].
    2: { exists g. split; [intros n _; apply Hshape | auto]. }
    exists (with_selected g gx gy).
    split; [intros n _; apply Hshape |]. split; [| auto].
    split; [exact Hk |]. split; [exact Hs |]. intros _. split.
    + right. split; [exact Hac |]. split; [exact Hpr |].
      split; [exact Hon |]. exists q. auto.
    + exact Hprom.
  - (* second click *)
    apply Z.eqb_neq in Hs1.
    destruct Hsel as [Hsel | (_ & _ & [Hsx Hsy] & p & Hp & Hpc)];
      [contradiction |].
    assert (Hends : recursionEnds g = true)
      by (apply near_ends, (kingsNear_weaken 0); [lia | exact Hk]).
    destruct (isMoveLegal_returns g p (selectedX g) (selectedY g) gx gy Hends)
      as (b & Hb); [split; assumption | split; assumption |].
    assert (Hshape : forall n, (2 <= n)%nat ->
      whiteClick n g mx my =
      (g1 ← (if b then
               chk ← isInCheck n (tried g p (selectedX g) (selectedY g) gx gy)
                       White;
               if negb chk
               then executeMove g (selectedX g) (selectedY g) gx gy
               else Ok g
             else Ok g);
       Ok (with_selected g1 (-1) (-1)))).
    { intros n Hn. unfold whiteClick. cbv zeta. fold gx gy.
      rewrite (proj2 (click_guard gx gy)) by (split; assumption).
      rewrite (proj2 (Z.eqb_neq _ _) Hs1).
      rewrite (rd_in g (selectedY g) (selectedX g)) by assumption.
      rewrite bind_Ok_l, Hp, (Hb n Hn), bind_Ok_l.
      destruct b; [| reflexivity]. f_equal.
      rewrite (rd_in g gy gx) by assumption. rewrite bind_Ok_l.
      rewrite (wr_in g gy gx) by assumption. rewrite bind_Ok_l.
      cbn [selectedX selectedY with_board].
      rewrite wr_in by assumption. rewrite bind_Ok_l.
      rewrite with_board_twice, board_with_board.
      change (with_board g _)
        with (tried g p (selectedX g) (selectedY g) gx gy).
      destruct (isInCheck n (tried g p (selectedX g) (selectedY g) gx gy) White)
        as [chk | |]; [| reflexivity | reflexivity].
      rewrite !bind_Ok_l.
      change (selectedX (tried g p (selectedX g) (selectedY g) gx gy))
        with (selectedX g).
      change (selectedY (tried g p (selectedX g) (selectedY g) gx gy))
        with (selectedY g).
      destruct chk; cbn [negb].
      - apply take_back; auto.
      - rewrite (wr_back g p (selectedX g) (selectedY g) gx gy)
          by (try split; assumption).
        reflexivity. }
    destruct b.
    2: { exists (with_selected g (-1) (-1)). split.
         - intros n Hn. rewrite (Hshape n Hn). reflexivity.
         - split; [apply wellFormed_selected; auto | auto]. }
    assert (Hends' : recursionEnds
              (tried g p (selectedX g) (selectedY g) gx gy) = true).
    { apply near_ends, tried_near; try assumption; [split; assumption |].
      apply (king_step_rank (isInCheck 2 g) g p (selectedX g) (selectedY g) gx gy).
      apply Hb. lia. }
    destruct (isInCheck_returns _ White Hends') as (chk & Hchk).
    destruct chk.
    + exists (with_selected g (-1) (-1)). split.
      * intros n Hn. rewrite (Hshape n Hn), (Hchk n Hn). reflexivity.
      * split; [apply wellFormed_selected; auto | auto].
    + destruct (afterMove_wellFormed 2 g p (selectedX g) (selectedY g) gx gy
                  Hk Hs Hpr) as (He & Hk' & Hs' & Hp');
        [split; assumption | exact Hp | apply Hb; lia |].
      exists (with_selected (afterMove g p (selectedX g) (selectedY g) gx gy)
                (-1) (-1)).
      split.
      * intros n Hn. rewrite (Hshape n Hn), (Hchk n Hn), bind_Ok_l. cbn [negb].
        rewrite He. reflexivity.
      * split; [| split; [exact Hst |]].
        -- split; [exact Hk' |]. split; [exact Hs' |].
           intros _. split; [left; reflexivity | exact Hp'].
        -- right. exists p, (selectedX g), (selectedY g), gx, gy.
           split; [| split; reflexivity].
           split; [split; assumption |]. split; [exact Hon |].
           split; [exact Hp |]. split; [exact Hpc |].
           split; [exists 2%nat; apply Hb; lia
                  | exists 2%nat; apply Hchk; lia].
Qed.

(** ** Black's move keeps the state well formed *)

(** The states a move of Black may leave. *)
Lemma wellFormed_afterMove (n : nat) (g : Game) (p : ChessPiece)
    (fx fy tx ty : Z) :
  wellFormed g -> gameStarted g = true -> promoting g = false ->
  selectedX g = -1 ->
  onBoard fx fy -> board g !! (fy, fx) = Some p ->
  isMoveLegal n g p fx fy tx ty = Ok true ->
  executeMove g fx fy tx ty = Ok (afterMove g p fx fy tx ty) /\
  wellFormed (afterMove g p fx fy tx ty) /\
  gameStarted (afterMove g p fx fy tx ty) = true.
Proof.
  intros (Hk & Hs & Hrest) Hst Hpr Hsel Hf Hp Hl.
  destruct (afterMove_wellFormed n g p fx fy tx ty Hk Hs Hpr Hf Hp Hl)
    as (He & Hk' & Hs' & Hp').
  split; [exact He |]. split; [| exact Hst].
  split; [exact Hk' |]. split; [exact Hs' |].
  intros _. split; [left; exact Hsel | exact Hp'].
Qed.

(** A step of the script with the trial move folded away. *)
Lemma scriptStep_shape (n : nat) (g : Game) (m0 m1 m2 m3 : Z) :
  onBoard m0 m1 -> onBoard m2 m3 ->
  scriptStep n (m0, m1, m2, m3) g =
  match board g !! (m1, m0) with
  | None => Ok (inl g)
  | Some p =>
      if negb (bool_decide (pColor p = Black)) then Ok (inl g) else
      b ← isMoveLegal n g p m0 m1 m2 m3;
      if (b : bool) then
        chk ← isInCheck n (tried g p m0 m1 m2 m3) Black;
        if negb chk
        then g' ← executeMove g m0 m1 m2 m3; Ok (inr g')
        else Ok (inl g)
      else Ok (inl g)
  end.
Proof.
  intros [H0 H1] [H2 H3]. unfold scriptStep.
  rewrite (rd_in g m1 m0) by assumption. rewrite bind_Ok_l.
  destruct (board g !! (m1, m0)) as [p|] eqn:Hp; [| reflexivity].
  destruct (negb (bool_decide (pColor p = Black))); [reflexivity |].
  destruct (isMoveLegal n g p m0 m1 m2 m3) as [[|] | |]; try reflexivity.
  rewrite !bind_Ok_l.
  rewrite (rd_in g m3 m2) by assumption. rewrite bind_Ok_l.
  rewrite (wr_tried g p m0 m1 m2 m3) by (split; assumption).
  destruct (isInCheck n (tried g p m0 m1 m2 m3) Black) as [chk | |];
    try reflexivity.
  rewrite !bind_Ok_l.
  destruct chk; cbn [negb];
    rewrite (wr_back g p m0 m1 m2 m3) by (try split; assumption);
    reflexivity.
Qed.

Lemma script_on_board (mv : Z * Z * Z * Z) :
  In mv script ->
  let '(m0, m1, m2, m3) := mv in onBoard m0 m1 /\ onBoard m2 m3.
Proof.
  unfold script. simpl.
  intros [<- | [<- | [<- | [<- | []]]]]; unfold onBoard; lia.
Qed.

Lemma scriptStep_safe (g : Game) (mv : Z * Z * Z * Z) :
  wellFormed g -> gameStarted g = true -> promoting g = false ->
  selectedX g = -1 -> In mv script ->
  exists r, (forall n, (2 <= n)%nat -> scriptStep n mv g = Ok r) /\
    (r = inl g \/
     exists g', r = inr g' /\ wellFormed g' /\ gameStarted g' = true /\
                moveMade g g' Black).
Proof.
  intros Hwf Hst Hpr Hsel Hin. pose proof Hwf as (Hk & Hs & Hrest).
  apply script_on_board in Hin.
  destruct mv as [[[m0 m1] m2] m3]. destruct Hin as [Hf Ht].
  destruct (board g !! (m1, m0)) as [p|] eqn:Hp.
  2: { exists (inl g). split; [| auto]. intros n _.
       rewrite scriptStep_shape, Hp by assumption. reflexivity. }
  destruct (negb (bool_decide (pColor p = Black))) eqn:Hc.
  { exists (inl g). split; [| auto]. intros n _.
    rewrite scriptStep_shape, Hp, Hc by assumption. reflexivity. }
  assert (Hends : recursionEnds g = true)
    by (apply near_ends, (kingsNear_weaken 0); [lia | exact Hk]).
  destruct (isMoveLegal_returns g p m0 m1 m2 m3 Hends Hf Ht) as (b & Hb).
  destruct b.
  2: { exists (inl g). split; [| auto]. intros n Hn.
       rewrite scriptStep_shape, Hp, Hc, (Hb n Hn) by assumption.
       reflexivity. }
  assert (Hends' : recursionEnds (tried g p m0 m1 m2 m3) = true).
  { apply near_ends, tried_near; try assumption.
    apply (king_step_rank (isInCheck 2 g) g p m0 m1 m2 m3). apply Hb. lia. }
  destruct (isInCheck_returns _ Black Hends') as (chk & Hchk).
  destruct chk.
  - exists (inl g). split; [| auto]. intros n Hn.
    rewrite scriptStep_shape, Hp, Hc, (Hb n Hn) by assumption.
    rewrite bind_Ok_l, (Hchk n Hn). reflexivity.
  - destruct (wellFormed_afterMove 2 g p m0 m1 m2 m3 Hwf Hst Hpr Hsel Hf Hp)
      as (He & Hwf' & Hst'); [apply Hb; lia |].
    exists (inr (afterMove g p m0 m1 m2 m3)). split.
    2: { right. eexists. split; [reflexivity |]. split; [exact Hwf' |].
         split; [exact Hst' |]. exists p, m0, m1, m2, m3.
         split; [| split; reflexivity].
         split; [exact Hf |]. split; [exact Ht |]. split; [exact Hp |].
         split; [| split; [exists 2%nat; apply Hb; lia
                          | exists 2%nat; apply Hchk; lia]].
         apply negb_false_iff, bool_decide_eq_true in Hc. exact Hc. }
    intros n Hn.
    rewrite scriptStep_shape, Hp, Hc, (Hb n Hn) by assumption.
    rewrite bind_Ok_l, (Hchk n Hn), bind_Ok_l. cbn [negb].
    rewrite He. reflexivity.
Qed.

(** A loop whose body, under every budget of two or more, either keeps the
    state or leaves with a result that satisfies [P]. *)
Lemma loop_first {A S R} (body : nat -> A -> S -> res (S + R)) (P : R -> Prop)
    (l : list A) (s : S) :
  (forall a, In a l ->
     exists r, (forall n, (2 <= n)%nat -> body n a s = Ok r) /\
       (r = inl s \/ exists v, r = inr v /\ P v)) ->
  exists r, (forall n, (2 <= n)%nat -> loop (body n) l s = Ok r) /\
    (r = inl s \/ exists v, r = inr v /\ P v).
Proof.
  induction l as [|a l IH]; intros H.
  - exists (inl s). split; [reflexivity | left; reflexivity].
  - destruct (H a (or_introl eq_refl)) as (r & Hr & [-> | (v & -> & Hv)]).
    + destruct IH as (r' & Hr' & Hcase).
      { intros a' Ha'. apply H. right. exact Ha'. }
      exists r'. split; [| exact Hcase].
      intros n Hn. cbn [loop]. rewrite (Hr n Hn), bind_Ok_l. apply Hr', Hn.
    + exists (inr v). split; [| right; eauto].
      intros n Hn. cbn [loop]. rewrite (Hr n Hn), bind_Ok_l. reflexivity.
Qed.

Lemma frankScript_safe (g : Game) :
  wellFormed g -> gameStarted g = true -> promoting g = false ->
  selectedX g = -1 ->
  exists r, (forall n, (2 <= n)%nat -> frankScript n g = Ok r) /\
    (r = inl g \/
     exists g', r = inr g' /\ wellFormed g' /\ gameStarted g' = true /\
                moveMade g g' Black).
Proof.
  intros Hwf Hst Hpr Hsel. unfold frankScript.
  apply (loop_first scriptStep
           (fun g' => wellFormed g' /\ gameStarted g' = true /\
                      moveMade g g' Black)).
  intros mv Hin. apply scriptStep_safe; assumption.
Qed.

Lemma pickBest_In (first : move) (rest : list move) :
  In (pickBest first (first :: rest)) (first :: rest).
Proof.
  destruct (pickBest_firstBest first rest) as (l1 & l2 & Hl & _).
  rewrite Hl at 2. apply in_elt.
Qed.

Lemma scoredMoves_In (g : Game) (m : move) :
  In m (scoredMoves g) ->
  onBoard (m_fx m) (m_fy m) /\
  exists p, board g !! (m_fy m, m_fx m) = Some p /\ pColor p = Black /\
    isMoveLegal 2 g p (m_fx m) (m_fy m) (m_tx m) (m_ty m) = Ok true /\
    isInCheck 2 (tried g p (m_fx m) (m_fy m) (m_tx m) (m_ty m)) Black = Ok false.
Proof.
  unfold scoredMoves. intros H.
  apply in_map_iff in H as ([[[fx fy] tx] ty] & <- & H).
  apply filter_In in H as [Hin Hb].
  apply In_enumeration in Hin as [Hf Ht].
  cbn [scored m_fx m_fy m_tx m_ty]. split; [exact Hf |].
  unfold blackMoveLegal in Hb.
  destruct (board g !! (fy, fx)) as [p|]; [| discriminate].
  apply andb_true_iff in Hb as [Hc Hb]. apply bool_decide_eq_true in Hc.
  destruct (fullyLegal 2 g Black p fx fy tx ty) as [[|] | |] eqn:E;
    try discriminate.
  apply fullyLegal_true in E as [E1 E2]. exists p. auto.
Qed.

Lemma frankHeuristic_moves (g : Game) :
  wellFormed g -> gameStarted g = true -> promoting g = false ->
  selectedX g = -1 -> scoredMoves g <> [] ->
  exists g', (forall n, (2 <= n)%nat -> frankHeuristic n g = Ok g') /\
    wellFormed g' /\ gameStarted g' = true /\ moveMade g g' Black.
Proof.
  intros Hwf Hst Hpr Hsel Hne. pose proof Hwf as (Hk & Hs & Hrest).
  pose proof (near_kingsAtHome g Hk) as Hh.
  destruct (scoredMoves g) as [|first rest] eqn:Hl; [congruence |].
  set (best := pickBest first (first :: rest)).
  assert (Hin : In best (scoredMoves g))
    by (rewrite Hl; apply pickBest_In).
  apply scoredMoves_In in Hin as (Hf & p & Hp & Hpc & Hlegal & Hsafe).
  destruct (wellFormed_afterMove 2 g p (m_fx best) (m_fy best)
              (m_tx best) (m_ty best) Hwf Hst Hpr Hsel Hf Hp Hlegal)
    as (He & Hwf' & Hst').
  exists (afterMove g p (m_fx best) (m_fy best) (m_tx best) (m_ty best)).
  split; [| split; [exact Hwf' | split; [exact Hst' |]]].
  2: { exists p, (m_fx best), (m_fy best), (m_tx best), (m_ty best).
       split; [| split; reflexivity].
       split; [exact Hf |].
       split; [apply (legal_move_executes 2 g p _ _ _ _ Hf Hp Hlegal) |].
       split; [exact Hp |]. split; [exact Hpc |]. split; eauto. }
  intros n Hn.
  destruct (frankHeuristic_spec n g Hh Hn) as [_ H].
  rewrite (H best); [exact He |].
  rewrite Hl. apply pickBest_firstBest.
Qed.

Lemma frankHeuristic_safe (g : Game) :
  wellFormed g -> gameStarted g = true -> promoting g = false ->
  selectedX g = -1 ->
  exists g', (forall n, (2 <= n)%nat -> frankHeuristic n g = Ok g') /\
    wellFormed g' /\ gameStarted g' = true /\ boardStep g g' Black.
Proof.
  intros Hwf Hst Hpr Hsel. pose proof Hwf as (Hk & Hs & Hrest).
  pose proof (near_kingsAtHome g Hk) as Hh.
  destruct (scoredMoves g) as [|first rest] eqn:Hl.
  - exists g. split; [| split; [exact Hwf | split; [exact Hst |]]].
    2: { left. split; reflexivity. }
    intros n Hn.
    destruct (frankHeuristic_spec n g Hh Hn) as [H _]. apply H, Hl.
  - destruct (frankHeuristic_moves g Hwf Hst Hpr Hsel) as (g' & H1 & H2 & H3 & H4).
    { rewrite Hl. discriminate. }
    exists g'. split; [exact H1 |]. split; [exact H2 |].
    split; [exact H3 |]. right. exact H4.
Qed.

(** ** Promotion, the end of the game and a new match *)

Lemma promoteTo_eq (g : Game) (p : ChessPiece) (t : PieceType) (sid : Z) :
  onBoard (promX g) (promY g) -> board g !! (promY g, promX g) = Some p ->
  promoteTo g t sid =
  Ok (with_promoting
        (with_board g (partial_alter (fun _ => Some (setType p t sid))
                         (promY g, promX g) (board g))) false).
Proof.
  intros [Hx Hy] Hp. unfold promoteTo.
  rewrite (rd_in g (promY g) (promX g)) by assumption.
  rewrite bind_Ok_l, Hp. rewrite wr_in by assumption. reflexivity.
Qed.

Lemma promoteTo_keeps (g0 g : Game) (t : PieceType) (sid : Z) :
  onBoard (promX g0) (promY g0) -> promotionKeeps g0 g ->
  t <> King -> sid = spriteOf t White ->
  exists g', promoteTo g t sid = Ok g' /\ promotionKeeps g0 g' /\
    promoting g' = false.
Proof.
  intros Hon (Hx & Hy & Hsel & Hst & Hk & Hs & p & Hp & Hc) Ht Hsid.
  rewrite <- Hx, <- Hy in Hon, Hp.
  rewrite (promoteTo_eq g p t sid Hon Hp).
  eexists. split; [reflexivity |]. split; [| reflexivity].
  unfold promotionKeeps.
  cbn [with_promoting with_board promX promY selectedX gameStarted board].
  split; [exact Hx |]. split; [exact Hy |]. split; [exact Hsel |].
  split; [exact Hst |]. split; [| split].
  - apply (tame_near g); [exact Hk |]. cbn [board with_promoting with_board].
    apply tame_set. intros q [= <-]. right. exact Ht.
  - intros k q Hq. cbn [board with_promoting with_board] in Hq.
    destruct (decide ((promY g, promX g) = k)) as [<- | Hne].
    + rewrite lookup_set_same in Hq. injection Hq as <-.
      cbn [setType SpriteID pType pColor]. rewrite Hc. exact Hsid.
    + rewrite lookup_set_other in Hq by exact Hne. apply (Hs k), Hq.
  - rewrite <- Hx, <- Hy. rewrite lookup_set_same.
    eexists. split; [reflexivity | exact Hc].
Qed.

Lemma promotionStep_safe (g : Game) (i : Input) :
  wellFormed g -> gameStarted g = true -> promoting g = true ->
  exists g', promotionStep g i = Ok g' /\ wellFormed g' /\
    gameStarted g' = true.
Proof.
  intros (Hk & Hs & Hrest) Hst Hpr.
  destruct (Hrest Hst) as [Hsel Hprom].
  destruct (Hprom Hpr) as (Hon & p & Hp & Hc).
  assert (Hsel1 : selectedX g = -1).
  { destruct Hsel as [H | (_ & H & _)]; [exact H | congruence]. }
  assert (K0 : promotionKeeps g g).
  { repeat split; try assumption. exists p. auto. }
  assert (Hstep : forall (key : bool) (t : PieceType) (sid : Z) (g1 : Game),
            promotionKeeps g g1 -> t <> King -> sid = spriteOf t White ->
            exists g2, (if key then promoteTo g1 t sid else Ok g1) = Ok g2 /\
                       promotionKeeps g g2).
  { intros key t sid g1 K Ht Hsid. destruct key; [| eauto].
    destruct (promoteTo_keeps g g1 t sid Hon K Ht Hsid) as (g2 & H2 & K2 & _).
    eauto. }
  unfold promotionStep.
  destruct (Hstep (keyQ i) Queen 10 g K0) as (g1 & -> & K1);
    [discriminate | reflexivity |].
  rewrite bind_Ok_l.
  destruct (Hstep (keyR i) Rook 8 g1 K1) as (g2 & -> & K2);
    [discriminate | reflexivity |].
  rewrite bind_Ok_l.
  destruct (Hstep (keyB i) Bishop 7 g2 K2) as (g3 & -> & K3);
    [discriminate | reflexivity |].
  rewrite bind_Ok_l.
  destruct (Hstep (keyN i) Knight 9 g3 K3) as (g4 & -> & K4);
    [discriminate | reflexivity |].
  rewrite bind_Ok_l.
  eexists. split; [reflexivity |].
  destruct K4 as (Hx & Hy & Hs4 & Hst4 & Hk4 & Hsp4 & q & Hq & Hqc).
  assert (Hgoal : forall g5, board g5 = board g4 -> selectedX g5 = selectedX g4 ->
            promX g5 = promX g4 -> promY g5 = promY g4 ->
            gameStarted g5 = gameStarted g4 ->
            wellFormed g5 /\ gameStarted g5 = true).
  { intros g5 Hb H1 H2 H3 H4. split; [| congruence].
    split; [| split].
    - intros x y r Hr Hlook. rewrite Hb in Hlook. exact (Hk4 x y r Hr Hlook).
    - intros k r Hr. rewrite Hb in Hr. exact (Hsp4 k r Hr).
    - intros _. split; [left; congruence |].
      intros _. rewrite H2, H3, Hx, Hy, Hb. split; [exact Hon |].
      exists q. auto. }
  destruct (negb (promoting g4)); apply Hgoal; reflexivity.
Qed.

Lemma endOfGame_safe (g : Game) :
  wellFormed g -> gameStarted g = true ->
  exists g', (forall n, (2 <= n)%nat -> endOfGame n g = Ok g') /\
    wellFormed g' /\ gameStarted g' = true.
Proof.
  intros (Hk & Hs & Hrest) Hst.
  assert (Hends : recursionEnds g = true)
    by (apply near_ends, (kingsNear_weaken 0); [lia | exact Hk]).
  destruct (isInCheck_returns g (activeColor g) Hends) as (b & Hb).
  destruct (endOfGame_spec 2 g b (Hb 2%nat (Nat.le_refl _)))
    as (g' & He & _ & _ & _ & Hall).
  exists g'. split; [intros n Hn; apply Hall, Hb, Hn |].
  unfold endOfGame in He. cbv zeta in He.
  apply bind_Ok in He as (chk & _ & He).
  assert (Hsame : board g' = board g /\ selectedX g' = selectedX g /\
            selectedY g' = selectedY g /\ activeColor g' = activeColor g /\
            promoting g' = promoting g /\ promX g' = promX g /\
            promY g' = promY g /\ gameStarted g' = gameStarted g).
  { destruct chk; [destruct (decide _) |]; injection He as <-; repeat split. }
  destruct Hsame as (Hb' & H1 & H2 & H3 & H4 & H5 & H6 & H7).
  split; [| congruence].
  split; [| split].
  - intros x y r Hr Hlook. rewrite Hb' in Hlook. exact (Hk x y r Hr Hlook).
  - intros k r Hr. rewrite Hb' in Hr. exact (Hs k r Hr).
  - intros _. destruct (Hrest Hst) as [Hsel Hprom]. split.
    + unfold selectionOK. rewrite H1, H2, H3, H4, Hb'. exact Hsel.
    + unfold promotionOK. rewrite H4, H5, H6, Hb'. exact Hprom.
Qed.

Lemma spritesMatch_newGame : spritesMatch newGame.
Proof.
  intros k p Hp.
  assert (H : map_Forall
            (fun _ q => SpriteID q = spriteOf (pType q) (pColor q))
            (board newGame)).
  { apply map_Forall_to_list.
    set (l := map_to_list (board newGame)). vm_compute in l. subst l.
    repeat (constructor; [reflexivity |]). constructor. }
  exact (H k p Hp).
Qed.

Lemma NewGame_safe (w m wal : Z) :
  exists g, NewGame w m wal = Ok g /\ wellFormed g /\ gameStarted g = true.
Proof.
  assert (H : exists g, NewGame w m wal = Ok g /\ board g = board newGame /\
            selectedX g = -1 /\ promoting g = false /\ gameStarted g = true).
  { eexists. split; [vm_compute; reflexivity |].
    split; [vm_compute; reflexivity |]. repeat split. }
  destruct H as (g & Hg & Hb & Hsel & Hpr & Hst).
  exists g. split; [exact Hg |]. split; [| exact Hst].
  split; [apply (NewGame_home _ _ _ _ Hg) |]. split.
  - intros k p Hp. rewrite Hb in Hp. exact (spritesMatch_newGame k p Hp).
  - intros _. split; [left; exact Hsel |]. intros H. congruence.
Qed.

(** ** Every tick of a well-formed state returns a well-formed state *)

Lemma wellFormed_frame (g g' : Game) :
  board g' = board g -> selectedX g' = selectedX g ->
  selectedY g' = selectedY g -> activeColor g' = activeColor g ->
  promoting g' = promoting g -> promX g' = promX g -> promY g' = promY g ->
  gameStarted g' = gameStarted g ->
  wellFormed g -> wellFormed g'.
Proof.
  intros Hb H1 H2 H3 H4 H5 H6 H7 (Hk & Hs & Hrest).
  split; [| split].
  - intros x y r Hr Hlook. rewrite Hb in Hlook. exact (Hk x y r Hr Hlook).
  - intros k r Hr. rewrite Hb in Hr. exact (Hs k r Hr).
  - intros Hst. rewrite H7 in Hst. destruct (Hrest Hst) as [Hsel Hprom]. split.
    + unfold selectionOK. rewrite H1, H2, H3, H4, Hb. exact Hsel.
    + unfold promotionOK. rewrite H4, H5, H6, Hb. exact Hprom.
Qed.

Lemma afterWhiteClock_wellFormed (g : Game) :
  wellFormed g -> wellFormed (afterWhiteClock g).
Proof.
  apply wellFormed_frame; unfold afterWhiteClock; cbv zeta;
    destruct (whiteTime (with_whiteTime g (whiteTime g - 1)) <=? 0);
    reflexivity.
Qed.

Lemma afterBlackClock_wellFormed (g : Game) :
  wellFormed g -> wellFormed (afterBlackClock g).
Proof.
  apply wellFormed_frame; unfold afterBlackClock; cbv zeta;
    destruct (blackTime (with_blackTime g (blackTime g - 1)) <=? 0);
    reflexivity.
Qed.

Lemma Update_safe (g : Game) (i : Input) :
  wellFormed g ->
  exists g', (forall n, (2 <= n)%nat -> Update n g i = Ok g') /\ wellFormed g'.
Proof.
  intros Hwf. unfold Update.
  destruct (gameStarted g) eqn:Hst; cbn [negb].
  2: { destruct (key1 i), (key2 i).
       - destruct (NewGame_safe 5 1 (wallet g)) as (g1 & -> & _ & _).
         destruct (NewGame_safe 50 5 (wallet g1)) as (g2 & H2 & Hw2 & _).
         exists g2. rewrite bind_Ok_l, H2. auto.
       - destruct (NewGame_safe 5 1 (wallet g)) as (g1 & -> & Hw1 & _).
         exists g1. auto.
       - destruct (NewGame_safe 50 5 (wallet g)) as (g2 & H2 & Hw2 & _).
         exists g2. rewrite bind_Ok_l, H2. auto.
       - exists g. auto. }
  destruct (gameOver g).
  { destruct (mouseLeft i); [| exists g; auto].
    destruct (NewGame_safe (wager g) (initialMins g) (wallet g))
      as (g1 & -> & Hw1 & _).
    exists g1. auto. }
  destruct (promoting g) eqn:Hpr.
  { destruct (promotionStep_safe g i Hwf Hst Hpr) as (g' & -> & Hw' & _).
    exists g'. auto. }
  pose proof Hwf as (Hk & Hs & Hrest).
  destruct (hasLegalMoves_returns g (activeColor g) (near_kingsAtHome g Hk))
    as (has & Hhas).
  destruct has; cbn [negb].
  2: { destruct (endOfGame_safe g Hwf Hst) as (g' & He & Hw' & _).
       exists g'. split; [| exact Hw'].
       intros n Hn. rewrite (Hhas n Hn), bind_Ok_l. cbn [negb]. apply He, Hn. }
  destruct (decide (activeColor g = White)) as [Hc | Hc].
  - fold (afterWhiteClock g).
    pose proof (afterWhiteClock_wellFormed g Hwf) as Hw1.
    destruct (afterWhiteClock_fields g) as (_ & _ & _ & _ & _ & Hac & _).
    destruct (mouseLeft i).
    + destruct (whiteClick_safe (afterWhiteClock g) (cursorX i) (cursorY i) Hw1)
        as (g' & Hg' & Hw' & _).
      * unfold afterWhiteClock. cbv zeta.
        destruct (whiteTime (with_whiteTime g (whiteTime g - 1)) <=? 0);
          exact Hst.
      * congruence.
      * unfold afterWhiteClock. cbv zeta.
        destruct (whiteTime (with_whiteTime g (whiteTime g - 1)) <=? 0);
          exact Hpr.
      * exists g'. split; [| exact Hw'].
        intros n Hn. rewrite (Hhas n Hn), bind_Ok_l. cbn [negb].
        rewrite decide_True by exact Hc. apply Hg', Hn.
    + exists (afterWhiteClock g). split; [| exact Hw1].
      intros n Hn. rewrite (Hhas n Hn), bind_Ok_l. cbn [negb].
      rewrite decide_True by exact Hc. reflexivity.
  - fold (afterBlackClock g).
    pose proof (afterBlackClock_wellFormed g Hwf) as Hw1.
    assert (Hst1 : gameStarted (afterBlackClock g) = true).
    { unfold afterBlackClock. cbv zeta.
      destruct (blackTime (with_blackTime g (blackTime g - 1)) <=? 0);
        exact Hst. }
    assert (Hpr1 : promoting (afterBlackClock g) = false).
    { unfold afterBlackClock. cbv zeta.
      destruct (blackTime (with_blackTime g (blackTime g - 1)) <=? 0);
        exact Hpr. }
    assert (Hsel1 : selectedX (afterBlackClock g) = -1).
    { destruct (Hrest Hst) as [[Hsel | (Hw & _)] _]; [| contradiction].
      unfold afterBlackClock. cbv zeta.
      destruct (blackTime (with_blackTime g (blackTime g - 1)) <=? 0);
        exact Hsel. }
    destruct (thinkLimit (afterBlackClock g) <=? frankThinkTime (afterBlackClock g))
      eqn:Hlim.
    2: { exists (afterBlackClock g). split; [| exact Hw1].
         intros n Hn. rewrite (Hhas n Hn), bind_Ok_l. cbn [negb].
         rewrite decide_False by exact Hc.
         fold (afterBlackClock g). rewrite Hlim. reflexivity. }
    destruct (frankScript_safe (afterBlackClock g) Hw1 Hst1 Hpr1 Hsel1)
      as (r & Hr & [-> | (g' & -> & Hw' & _)]).
    + destruct (frankHeuristic_safe (afterBlackClock g) Hw1 Hst1 Hpr1 Hsel1)
        as (g' & Hg' & Hw' & _).
      exists g'. split; [| exact Hw'].
      intros n Hn. rewrite (Hhas n Hn), bind_Ok_l. cbn [negb].
      rewrite decide_False by exact Hc.
      fold (afterBlackClock g). rewrite Hlim, (Hr n Hn), bind_Ok_l.
      apply Hg', Hn.
    + exists g'. split; [| exact Hw'].
      intros n Hn. rewrite (Hhas n Hn), bind_Ok_l. cbn [negb].
      rewrite decide_False by exact Hc.
      fold (afterBlackClock g). rewrite Hlim, (Hr n Hn), bind_Ok_l.
      reflexivity.
Qed.

Lemma wellFormed_startMenu : wellFormed startMenu.
Proof.
  split; [| split].
  - intros x y p _ Hp. unfold startMenu in Hp. cbn [board] in Hp.
    rewrite lookup_empty in Hp. discriminate.
  - intros k p Hp. unfold startMenu in Hp. cbn [board] in Hp.
    rewrite lookup_empty in Hp. discriminate.
  - intros H. discriminate.
Qed.

Lemma reachable_wellFormed (g : Game) : reachable g -> wellFormed g.
Proof.
  intros H. induction H as [|g g' n i _ IH Hu].
  - apply wellFormed_startMenu.
  - destruct (Update_safe g i IH) as (g'' & Hall & Hw).
    assert (E : Update (Nat.max n 2) g i = Ok g').
    { eapply le_res_Ok; [apply Update_le | exact Hu]. lia. }
    rewrite Hall in E by lia. injection E as <-. exact Hw.
Qed.

(** ** A tick of a match only makes fully legal moves *)

Lemma movedBoard_frame (g g1 : Game) (p : ChessPiece) (fx fy tx ty : Z) :
  samePosition g g1 ->
  movedBoard g1 p fx fy tx ty = movedBoard g p fx fy tx ty.
Proof.
  intros (Hb & Hx & Hy). unfold movedBoard, castledBoard.
  rewrite Hb, Hx, Hy. reflexivity.
Qed.

Lemma legalAndSafe_frame (g g1 : Game) (c : Color) (p : ChessPiece)
    (fx fy tx ty : Z) :
  samePosition g g1 ->
  legalAndSafe g1 c fx fy tx ty p -> legalAndSafe g c fx fy tx ty p.
Proof.
  intros Hsame (Hf & Ht & Hp & Hc & (n1 & H1) & (n2 & H2)).
  pose proof Hsame as (Hb & _).
  split; [exact Hf |]. split; [exact Ht |].
  split; [rewrite Hb; exact Hp |]. split; [exact Hc |]. split.
  - exists n1. rewrite (isMoveLegal_frame n1 g g1) by exact Hsame. exact H1.
  - exists n2.
    rewrite (isInCheck_frame n2 (tried g p fx fy tx ty) (tried g1 p fx fy tx ty))
      by (apply tried_frame, Hsame).
    exact H2.
Qed.

Lemma boardStep_frame (g g1 g' : Game) (c : Color) :
  samePosition g g1 -> moveCount g1 = moveCount g ->
  boardStep g1 g' c -> boardStep g g' c.
Proof.
  intros Hsame Hmc [[Hb Hm] | (p & fx & fy & tx & ty & Hl & Hb & Hm)].
  - left. destruct Hsame as (Hb1 & _). split; congruence.
  - right. exists p, fx, fy, tx, ty. split; [| split].
    + apply (legalAndSafe_frame g g1); assumption.
    + rewrite Hb. apply movedBoard_frame, Hsame.
    + congruence.
Qed.

Lemma afterWhiteClock_position (g : Game) :
  samePosition g (afterWhiteClock g) /\
  moveCount (afterWhiteClock g) = moveCount g /\
  gameStarted (afterWhiteClock g) = gameStarted g /\
  promoting (afterWhiteClock g) = promoting g /\
  activeColor (afterWhiteClock g) = activeColor g /\
  selectedX (afterWhiteClock g) = selectedX g.
Proof.
  unfold afterWhiteClock, samePosition. cbv zeta.
  destruct (whiteTime (with_whiteTime g (whiteTime g - 1)) <=? 0);
    repeat split.
Qed.

Lemma afterBlackClock_position (g : Game) :
  samePosition g (afterBlackClock g) /\
  moveCount (afterBlackClock g) = moveCount g /\
  gameStarted (afterBlackClock g) = gameStarted g /\
  promoting (afterBlackClock g) = promoting g /\
  activeColor (afterBlackClock g) = activeColor g /\
  selectedX (afterBlackClock g) = selectedX g.
Proof.
  unfold afterBlackClock, samePosition. cbv zeta.
  destruct (blackTime (with_blackTime g (blackTime g - 1)) <=? 0);
    repeat split.
Qed.

Lemma Update_play (g : Game) (i : Input) :
  wellFormed g -> gameStarted g = true -> gameOver g = false ->
  promoting g = false ->
  exists g', (forall n, (2 <= n)%nat -> Update n g i = Ok g') /\
    boardStep g g' (activeColor g).
Proof.
  intros Hwf Hst Hov Hpr. pose proof Hwf as (Hk & Hs & Hrest).
  destruct (hasLegalMoves_returns g (activeColor g) (near_kingsAtHome g Hk))
    as (has & Hhas).
  assert (Hshape : forall n, (2 <= n)%nat ->
    Update n g i =
    if negb has then endOfGame n g
    else if decide (activeColor g = White) then
      if mouseLeft i
      then whiteClick n (afterWhiteClock g) (cursorX i) (cursorY i)
      else Ok (afterWhiteClock g)
    else
      if thinkLimit (afterBlackClock g) <=? frankThinkTime (afterBlackClock g)
      then r ← frankScript n (afterBlackClock g);
           match r with
           | inr g => Ok g
           | inl g => frankHeuristic n g
           end
      else Ok (afterBlackClock g)).
  { intros n Hn. unfold Update. rewrite Hst, Hov, Hpr. cbn [negb].
    rewrite (Hhas n Hn), bind_Ok_l. reflexivity. }
  destruct has; cbn [negb] in Hshape.
  2: { destruct (endOfGame_safe g Hwf Hst) as (g' & He & _ & _).
       exists g'. split; [intros n Hn; rewrite (Hshape n Hn); apply He, Hn |].
       left.
       assert (Hends : recursionEnds g = true)
         by (apply near_ends, (kingsNear_weaken 0); [lia | exact Hk]).
       specialize (He 2%nat (Nat.le_refl _)).
       unfold endOfGame in He. cbv zeta in He.
       apply bind_Ok in He as (chk & _ & He).
       destruct chk; [destruct (decide _) |]; injection He as <-;
         split; reflexivity. }
  destruct (decide (activeColor g = White)) as [Hc | Hc].
  - destruct (afterWhiteClock_position g) as (Hsame & Hmc & Hst1 & Hpr1 & Hac1 & _).
    destruct (mouseLeft i).
    + destruct (whiteClick_safe (afterWhiteClock g) (cursorX i) (cursorY i)
                  (afterWhiteClock_wellFormed g Hwf))
        as (g' & Hg' & _ & _ & Hstep); try congruence.
      exists g'. split; [intros n Hn; rewrite (Hshape n Hn); apply Hg', Hn |].
      rewrite Hc. apply (boardStep_frame g (afterWhiteClock g)); assumption.
    + exists (afterWhiteClock g).
      split; [intros n Hn; rewrite (Hshape n Hn); reflexivity |].
      left. destruct Hsame as (Hb & _). split; congruence.
  - assert (Hblack : activeColor g = Black) by (destruct (activeColor g); congruence).
    destruct (afterBlackClock_position g)
      as (Hsame & Hmc & Hst1 & Hpr1 & Hac1 & Hsel1).
    assert (Hsel : selectedX (afterBlackClock g) = -1).
    { rewrite Hsel1. destruct (Hrest Hst) as [[Hsel | (Hw & _)] _]; congruence. }
    destruct (thinkLimit (afterBlackClock g) <=? frankThinkTime (afterBlackClock g)).
    2: { exists (afterBlackClock g).
         split; [intros n Hn; rewrite (Hshape n Hn); reflexivity |].
         left. destruct Hsame as (Hb & _). split; congruence. }
    destruct (frankScript_safe (afterBlackClock g)
                (afterBlackClock_wellFormed g Hwf))
      as (r & Hr & [-> | (g' & -> & _ & _ & Hstep)]); try congruence.
    + destruct (frankHeuristic_safe (afterBlackClock g)
                  (afterBlackClock_wellFormed g Hwf))
        as (g' & Hg' & _ & _ & Hstep); try congruence.
      exists g'. split.
      * intros n Hn. rewrite (Hshape n Hn), (Hr n Hn), bind_Ok_l. apply Hg', Hn.
      * rewrite Hblack. apply (boardStep_frame g (afterBlackClock g)); assumption.
    + exists g'. split.
      * intros n Hn. rewrite (Hshape n Hn), (Hr n Hn), bind_Ok_l. reflexivity.
      * rewrite Hblack.
        apply (boardStep_frame g (afterBlackClock g)); try assumption.
        right. exact Hstep.
Qed.

(** ** The effect of [executeMove] *)

Lemma castledBoard_plain (g : Game) (p : ChessPiece) (fx fy tx : Z) :
  ~ (pType p = King /\ Z.abs (tx - fx) = 2) ->
  castledBoard g p fx fy tx = board g.
Proof.
  intros H. unfold castledBoard.
  destruct (bool_decide (pType p = King) && (abs (tx - fx) =? 2)) eqn:E;
    [| reflexivity].
  exfalso. apply H. apply andb_true_iff in E as [E1 E2].
  apply bool_decide_eq_true in E1. rewrite abs_spec in E2.
  apply Z.eqb_eq in E2. auto.
Qed.

Lemma null_move_false (fx fy tx ty : Z) :
  (tx, ty) <> (fx, fy) -> (tx =? fx) && (ty =? fy) = false.
Proof.
  intros Hne. apply andb_false_iff.
  destruct (Z.eqb_spec tx fx) as [-> |]; [right | left; reflexivity].
  apply Z.eqb_neq. congruence.
Qed.

Lemma movedBoard_plain (g : Game) (p : ChessPiece) (fx fy tx ty : Z) :
  (tx, ty) <> (fx, fy) ->
  ~ (pType p = King /\ Z.abs (tx - fx) = 2) ->
  ~ (pType p = Pawn /\ tx = epX g /\ ty = epY g) ->
  movedBoard g p fx fy tx ty !! (fy, fx) = None /\
  forall x y, (y, x) <> (fy, fx) -> (y, x) <> (ty, tx) ->
    movedBoard g p fx fy tx ty !! (y, x) = board g !! (y, x).
Proof.
  intros Hne Hk Hep. unfold movedBoard. cbv zeta.
  rewrite (castledBoard_plain g p fx fy tx Hk).
  rewrite (null_move_false fx fy tx ty Hne).
  assert (E : bool_decide (pType p = Pawn) && (tx =? epX g) && (ty =? epY g)
              = false).
  { destruct (bool_decide (pType p = Pawn) && (tx =? epX g) && (ty =? epY g))
      eqn:E; [| reflexivity].
    exfalso. apply Hep. apply andb_true_iff in E as [E E3].
    apply andb_true_iff in E as [E1 E2]. apply bool_decide_eq_true in E1.
    apply Z.eqb_eq in E2, E3. auto. }
  rewrite E.
  assert (Hne' : (ty, tx) <> (fy, fx)) by congruence.
  split.
  - destruct (reachesLastRank p ty && negb (bool_decide (pColor p = White)));
      look; reflexivity.
  - intros x y H1 H2.
    destruct (reachesLastRank p ty && negb (bool_decide (pColor p = White)));
      look; reflexivity.
Qed.

Lemma executeMove_returns_iff (g : Game) (fx fy tx ty : Z) :
  (exists g', executeMove g fx fy tx ty = Ok g') <->
  onBoard fx fy /\ onBoard tx ty /\
  exists p, board g !! (fy, fx) = Some p /\
    (pType p = King -> Z.abs (tx - fx) = 2 ->
     board g !! (fy, castleCorner fx tx) <> None).
Proof.
  split.
  - intros (g' & H). apply (executeMove_Ok_inv _ _ _ _ _ _ H).
  - intros (Hf & Ht & p & Hp & Hrook). eexists.
    apply (executeMove_eq g p); assumption.
Qed.

(** X1.  A move that is neither a king's move over two files nor a pawn's
    move onto the en-passant target: [executeMove] empties the origin, puts
    the piece on the destination marked as moved (a black pawn arriving on
    rank 0 or 7 as a queen with sprite 4), whatever stood there, and leaves
    every other square and every field but the move's own as they were. *)
Theorem X1_plain_move (g : Game) (p : ChessPiece) (fx fy tx ty : Z) :
  onBoard fx fy -> onBoard tx ty -> board g !! (fy, fx) = Some p ->
  (tx, ty) <> (fx, fy) ->
  ~ (pType p = King /\ Z.abs (tx - fx) = 2) ->
  ~ (pType p = Pawn /\ tx = epX g /\ ty = epY g) ->
  exists g', executeMove g fx fy tx ty = Ok g' /\
    board g' !! (fy, fx) = None /\
    board g' !! (ty, tx) =
      Some (if reachesLastRank p ty && negb (bool_decide (pColor p = White))
            then setType (setHasMoved p) Queen 4 else setHasMoved p) /\
    (forall x y, (y, x) <> (fy, fx) -> (y, x) <> (ty, tx) ->
       board g' !! (y, x) = board g !! (y, x)) /\
    untouchedByMove g' = untouchedByMove g.
Proof.
  intros Hf Ht Hp Hne Hk Hep.
  exists (afterMove g p fx fy tx ty). split.
  - apply executeMove_eq; try assumption. intros H1 H2. exfalso. auto.
  - rewrite board_afterMove.
    destruct (movedBoard_plain g p fx fy tx ty Hne Hk Hep) as [H1 H2].
    split; [exact H1 |]. split; [apply movedBoard_destination, Hne |].
    split; [exact H2 | reflexivity].
Qed.

Lemma X1_plain_move_witness :
  exists g', executeMove newGame 6 7 5 5 = Ok g' /\
    board g' !! (7, 6) = None /\
    board g' !! (5, 5) =
      Some (if reachesLastRank (mkPiece Knight White 9 false) 5
               && negb (bool_decide (pColor (mkPiece Knight White 9 false) = White))
            then setType (setHasMoved (mkPiece Knight White 9 false)) Queen 4
            else setHasMoved (mkPiece Knight White 9 false)) /\
    (forall x y, (y, x) <> (7, 6) -> (y, x) <> (5, 5) ->
       board g' !! (y, x) = board newGame !! (y, x)) /\
    untouchedByMove g' = untouchedByMove newGame.
Proof.
  apply (X1_plain_move newGame (mkPiece Knight White 9 false) 6 7 5 5).
  - unfold onBoard. lia.
  - unfold onBoard. lia.
  - vm_compute. reflexivity.
  - discriminate.
  - intros [H _]. discriminate.
  - intros [H _]. discriminate.
Defined.

Lemma movedBoard_castle (g : Game) (p r : ChessPiece) (fy tx ty rx rtx : Z) :
  pType p = King ->
  (tx = 6 /\ rx = 7 /\ rtx = 5) \/ (tx = 2 /\ rx = 0 /\ rtx = 3) ->
  board g !! (fy, rx) = Some r ->
  movedBoard g p 4 fy tx ty !! (fy, 4) = None /\
  movedBoard g p 4 fy tx ty !! (ty, tx) = Some (setHasMoved p) /\
  movedBoard g p 4 fy tx ty !! (fy, rx) = None /\
  movedBoard g p 4 fy tx ty !! (fy, rtx) = Some (setHasMoved r) /\
  forall x y, (y, x) <> (fy, 4) -> (y, x) <> (ty, tx) ->
    (y, x) <> (fy, rx) -> (y, x) <> (fy, rtx) ->
    movedBoard g p 4 fy tx ty !! (y, x) = board g !! (y, x).
Proof.
  intros Hk Hside Hr. unfold movedBoard, castledBoard, reachesLastRank.
  cbv zeta. rewrite Hk.
  rewrite (bool_decide_eq_true_2 (King = King)) by reflexivity.
  rewrite (bool_decide_eq_false_2 (King = Pawn)) by discriminate.
  cbn [andb].
  destruct Hside as [(-> & -> & ->) | (-> & -> & ->)].
  - change (abs (6 - 4) =? 2) with true. change (4 <? 6) with true.
    change (6 =? 4) with false. cbv beta iota. cbn [andb]. rewrite Hr.
    (split; [| split; [| split; [| split]]]);
      try (intros x y H1 H2 H3 H4); look; reflexivity.
  - change (abs (2 - 4) =? 2) with true. change (4 <? 2) with false.
    change (2 =? 4) with false. cbv beta iota. cbn [andb]. rewrite Hr.
    (split; [| split; [| split; [| split]]]);
      try (intros x y H1 H2 H3 H4); look; reflexivity.
Qed.

(** X2.  A king on the e-file moved to the g-file or the c-file takes the
    piece of the corner of its rank on that side with it: the corner is
    emptied and the piece lands on the f-file or the d-file, marked as
    moved, whatever it is; the king lands on its destination marked as
    moved; no other square changes. *)
Theorem X2_castling_move (g : Game) (p r : ChessPiece) (fy tx ty rx rtx : Z) :
  0 <= fy <= 7 -> 0 <= ty <= 7 ->
  board g !! (fy, 4) = Some p -> pType p = King ->
  (tx = 6 /\ rx = 7 /\ rtx = 5) \/ (tx = 2 /\ rx = 0 /\ rtx = 3) ->
  board g !! (fy, rx) = Some r ->
  exists g', executeMove g 4 fy tx ty = Ok g' /\
    board g' !! (fy, 4) = None /\
    board g' !! (ty, tx) = Some (setHasMoved p) /\
    board g' !! (fy, rx) = None /\
    board g' !! (fy, rtx) = Some (setHasMoved r) /\
    (forall x y, (y, x) <> (fy, 4) -> (y, x) <> (ty, tx) ->
       (y, x) <> (fy, rx) -> (y, x) <> (fy, rtx) ->
       board g' !! (y, x) = board g !! (y, x)).
Proof.
  intros Hfy Hty Hp Hk Hside Hr.
  exists (afterMove g p 4 fy tx ty). split.
  - apply executeMove_eq; try assumption.
    + unfold onBoard. lia.
    + unfold onBoard. destruct Hside as [(-> & _) | (-> & _)]; lia.
    + intros _ _. unfold castleCorner.
      destruct Hside as [(-> & -> & _) | (-> & -> & _)]; simpl; congruence.
  - rewrite board_afterMove. apply movedBoard_castle; assumption.
Qed.

Lemma X2_castling_move_witness :
  exists g', executeMove castlingGame 4 7 6 7 = Ok g' /\
    board g' !! (7, 4) = None /\
    board g' !! (7, 6) = Some (setHasMoved (freshKing White)) /\
    board g' !! (7, 7) = None /\
    board g' !! (7, 5) = Some (setHasMoved (mkPiece Rook White 8 false)) /\
    (forall x y, (y, x) <> (7, 4) -> (y, x) <> (7, 6) ->
       (y, x) <> (7, 7) -> (y, x) <> (7, 5) ->
       board g' !! (y, x) = board castlingGame !! (y, x)).
Proof.
  apply (X2_castling_move castlingGame (freshKing White)
           (mkPiece Rook White 8 false) 7 6 7 7 5).
  - lia.
  - lia.
  - vm_compute. reflexivity.
  - reflexivity.
  - left. repeat split.
  - vm_compute. reflexivity.
Defined.

(** X3.  Every call of [executeMove] that returns has found a piece [p]
    on the origin, counted the move and reset the thinking counter.  It
    raises the promotion flag, and records the destination as the promotion
    square, exactly when [p] is a white pawn arriving on rank 0 or 7; the
    turn passes to the other side unless the promotion flag is up (raised by
    this move or before it).  Selection, dialog, clocks, match flags, stake
    and wallet are not written. *)
Theorem X3_move_bookkeeping (g g' : Game) (fx fy tx ty : Z) :
  executeMove g fx fy tx ty = Ok g' ->
  exists p, board g !! (fy, fx) = Some p /\
    moveCount g' = moveCount g + 1 /\ frankThinkTime g' = 0 /\
    untouchedByMove g' = untouchedByMove g /\
    let up := reachesLastRank p ty && bool_decide (pColor p = White) in
    promoting g' = promoting g || up /\
    promX g' = (if up then tx else promX g) /\
    promY g' = (if up then ty else promY g) /\
    activeColor g' =
      (if promoting g' then activeColor g else opp (activeColor g)).
Proof.
  intros H.
  destruct (executeMove_Ok_inv _ _ _ _ _ _ H) as (Hf & Ht & p & Hp & Hrook).
  rewrite (executeMove_eq g p fx fy tx ty Hf Ht Hp Hrook) in H.
  injection H as <-. exists p. split; [exact Hp |]. repeat split.
Qed.

Lemma X3_move_bookkeeping_witness :
  exists p, board newGame !! (6, 4) = Some p /\
    moveCount (afterMove newGame (mkPiece Pawn White 6 false) 4 6 4 4)
      = moveCount newGame + 1 /\
    frankThinkTime (afterMove newGame (mkPiece Pawn White 6 false) 4 6 4 4) = 0 /\
    untouchedByMove (afterMove newGame (mkPiece Pawn White 6 false) 4 6 4 4)
      = untouchedByMove newGame /\
    let up := reachesLastRank p 4 && bool_decide (pColor p = White) in
    promoting (afterMove newGame (mkPiece Pawn White 6 false) 4 6 4 4)
      = promoting newGame || up /\
    promX (afterMove newGame (mkPiece Pawn White 6 false) 4 6 4 4)
      = (if up then 4 else promX newGame) /\
    promY (afterMove newGame (mkPiece Pawn White 6 false) 4 6 4 4)
      = (if up then 4 else promY newGame) /\
    activeColor (afterMove newGame (mkPiece Pawn White 6 false) 4 6 4 4) =
      (if promoting (afterMove newGame (mkPiece Pawn White 6 false) 4 6 4 4)
       then activeColor newGame else opp (activeColor newGame)).
Proof.
  apply (X3_move_bookkeeping newGame
           (afterMove newGame (mkPiece Pawn White 6 false) 4 6 4 4) 4 6 4 4).
  vm_compute. reflexivity.
Defined.

(** ** Promotion keys *)

Lemma promoteTo_promotedTo (g g1 : Game) (q : ChessPiece) (t : PieceType)
    (sid : Z) :
  onBoard (promX g) (promY g) -> promotedTo g g1 q ->
  exists g2, promoteTo g1 t sid = Ok g2 /\
    promotedTo g g2 (setType q t sid) /\ promoting g2 = false.
Proof.
  intros Hon (Hu & Hq & Hrest).
  assert (Hx : promX g1 = promX g) by (injection Hu; auto).
  assert (Hy : promY g1 = promY g) by (injection Hu; auto).
  rewrite (promoteTo_eq g1 q t sid); rewrite ?Hx, ?Hy; try assumption.
  eexists. split; [reflexivity |]. split; [| reflexivity].
  split; [exact Hu |]. cbn [board with_promoting with_board]. split.
  - apply lookup_set_same.
  - intros k Hk. rewrite lookup_set_other by congruence. apply Hrest, Hk.
Qed.

Lemma promotion_key (g g1 : Game) (q : ChessPiece) (key : bool)
    (t : PieceType) (sid : Z) :
  onBoard (promX g) (promY g) -> promotedTo g g1 q ->
  exists g2, (if key then promoteTo g1 t sid else Ok g1) = Ok g2 /\
    promotedTo g g2 (if key then setType q t sid else q) /\
    promoting g2 = (if key then false else promoting g1).
Proof.
  intros Hon R. destruct key; [| eauto].
  destruct (promoteTo_promotedTo g g1 q t sid Hon R) as (g2 & E & R2 & P2).
  eauto.
Qed.

Lemma promotionStep_choice (g : Game) (i : Input) (p : ChessPiece) :
  onBoard (promX g) (promY g) -> board g !! (promY g, promX g) = Some p ->
  promoting g = true ->
  match promotionChoice i with
  | None => promotionStep g i = Ok g
  | Some (t, sid) =>
      exists g', promotionStep g i = Ok g' /\
        promotedTo g g' (setType p t sid) /\
        promoting g' = false /\ activeColor g' = Black
  end.
Proof.
  intros Hon Hp Hpr.
  assert (R0 : promotedTo g g p).
  { split; [reflexivity |]. split; [exact Hp | reflexivity]. }
  unfold promotionStep.
  destruct (keyQ i || keyR i || keyB i || keyN i) eqn:Hany.
  2: { apply orb_false_iff in Hany as [Hany HN].
       apply orb_false_iff in Hany as [Hany HB].
       apply orb_false_iff in Hany as [HQ HR].
       unfold promotionChoice. rewrite HQ, HR, HB, HN, !bind_Ok_l, Hpr.
       reflexivity. }
  destruct (promotion_key g g p (keyQ i) Queen 10 Hon R0) as (g1 & E1 & R1 & P1).
  destruct (promotion_key g g1 _ (keyR i) Rook 8 Hon R1) as (g2 & E2 & R2 & P2).
  destruct (promotion_key g g2 _ (keyB i) Bishop 7 Hon R2) as (g3 & E3 & R3 & P3).
  destruct (promotion_key g g3 _ (keyN i) Knight 9 Hon R3) as (g4 & E4 & R4 & P4).
  rewrite E1, bind_Ok_l, E2, bind_Ok_l, E3, bind_Ok_l, E4, bind_Ok_l.
  clear E1 E2 E3 E4 R0 R1 R2 R3.
  assert (Hfin : forall q, promotedTo g g4 q -> promoting g4 = false ->
            exists g', Ok (if negb (promoting g4)
                           then with_activeColor g4 Black else g4) = Ok g' /\
              promotedTo g g' q /\ promoting g' = false /\
              activeColor g' = Black).
  { intros q (Hu & Hq & Hrest) H4. rewrite H4. cbn [negb].
    eexists. split; [reflexivity |]. repeat split; assumption. }
  unfold promotionChoice.
  destruct (keyQ i), (keyR i), (keyB i), (keyN i);
    try discriminate Hany;
    try rewrite P3 in P4; try rewrite P2 in P4; try rewrite P1 in P4;
    apply (Hfin _ R4 P4).
Qed.

Lemma promoteTo_empty (g : Game) (t : PieceType) (sid : Z) :
  onBoard (promX g) (promY g) -> board g !! (promY g, promX g) = None ->
  promoteTo g t sid = Panic.
Proof.
  intros [Hx Hy] Hp. unfold promoteTo.
  rewrite (rd_in g (promY g) (promX g)) by assumption.
  rewrite bind_Ok_l, Hp. reflexivity.
Qed.

(** X4.  While a promotion is pending and its square holds the piece [p]:
    with none of Q, R, B, N down the tick changes nothing; otherwise the
    piece takes the type and sprite of the last key down in the order Q, R,
    B, N (queen 10, rook 8, bishop 7, knight 9), keeping colour and
    [HasMoved]; the flag is lowered and the turn goes to Black; no other
    square and no other field changes.  With a key down on an empty
    promotion square the tick panics. *)
Theorem X4_promotion_keys (g : Game) (i : Input) :
  onBoard (promX g) (promY g) -> promoting g = true ->
  (forall p, board g !! (promY g, promX g) = Some p ->
     match promotionChoice i with
     | None => promotionStep g i = Ok g
     | Some (t, sid) =>
         exists g', promotionStep g i = Ok g' /\
           board g' !! (promY g, promX g) = Some (setType p t sid) /\
           (forall k, k <> (promY g, promX g) -> board g' !! k = board g !! k) /\
           untouchedByPromotion g' = untouchedByPromotion g /\
           promoting g' = false /\ activeColor g' = Black
     end) /\
  (board g !! (promY g, promX g) = None -> promotionChoice i <> None ->
   promotionStep g i = Panic).
Proof.
  intros Hon Hpr. split.
  - intros p Hp. pose proof (promotionStep_choice g i p Hon Hp Hpr) as H.
    destruct (promotionChoice i) as [[t sid]|]; [| exact H].
    destruct H as (g' & H1 & (Hu & Hq & Hrest) & H2 & H3).
    exists g'. auto 10.
  - intros Hnone Hkey. unfold promotionStep, promotionChoice in *.
    destruct (keyQ i), (keyR i), (keyB i), (keyN i);
      try contradiction;
      rewrite ?bind_Ok_l;
      rewrite (promoteTo_empty g) by assumption; reflexivity.
Qed.

Lemma X4_promotion_keys_witness :
  (exists g', promotionStep promotionGame keysQN = Ok g' /\
     board g' !! (promY promotionGame, promX promotionGame)
       = Some (setType (mkPiece Pawn White 6 true) Knight 9) /\
     (forall k, k <> (promY promotionGame, promX promotionGame) ->
        board g' !! k = board promotionGame !! k) /\
     untouchedByPromotion g' = untouchedByPromotion promotionGame /\
     promoting g' = false /\ activeColor g' = Black) /\
  promotionStep emptyPromotion keysQN = Panic.
Proof.
  split.
  - assert (Hon : onBoard (promX promotionGame) (promY promotionGame))
      by (unfold onBoard; simpl; lia).
    assert (Hp : board promotionGame
                   !! (promY promotionGame, promX promotionGame)
                 = Some (mkPiece Pawn White 6 true))
      by (vm_compute; reflexivity).
    exact (proj1 (X4_promotion_keys promotionGame keysQN Hon eq_refl)
             (mkPiece Pawn White 6 true) Hp).
  - assert (Hon : onBoard (promX emptyPromotion) (promY emptyPromotion))
      by (unfold onBoard; simpl; lia).
    apply (proj2 (X4_promotion_keys emptyPromotion keysQN Hon eq_refl)).
    + reflexivity.
    + discriminate.
Defined.

(** With Q and N down together the pawn becomes a knight. *)
Example promotion_last_key_wins :
  exists g', promotionStep promotionGame keysQN = Ok g' /\
    board g' !! (0, 0) = Some (mkPiece Knight White 9 true) /\
    activeColor g' = Black /\ promoting g' = false.
Proof.
  eexists. split; [vm_compute; reflexivity |].
  split; [vm_compute; reflexivity |]. split; reflexivity.
Qed.

(** ** A new match *)

Lemma NewGame_freshMatch (w m wal : Z) :
  NewGame w m wal = Ok (freshMatch w m wal).
Proof. vm_compute. reflexivity. Qed.



(** ** Ticks outside a match *)

Lemma Update_outside_a_match (n : nat) (g : Game) (i : Input) :
  (gameStarted g = false ->
   Update n g i =
   Ok (if key2 i then freshMatch 50 5 (wallet g)
       else if key1 i then freshMatch 5 1 (wallet g) else g)) /\
  (gameStarted g = true -> gameOver g = true ->
   Update n g i =
   Ok (if mouseLeft i then freshMatch (wager g) (initialMins g) (wallet g)
       else g)).
Proof.
  split.
  - intros Hs. unfold Update. rewrite Hs. cbn [negb].
    destruct (key1 i), (key2 i); rewrite ?NewGame_freshMatch, ?bind_Ok_l;
      rewrite ?NewGame_freshMatch; reflexivity.
  - intros Hs Ho. unfold Update. rewrite Hs, Ho. cbn [negb].
    destruct (mouseLeft i); rewrite ?NewGame_freshMatch; reflexivity.
Qed.


(** X6.  Before a match is started a tick reads the keys 1 and 2 only: key
    2 starts a match at stake 50 and five minutes, key 1 alone one at stake
    5 and one minute, and with neither nothing changes.  After the game is
    over a tick reads the mouse button only: a click starts a new match at
    the same stake and minutes, and without a click nothing changes, the
    clocks included.  The wallet is carried into the new match. *)
Theorem X6_outside_a_match (n : nat) (g : Game) (i : Input) :
  (gameStarted g = false ->
   Update n g i =
   Ok (if key2 i then freshMatch 50 5 (wallet g)
       else if key1 i then freshMatch 5 1 (wallet g) else g)) /\
  (gameStarted g = true -> gameOver g = true ->
   Update n g i =
   Ok (if mouseLeft i then freshMatch (wager g) (initialMins g) (wallet g)
       else g)).
Proof. apply Update_outside_a_match. Qed.

Lemma X6_outside_a_match_witness :
  Update 2 startMenu keys12
  = Ok (if key2 keys12 then freshMatch 50 5 (wallet startMenu)
        else if key1 keys12 then freshMatch 5 1 (wallet startMenu)
        else startMenu) /\
  Update 2 afterFoolsMate clickAtOrigin
  = Ok (if mouseLeft clickAtOrigin
        then freshMatch (wager afterFoolsMate) (initialMins afterFoolsMate)
               (wallet afterFoolsMate)
        else afterFoolsMate).
Proof.
  split.
  - apply (proj1 (X6_outside_a_match 2 startMenu keys12)). reflexivity.
  - apply (proj2 (X6_outside_a_match 2 afterFoolsMate clickAtOrigin)).
    + reflexivity.
    + vm_compute. reflexivity.
Defined.

(** ** Clocks, flags, stake and wallet *)














(** The wallet after fool's mate at stake 5: 95. *)
Example foolsMate_costs_the_stake :
  wallet foolsMate = 100 /\ wallet afterFoolsMate = 95 /\
  winner afterFoolsMate = 0 /\ gameOver afterFoolsMate = true.
Proof. repeat split; vm_compute; reflexivity. Qed.

(** ** Frank's delay *)












Lemma wellFormed_newGame : wellFormed newGame.
Proof.
  destruct (NewGame_safe 5 1 100) as (g & Hg & Hwf & _).
  unfold newGame. rewrite Hg. exact Hwf.
Qed.

Lemma wellFormed_afterE4 : wellFormed afterE4.
Proof.
  apply (wellFormed_afterMove 2 newGame (mkPiece Pawn White 6 false) 4 6 4 4).
  - apply wellFormed_newGame.
  - reflexivity.
  - reflexivity.
  - reflexivity.
  - unfold onBoard. lia.
  - vm_compute. reflexivity.
  - vm_compute. reflexivity.
Qed.


(** ** [isPathClear] off the lines of the board *)





(** A knight's jump over an empty board walks off the board. *)
Example isPathClear_off_the_lines :
  isPathClear emptyGame 1 7 2 5 = Panic /\
  isPathClear newGame 1 7 2 5 = Ok false.
Proof. split; vm_compute; reflexivity. Qed.

(** ** Rooks, bishops, queens and knights *)

Lemma lineOf_aligned (t : PieceType) (fx fy tx ty : Z) :
  lineOf t fx fy tx ty -> aligned fx fy tx ty.
Proof. unfold aligned. destruct t; simpl; tauto. Qed.

(** X11.  The moves of rooks, bishops and queens.  For a rook, bishop or
    queen [p] leaving a square of the board, [isMoveLegal] returns whatever
    the budget, without a panic, and accepts the move exactly when the
    target is a square of the board that holds no piece of [p]'s colour,
    lies on a line of the piece (file or rank for a rook, diagonal for a
    bishop, any of them for a queen) and every square strictly between
    origin and target is empty. *)
Theorem X11_sliding_moves (n : nat) (g : Game) (p : ChessPiece)
    (fx fy tx ty : Z) :
  onBoard fx fy ->
  pType p = Rook \/ pType p = Bishop \/ pType p = Queen ->
  exists b, isMoveLegal n g p fx fy tx ty = Ok b /\
    (b = true <->
     onBoard tx ty /\ notOwn g p tx ty /\
     lineOf (pType p) fx fy tx ty /\ emptyBetween g fx fy tx ty).
Proof.
  intros Hf Ht. unfold isMoveLegal.
  destruct (decide (onBoard tx ty)) as [Hon | Hoff].
  2: { exists false. split; [apply isMoveLegalW_off_board, Hoff |].
       split; [discriminate | intros (H & _); contradiction]. }
  unfold isMoveLegalW. rewrite (proj2 (range_guard tx ty) Hon).
  rewrite (rd_in g ty tx) by apply Hon. rewrite bind_Ok_l.
  destruct (sameColorAs (board g !! (ty, tx)) p) eqn:Es.
  { exists false. split; [reflexivity |].
    split; [discriminate | intros (_ & Hno & _)].
    apply sameColorAs_false in Hno. congruence. }
  apply sameColorAs_false in Es. cbv zeta. rewrite !abs_spec.
  assert (Hline : forall c : bool,
            (c = true <-> lineOf (pType p) fx fy tx ty) ->
            exists b,
              (if c then isPathClear g fx fy tx ty else Ok false) = Ok b /\
              (b = true <->
               onBoard tx ty /\ notOwn g p tx ty /\
               lineOf (pType p) fx fy tx ty /\ emptyBetween g fx fy tx ty)).
  { intros [|] Hc.
    - assert (Hl : lineOf (pType p) fx fy tx ty) by (apply Hc; reflexivity).
      destruct (isPathClear_line g fx fy tx ty) as (b & Hb & Hiff);
        try apply Hf; try apply Hon; [apply (lineOf_aligned _ _ _ _ _ Hl) |].
      exists b. split; [exact Hb |]. rewrite Hiff. unfold emptyBetween. tauto.
    - exists false. split; [reflexivity |].
      split; [discriminate | intros (_ & _ & Hl & _)].
      apply Hc in Hl. discriminate. }
  destruct Ht as [Ht | [Ht | Ht]]; rewrite Ht in *; apply Hline; cbn [lineOf].
  - rewrite orb_true_iff, !Z.eqb_eq. tauto.
  - rewrite Z.eqb_eq. tauto.
  - unfold aligned. rewrite !orb_true_iff, !Z.eqb_eq. tauto.
Qed.

Lemma X11_sliding_moves_witness :
  exists b,
    isMoveLegal 2 newGame (mkPiece Rook White 8 false) 0 7 0 3 = Ok b /\
    (b = true <->
     onBoard 0 3 /\ notOwn newGame (mkPiece Rook White 8 false) 0 3 /\
     lineOf (pType (mkPiece Rook White 8 false)) 0 7 0 3 /\
     emptyBetween newGame 0 7 0 3).
Proof.
  apply (X11_sliding_moves 2 newGame (mkPiece Rook White 8 false) 0 7 0 3).
  - unfold onBoard. lia.
  - left. reflexivity.
Defined.

(** X12.  The moves of knights.  For a knight [p], [isMoveLegal] returns
    whatever the origin, the other pieces and the budget, and accepts the
    move exactly when the target is a square of the board that holds no
    piece of [p]'s colour, two files and one rank or one file and two ranks
    away. *)
Theorem X12_knight_moves (n : nat) (g : Game) (p : ChessPiece)
    (fx fy tx ty : Z) :
  pType p = Knight ->
  exists b, isMoveLegal n g p fx fy tx ty = Ok b /\
    (b = true <->
     onBoard tx ty /\ notOwn g p tx ty /\ jump fx fy tx ty).
Proof.
  intros Ht. unfold isMoveLegal.
  destruct (decide (onBoard tx ty)) as [Hon | Hoff].
  2: { exists false. split; [apply isMoveLegalW_off_board, Hoff |].
       split; [discriminate | intros (H & _); contradiction]. }
  unfold isMoveLegalW. rewrite (proj2 (range_guard tx ty) Hon).
  rewrite (rd_in g ty tx) by apply Hon. rewrite bind_Ok_l.
  destruct (sameColorAs (board g !! (ty, tx)) p) eqn:Es.
  { exists false. split; [reflexivity |].
    split; [discriminate | intros (_ & Hno & _)].
    apply sameColorAs_false in Hno. congruence. }
  apply sameColorAs_false in Es. cbv zeta. rewrite Ht, !abs_spec.
  eexists. split; [reflexivity |]. unfold jump.
  rewrite orb_true_iff, !andb_true_iff, !Z.eqb_eq. tauto.
Qed.

Lemma X12_knight_moves_witness :
  exists b,
    isMoveLegal 0 newGame (mkPiece Knight White 9 false) 6 7 5 5 = Ok b /\
    (b = true <->
     onBoard 5 5 /\ notOwn newGame (mkPiece Knight White 9 false) 5 5 /\
     jump 6 7 5 5).
Proof.
  apply (X12_knight_moves 0 newGame (mkPiece Knight White 9 false) 6 7 5 5).
  reflexivity.
Defined.

(** ** [isSquareAttacked] and [isInCheck] *)

Lemma unit_keeps {A R} (body : A -> unit -> res (unit + R)) :
  forall a s s', body a s = Ok (inl s') -> s' = s.
Proof. intros a [] [] _. reflexivity. Qed.

Lemma isSquareAttackedW_true (chk : Color -> res bool) (g : Game) (x y : Z)
    (a : Color) :
  isSquareAttackedW chk g x y a = Ok true ->
  exists fx fy p, onBoard fx fy /\ board g !! (fy, fx) = Some p /\
    pColor p = a /\ isMoveLegalW chk g p fx fy x y = Ok true.
Proof.
  unfold isSquareAttackedW. intros H.
  apply bind_Ok in H as ([[] | b] & Hl & H); [discriminate |].
  injection H as ->.
  apply loop_inr in Hl as (_ & fy & _ & _ & _ & Hl); [| apply unit_keeps].
  apply loop_inr in Hl as (_ & fx & _ & _ & _ & Hl); [| apply unit_keeps].
  apply bind_Ok in Hl as ([p|] & Hrd & Hl); [| discriminate].
  apply rd_Ok in Hrd as [[Hy Hx] Hp].
  destruct (bool_decide (pColor p = a)) eqn:Hc; [| discriminate].
  apply bool_decide_eq_true in Hc.
  apply bind_Ok in Hl as ([|] & Hm & Hl); [| discriminate].
  exists fx, fy, p. split; [split; assumption |]. auto.
Qed.

Lemma isSquareAttackedW_false (chk : Color -> res bool) (g : Game) (x y : Z)
    (a : Color) :
  isSquareAttackedW chk g x y a = Ok false ->
  forall fx fy p, onBoard fx fy -> board g !! (fy, fx) = Some p ->
    pColor p = a -> isMoveLegalW chk g p fx fy x y = Ok false.
Proof.
  unfold isSquareAttackedW. intros H fx fy p [Hx Hy] Hp Hc.
  apply bind_Ok in H as ([[] | b] & Hl & H).
  2: { injection H as ->.
       apply loop_inr in Hl as (_ & fy' & _ & _ & _ & Hl); [| apply unit_keeps].
       apply loop_inr in Hl as (_ & fx' & _ & _ & _ & Hl); [| apply unit_keeps].
       apply bind_Ok in Hl as ([q|] & _ & Hl); [| discriminate].
       destruct (bool_decide (pColor q = a)); [| discriminate].
       apply bind_Ok in Hl as ([|] & _ & Hl); discriminate. }
  apply loop_inl in Hl as [_ Hl]; [| apply unit_keeps].
  specialize (Hl fy (proj2 (idx8_spec fy) Hy)).
  apply loop_inl in Hl as [_ Hl]; [| apply unit_keeps].
  specialize (Hl fx (proj2 (idx8_spec fx) Hx)).
  rewrite rd_in, bind_Ok_l, Hp in Hl by assumption.
  rewrite bool_decide_eq_true_2 in Hl by exact Hc.
  apply bind_Ok in Hl as ([|] & Hm & Hl); [discriminate | exact Hm].
Qed.

(** X13.  [isSquareAttacked x y a] answers true exactly when some piece of
    colour [a] on the board has a move to [(x, y)] that [isMoveLegal]
    accepts; it is the same test as for a move, so a pawn counts for the
    square it may advance to.  On a board where the recursion ends (as in
    every position of a match) the call returns under every budget of two
    or more, also for a square off the board. *)
Theorem X13_isSquareAttacked (g : Game) (x y : Z) (a : Color) :
  (recursionEnds g = true ->
   exists b, forall n, (2 <= n)%nat -> isSquareAttacked n g x y a = Ok b) /\
  (forall n b, isSquareAttacked n g x y a = Ok b ->
     (b = true <-> attacker n g x y a)).
Proof.
  split.
  - intros Hends.
    destruct (isInCheck_returns g a Hends) as (c & Hc).
    destruct (isSquareAttackedW_returns_any (isInCheck 2 g) g x y a)
      as (b & Hb).
    { exists c. apply Hc. lia. }
    exists b. intros n Hn.
    eapply le_res_Ok; [apply (isSquareAttacked_le 2 n); exact Hn | exact Hb].
  - intros n b H. unfold isSquareAttacked in H. destruct b.
    + split; [intros _ | reflexivity].
      apply isSquareAttackedW_true in H. exact H.
    + split; [discriminate |].
      intros (fx & fy & p & Hon & Hp & Hc & Hm).
      pose proof (isSquareAttackedW_false _ _ _ _ _ H fx fy p Hon Hp Hc) as Hf.
      unfold isMoveLegal in Hm. congruence.
Qed.

Lemma X13_isSquareAttacked_witness :
  (exists b, forall n, (2 <= n)%nat ->
     isSquareAttacked n newGame 4 5 White = Ok b) /\
  (true = true <-> attacker 2 newGame 4 5 White).
Proof.
  destruct (X13_isSquareAttacked newGame 4 5 White) as [H1 H2].
  split.
  - apply H1. vm_compute. reflexivity.
  - apply H2. vm_compute. reflexivity.
Defined.

(** At the start of a match the empty square e3 counts as attacked by
    White: the pawn on e2 may advance to it.  The pawn on d2 has no move to
    it as long as it is empty. *)
Example pawn_push_counts_as_attack :
  isSquareAttacked 2 newGame 4 5 White = Ok true /\
  isMoveLegal 2 newGame (mkPiece Pawn White 6 false) 4 6 4 5 = Ok true /\
  isMoveLegal 2 newGame (mkPiece Pawn White 6 false) 3 6 4 5 = Ok false.
Proof. repeat split; vm_compute; reflexivity. Qed.

Lemma squares_in_scan_order : StronglySorted scansBefore squares.
Proof.
  unfold squares, idx8, scansBefore. simpl.
  repeat (apply SSorted_cons;
          [| repeat (apply List.Forall_cons; [simpl; lia |]); apply List.Forall_nil]).
  apply SSorted_nil.
Qed.

Lemma lastKing_last (g : Game) (c : Color) (x y : Z) :
  onBoard x y -> isKingOf c (board g !! (y, x)) = true ->
  onBoard (fst (lastKing g c)) (snd (lastKing g c)) /\
  isKingOf c (board g !! (snd (lastKing g c), fst (lastKing g c))) = true /\
  ((x, y) = lastKing g c \/ scansBefore (x, y) (lastKing g c)).
Proof.
  intros Hon Hking.
  assert (Hk : fst (lastKing g c) <> -1).
  { intros Hk. pose proof (lastKing_none g c Hk x y Hon). congruence. }
  destruct (lastKing_some g c Hk) as (H1 & H2 & _).
  split; [exact H1 |]. split; [exact H2 |].
  unfold lastKing in *.
  destruct (fold_last (kingAt g c) squares (-1, -1))
    as [[Hr _] | (l1 & l2 & Hl & Hr & Hn)].
  - rewrite Hr in Hk. simpl in Hk. lia.
  - set (r := fold_left _ squares (-1, -1)) in *.
    assert (Hxy : In (x, y) squares) by (apply In_squares, Hon).
    rewrite Hl in Hxy. apply in_app_or in Hxy as [Hxy | [Hxy | Hxy]].
    + right. pose proof squares_in_scan_order as Hs. rewrite Hl in Hs.
      apply (sorted_before _ _ _ _ Hs (x, y) Hxy).
    + left. symmetry. exact Hxy.
    + apply Hn in Hxy. unfold kingAt in Hxy. simpl in Hxy. congruence.
Qed.

(** X14.  [isInCheck c] without a king of colour [c] on the board answers
    false, whatever else is on the board.  With such a king it is
    [isSquareAttacked] by the other colour on the king's square; when
    several squares hold a king of colour [c] only the last one of the scan
    (rank by rank from rank 0, file by file) is examined. *)
Theorem X14_isInCheck (n : nat) (g : Game) (c : Color) :
  ((forall x y, onBoard x y -> isKingOf c (board g !! (y, x)) = false) ->
   isInCheck (S n) g c = Ok false) /\
  (forall x y, onBoard x y -> isKingOf c (board g !! (y, x)) = true ->
     (forall x' y', onBoard x' y' ->
        isKingOf c (board g !! (y', x')) = true ->
        (x', y') = (x, y) \/ scansBefore (x', y') (x, y)) ->
     isInCheck (S n) g c = isSquareAttacked n g x y (opp c)).
Proof.
  change (isInCheck (S n) g c) with (isInCheckW (isInCheck n g) g c).
  rewrite isInCheckW_eq. split.
  - intros Hno.
    destruct (Z.eqb_spec (fst (lastKing g c)) (-1)) as [_ | Hk];
      [reflexivity |].
    destruct (lastKing_some g c Hk) as (Hon & Hking & _).
    rewrite (Hno _ _ Hon) in Hking. discriminate.
  - intros x y Hon Hking Hlast.
    destruct (lastKing_last g c x y Hon Hking) as (Hon' & Hking' & Hcmp).
    assert (Heq : lastKing g c = (x, y)).
    { destruct (lastKing g c) as [kx ky] eqn:E. cbn [fst snd] in *.
      destruct (Hlast kx ky Hon' Hking') as [Hs | Hs]; [exact Hs |].
      destruct Hcmp as [Hc | Hc]; [symmetry; exact Hc |].
      unfold scansBefore in Hs, Hc. cbn [fst snd] in Hs, Hc. lia. }
    rewrite Heq. cbn [fst snd].
    destruct (Z.eqb_spec x (-1)) as [Hx | _]; [| reflexivity].
    destruct Hon as [Hx' _]. lia.
Qed.

Lemma newGame_one_white_king (x y : Z) :
  onBoard x y -> isKingOf White (board newGame !! (y, x)) = true ->
  (x, y) = (4, 7).
Proof.
  intros Hon Hk. apply In_squares in Hon.
  assert (Hall : forallb (fun sq : Z * Z =>
            implb (isKingOf White (board newGame !! (snd sq, fst sq)))
                  ((fst sq =? 4) && (snd sq =? 7))) squares = true)
    by (vm_compute; reflexivity).
  rewrite forallb_forall in Hall. specialize (Hall (x, y) Hon).
  cbn [fst snd] in Hall. rewrite Hk in Hall. cbn [implb] in Hall.
  apply andb_true_iff in Hall as [H1 H2].
  apply Z.eqb_eq in H1, H2. congruence.
Qed.

Lemma X14_isInCheck_witness :
  isInCheck 1 emptyGame White = Ok false /\
  isInCheck 3 newGame White = isSquareAttacked 2 newGame 4 7 Black.
Proof.
  split.
  - apply (X14_isInCheck 0 emptyGame White).
    intros x y _. reflexivity.
  - apply (X14_isInCheck 2 newGame White).
    + unfold onBoard. lia.
    + vm_compute. reflexivity.
    + intros x' y' Hon Hk. left. apply newGame_one_white_king; assumption.
Defined.

(** ** White's clicks *)

(** The pixels of the board: one tile from the window's corner, eight tiles
    wide and high. *)
Lemma click_square (m : Z) :
  (0 <= Z.quot m tileSize - 1 <= 7 <-> tileSize <= m < 9 * tileSize) /\
  (tileSize <= m -> Z.quot m tileSize - 1 = (m - tileSize) / tileSize).
Proof.
  unfold tileSize.
  pose proof (Z.quot_rem' m 16) as Hm.
  assert (Hr : (0 <= m -> 0 <= Z.rem m 16 < 16) /\
               (m <= 0 -> -16 < Z.rem m 16 <= 0)).
  { split; intros H.
    - apply Z.rem_bound_pos; lia.
    - pose proof (Z.rem_bound_pos_neg m 16 eq_refl H). lia. }
  split; [lia |]. intros H.
  rewrite Z.quot_div_nonneg by lia.
  replace (m - 16) with (m + (-1) * 16) by lia.
  rewrite Z.div_add by lia. lia.
Qed.

(** X15.  A click of White outside the 128 by 128 pixels of the board (which
    starts one tile, 16 pixels, from the window's corner) does nothing.  A
    click on a square of the board while nothing is selected selects the
    square if it holds a white piece and does nothing otherwise; in neither
    case is anything but the selection written. *)
Theorem X15_first_click (n : nat) (g : Game) (mx my : Z) :
  (~ (tileSize <= mx < 9 * tileSize /\ tileSize <= my < 9 * tileSize) ->
   whiteClick n g mx my = Ok g) /\
  (tileSize <= mx < 9 * tileSize -> tileSize <= my < 9 * tileSize ->
   selectedX g = -1 ->
   let gx := (mx - tileSize) / tileSize in
   let gy := (my - tileSize) / tileSize in
   onBoard gx gy /\
   whiteClick n g mx my =
   Ok (match board g !! (gy, gx) with
       | Some q => if decide (pColor q = White)
                   then with_selected g gx gy else g
       | None => g
       end)).
Proof.
  destruct (click_square mx) as [Hx Hqx].
  destruct (click_square my) as [Hy Hqy].
  split.
  - intros Hout. apply whiteClick_off_board. unfold onBoard. tauto.
  - intros Hmx Hmy Hsel gx gy.
    assert (Hgx : Z.quot mx tileSize - 1 = gx) by (apply Hqx; lia).
    assert (Hgy : Z.quot my tileSize - 1 = gy) by (apply Hqy; lia).
    assert (Hon : onBoard gx gy).
    { rewrite <- Hgx, <- Hgy. unfold onBoard. tauto. }
    split; [exact Hon |].
    unfold whiteClick. cbv zeta. rewrite Hgx, Hgy.
    rewrite (proj2 (click_guard gx gy)) by exact Hon.
    rewrite Hsel. change (-1 =? -1) with true. cbv iota.
    rewrite (rd_in g gy gx) by apply Hon. rewrite bind_Ok_l.
    destruct (board g !! (gy, gx)) as [q|]; [| reflexivity].
    destruct (decide (pColor q = White)); reflexivity.
Qed.

Lemma X15_first_click_witness :
  whiteClick 0 newGame 150 80 = Ok newGame /\
  onBoard ((80 - tileSize) / tileSize) ((120 - tileSize) / tileSize) /\
  whiteClick 0 newGame 80 120 =
  Ok (match board newGame !! ((120 - tileSize) / tileSize,
                              (80 - tileSize) / tileSize) with
      | Some q => if decide (pColor q = White)
                  then with_selected newGame ((80 - tileSize) / tileSize)
                         ((120 - tileSize) / tileSize)
                  else newGame
      | None => newGame
      end).
Proof.
  destruct (X15_first_click 0 newGame 150 80) as [H1 _].
  destruct (X15_first_click 0 newGame 80 120) as [_ H2].
  split.
  - apply H1. unfold tileSize. lia.
  - apply H2.
    + unfold tileSize. lia.
    + unfold tileSize. lia.
    + reflexivity.
Defined.

(** The click of the witness selects the pawn on e2. *)
Example click_selects_e2 :
  whiteClick 0 newGame 80 120 = Ok (with_selected newGame 4 6).
Proof. vm_compute. reflexivity. Qed.

(** X16.  With a piece [p] selected on White's turn, a click on a square of
    the board for which [isMoveLegal] answers true and after which, with
    the move tried on the board, [isInCheck White] answers false, undoes
    the try, runs [executeMove] from the selected square to the clicked one
    and clears the selection. *)
Theorem X16_accepted_move (n : nat) (g : Game) (mx my : Z) (p : ChessPiece) :
  let gx := Z.quot mx tileSize - 1 in
  let gy := Z.quot my tileSize - 1 in
  onBoard gx gy -> selectedX g <> -1 ->
  onBoard (selectedX g) (selectedY g) ->
  board g !! (selectedY g, selectedX g) = Some p ->
  isMoveLegal n g p (selectedX g) (selectedY g) gx gy = Ok true ->
  isInCheck n (tried g p (selectedX g) (selectedY g) gx gy) White = Ok false ->
  exists g1, executeMove g (selectedX g) (selectedY g) gx gy = Ok g1 /\
    whiteClick n g mx my = Ok (with_selected g1 (-1) (-1)) /\
    board g1 = movedBoard g p (selectedX g) (selectedY g) gx gy.
Proof.
  intros gx gy Hon Hsel Hs Hp Hl Hc.
  destruct (legal_move_executes n g p _ _ _ _ Hs Hp Hl) as (_ & _ & He).
  exists (afterMove g p (selectedX g) (selectedY g) gx gy).
  split; [exact He |]. split; [| reflexivity].
  unfold whiteClick. cbv zeta. fold gx gy.
  rewrite (proj2 (click_guard gx gy) Hon).
  rewrite (proj2 (Z.eqb_neq _ _) Hsel).
  destruct Hs as [Hsx Hsy]. destruct Hon as [Hgx Hgy].
  rewrite (rd_in g (selectedY g) (selectedX g)) by assumption.
  rewrite bind_Ok_l, Hp, Hl, bind_Ok_l.
  rewrite (rd_in g gy gx) by assumption. rewrite bind_Ok_l.
  rewrite (wr_in g gy gx) by assumption. rewrite bind_Ok_l.
  cbn [selectedX selectedY with_board].
  rewrite wr_in by assumption. rewrite bind_Ok_l.
  change (with_board _ _) with (tried g p (selectedX g) (selectedY g) gx gy).
  rewrite Hc, bind_Ok_l. cbn [negb].
  change (selectedX (tried g p (selectedX g) (selectedY g) gx gy))
    with (selectedX g).
  change (selectedY (tried g p (selectedX g) (selectedY g) gx gy))
    with (selectedY g).
  rewrite (wr_back g p (selectedX g) (selectedY g) gx gy)
    by (try split; assumption).
  rewrite He, bind_Ok_l. reflexivity.
Qed.

Lemma X16_accepted_move_witness :
  exists g1,
    executeMove e2Selected (selectedX e2Selected) (selectedY e2Selected)
      (Z.quot 80 tileSize - 1) (Z.quot 80 tileSize - 1) = Ok g1 /\
    whiteClick 2 e2Selected 80 80 = Ok (with_selected g1 (-1) (-1)) /\
    board g1 = movedBoard e2Selected (mkPiece Pawn White 6 false)
                 (selectedX e2Selected) (selectedY e2Selected)
                 (Z.quot 80 tileSize - 1) (Z.quot 80 tileSize - 1).
Proof.
  apply (X16_accepted_move 2 e2Selected 80 80 (mkPiece Pawn White 6 false)).
  - vm_compute. split; split; discriminate.
  - vm_compute. discriminate.
  - vm_compute. split; split; discriminate.
  - vm_compute. reflexivity.
  - vm_compute. reflexivity.
  - vm_compute. reflexivity.
Defined.

(** The click of the witness plays 1. e4. *)
Example click_plays_e4 :
  whiteClick 2 e2Selected 80 80
  = Ok (with_selected afterE4 (-1) (-1)).
Proof. vm_compute. reflexivity. Qed.

(** ** Runs *)

Lemma reachable_newGame : reachable newGame.
Proof.
  apply (reach_tick startMenu newGame 2 key1Only reach_start).
  vm_compute. reflexivity.
Qed.

(** X17.  In a run of the program (from the start menu, tick after tick,
    whatever the inputs) every tick returns: no index out of range, no nil
    dereference and no endless recursion between [isMoveLegal] and
    [isInCheck]; a budget of two nested [isInCheck] calls is enough. *)
Theorem X17_ticks_return (g : Game) (i : Input) :
  reachable g ->
  exists g', (forall n, (2 <= n)%nat -> Update n g i = Ok g') /\
             reachable g'.
Proof.
  intros Hr.
  destruct (Update_safe g i (reachable_wellFormed g Hr)) as (g' & Hg' & _).
  exists g'. split; [exact Hg' |].
  apply (reach_tick g g' 2 i Hr). apply Hg'. lia.
Qed.

Lemma X17_ticks_return_witness :
  exists g', (forall n, (2 <= n)%nat -> Update n newGame clickAtOrigin = Ok g') /\
             reachable g'.
Proof.
  apply (X17_ticks_return newGame clickAtOrigin).
  apply reachable_newGame.
Defined.

(** X18.  In a run every piece on the board carries the sprite number of
    its type and colour, the type's number plus six for White, also after a
    promotion; the numbers lie between 0 and 11. *)
Theorem X18_sprites (g : Game) (x y : Z) (p : ChessPiece) :
  reachable g -> board g !! (y, x) = Some p ->
  SpriteID p = typeCode (pType p) + (if decide (pColor p = White) then 6 else 0)
  /\ 0 <= SpriteID p <= 11.
Proof.
  intros Hr Hp.
  destruct (reachable_wellFormed g Hr) as (_ & Hs & _).
  specialize (Hs (y, x) p Hp). unfold spriteOf in Hs.
  split; [exact Hs |]. rewrite Hs.
  destruct (pType p), (decide (pColor p = White)); simpl; lia.
Qed.

Lemma X18_sprites_witness :
  SpriteID (mkPiece Queen White 10 false)
  = typeCode (pType (mkPiece Queen White 10 false))
    + (if decide (pColor (mkPiece Queen White 10 false) = White)
       then 6 else 0)
  /\ 0 <= SpriteID (mkPiece Queen White 10 false) <= 11.
Proof.
  apply (X18_sprites newGame 3 7 (mkPiece Queen White 10 false)).
  - apply reachable_newGame.
  - vm_compute. reflexivity.
Defined.

(** X19.  In a run, once a match has been started, a selected square is a
    square of the board that holds a white piece, on White's turn with no
    promotion pending; and while a promotion is pending the promotion
    square is a square of the board that holds a white piece. *)
Theorem X19_selection (g : Game) :
  reachable g -> gameStarted g = true ->
  (selectedX g = -1 \/
   (activeColor g = White /\ promoting g = false /\
    onBoard (selectedX g) (selectedY g) /\
    exists p, board g !! (selectedY g, selectedX g) = Some p /\
              pColor p = White)) /\
  (promoting g = true ->
   onBoard (promX g) (promY g) /\
   exists p, board g !! (promY g, promX g) = Some p /\ pColor p = White).
Proof.
  intros Hr Hst.
  destruct (reachable_wellFormed g Hr) as (_ & _ & H).
  exact (H Hst).
Qed.

Lemma X19_selection_witness :
  selectedX e2Clicked = -1 \/
  (activeColor e2Clicked = White /\ promoting e2Clicked = false /\
   onBoard (selectedX e2Clicked) (selectedY e2Clicked) /\
   exists p, board e2Clicked !! (selectedY e2Clicked, selectedX e2Clicked)
             = Some p /\ pColor p = White).
Proof.
  assert (Hr : reachable e2Clicked).
  { apply (reach_tick newGame e2Clicked 2 clickE2 reachable_newGame).
    vm_compute. reflexivity. }
  apply (proj1 (X19_selection e2Clicked Hr eq_refl)).
Defined.

(** After the click on e2 that square is the selected one. *)
Example e2_is_selected :
  selectedX e2Clicked = 4 /\ selectedY e2Clicked = 6 /\
  whiteTime e2Clicked = whiteTime newGame - 1.
Proof. repeat split; vm_compute; reflexivity. Qed.

(** X20.  In a run, a tick of a match in progress with no promotion pending
    either leaves the board and the move count as they are, or executes
    one move of a piece of the side to move from a square of the board to
    another, a move that [isMoveLegal] accepts and after which, tried on
    the board, [isInCheck] answers false for that side; the move count
    then grows by one. *)
Theorem X20_only_legal_moves (g : Game) (i : Input) :
  reachable g -> gameStarted g = true -> gameOver g = false ->
  promoting g = false ->
  exists g', (forall n, (2 <= n)%nat -> Update n g i = Ok g') /\
    ((board g' = board g /\ moveCount g' = moveCount g) \/
     exists p fx fy tx ty,
       legalAndSafe g (activeColor g) fx fy tx ty p /\
       board g' = movedBoard g p fx fy tx ty /\
       moveCount g' = moveCount g + 1).
Proof.
  intros Hr Hst Hov Hpr.
  exact (Update_play g i (reachable_wellFormed g Hr) Hst Hov Hpr).
Qed.

Lemma X20_only_legal_moves_witness :
  exists g', (forall n, (2 <= n)%nat -> Update n newGame clickAtOrigin = Ok g') /\
    ((board g' = board newGame /\ moveCount g' = moveCount newGame) \/
     exists p fx fy tx ty,
       legalAndSafe newGame (activeColor newGame) fx fy tx ty p /\
       board g' = movedBoard newGame p fx fy tx ty /\
       moveCount g' = moveCount newGame + 1).
Proof.
  apply (X20_only_legal_moves newGame clickAtOrigin).
  - apply reachable_newGame.
  - reflexivity.
  - reflexivity.
  - reflexivity.
Defined.

(** ** Frames *)

Example stalemate_found :
  gameOver afterStalemate = true /\ winner afterStalemate = -1 /\
  wallet afterStalemate = wallet stalemateGame /\
  isInCheck 2 stalemateGame White = Ok false.
Proof. repeat split; vm_compute; reflexivity. Qed.

Lemma sprite_in (id : Z) : 0 <= id < spriteCount -> sprite id = Ok id.
Proof.
  intros H. unfold sprite.
  rewrite (proj2 (Z.leb_le 0 id)), (proj2 (Z.ltb_lt id spriteCount)) by lia.
  reflexivity.
Qed.

Lemma sprite_out (id : Z) : ~ 0 <= id < spriteCount -> sprite id = Panic.
Proof.
  intros H. unfold sprite.
  destruct (Z.leb_spec 0 id); destruct (Z.ltb_spec id spriteCount);
    try reflexivity.
  exfalso. apply H. lia.
Qed.

Lemma idx10_spec (i : Z) : In i idx10 <-> 0 <= i <= 9.
Proof.
  unfold idx10. simpl. split.
  - intros H. repeat (destruct H as [<- | H]; [lia |]). destruct H.
  - intros H.
    assert (i = 0 \/ i = 1 \/ i = 2 \/ i = 3 \/ i = 4 \/ i = 5 \/ i = 6 \/
            i = 7 \/ i = 8 \/ i = 9) as Hc by lia.
    intuition.
Qed.

Lemma border_test (x y : Z) :
  (x =? 0) || (x =? 9) || (y =? 0) || (y =? 9) = false <->
  x <> 0 /\ x <> 9 /\ y <> 0 /\ y <> 9.
Proof. rewrite !orb_false_iff, !Z.eqb_neq. tauto. Qed.

Lemma drawCell_returns (g : Game) (x y : Z) :
  spritesInSheet g -> In x idx10 -> In y idx10 ->
  drawCell g x y = Ok (cellOps g x y).
Proof.
  intros Hs Hx Hy. apply idx10_spec in Hx, Hy.
  assert (H : exists l, drawCell g x y = Ok l).
  { unfold drawCell. cbv zeta.
    destruct ((x =? 0) || (x =? 9) || (y =? 0) || (y =? 9)) eqn:E.
    - eexists. reflexivity.
    - apply border_test in E.
      rewrite sprite_in by (destruct (negb _); unfold spriteCount; lia).
      rewrite bind_Ok_l, rd_in, bind_Ok_l by lia.
      destruct (board g !! (y - 1, x - 1)) as [p|] eqn:Hp;
        [| eexists; reflexivity].
      rewrite sprite_in by (apply (Hs (x - 1) (y - 1)); [split; lia | exact Hp]).
      eexists. reflexivity. }
  destruct H as (l & Hl). unfold cellOps. rewrite Hl. reflexivity.
Qed.

Lemma drawCell_piece (g : Game) (x y : Z) (p : ChessPiece) :
  spritesInSheet g -> onBoard x y -> board g !! (y, x) = Some p ->
  In (DrawImage (SpriteID p) ((x + 1) * tileSize) ((y + 1) * tileSize) false)
     (cellOps g (x + 1) (y + 1)).
Proof.
  intros Hs Hon Hp. pose proof Hon as [Hx Hy].
  unfold cellOps, drawCell. cbv zeta.
  rewrite (proj2 (border_test (x + 1) (y + 1))) by lia.
  rewrite sprite_in by (destruct (negb _); unfold spriteCount; lia).
  rewrite bind_Ok_l.
  replace (x + 1 - 1) with x by lia. replace (y + 1 - 1) with y by lia.
  rewrite rd_in, bind_Ok_l, Hp by assumption.
  rewrite sprite_in by (apply (Hs x y); assumption).
  right. left. reflexivity.
Qed.

Lemma grid_returns (g : Game) :
  spritesInSheet g ->
  collectM (fun y => collectM (fun x => drawCell g x y) idx10) idx10
  = Ok (flat_map (fun y => flat_map (fun x => cellOps g x y) idx10) idx10).
Proof.
  intros Hs. apply collectM_Ok. intros y Hy.
  apply collectM_Ok. intros x Hx. apply drawCell_returns; assumption.
Qed.

Lemma reachable_spritesInSheet (g : Game) :
  reachable g -> spritesInSheet g.
Proof.
  intros Hr x y p _ Hp.
  destruct (reachable_wellFormed g Hr) as (_ & Hs & _).
  specialize (Hs (y, x) p Hp). unfold spriteOf in Hs. rewrite Hs.
  unfold spriteCount.
  destruct (pType p), (decide (pColor p = White)); simpl; lia.
Qed.

(** X21.  The frames of a run.  In every state of a run [Draw] returns:
    no sprite index is out of range.  Once a match has been started the
    frame draws every piece of the board, with the sprite the piece
    carries, at the pixels of its square (the board starts one tile from
    the corner). *)
Theorem X21_frames (name : string) (g : Game) :
  reachable g ->
  exists ops, Draw name g = Ok ops /\
    (gameStarted g = true -> forall x y p,
       onBoard x y -> board g !! (y, x) = Some p ->
       In (DrawImage (SpriteID p) ((x + 1) * tileSize) ((y + 1) * tileSize)
             false) ops).
Proof.
  intros Hr. pose proof (reachable_spritesInSheet g Hr) as Hs.
  unfold Draw. destruct (gameStarted g); cbn [negb].
  2: { eexists. split; [reflexivity | discriminate]. }
  rewrite (grid_returns g Hs), bind_Ok_l. cbv zeta.
  eexists. split; [reflexivity |]. intros _ x y p Hon Hp.
  apply in_or_app. left.
  apply in_flat_map. exists (y + 1). split.
  { apply idx10_spec. destruct Hon. lia. }
  apply in_flat_map. exists (x + 1). split.
  { apply idx10_spec. destruct Hon. lia. }
  apply drawCell_piece; assumption.
Qed.

Lemma X21_frames_witness :
  exists ops, Draw "4-Move-Frank" newGame = Ok ops /\
    (gameStarted newGame = true -> forall x y p,
       onBoard x y -> board newGame !! (y, x) = Some p ->
       In (DrawImage (SpriteID p) ((x + 1) * tileSize) ((y + 1) * tileSize)
             false) ops).
Proof.
  apply (X21_frames "4-Move-Frank" newGame).
  apply reachable_newGame.
Defined.

(** On a board with a sprite number outside the sheet the frame panics. *)
Example Draw_panics :
  Draw "4-Move-Frank" (place 0 0 (mkPiece Pawn Black 24 false) emptyGame)
  = Panic.
Proof. vm_compute. reflexivity. Qed.

(** The first frame of a match: 100 tiles and 32 pieces, then the panel
    with the clocks, the stake and Frank's line. *)
Example first_frame_texts :
  exists ops,
    Draw "4-Move-Frank" newGame = Ok ops /\
    length ops = 136%nat /\
    skipn 132 ops
    = [FillRect 0 160 160 40 (mkRGBA 10 10 15 255);
       DrawText "W:01:00 B:01:00" 5 172 colorWhite;
       DrawText "STAKES:$5 WALLET:$100" 5 184 (mkRGBA 255 215 0 255);
       DrawText "4-Move-Frank: Eyes on the board, kid." 5 196 colorWhite].
Proof.
  eexists. split; [vm_compute; reflexivity |].
  split; vm_compute; reflexivity.
Qed.

Lemma Draw_over (name : string) (g : Game) :
  spritesInSheet g -> gameStarted g = true -> gameOver g = true ->
  exists pre, Draw name g = Ok (pre ++ banner g).
Proof.
  intros Hs Hst Hov. unfold Draw. rewrite Hst, Hov. cbn [negb].
  rewrite (grid_returns g Hs), bind_Ok_l. cbv zeta.
  eexists. rewrite !app_assoc. reflexivity.
Qed.

(** X22.  Stalemate on the screen.  When the tick of a match in progress
    finds that the side to move has no legal move and is not in check, it
    only marks the game as over: winner (still -1 in a run) and wallet stay
    as they are.  Every frame drawn from then on nevertheless ends with the
    banner of a finished game, which reads CHECKMATE! and, since the winner
    is not 1, FRANK WINS. *)
Theorem X22_stalemate_banner (n : nat) (g : Game) (i : Input)
    (name : string) :
  spritesInSheet g ->
  gameStarted g = true -> gameOver g = false -> promoting g = false ->
  winner g = -1 ->
  hasLegalMoves n g (activeColor g) = Ok (false, g) ->
  isInCheck n g (activeColor g) = Ok false ->
  Update n g i = Ok (with_gameOver g true) /\
  exists pre,
    Draw name (with_gameOver g true)
    = Ok (pre ++ [FillRect 0 50 160 60 (mkRGBA 0 0 0 240);
                  DrawText "CHECKMATE!" 45 75 (mkRGBA 255 50 50 255);
                  DrawText "FRANK WINS" 45 95 colorWhite]).
Proof.
  intros Hs Hst Hov Hpr Hw Hhas Hchk. split.
  - unfold Update. rewrite Hst, Hov, Hpr. cbn [negb].
    rewrite Hhas, bind_Ok_l. cbn [negb]. unfold endOfGame. cbv zeta.
    rewrite (isInCheck_frame n (with_gameOver g true) g) by (repeat split).
    change (activeColor (with_gameOver g true)) with (activeColor g).
    rewrite Hchk, bind_Ok_l. reflexivity.
  - destruct (Draw_over name (with_gameOver g true)) as (pre & Hpre);
      [exact Hs | exact Hst | reflexivity |].
    exists pre. rewrite Hpre. unfold banner.
    change (winner (with_gameOver g true)) with (winner g). rewrite Hw.
    reflexivity.
Qed.

Lemma spritesInSheet_stalemateGame : spritesInSheet stalemateGame.
Proof.
  intros x y p Hon Hp. apply In_squares in Hon.
  assert (Hall : forallb (fun sq : Z * Z =>
            match board stalemateGame !! (snd sq, fst sq) with
            | Some q => (0 <=? SpriteID q) && (SpriteID q <? spriteCount)
            | None => true
            end) squares = true)
    by (vm_compute; reflexivity).
  rewrite forallb_forall in Hall. specialize (Hall (x, y) Hon).
  cbn [fst snd] in Hall. rewrite Hp in Hall.
  apply andb_true_iff in Hall as [H1 H2].
  apply Z.leb_le in H1. apply Z.ltb_lt in H2. lia.
Qed.

Lemma X22_stalemate_banner_witness :
  Update 2 stalemateGame idle = Ok (with_gameOver stalemateGame true) /\
  exists pre,
    Draw "4-Move-Frank" (with_gameOver stalemateGame true)
    = Ok (pre ++ [FillRect 0 50 160 60 (mkRGBA 0 0 0 240);
                  DrawText "CHECKMATE!" 45 75 (mkRGBA 255 50 50 255);
                  DrawText "FRANK WINS" 45 95 colorWhite]).
Proof.
  apply (X22_stalemate_banner 2 stalemateGame idle "4-Move-Frank").
  - apply spritesInSheet_stalemateGame.
  - reflexivity.
  - reflexivity.
  - reflexivity.
  - reflexivity.
  - vm_compute. reflexivity.
  - vm_compute. reflexivity.
Defined.

(** ** The earlier program *)

Lemma legacy_NewGame_returns (pc : Color) :
  Legacy.NewGame pc = Ok (Legacy.mkGame (legacyBoard pc) pc).
Proof. destruct pc; vm_compute; reflexivity. Qed.

Lemma legacyBoard_cells (pc : Color) (k : Z * Z) (p : Legacy.ChessPiece) :
  legacyBoard pc !! k = Some p ->
  0 <= snd k <= 7 /\ (fst k = 0 \/ fst k = 1 \/ fst k = 6 \/ fst k = 7) /\
  0 <= Legacy.SpriteID p < spriteCount.
Proof.
  intros H. apply elem_of_map_to_list in H. unfold spriteCount.
  destruct pc;
    set (l := map_to_list (legacyBoard _)) in H; vm_compute in l; subst l;
    repeat (apply elem_of_cons in H as [H | H];
            [injection H as -> ->; simpl; lia |]);
    apply elem_of_nil in H; destruct H.
Qed.

(** X23.  The earlier [NewGame] returns for both player colours.  The
    player's pieces stand at the bottom (ranks 6 and 7 of the array), the
    other colour's at the top; on both back ranks file [x] holds the piece
    of the one layout (rook, knight, bishop, queen, king, bishop, knight,
    rook), whatever the player colour; every piece has the value of its
    type (0 for a king) and the sprite of its type and colour; the other
    cells are empty. *)
Theorem X23_legacy_setup (pc : Color) :
  exists g, Legacy.NewGame pc = Ok g /\ Legacy.playerColor g = pc /\
    (forall x, 0 <= x <= 7 ->
       exists t, layout !! Z.to_nat x = Some t /\
         Legacy.board g !! (0, x) = Some (legacyPiece t (opp pc)) /\
         Legacy.board g !! (1, x) = Some (legacyPiece Pawn (opp pc)) /\
         Legacy.board g !! (6, x) = Some (legacyPiece Pawn pc) /\
         Legacy.board g !! (7, x) = Some (legacyPiece t pc)) /\
    (forall x y, ~ (0 <= x <= 7 /\ (y = 0 \/ y = 1 \/ y = 6 \/ y = 7)) ->
       Legacy.board g !! (y, x) = None).
Proof.
  exists (Legacy.mkGame (legacyBoard pc) pc).
  split; [apply legacy_NewGame_returns |]. split; [reflexivity |].
  cbn [Legacy.board]. split.
  - intros x Hx.
    assert (Hc : x = 0 \/ x = 1 \/ x = 2 \/ x = 3 \/ x = 4 \/ x = 5 \/ x = 6
                 \/ x = 7) by lia.
    destruct pc;
      destruct Hc as [-> | [-> | [-> | [-> | [-> | [-> | [-> | ->]]]]]]];
      (eexists; split; [reflexivity |]);
      (split; [vm_compute; reflexivity |]);
      (split; [vm_compute; reflexivity |]);
      (split; vm_compute; reflexivity).
  - intros x y Hno.
    destruct (legacyBoard pc !! (y, x)) as [p|] eqn:E; [| reflexivity].
    exfalso. apply Hno. apply legacyBoard_cells in E. simpl in E. tauto.
Qed.

Lemma legacy_drawCell_returns (g : Legacy.Game) (x y : Z) :
  legacySpritesInSheet g -> In x idx10 -> In y idx10 ->
  Legacy.drawCell g x y = Ok (legacyCellOps g x y).
Proof.
  intros Hs Hx Hy. apply idx10_spec in Hx, Hy.
  assert (H : exists l, Legacy.drawCell g x y = Ok l).
  { unfold Legacy.drawCell. cbv zeta. unfold gridSize.
    change (10 - 1) with 9.
    destruct ((x =? 0) || (x =? 9) || (y =? 0) || (y =? 9)) eqn:E.
    - eexists. reflexivity.
    - apply border_test in E.
      rewrite sprite_in by (destruct (negb _); unfold spriteCount; lia).
      rewrite bind_Ok_l.
      rewrite (proj2 (inBoard_spec (y - 1))), (proj2 (inBoard_spec (x - 1)))
        by lia.
      cbn [andb]. rewrite bind_Ok_l.
      destruct (Legacy.board g !! (y - 1, x - 1)) as [p|] eqn:Hp;
        [| eexists; reflexivity].
      rewrite sprite_in by (apply (Hs (x - 1) (y - 1)); [split; lia | exact Hp]).
      eexists. reflexivity. }
  destruct H as (l & Hl). unfold legacyCellOps. rewrite Hl. reflexivity.
Qed.

Lemma legacy_drawCell_piece (g : Legacy.Game) (x y : Z)
    (p : Legacy.ChessPiece) :
  legacySpritesInSheet g -> onBoard x y ->
  Legacy.board g !! (y, x) = Some p ->
  In (DrawImage (Legacy.SpriteID p) ((x + 1) * tileSize) ((y + 1) * tileSize)
        false)
     (legacyCellOps g (x + 1) (y + 1)).
Proof.
  intros Hs Hon Hp. pose proof Hon as [Hx Hy].
  unfold legacyCellOps, Legacy.drawCell. cbv zeta. unfold gridSize.
  change (10 - 1) with 9.
  rewrite (proj2 (border_test (x + 1) (y + 1))) by lia.
  rewrite sprite_in by (destruct (negb _); unfold spriteCount; lia).
  rewrite bind_Ok_l.
  replace (x + 1 - 1) with x by lia. replace (y + 1 - 1) with y by lia.
  rewrite (proj2 (inBoard_spec y)), (proj2 (inBoard_spec x)) by assumption.
  cbn [andb]. rewrite bind_Ok_l, Hp.
  rewrite sprite_in by (apply (Hs x y); assumption).
  right. left. reflexivity.
Qed.

Lemma legacy_Draw_returns (g : Legacy.Game) :
  legacySpritesInSheet g ->
  Legacy.Draw g
  = Ok (flat_map (fun y => flat_map (fun x => legacyCellOps g x y) idx10) idx10
        ++ flat_map (Legacy.labels g) idx8).
Proof.
  intros Hs. unfold Legacy.Draw.
  rewrite (collectM_Ok _ (fun y => flat_map (fun x => legacyCellOps g x y) idx10)).
  - reflexivity.
  - intros y Hy. apply collectM_Ok. intros x Hx.
    apply legacy_drawCell_returns; assumption.
Qed.

(** X24.  The frame of the earlier program, for a game as [NewGame] sets
    it up.  [Draw] returns; every piece is drawn with its sprite at the
    pixels of its cell; over column [i] stands the letter number [i] of
    a..h for player colour White and of h..a for Black, and beside row [i]
    the number [8 - i] for White and [1 + i] for Black.  The labels are
    turned round for Black while the back ranks keep the one layout, so
    for Black the queens stand in the column labelled e. *)
Theorem X24_legacy_frame (pc : Color) (i : Z) :
  0 <= i <= 7 ->
  exists g ops, Legacy.NewGame pc = Ok g /\ Legacy.Draw g = Ok ops /\
    (forall x y p, onBoard x y -> Legacy.board g !! (y, x) = Some p ->
       In (DrawImage (Legacy.SpriteID p) ((x + 1) * tileSize)
             ((y + 1) * tileSize) false) ops) /\
    In (DrawText
          (String.substring (Z.to_nat (if decide (pc = White) then i else 7 - i))
             1 "abcdefgh")
          ((i + 1) * tileSize + 5) 12 colorWhite) ops /\
    In (DrawText (showZ (if decide (pc = White) then 8 - i else 1 + i))
          5 ((i + 1) * tileSize + 12) colorWhite) ops.
Proof.
  intros Hi. set (g := Legacy.mkGame (legacyBoard pc) pc).
  assert (Hs : legacySpritesInSheet g).
  { intros x y p _ Hp. apply legacyBoard_cells in Hp. tauto. }
  exists g. eexists. split; [apply legacy_NewGame_returns |].
  split; [apply legacy_Draw_returns, Hs |].
  assert (Hin : In i idx8) by (apply idx8_spec, Hi).
  split; [| split].
  - intros x y p Hon Hp. apply in_or_app. left.
    apply in_flat_map. exists (y + 1). split.
    { apply idx10_spec. destruct Hon. lia. }
    apply in_flat_map. exists (x + 1). split.
    { apply idx10_spec. destruct Hon. lia. }
    apply legacy_drawCell_piece; assumption.
  - apply in_or_app. right. apply in_flat_map. exists i.
    split; [exact Hin |]. left. f_equal.
    unfold Legacy.colLabel. cbn [Legacy.playerColor g].
    assert (Hc : i = 0 \/ i = 1 \/ i = 2 \/ i = 3 \/ i = 4 \/ i = 5 \/ i = 6
                 \/ i = 7) by lia.
    destruct pc;
      destruct Hc as [-> | [-> | [-> | [-> | [-> | [-> | [-> | ->]]]]]]];
      reflexivity.
  - apply in_or_app. right. apply in_flat_map. exists i.
    split; [exact Hin |]. right. right. left. f_equal.
    unfold Legacy.rowLabel. cbn [Legacy.playerColor g].
    destruct pc; reflexivity.
Qed.

Lemma X24_legacy_frame_witness :
  exists g ops, Legacy.NewGame Black = Ok g /\ Legacy.Draw g = Ok ops /\
    (forall x y p, onBoard x y -> Legacy.board g !! (y, x) = Some p ->
       In (DrawImage (Legacy.SpriteID p) ((x + 1) * tileSize)
             ((y + 1) * tileSize) false) ops) /\
    In (DrawText
          (String.substring (Z.to_nat (if decide (Black = White) then 3 else 7 - 3))
             1 "abcdefgh")
          ((3 + 1) * tileSize + 5) 12 colorWhite) ops /\
    In (DrawText (showZ (if decide (Black = White) then 8 - 3 else 1 + 3))
          5 ((3 + 1) * tileSize + 12) colorWhite) ops.
Proof.
  apply (X24_legacy_frame Black 3). lia.
Defined.

(** For Black the column of the queens is labelled e. *)
Example legacy_queens_file :
  Legacy.pType <$> legacyBoard Black !! (0, 3) = Some Queen /\
  Legacy.pType <$> legacyBoard Black !! (7, 3) = Some Queen /\
  Legacy.colLabel (Legacy.mkGame (legacyBoard Black) Black) 3 = "e"%string /\
  Legacy.colLabel (Legacy.mkGame (legacyBoard White) White) 3 = "d"%string.
Proof. repeat split; vm_compute; reflexivity. Qed.

(** ** The move log *)

Lemma toAlg_on_board (x y : Z) :
  onBoard x y -> toAlg x y = squareName x y.
Proof.
  intros [Hx Hy].
  assert (Hcx : x = 0 \/ x = 1 \/ x = 2 \/ x = 3 \/ x = 4 \/ x = 5 \/ x = 6
                \/ x = 7) by lia.
  assert (Hcy : y = 0 \/ y = 1 \/ y = 2 \/ y = 3 \/ y = 4 \/ y = 5 \/ y = 6
                \/ y = 7) by lia.
  destruct Hcx as [-> | [-> | [-> | [-> | [-> | [-> | [-> | ->]]]]]]];
    destruct Hcy as [-> | [-> | [-> | [-> | [-> | [-> | [-> | ->]]]]]]];
    vm_compute; reflexivity.
Qed.

Lemma squareName_inj (x y x' y' : Z) :
  onBoard x y -> onBoard x' y' -> squareName x' y' = squareName x y ->
  x' = x /\ y' = y.
Proof.
  intros [Hx Hy] [Hx' Hy'] H.
  assert (Hcx : x = 0 \/ x = 1 \/ x = 2 \/ x = 3 \/ x = 4 \/ x = 5 \/ x = 6
                \/ x = 7) by lia.
  assert (Hcx' : x' = 0 \/ x' = 1 \/ x' = 2 \/ x' = 3 \/ x' = 4 \/ x' = 5
                 \/ x' = 6 \/ x' = 7) by lia.
  assert (Hfile : x' = x /\
            String.substring (Z.to_nat y') 1 "87654321"
            = String.substring (Z.to_nat y) 1 "87654321").
  { unfold squareName in H.
    destruct Hcx as [-> | [-> | [-> | [-> | [-> | [-> | [-> | ->]]]]]]];
      destruct Hcx' as [-> | [-> | [-> | [-> | [-> | [-> | [-> | ->]]]]]]];
      cbn in H; try discriminate H; injection H as H; auto. }
  destruct Hfile as [-> Hrank]. split; [reflexivity |].
  assert (Hcy : y = 0 \/ y = 1 \/ y = 2 \/ y = 3 \/ y = 4 \/ y = 5 \/ y = 6
                \/ y = 7) by lia.
  assert (Hcy' : y' = 0 \/ y' = 1 \/ y' = 2 \/ y' = 3 \/ y' = 4 \/ y' = 5
                 \/ y' = 6 \/ y' = 7) by lia.
  destruct Hcy as [-> | [-> | [-> | [-> | [-> | [-> | [-> | ->]]]]]]];
    destruct Hcy' as [-> | [-> | [-> | [-> | [-> | [-> | [-> | ->]]]]]]];
    cbn in Hrank; try discriminate Hrank; reflexivity.
Qed.

(** X25.  The line that [executeMove] prints for a move between two squares
    of the board, the first of which holds the piece [p]: the colour number
    of [p] in brackets (0 for Black, 1 for White), the name of its type
    (the table of [pName] follows the order of the type constants), and
    the two squares in algebraic notation, files a..h from column 0 and
    ranks 8..1 from row 0.  Different squares of the board have different
    names. *)
Theorem X25_move_log (g : Game) (p : ChessPiece) (fx fy tx ty : Z) :
  onBoard fx fy -> onBoard tx ty -> board g !! (fy, fx) = Some p ->
  moveLine g fx fy tx ty
  = Ok (String.append "["
       (String.append (if decide (pColor p = White) then "1" else "0")
       (String.append "] "
       (String.append (typeName (pType p))
       (String.append ": "
       (String.append (squareName fx fy)
       (String.append " -> "
       (String.append (squareName tx ty)
          (String (ascii_of_nat 10) EmptyString)))))))))
  /\ ((tx, ty) <> (fx, fy) -> toAlg tx ty <> toAlg fx fy).
Proof.
  intros Hf Ht Hp. split.
  - unfold moveLine. rewrite rd_in by apply Hf. rewrite bind_Ok_l, Hp.
    assert (Hn : pName p = Ok (typeName (pType p)))
      by (unfold pName; destruct (pType p); reflexivity).
    rewrite Hn, bind_Ok_l, !toAlg_on_board by assumption.
    destruct (pColor p); reflexivity.
  - intros Hne Heq. rewrite !toAlg_on_board in Heq by assumption.
    apply squareName_inj in Heq as [-> ->]; [| assumption | assumption].
    apply Hne. reflexivity.
Qed.

Lemma X25_move_log_witness :
  moveLine newGame 4 6 4 4
  = Ok (String.append "["
       (String.append (if decide (pColor (mkPiece Pawn White 6 false) = White)
                       then "1" else "0")
       (String.append "] "
       (String.append (typeName (pType (mkPiece Pawn White 6 false)))
       (String.append ": "
       (String.append (squareName 4 6)
       (String.append " -> "
       (String.append (squareName 4 4)
          (String (ascii_of_nat 10) EmptyString)))))))))
  /\ toAlg 4 4 <> toAlg 4 6.
Proof.
  assert (Hf : onBoard 4 6) by (unfold onBoard; lia).
  assert (Ht : onBoard 4 4) by (unfold onBoard; lia).
  assert (Hp : board newGame !! (6, 4) = Some (mkPiece Pawn White 6 false))
    by (vm_compute; reflexivity).
  split.
  - apply (proj1 (X25_move_log newGame _ 4 6 4 4 Hf Ht Hp)).
  - apply (proj2 (X25_move_log newGame _ 4 6 4 4 Hf Ht Hp)).
    intros [= H].
Defined.

(** The line for 1. e4, without its final newline. *)
Example line_for_e4 :
  (s ← moveLine newGame 4 6 4 4;
   Ok (String.substring 0 (String.length s - 1) s))
  = Ok "[1] Pawn: e2 -> e4"%string.
Proof. vm_compute. reflexivity. Qed.

(** Off the board [toAlg] still returns: a column left of the board or a
    code point that does not exist gives other characters. *)
Example toAlg_off_board :
  toAlg (-1) 8 = "`0"%string /\ String.length (toAlg (-100) 0) = 4%nat.
Proof. split; vm_compute; reflexivity. Qed.

(** ** Frank's script *)

Lemma scriptStep_cases (g : Game) (m : Z * Z * Z * Z) :
  kingsNear 0 g -> In m script ->
  (playable g m /\
   exists g', playEntry g m = Ok g' /\
     forall n, (2 <= n)%nat -> scriptStep n m g = Ok (inr g')) \/
  (~ playable g m /\
   forall n, (2 <= n)%nat -> scriptStep n m g = Ok (inl g)).
Proof.
  intros Hk Hin. apply script_on_board in Hin.
  destruct m as [[[m0 m1] m2] m3]. destruct Hin as [Hf Ht].
  unfold playable, playEntry.
  destruct (board g !! (m1, m0)) as [p|] eqn:Hp.
  2: { right. split; [intros (q & [=] & _) |]. intros n _.
       rewrite scriptStep_shape, Hp by assumption. reflexivity. }
  destruct (negb (bool_decide (pColor p = Black))) eqn:Hc.
  { right. split.
    - intros (q & [= <-] & Hq & _).
      apply negb_true_iff, bool_decide_eq_false in Hc. contradiction.
    - intros n _. rewrite scriptStep_shape, Hp, Hc by assumption.
      reflexivity. }
  apply negb_false_iff, bool_decide_eq_true in Hc.
  assert (Hc' : negb (bool_decide (pColor p = Black)) = false)
    by (apply negb_false_iff, bool_decide_eq_true, Hc).
  assert (Hends : recursionEnds g = true)
    by (apply near_ends, (kingsNear_weaken 0); [lia | exact Hk]).
  destruct (isMoveLegal_returns g p m0 m1 m2 m3 Hends Hf Ht) as (b & Hb).
  destruct b.
  2: { right. split.
       - intros (q & [= <-] & _ & Hl & _).
         rewrite (Hb 2%nat (Nat.le_refl _)) in Hl. discriminate.
       - intros n Hn.
         rewrite scriptStep_shape, Hp, Hc', (Hb n Hn) by assumption.
         reflexivity. }
  assert (Hends' : recursionEnds (tried g p m0 m1 m2 m3) = true).
  { apply near_ends, tried_near; try assumption.
    apply (king_step_rank (isInCheck 2 g) g p m0 m1 m2 m3). apply Hb. lia. }
  destruct (isInCheck_returns _ Black Hends') as (chk & Hchk).
  destruct chk.
  - right. split.
    + intros (q & [= <-] & _ & _ & Hs).
      rewrite (Hchk 2%nat (Nat.le_refl _)) in Hs. discriminate.
    + intros n Hn.
      rewrite scriptStep_shape, Hp, Hc', (Hb n Hn) by assumption.
      rewrite bind_Ok_l, (Hchk n Hn). reflexivity.
  - left. split.
    + exists p. split; [reflexivity |]. split; [exact Hc |].
      split; [apply Hb; lia | apply Hchk; lia].
    + destruct (legal_move_executes 2 g p m0 m1 m2 m3 Hf Hp)
        as (_ & _ & He); [apply Hb; lia |].
      exists (afterMove g p m0 m1 m2 m3). split; [exact He |].
      intros n Hn.
      rewrite scriptStep_shape, Hp, Hc', (Hb n Hn) by assumption.
      rewrite bind_Ok_l, (Hchk n Hn), bind_Ok_l. cbn [negb].
      rewrite He. reflexivity.
Qed.

(** X26.  Frank's script.  Whenever Frank's thinking is over, the tick
    first goes through the four moves e7-e5, Qd8-h4, Bf8-c5 and Qh4xf2 in
    this order and executes the first one that can be played (a black piece
    on the origin, the move accepted by [isMoveLegal], no check to Black
    with the move tried), at any point of the match; only if none can be
    played is the board left to the scoring of candidates.  This holds on
    every board whose unmoved kings stand on their back ranks, as in a
    run. *)
Theorem X26_script (n : nat) (g : Game) :
  kingsNear 0 g -> (2 <= n)%nat ->
  (forall l1 m l2, script = l1 ++ m :: l2 ->
     (forall m', In m' l1 -> ~ playable g m') -> playable g m ->
     exists g', playEntry g m = Ok g' /\ frankScript n g = Ok (inr g')) /\
  ((forall m, In m script -> ~ playable g m) ->
   frankScript n g = Ok (inl g)).
Proof.
  intros Hk Hn. unfold frankScript. split.
  - intros l1 m l2 Hl Hbefore Hm.
    assert (Hin : In m script)
      by (rewrite Hl; apply in_or_app; right; left; reflexivity).
    destruct (scriptStep_cases g m Hk Hin) as [(_ & g' & He & Hs) | [Hno _]];
      [| contradiction].
    exists g'. split; [exact He |]. rewrite Hl.
    apply loop_leaves; [| apply Hs, Hn].
    intros m' Hm'.
    assert (Hin' : In m' script)
      by (rewrite Hl; apply in_or_app; left; exact Hm').
    destruct (scriptStep_cases g m' Hk Hin') as [(Hp & _) | [_ Hs']].
    + exfalso. exact (Hbefore m' Hm' Hp).
    + apply Hs', Hn.
  - intros Hnone. apply loop_falls_through. intros m Hin.
    destruct (scriptStep_cases g m Hk Hin) as [(Hp & _) | [_ Hs]].
    + exfalso. exact (Hnone m Hin Hp).
    + apply Hs, Hn.
Qed.

Lemma kingsNear_afterE4 : kingsNear 0 afterE4.
Proof. apply wellFormed_afterE4. Qed.

Lemma X26_script_witness :
  exists g', playEntry afterE4 (4, 1, 4, 3) = Ok g' /\
             frankScript 2 afterE4 = Ok (inr g').
Proof.
  assert (H2 : (2 <= 2)%nat) by lia.
  apply (proj1 (X26_script 2 afterE4 kingsNear_afterE4 H2)
           [] (4, 1, 4, 3) [(3, 0, 7, 4); (5, 0, 2, 3); (7, 4, 5, 6)]).
  - reflexivity.
  - intros m' [].
  - exists (mkPiece Pawn Black 0 false).
    split; [vm_compute; reflexivity |]. split; [reflexivity |].
    split; vm_compute; reflexivity.
Defined.

(** At the start of a match with Black to move none of the later entries
    comes first: Frank answers with e7-e5. *)
Example script_first_move :
  frankScript 2 afterE4
  = Ok (inr (afterMove afterE4 (mkPiece Pawn Black 0 false) 4 1 4 3)).
Proof. vm_compute. reflexivity. Qed.
